(** * plex-dance: a shallow embedding of the relocate / verify / restore engine

    The development follows [plex-dance.py].  Python strings are sequences
    of Unicode code points, the file system is an explicit store threaded
    through a small state-and-exception monad, and the three module-level
    globals consulted by the signal handler live in the same store. *)

From Stdlib Require Import List NArith ZArith Lia Bool String Ascii.
Import ListNotations.


(** ** Python [str]: a list of code points *)

Module PyStr.

Definition char := N.
Definition str := list char.

Definition lit (s : string) : str :=
  map N_of_ascii (list_ascii_of_string s).

Fixpoint eqb (a b : str) : bool :=
  match a, b with
  | [], [] => true
  | x :: a', y :: b' => N.eqb x y && eqb a' b'
  | _, _ => false
  end.

(** [s.startswith(p)] *)
Fixpoint startswith (s p : str) {struct p} : bool :=
  match p with
  | [] => true
  | y :: p' =>
      match s with
      | [] => false
      | x :: s' => N.eqb x y && startswith s' p'
      end
  end.

(** [s.endswith(p)] *)
Definition endswith (s p : str) : bool := startswith (rev s) (rev p).

(** [s.replace(old, new, 1)]: the leftmost occurrence only. *)
Fixpoint replace1 (s old new : str) : str :=
  if startswith s old then new ++ skipn (List.length old) s
  else match s with
       | [] => []
       | c :: r => c :: replace1 r old new
       end.

(** [c in t] for a one-character [c]. *)
Definition mem (c : char) (t : str) : bool := existsb (N.eqb c) t.

(** [s[:m]] with Python's treatment of a negative bound. *)
Definition slice_to (s : str) (m : Z) : str :=
  if (0 <=? m)%Z then firstn (Z.to_nat m) s
  else firstn (List.length s - Z.to_nat (- m)) s.

(** Decimal rendering of a non-negative [int], as produced by an f-string. *)
Fixpoint digits_rev (fuel : nat) (n : N) : list N :=
  match fuel with
  | O => []
  | S f => if (n <? 10)%N then [n] else (n mod 10)%N :: digits_rev f (n / 10)%N
  end.

(** The number a little-endian digit list stands for. *)
Fixpoint val_rev (l : list N) : N :=
  match l with
  | [] => 0
  | d :: r => d + 10 * val_rev r
  end.

Definition digit_char (d : N) : char := (48 + d)%N.

Definition str_of_int (n : N) : str :=
  map digit_char (rev (digits_rev (S (N.to_nat (N.log2 n))) n)).

Definition slash : char := 47%N.
Definition underscore : char := 95%N.
Definition dot : char := 46%N.

End PyStr.

Import PyStr.

(** ** UTF-8, as [str.encode('utf-8')] and [bytes.decode('utf-8')] do it *)

Module Utf8.

Definition is_surrogate (c : N) : bool := ((55296 <=? c) && (c <=? 57343))%N.

(** [None] stands for [UnicodeEncodeError]. *)
Definition encode_char (c : char) : option (list N) :=
  (if c <? 128 then Some [c]
   else if c <? 2048 then Some [192 + c / 64; 128 + c mod 64]
   else if c <? 65536 then
     if is_surrogate c then None
     else Some [224 + c / 4096; 128 + (c / 64) mod 64; 128 + c mod 64]
   else if c <=? 1114111 then
     Some [240 + c / 262144; 128 + (c / 4096) mod 64;
           128 + (c / 64) mod 64; 128 + c mod 64]
   else None)%N.

Fixpoint encode (s : str) : option (list N) :=
  match s with
  | [] => Some []
  | c :: r =>
      match encode_char c, encode r with
      | Some a, Some b => Some (a ++ b)
      | _, _ => None
      end
  end.

Definition is_cont (b : N) : bool := ((128 <=? b) && (b <? 192))%N.

(** The strict decoder; [None] stands for [UnicodeDecodeError]. *)
Fixpoint decode (b : list N) : option str :=
  match b with
  | [] => Some []
  | b0 :: r =>
      if (b0 <? 128)%N then option_map (cons b0) (decode r)
      else if (b0 <? 194)%N then None
      else if (b0 <? 224)%N then
        match r with
        | b1 :: r1 =>
            if is_cont b1
            then option_map (cons ((b0 - 192) * 64 + (b1 - 128))%N) (decode r1)
            else None
        | _ => None
        end
      else if (b0 <? 240)%N then
        match r with
        | b1 :: b2 :: r2 =>
            let c := ((b0 - 224) * 4096 + (b1 - 128) * 64 + (b2 - 128))%N in
            if is_cont b1 && is_cont b2 && (2048 <=? c)%N && negb (is_surrogate c)
            then option_map (cons c) (decode r2)
            else None
        | _ => None
        end
      else if (b0 <? 245)%N then
        match r with
        | b1 :: b2 :: b3 :: r3 =>
            let c := ((b0 - 240) * 262144 + (b1 - 128) * 4096
                      + (b2 - 128) * 64 + (b3 - 128))%N in
            if is_cont b1 && is_cont b2 && is_cont b3
               && (65536 <=? c)%N && (c <=? 1114111)%N
            then option_map (cons c) (decode r3)
            else None
        | _ => None
        end
      else None
  end.

End Utf8.

(** ** [posixpath] *)

Module PosixPath.

Fixpoint lstrip_slash (s : str) : str :=
  match s with
  | c :: r => if N.eqb c slash then lstrip_slash r else s
  | [] => []
  end.

(** [s.rstrip('/')] *)
Definition rstrip_slash (s : str) : str := rev (lstrip_slash (rev s)).

(** The part of [s] after its last ['/'], scanning from the right. *)
Fixpoint take_tail_rev (r : str) : str :=
  match r with
  | c :: r' => if N.eqb c slash then [] else c :: take_tail_rev r'
  | [] => []
  end.

(** [p[i:]] for [i = p.rfind('/') + 1] *)
Definition basename (p : str) : str := rev (take_tail_rev (rev p)).

(** [p[:i]] for [i = p.rfind('/') + 1] *)
Definition head_of (p : str) : str :=
  firstn (List.length p - List.length (basename p)) p.

Definition all_slashes (s : str) : bool := forallb (N.eqb slash) s.

Definition dirname (p : str) : str :=
  let head := head_of p in
  match head with
  | [] => head
  | _ => if all_slashes head then head else rstrip_slash head
  end.

(** [os.path.join(a, b)] with two arguments. *)
Definition join (a b : str) : str :=
  if startswith b [slash] then b
  else match a with
       | [] => b
       | _ => if endswith a [slash] then a ++ b else a ++ slash :: b
       end.

End PosixPath.

(** ** Names of staging entries *)

Section Naming.

(** [str.isalnum] for one character: the Unicode character database. *)
Variable isalnum : char -> bool.

(** [truncate_utf8_safe]: the loop [for i in range(max_bytes, 0, -1)]. *)
Fixpoint truncate_loop (encoded : list N) (i : nat) : option str :=
  match i with
  | O => None
  | S j =>
      match Utf8.decode (firstn i encoded) with
      | Some truncated => Some truncated
      | None => truncate_loop encoded j
      end
  end.

Definition truncate_utf8_safe (text : str) (max_bytes : Z) : option str :=
  match Utf8.encode text with
  | None => None
  | Some encoded =>
      if (Z.of_nat (List.length encoded) <=? max_bytes)%Z then Some text
      else
        match truncate_loop encoded (Z.to_nat max_bytes) with
        | Some truncated => Some truncated
        | None =>
            Some (slice_to (filter (fun c => (c <? 128)%N) text) max_bytes)
        end
  end.

Definition safe_chars (s : str) : str :=
  map (fun c => if isalnum c || mem c (lit "-_. ") then c else underscore) s.

Definition safe_temp_name (index : N) (artist album : str)
    (max_filename_bytes : Z) : option str :=
  let artist := safe_chars artist in
  let album := safe_chars album in
  let base_name :=
    str_of_int index ++ lit "_" ++ artist ++ lit "_" ++ album in
  match Utf8.encode base_name with
  | None => None
  | Some base_bytes =>
      if (Z.of_nat (List.length base_bytes) <=? max_filename_bytes)%Z
      then Some base_name
      else
        let index_part := str_of_int index ++ lit "_" in
        match Utf8.encode index_part with
        | None => None
        | Some index_bytes =>
            let remaining_bytes :=
              (max_filename_bytes - Z.of_nat (List.length index_bytes) - 1)%Z in
            let artist_bytes := (remaining_bytes / 2)%Z in
            let album_bytes := (remaining_bytes - artist_bytes)%Z in
            match truncate_utf8_safe artist artist_bytes with
            | None => None
            | Some artist_trunc =>
                match truncate_utf8_safe album album_bytes with
                | None => None
                | Some album_trunc =>
                    Some (str_of_int index ++ lit "_" ++ artist_trunc
                          ++ lit "_" ++ album_trunc)
                end
            end
        end
  end.

End Naming.

(** ** Path mapping *)

(** The mapping is a dict; [parse_path_mapping] fills both keys, a caller
    may pass any dict. *)
Record pathmap := {
  local_root : option str;
  plex_root : option str
}.

Definition apply_path_mapping (path : str) (mapping : option pathmap) : str :=
  match mapping with
  | None => path
  | Some m =>
      match local_root m, plex_root m with
      | Some local_root, Some plex_root =>
          if startswith path plex_root
          then replace1 path plex_root local_root
          else path
      | _, _ => path
      end
  end.

Definition ascii_isalnum (c : char) : bool :=
  (((48 <=? c) && (c <=? 57)) || ((65 <=? c) && (c <=? 90))
   || ((97 <=? c) && (c <=? 122)))%N.

(** ** Exceptions *)

Inductive exn :=
| FileNotFoundError
| FileExistsError
| NotADirectoryError
| IsADirectoryError
| PermissionError
| OSError               (* any other [OSError]: EXDEV, ENOTEMPTY, EINVAL, EBUSY *)
| UnicodeEncodeError
| IndexError
| KeyError
| NameError
| ValueError
| ServiceError          (* raised by the catalog client: transport failure *)
| NotFound.             (* raised by the catalog client: no such item *)

(** [isinstance(e, OSError)] *)
Definition is_OSError (e : exn) : bool :=
  match e with
  | FileNotFoundError | FileExistsError | NotADirectoryError
  | IsADirectoryError | PermissionError | OSError => true
  | _ => false
  end.

(** ** The file system *)

Module FS.

(** A resolved path: its components below the root. *)
Definition path := list str.

Inductive kind :=
| File (content : list str)   (* the lines written to it *)
| Dir.

Record node := { n_kind : kind; n_dev : N }.

(** The store keeps insertion order, which is the order [os.listdir]
    reports.  The root is the entry with the empty path. *)
Definition t := list (path * node).

Fixpoint path_eqb (p q : path) : bool :=
  match p, q with
  | [], [] => true
  | a :: p', b :: q' => PyStr.eqb a b && path_eqb p' q'
  | _, _ => false
  end.

Fixpoint is_prefix (p q : path) {struct p} : bool :=
  match p with
  | [] => true
  | a :: p' =>
      match q with
      | [] => false
      | b :: q' => PyStr.eqb a b && is_prefix p' q'
      end
  end.

Fixpoint lookup (fs : t) (p : path) : option node :=
  match fs with
  | [] => None
  | (q, n) :: r => if path_eqb q p then Some n else lookup r p
  end.

(** Splitting at ['/']; [cur] collects the current component backwards. *)
Fixpoint split_slash (s cur : str) : list str :=
  match s with
  | [] => [rev cur]
  | c :: r =>
      if N.eqb c slash then rev cur :: split_slash r [] else split_slash r (c :: cur)
  end.

Definition push_component (acc : path) (c : str) : path :=
  if PyStr.eqb c [] || PyStr.eqb c (lit ".") then acc
  else if PyStr.eqb c (lit "..") then removelast acc
  else acc ++ [c].

(** A string with an embedded NUL is no file name. *)
Definition has_nul (s : str) : bool := mem 0%N s.

(** Path resolution: the empty string names nothing (ENOENT) and neither
    does a string with a NUL in it; relative paths are taken from a
    working directory that is the root; ["."] and [".."] are resolved
    lexically. *)
Definition resolve (s : str) : option path :=
  match s with
  | [] => None
  | _ =>
      if has_nul s then None
      else Some (fold_left push_component (split_slash s []) [])
  end.

(** What a system call raises for a name that does not resolve:
    [ValueError: embedded null byte] before the call is made, [ENOENT]
    otherwise.  The tests of [os.path] answer [False] in both cases. *)
Definition unresolved (s : str) : exn :=
  if has_nul s then ValueError else FileNotFoundError.

Definition parent (p : path) : path := removelast p.

Definition is_dir_node (n : node) : bool :=
  match n_kind n with Dir => true | File _ => false end.

Definition exists_ (fs : t) (s : str) : bool :=
  match resolve s with
  | Some p => match lookup fs p with Some _ => true | None => false end
  | None => false
  end.

Definition isdir (fs : t) (s : str) : bool :=
  match resolve s with
  | Some p => match lookup fs p with Some n => is_dir_node n | None => false end
  | None => false
  end.

Definition isfile (fs : t) (s : str) : bool :=
  match resolve s with
  | Some p =>
      match lookup fs p with Some n => negb (is_dir_node n) | None => false end
  | None => false
  end.

(** The name of [q] if [q] is a child of [p]. *)
Definition child_name (p q : path) : option str :=
  if is_prefix p q then
    match skipn (List.length p) q with
    | [name] => Some name
    | _ => None
    end
  else None.

Fixpoint children (fs : t) (p : path) : list str :=
  match fs with
  | [] => []
  | (q, _) :: r =>
      match child_name p q with
      | Some name => name :: children r p
      | None => children r p
      end
  end.

Definition listdir (fs : t) (s : str) : exn + list str :=
  match resolve s with
  | None => inl (unresolved s)
  | Some p =>
      match lookup fs p with
      | None => inl FileNotFoundError
      | Some n => if is_dir_node n then inr (children fs p) else inl NotADirectoryError
      end
  end.

(** [os.stat(s).st_dev] *)
Definition stat_dev (fs : t) (s : str) : exn + N :=
  match resolve s with
  | None => inl (unresolved s)
  | Some p =>
      match lookup fs p with
      | None => inl FileNotFoundError
      | Some n => inr (n_dev n)
      end
  end.

(** Dropping [p] and everything below it. *)
Definition remove_subtree (fs : t) (p : path) : t :=
  filter (fun e => negb (is_prefix p (fst e))) fs.

(** Re-rooting [ps] and everything below it at [pd]. *)
Definition move_subtree (fs : t) (ps pd : path) : t :=
  map (fun e =>
         if is_prefix ps (fst e)
         then (pd ++ skipn (List.length ps) (fst e), snd e)
         else e) fs.

(** [os.rename(src, dst)], following rename(2). *)
Definition rename (fs : t) (src dst : str) : exn + t :=
  match resolve src, resolve dst with
  | Some ps, Some pd =>
      match lookup fs ps with
      | None => inl FileNotFoundError
      | Some ns =>
          match ps, pd with
          | [], _ | _, [] => inl OSError
          | _, _ =>
              match lookup fs (parent pd) with
              | None => inl FileNotFoundError
              | Some np =>
                  if negb (is_dir_node np) then inl NotADirectoryError
                  else if path_eqb ps pd then inr fs
                  else if is_prefix ps pd then inl OSError
                  else if negb (N.eqb (n_dev ns) (n_dev np)) then inl OSError
                  else
                    match lookup fs pd with
                    | None => inr (move_subtree fs ps pd)
                    | Some nd =>
                        match is_dir_node ns, is_dir_node nd with
                        | true, true =>
                            match children fs pd with
                            | [] => inr (move_subtree (remove_subtree fs pd) ps pd)
                            | _ => inl OSError
                            end
                        | true, false => inl NotADirectoryError
                        | false, true => inl IsADirectoryError
                        | false, false =>
                            inr (move_subtree (remove_subtree fs pd) ps pd)
                        end
                    end
              end
          end
      end
  | _, _ =>
      inl (if has_nul src || has_nul dst then ValueError else FileNotFoundError)
  end.

Fixpoint make_components (fs : t) (cur : path) (rest : list str) : exn + t :=
  match rest with
  | [] => inr fs
  | c :: r =>
      let cur' := cur ++ [c] in
      match lookup fs cur' with
      | Some n =>
          if is_dir_node n then make_components fs cur' r
          else match r with
               | [] => inl FileExistsError
               | _ => inl NotADirectoryError
               end
      | None =>
          match lookup fs cur with
          | Some pn =>
              make_components
                (fs ++ [(cur', {| n_kind := Dir; n_dev := n_dev pn |})]) cur' r
          | None => inl FileNotFoundError
          end
      end
  end.

(** [os.makedirs(s, exist_ok=True)] *)
Definition makedirs (fs : t) (s : str) : exn + t :=
  match resolve s with
  | None => inl (unresolved s)
  | Some p => make_components fs [] p
  end.

(** [os.rmdir(s)] *)
Definition rmdir (fs : t) (s : str) : exn + t :=
  match resolve s with
  | None => inl (unresolved s)
  | Some p =>
      match lookup fs p with
      | None => inl FileNotFoundError
      | Some n =>
          if negb (is_dir_node n) then inl NotADirectoryError
          else match p, children fs p with
               | _ :: _, [] => inr (remove_subtree fs p)
               | _, _ => inl OSError
               end
      end
  end.

(** [shutil.rmtree(s)] *)
Definition rmtree (fs : t) (s : str) : exn + t :=
  match resolve s with
  | None => inl (unresolved s)
  | Some p =>
      match lookup fs p with
      | None => inl FileNotFoundError
      | Some n =>
          if negb (is_dir_node n) then inl NotADirectoryError
          else match p with
               | [] => inl OSError
               | _ => inr (remove_subtree fs p)
               end
      end
  end.

(** [os.remove(s)] *)
Definition remove (fs : t) (s : str) : exn + t :=
  match resolve s with
  | None => inl (unresolved s)
  | Some p =>
      match lookup fs p with
      | None => inl FileNotFoundError
      | Some n =>
          if is_dir_node n then inl IsADirectoryError
          else inr (remove_subtree fs p)
      end
  end.

Fixpoint replace_node (fs : t) (p : path) (n : node) : t :=
  match fs with
  | [] => []
  | (q, m) :: r =>
      if path_eqb q p then (q, n) :: r else (q, m) :: replace_node r p n
  end.

(** [with open(s, 'w') as f: f.write(...)]: the file holds [content]. *)
Definition write_file (fs : t) (s : str) (content : list str) : exn + t :=
  match resolve s with
  | None => inl (unresolved s)
  | Some p =>
      match p with
      | [] => inl IsADirectoryError
      | _ =>
          match lookup fs (parent p) with
          | None => inl FileNotFoundError
          | Some np =>
              if negb (is_dir_node np) then inl NotADirectoryError
              else
                let n := {| n_kind := File content; n_dev := n_dev np |} in
                match lookup fs p with
                | None => inr (fs ++ [(p, n)])
                | Some old =>
                    if is_dir_node old then inl IsADirectoryError
                    else inr (replace_node fs p n)
                end
          end
      end
  end.

End FS.

(** ** The catalog service, as one connection sees it *)

(** A track carries its [locations] attribute when it has one. *)
Definition track := option (list str).

(** [album.tracks()] *)
Definition album := (exn + list track)%type.

Record plex_server := {
  connect_error : option exn;       (* [PlexServer(...)], [library.section(...)] *)
  section_locations : list str;     (* [music_library.locations] *)
  search_albums : exn + list album; (* [music_library.searchAlbums()] *)
  fetch_item : Z -> exn + bool      (* [music_library.fetchItem(id)], its truth value *)
}.

(** ** Observable behaviour: system calls and printed lines *)

Inductive event :=
| EvExists (p : str)
| EvIsDir (p : str)
| EvIsFile (p : str)
| EvListdir (p : str)
| EvStat (p : str)
| EvRename (src dst : str) (ok : bool)
| EvMakedirs (p : str) (ok : bool)
| EvRmdir (p : str) (ok : bool)
| EvRmtree (p : str) (ok : bool)
| EvRemove (p : str) (ok : bool)
| EvWrite (p : str) (content : list str) (ok : bool)
| EvSleep (seconds : Z)
| EvConnect.

Inductive msg :=
(* move_file *)
| MsgSourceMissing (orig_path : str) (plex_path : option str)
| MsgNotSameFilesystem (orig_path : str) (plex_path : option str)
| MsgMoveError (e : exn) (orig_path temp_path : str) (plex_path : option str)
(* restore_file *)
| MsgRestoreError (temp_path orig_path : str) (e : exn)
(* check_albums_removed_from_plex *)
| MsgConnecting
| MsgCheckingAlbums (total : nat)
| MsgLegacyCheck
| MsgCheckWarning (e : exn)
(* validate_paths_in_library *)
| MsgNoLocations
| MsgOutsideLibrary (invalid_paths : list str)
(* cleanup_and_restore *)
| MsgCleaningUp
| MsgRestoringFrom (n : nat) (temp_dir : str)
| MsgRestoring (name orig_path : str)
| MsgFailedRestore (temp_path : str) (e : exn)
| MsgUnknownOrigin (temp_path : str)
| MsgCleanedUp (temp_dir : str)
| MsgRmtreeFailed (temp_dir : str) (e : exn)
| MsgCleanedUpManually (temp_dir : str)
| MsgCleanupIncomplete (temp_dir : str) (e : exn)
| MsgCleanupFailed (temp_dir : str) (e : exn)
(* signal_handler *)
| MsgSignal
(* main *)
| MsgNoPaths
| MsgUsingMapping (m : pathmap)
| MsgMappingExample (plex_path : str) (album_ids : list str) (local_path : str)
| MsgTokenRequired
| MsgValidating
| MsgLibraryLocations (locations : list str)
| MsgLocationsError (e : exn)
| MsgProcessing (n : nat)
| MsgDryRunMode
| MsgDryChecking (local_path : str)
| MsgDryMissing
| MsgDryTempDir (temp_dir : str)
| MsgDrySameFilesystem (ok : bool)
| MsgDryTempDirState (leftover : option nat)
| MsgDrySummary (validation_errors total : nat)
| MsgInterruptWarning
| MsgPhase1
| MsgFoundEmptyTempDir (temp_dir : str)
| MsgTempDirExists (temp_dir : str)
| MsgRestoreHint (restore_log : str)   (* "To restore files manually, run: bash ..." *)
| MsgFilesystemMismatch (local_path temp_dir : str)
| MsgMovingAlbums
| MsgMoveProgress (i total : nat) (album_name temp_dir : str)
| MsgResult (ok : bool)
| MsgFailedMoves (n : nat)
| MsgNoMoves
| MsgMoved (n : nat)
| MsgPhase2
| MsgPolling (elapsed : Z)
| MsgAllRemoved (elapsed : Z)
| MsgStillVisible (count total : nat)
| MsgTimeout (max_wait : Z)            (* "Timeout reached (...), proceeding with restore..." *)
| MsgSkipPolling
| MsgPhase3
| MsgRestoringAlbums
| MsgRestoreProgress (i total : nat) (album_name temp_dir : str)
| MsgFailedRestores (n : nat)
| MsgCompleted
| MsgOperationError (e : exn).

(** ** The world a run acts on *)

Record world := {
  w_fs : FS.t;
  w_trace : list event;                  (* system calls, oldest first *)
  w_out : list msg;                      (* printed lines, oldest first *)
  w_library_temp_dirs : list (str * str);(* global dict, in insertion order *)
  w_temp_paths : list str;               (* global list *)
  w_file_paths : list str;               (* global list *)
  w_atexit : bool;                       (* is [cleanup_and_restore] registered *)
  w_plex : nat -> plex_server;           (* the service at the n-th connection *)
  w_polls : nat;                         (* connections made so far *)
  w_clock : Z;                           (* seconds *)
  w_signal : option nat                  (* system calls left before a SIGTERM *)
}.

Definition with_fs (w : world) (fs : FS.t) : world :=
  {| w_fs := fs; w_trace := w_trace w; w_out := w_out w;
     w_library_temp_dirs := w_library_temp_dirs w;
     w_temp_paths := w_temp_paths w; w_file_paths := w_file_paths w;
     w_atexit := w_atexit w; w_plex := w_plex w; w_polls := w_polls w;
     w_clock := w_clock w; w_signal := w_signal w |}.

Definition with_trace (w : world) (tr : list event) : world :=
  {| w_fs := w_fs w; w_trace := tr; w_out := w_out w;
     w_library_temp_dirs := w_library_temp_dirs w;
     w_temp_paths := w_temp_paths w; w_file_paths := w_file_paths w;
     w_atexit := w_atexit w; w_plex := w_plex w; w_polls := w_polls w;
     w_clock := w_clock w; w_signal := w_signal w |}.

Definition with_out (w : world) (out : list msg) : world :=
  {| w_fs := w_fs w; w_trace := w_trace w; w_out := out;
     w_library_temp_dirs := w_library_temp_dirs w;
     w_temp_paths := w_temp_paths w; w_file_paths := w_file_paths w;
     w_atexit := w_atexit w; w_plex := w_plex w; w_polls := w_polls w;
     w_clock := w_clock w; w_signal := w_signal w |}.

Definition with_library_temp_dirs (w : world) (d : list (str * str)) : world :=
  {| w_fs := w_fs w; w_trace := w_trace w; w_out := w_out w;
     w_library_temp_dirs := d;
     w_temp_paths := w_temp_paths w; w_file_paths := w_file_paths w;
     w_atexit := w_atexit w; w_plex := w_plex w; w_polls := w_polls w;
     w_clock := w_clock w; w_signal := w_signal w |}.

Definition with_temp_paths (w : world) (l : list str) : world :=
  {| w_fs := w_fs w; w_trace := w_trace w; w_out := w_out w;
     w_library_temp_dirs := w_library_temp_dirs w;
     w_temp_paths := l; w_file_paths := w_file_paths w;
     w_atexit := w_atexit w; w_plex := w_plex w; w_polls := w_polls w;
     w_clock := w_clock w; w_signal := w_signal w |}.

Definition with_file_paths (w : world) (l : list str) : world :=
  {| w_fs := w_fs w; w_trace := w_trace w; w_out := w_out w;
     w_library_temp_dirs := w_library_temp_dirs w;
     w_temp_paths := w_temp_paths w; w_file_paths := l;
     w_atexit := w_atexit w; w_plex := w_plex w; w_polls := w_polls w;
     w_clock := w_clock w; w_signal := w_signal w |}.

Definition with_atexit (w : world) (b : bool) : world :=
  {| w_fs := w_fs w; w_trace := w_trace w; w_out := w_out w;
     w_library_temp_dirs := w_library_temp_dirs w;
     w_temp_paths := w_temp_paths w; w_file_paths := w_file_paths w;
     w_atexit := b; w_plex := w_plex w; w_polls := w_polls w;
     w_clock := w_clock w; w_signal := w_signal w |}.

Definition with_polls (w : world) (n : nat) : world :=
  {| w_fs := w_fs w; w_trace := w_trace w; w_out := w_out w;
     w_library_temp_dirs := w_library_temp_dirs w;
     w_temp_paths := w_temp_paths w; w_file_paths := w_file_paths w;
     w_atexit := w_atexit w; w_plex := w_plex w; w_polls := n;
     w_clock := w_clock w; w_signal := w_signal w |}.

Definition with_clock (w : world) (c : Z) : world :=
  {| w_fs := w_fs w; w_trace := w_trace w; w_out := w_out w;
     w_library_temp_dirs := w_library_temp_dirs w;
     w_temp_paths := w_temp_paths w; w_file_paths := w_file_paths w;
     w_atexit := w_atexit w; w_plex := w_plex w; w_polls := w_polls w;
     w_clock := c; w_signal := w_signal w |}.

Definition with_signal (w : world) (s : option nat) : world :=
  {| w_fs := w_fs w; w_trace := w_trace w; w_out := w_out w;
     w_library_temp_dirs := w_library_temp_dirs w;
     w_temp_paths := w_temp_paths w; w_file_paths := w_file_paths w;
     w_atexit := w_atexit w; w_plex := w_plex w; w_polls := w_polls w;
     w_clock := w_clock w; w_signal := s |}.

(** What a run added to the trace and to the output. *)
Definition new_events (w w' : world) : list event :=
  skipn (List.length (w_trace w)) (w_trace w').

Definition new_output (w w' : world) : list msg :=
  skipn (List.length (w_out w)) (w_out w').

Definition is_rename (e : event) : bool :=
  match e with
  | EvRename _ _ _ => true
  | _ => false
  end.

Definition is_connect (e : event) : bool :=
  match e with
  | EvConnect => true
  | _ => false
  end.

(** ** Computations: state, exceptions, [sys.exit] and signal delivery *)

Inductive outcome (A : Type) :=
| Ret (a : A)
| Raise (e : exn)
| SysExit (code : Z)     (* [SystemExit], which [except Exception] lets through *)
| Interrupt.             (* a termination signal was delivered at this point *)

Arguments Ret {A} a.
Arguments Raise {A} e.
Arguments SysExit {A} code.
Arguments Interrupt {A}.

Definition M (A : Type) : Type := world -> outcome A * world.

Definition ret {A : Type} (a : A) : M A := fun w => (Ret a, w).

Definition bind {A B : Type} (m : M A) (k : A -> M B) : M B :=
  fun w =>
    match m w with
    | (Ret a, w') => k a w'
    | (Raise e, w') => (Raise e, w')
    | (SysExit c, w') => (SysExit c, w')
    | (Interrupt, w') => (Interrupt, w')
    end.

Declare Scope py_scope.
Delimit Scope py_scope with py.
Notation "x <- m ;; k" := (bind m (fun x => k))
  (at level 61, m at next level, right associativity) : py_scope.
Notation "m ;; k" := (bind m (fun _ => k))
  (at level 61, right associativity) : py_scope.
Open Scope py_scope.

Definition raise {A : Type} (e : exn) : M A := fun w => (Raise e, w).

Definition sys_exit {A : Type} (code : Z) : M A := fun w => (SysExit code, w).

(** [try: m  except <handles> as e: handler e] *)
Definition try_except {A : Type} (m : M A) (handles : exn -> bool)
    (handler : exn -> M A) : M A :=
  fun w =>
    match m w with
    | (Raise e, w') => if handles e then handler e w' else (Raise e, w')
    | r => r
    end.

(** [except Exception] *)
Definition any_exception (e : exn) : bool := true.

Definition print (x : msg) : M unit :=
  fun w => (Ret tt, with_out w (w_out w ++ [x])).

Definition emit (e : event) : M unit :=
  fun w => (Ret tt, with_trace w (w_trace w ++ [e])).

Definition get {A : Type} (f : world -> A) : M A := fun w => (Ret (f w), w).

Definition modify (f : world -> world) : M unit := fun w => (Ret tt, f w).

(** A pending signal is delivered at the next system call. *)
Definition tick : M unit :=
  fun w =>
    match w_signal w with
    | Some O => (Interrupt, with_signal w None)
    | Some (S n) => (Ret tt, with_signal w (Some n))
    | None => (Ret tt, w)
    end.

Fixpoint for_each {A : Type} (l : list A) (body : A -> M unit) : M unit :=
  match l with
  | [] => ret tt
  | x :: r => body x ;; for_each r body
  end.

(** [[f x for x in l]] with an effectful [f]. *)
Fixpoint map_m {A B : Type} (f : A -> M B) (l : list A) : M (list B) :=
  match l with
  | [] => ret []
  | x :: r => y <- f x ;; ys <- map_m f r ;; ret (y :: ys)
  end.

(** ** The [os] and [shutil] calls the script makes *)

Definition fs_read {A : Type} (ev : event) (f : FS.t -> A) : M A :=
  tick ;; emit ev ;; get (fun w => f (w_fs w)).

Definition fs_query {A : Type} (ev : event) (f : FS.t -> exn + A) : M A :=
  tick ;; emit ev ;;
  r <- get (fun w => f (w_fs w)) ;;
  match r with
  | inr a => ret a
  | inl e => raise e
  end.

Definition fs_update (ev : bool -> event) (f : FS.t -> exn + FS.t) : M unit :=
  tick ;;
  r <- get (fun w => f (w_fs w)) ;;
  match r with
  | inr fs' => emit (ev true) ;; modify (fun w => with_fs w fs')
  | inl e => emit (ev false) ;; raise e
  end.

Definition os_path_exists (p : str) : M bool :=
  fs_read (EvExists p) (fun fs => FS.exists_ fs p).

Definition os_path_isdir (p : str) : M bool :=
  fs_read (EvIsDir p) (fun fs => FS.isdir fs p).

Definition os_path_isfile (p : str) : M bool :=
  fs_read (EvIsFile p) (fun fs => FS.isfile fs p).

Definition os_listdir (p : str) : M (list str) :=
  fs_query (EvListdir p) (fun fs => FS.listdir fs p).

Definition os_stat_dev (p : str) : M N :=
  fs_query (EvStat p) (fun fs => FS.stat_dev fs p).

Definition os_rename (src dst : str) : M unit :=
  fs_update (EvRename src dst) (fun fs => FS.rename fs src dst).

Definition os_makedirs (p : str) : M unit :=
  fs_update (EvMakedirs p) (fun fs => FS.makedirs fs p).

Definition os_rmdir (p : str) : M unit :=
  fs_update (EvRmdir p) (fun fs => FS.rmdir fs p).

Definition shutil_rmtree (p : str) : M unit :=
  fs_update (EvRmtree p) (fun fs => FS.rmtree fs p).

Definition os_remove (p : str) : M unit :=
  fs_update (EvRemove p) (fun fs => FS.remove fs p).

Definition write_file (p : str) (content : list str) : M unit :=
  fs_update (EvWrite p content) (fun fs => FS.write_file fs p content).

Definition time_sleep (seconds : Z) : M unit :=
  tick ;; emit (EvSleep seconds) ;;
  modify (fun w => with_clock w (w_clock w + seconds)%Z).

(** ** Small pieces of the standard library *)

(** [s.split(sep, 1)] when [sep] occurs in [s]. *)
Fixpoint split_first (sep : char) (s : str) : option (str * str) :=
  match s with
  | [] => None
  | c :: r =>
      if N.eqb c sep then Some ([], r)
      else match split_first sep r with
           | Some (a, b) => Some (c :: a, b)
           | None => None
           end
  end.

(** [s.split(sep)]; [cur] collects the current field backwards. *)
Fixpoint split_all (sep : char) (s cur : str) : list str :=
  match s with
  | [] => [rev cur]
  | c :: r =>
      if N.eqb c sep then rev cur :: split_all sep r [] else split_all sep r (c :: cur)
  end.

(** A dict with string keys, in insertion order. *)
Fixpoint dict_get {V : Type} (d : list (str * V)) (k : str) : option V :=
  match d with
  | [] => None
  | (k', v) :: r => if PyStr.eqb k' k then Some v else dict_get r k
  end.

Fixpoint dict_set {V : Type} (d : list (str * V)) (k : str) (v : V) : list (str * V) :=
  match d with
  | [] => [(k, v)]
  | (k', v') :: r =>
      if PyStr.eqb k' k then (k', v) :: r else (k', v') :: dict_set r k v
  end.

(** [shlex.quote] *)
Definition shlex_safe (c : char) : bool :=
  ascii_isalnum c || mem c (lit "_@%+=:,./-").

Definition shlex_quote (s : str) : str :=
  match s with
  | [] => [39; 39]%N
  | _ =>
      if forallb shlex_safe s then s
      else [39%N]
             ++ flat_map (fun c => if N.eqb c 39 then [39; 34; 39; 34; 39]%N else [c]) s
             ++ [39%N]
  end.

(** Lexicographic order on code points, and [sorted]. *)
Fixpoint str_leb (a b : str) : bool :=
  match a, b with
  | [], _ => true
  | _ :: _, [] => false
  | x :: a', y :: b' =>
      if (x <? y)%N then true else if (y <? x)%N then false else str_leb a' b'
  end.

Fixpoint insert_sorted (x : str) (l : list str) : list str :=
  match l with
  | [] => [x]
  | y :: r => if str_leb x y then x :: l else y :: insert_sorted x r
  end.

Definition sorted (l : list str) : list str := fold_right insert_sorted [] l.

(** The command line after [argparse] and the input after it was read. *)
Record args := {
  lines : list str;                    (* stripped, non-empty input lines *)
  path_mapping : option (str * str);   (* [parse_path_mapping]: local root, plex root *)
  parallel : bool;
  max_wait : Z;
  no_dry_run : bool;
  plex_token : option str;
  skip_validation : bool
}.

Definition mapping_dict (m : str * str) : pathmap :=
  {| local_root := Some (fst m); plex_root := Some (snd m) |}.

(** ** The script *)

(** What the interpreter and the operating system supply. *)
Record runtime := {
  isalnum : char -> bool;     (* [str.isalnum] on one character *)
  py_int : str -> option Z;   (* [int(s)]; [None] is [ValueError] *)
  strftime : Z -> str;        (* [time.strftime('%Y-%m-%d %H:%M:%S')] at a clock value *)
  getpid : N
}.

Section Script.

Variable rt : runtime.

Import PosixPath.

(** The loop [while not os.path.exists(check_path2)] of
    [are_on_same_filesystem]; [None] is its [return False]. *)
Fixpoint find_existing_ancestor (fuel : nat) (check_path2 : str) : M (option str) :=
  match fuel with
  | O => ret None
  | S f =>
      b <- os_path_exists check_path2 ;;
      if b then ret (Some check_path2)
      else
        let parent := dirname check_path2 in
        if PyStr.eqb parent check_path2 then ret None
        else find_existing_ancestor f parent
  end.

Definition are_on_same_filesystem (path1 path2 : str) : M bool :=
  try_except
    (r <- find_existing_ancestor (S (List.length path2)) path2 ;;
     match r with
     | None => ret false
     | Some check_path2 =>
         stat1 <- os_stat_dev path1 ;;
         stat2 <- os_stat_dev check_path2 ;;
         ret (N.eqb stat1 stat2)
     end)
    is_OSError (fun _ => ret false).

(** [x if x else None]: an empty string is false. *)
Definition if_truthy (s : option str) : option str :=
  match s with
  | Some (c :: r) => Some (c :: r)
  | _ => None
  end.

Definition appledouble (dir name : str) : str := join dir (lit "._" ++ name).

Definition move_file (orig_path temp_path : str)
    (original_plex_path : option str) : M bool :=
  try_except
    (b <- os_path_exists orig_path ;;
     if negb b then
       print (MsgSourceMissing orig_path (if_truthy original_plex_path)) ;;
       ret false
     else
       os_makedirs (dirname temp_path) ;;
       same <- are_on_same_filesystem orig_path temp_path ;;
       if negb same then
         print (MsgNotSameFilesystem orig_path (if_truthy original_plex_path)) ;;
         ret false
       else
         os_rename orig_path temp_path ;;
         let parent_dir := dirname orig_path in
         let basename_ := basename orig_path in
         let appledouble_orig := appledouble parent_dir basename_ in
         let appledouble_temp :=
           appledouble (dirname temp_path) (basename temp_path) in
         has_sidecar <- os_path_exists appledouble_orig ;;
         (if has_sidecar then
            try_except (os_rename appledouble_orig appledouble_temp)
              any_exception (fun _ => ret tt)
          else ret tt) ;;
         ret true)
    any_exception
    (fun e =>
       print (MsgMoveError e orig_path temp_path (if_truthy original_plex_path)) ;;
       ret false).

Definition restore_file (temp_path orig_path : str) : M bool :=
  try_except
    (os_makedirs (dirname orig_path) ;;
     os_rename temp_path orig_path ;;
     let temp_basename := basename temp_path in
     let orig_basename := basename orig_path in
     let appledouble_temp := appledouble (dirname temp_path) temp_basename in
     let appledouble_orig := appledouble (dirname orig_path) orig_basename in
     has_sidecar <- os_path_exists appledouble_temp ;;
     (if has_sidecar then
        try_except (os_rename appledouble_temp appledouble_orig)
          any_exception (fun _ => ret tt)
      else ret tt) ;;
     ret true)
    any_exception
    (fun e => print (MsgRestoreError temp_path orig_path e) ;; ret false).

(** [PlexServer(url, token)] and [plex.library.section(name)]. *)
Definition connect : M plex_server :=
  tick ;; emit EvConnect ;;
  srv <- get (fun w => w_plex w (w_polls w)) ;;
  modify (fun w => with_polls w (S (w_polls w))) ;;
  match connect_error srv with
  | Some e => raise e
  | None => ret srv
  end.

(** Legacy mode: the loop over [all_albums], up to its [break]. *)
Fixpoint legacy_visible (all_albums : list album) (plex_path : str) : exn + bool :=
  match all_albums with
  | [] => inr false
  | inl e :: _ => inl e
  | inr tracks :: rest =>
      match tracks with
      | Some (track_path :: _) :: _ =>
          if PyStr.eqb (dirname track_path) plex_path then inr true
          else legacy_visible rest plex_path
      | _ => legacy_visible rest plex_path
      end
  end.

(** Fast mode: the loop over [album_ids]; the result is
    [path_has_visible_albums]. *)
Fixpoint any_album_visible (srv : plex_server) (album_ids : list str) : bool :=
  match album_ids with
  | [] => false
  | album_id :: rest =>
      match py_int rt album_id with
      | None => any_album_visible srv rest              (* except Exception: continue *)
      | Some n =>
          match fetch_item srv n with
          | inr true => true                             (* break *)
          | inr false => any_album_visible srv rest
          | inl _ => any_album_visible srv rest          (* except Exception: continue *)
          end
      end
  end.

Fixpoint check_paths (srv : plex_server) (moved : list (str * list str))
    (still_visible_paths : list str) : M (list str) :=
  match moved with
  | [] => ret still_visible_paths
  | (plex_path, album_ids) :: rest =>
      match album_ids with
      | [] =>
          print MsgLegacyCheck ;;
          match search_albums srv with
          | inl e => raise e
          | inr all_albums =>
              match legacy_visible all_albums plex_path with
              | inl e => raise e
              | inr true => check_paths srv rest (still_visible_paths ++ [plex_path])
              | inr false => check_paths srv rest still_visible_paths
              end
          end
      | _ =>
          if any_album_visible srv album_ids
          then check_paths srv rest (still_visible_paths ++ [plex_path])
          else check_paths srv rest still_visible_paths
      end
  end.

Definition check_albums_removed_from_plex
    (moved_albums_with_ids : list (str * list str)) : M (bool * nat) :=
  try_except
    (print MsgConnecting ;;
     srv <- connect ;;
     let total_albums_to_check :=
       list_sum (map (fun x => List.length (snd x)) moved_albums_with_ids) in
     print (MsgCheckingAlbums total_albums_to_check) ;;
     still_visible_paths <- check_paths srv moved_albums_with_ids [] ;;
     ret (Nat.eqb (List.length still_visible_paths) 0,
          List.length still_visible_paths))
    any_exception
    (fun e =>
       print (MsgCheckWarning e) ;;
       ret (false, List.length moved_albums_with_ids)).

(** A dict is true when it has a key. *)
Definition mapping_truthy (m : option pathmap) : bool :=
  match m with
  | Some m =>
      match local_root m, plex_root m with
      | None, None => false
      | _, _ => true
      end
  | None => false
  end.

Definition validate_paths_in_library (file_paths library_locations : list str)
    (mapping : option pathmap) : M (list str) :=
  match library_locations with
  | [] => print MsgNoLocations ;; ret file_paths
  | _ =>
      validated <-
        map_m (fun path =>
                 validation_path <-
                   (if mapping_truthy mapping then
                      match mapping with
                      | Some {| local_root := Some l; plex_root := Some p |} =>
                          ret (replace1 path l p)
                      | _ => raise KeyError
                      end
                    else ret path) ;;
                 ret (path, existsb (startswith validation_path) library_locations))
              file_paths ;;
      let valid_paths := map fst (filter snd validated) in
      let invalid_paths := map fst (filter (fun x => negb (snd x)) validated) in
      match invalid_paths with
      | [] => ret valid_paths
      | _ => print (MsgOutsideLibrary invalid_paths) ;; sys_exit 1
      end
  end.

(** The search [for i, tracked_temp_path in enumerate(temp_paths)] of
    [cleanup_and_restore], with its [break]; [None] is the [else] branch. *)
Fixpoint find_tracked (i : nat) (temp_paths file_paths : list str)
    (temp_path : str) : option str :=
  match temp_paths with
  | [] => None
  | tracked_temp_path :: rest =>
      if PyStr.eqb tracked_temp_path temp_path && (i <? List.length file_paths)
      then nth_error file_paths i
      else find_tracked (S i) rest file_paths temp_path
  end.

Definition str_in (s : str) (l : list str) : bool := existsb (PyStr.eqb s) l.

(** The body of [for temp_file in album_dirs]. *)
Definition restore_tracked (temp_dir temp_file : str) : M unit :=
  let temp_path := join temp_dir temp_file in
  is_dir <- os_path_isdir temp_path ;;
  if is_dir then
    temp_paths <- get w_temp_paths ;;
    file_paths <- get w_file_paths ;;
    match find_tracked 0 temp_paths file_paths temp_path with
    | Some orig_path =>
        try_except
          (print (MsgRestoring (basename temp_path) orig_path) ;;
           os_rename temp_path orig_path)
          any_exception
          (fun restore_e => print (MsgFailedRestore temp_path restore_e))
    | None => print (MsgUnknownOrigin temp_path)
    end
  else ret tt.

(** "Remove temp directory (including any leftover AppleDouble files)". *)
Definition remove_temp_dir (temp_dir : str) : M unit :=
  try_except
    (shutil_rmtree temp_dir ;; print (MsgCleanedUp temp_dir))
    is_OSError
    (fun e =>
       print (MsgRmtreeFailed temp_dir e) ;;
       try_except
         (remaining <- os_listdir temp_dir ;;
          for_each remaining
            (fun remaining_file =>
               let remaining_path := join temp_dir remaining_file in
               is_file <- os_path_isfile remaining_path ;;
               if is_file then os_remove remaining_path else ret tt) ;;
          os_rmdir temp_dir ;;
          print (MsgCleanedUpManually temp_dir))
         any_exception
         (fun cleanup_e => print (MsgCleanupIncomplete temp_dir cleanup_e))).

(** The body of [for library_root, temp_dir in temp_dirs_to_clean.items()]. *)
Definition cleanup_temp_dir (temp_dir : str) : M unit :=
  try_except
    (present <- os_path_exists temp_dir ;;
     if present then
       temp_files <- os_listdir temp_dir ;;
       let album_dirs :=
         filter (fun f => negb (startswith f (lit "."))
                          && negb (str_in f [lit "lock"; lit "restore.log"]))
                temp_files in
       (match album_dirs with
        | [] => ret tt
        | _ =>
            print (MsgRestoringFrom (List.length album_dirs) temp_dir) ;;
            for_each album_dirs (restore_tracked temp_dir)
        end) ;;
       remove_temp_dir temp_dir
     else ret tt)
    any_exception
    (fun e => print (MsgCleanupFailed temp_dir e)).

Definition cleanup_and_restore : M unit :=
  library_temp_dirs <- get w_library_temp_dirs ;;
  match library_temp_dirs with
  | [] => ret tt
  | _ =>
      (* Prevent multiple cleanup calls *)
      let temp_dirs_to_clean := library_temp_dirs in
      modify (fun w => with_library_temp_dirs w []) ;;
      print MsgCleaningUp ;;
      for_each temp_dirs_to_clean (fun item => cleanup_temp_dir (snd item))
  end.

Definition signal_handler : M unit :=
  print MsgSignal ;;
  cleanup_and_restore ;;
  modify (fun w => with_atexit w false) ;;
  sys_exit 1.

(** [apply_path_mapping(p, path_mapping) if path_mapping else p] *)
Definition to_local (a : args) (p : str) : str :=
  match path_mapping a with
  | Some m => apply_path_mapping p (Some (mapping_dict m))
  | None => p
  end.

(** Lines 436-446: one input line. *)
Definition parse_line (line : str) : str * list str :=
  match split_first 9%N line with
  | Some (path, album_ids_str) => (path, split_all 44%N album_ids_str [])
  | None => (line, [])
  end.

(** Lines 549-558: the library location an entry belongs to. *)
Definition find_library_root (a : args) (library_locations : list str)
    (plex_path : str) : str :=
  let library_root :=
    if negb (skip_validation a)
    then find (fun loc => startswith plex_path loc) library_locations
    else None in
  match library_root with
  | Some (c :: r) => c :: r
  | _ => dirname plex_path
  end.

Definition staging_parent (a : args) (library_locations : list str)
    (plex_path : str) : str :=
  dirname (to_local a (find_library_root a library_locations plex_path)).

Definition not_hidden (f : str) : bool := negb (startswith f (lit ".")).

(** Lines 568-581: a staging directory left by an earlier run. *)
Definition reclaim_leftover (temp_dir : str) : M unit :=
  present <- os_path_exists temp_dir ;;
  if present then
    listing <- os_listdir temp_dir ;;
    let temp_contents := filter not_hidden listing in
    match temp_contents with
    | [] => print (MsgFoundEmptyTempDir temp_dir) ;; os_rmdir temp_dir
    | _ =>
        print (MsgTempDirExists temp_dir) ;;
        let restore_log := join temp_dir (lit "restore.log") in
        has_log <- os_path_exists restore_log ;;
        (if has_log then print (MsgRestoreHint restore_log) else ret tt) ;;
        sys_exit 1
    end
  else ret tt.

(** Lines 565-598: create the staging directory of one library location. *)
Definition acquire_temp_dir (local_path local_library_parent : str) : M unit :=
  let temp_dir := join local_library_parent (lit "tmp.plexdance") in
  reclaim_leftover temp_dir ;;
  same <- are_on_same_filesystem local_path temp_dir ;;
  (if negb same then
     print (MsgFilesystemMismatch local_path temp_dir) ;; sys_exit 1
   else ret tt) ;;
  os_makedirs temp_dir ;;
  let lock_file := join temp_dir (lit "lock") in
  now <- get w_clock ;;
  write_file lock_file
    [lit "PID: " ++ str_of_int (getpid rt); lit "Started: " ++ strftime rt now] ;;
  modify (fun w =>
            with_library_temp_dirs w
              (dict_set (w_library_temp_dirs w) local_library_parent temp_dir)).

(** Lines 544-607: one round of the planning loop. *)
Definition plan_entry (a : args) (library_locations : list str) (i : nat)
    (plex_path : str) : M (str * str * str) :=
  let local_path := to_local a plex_path in
  let local_library_parent := staging_parent a library_locations plex_path in
  dirs <- get w_library_temp_dirs ;;
  (match dict_get dirs local_library_parent with
   | None => acquire_temp_dir local_path local_library_parent
   | Some _ => ret tt
   end) ;;
  dirs <- get w_library_temp_dirs ;;
  match dict_get dirs local_library_parent with
  | None => raise KeyError
  | Some temp_dir =>
      let album_name := basename local_path in
      let artist_name := basename (dirname local_path) in
      match safe_temp_name (isalnum rt) (N.of_nat i) artist_name album_name 255 with
      | None => raise UnicodeEncodeError
      | Some safe_name =>
          let temp_path := join temp_dir safe_name in
          modify (fun w => with_temp_paths w (w_temp_paths w ++ [temp_path])) ;;
          ret (local_path, temp_path, plex_path)
      end
  end.

Fixpoint plan_loop (a : args) (library_locations : list str) (i : nat)
    (plex_paths : list str) : M (list (str * str * str)) :=
  match plex_paths with
  | [] => ret []
  | plex_path :: rest =>
      op <- plan_entry a library_locations i plex_path ;;
      ops <- plan_loop a library_locations (S i) rest ;;
      ret (op :: ops)
  end.

Definition restore_command (op : str * str * str) : str :=
  let '(local_path, temp_path, _) := op in
  lit "mv " ++ shlex_quote temp_path ++ lit " " ++ shlex_quote local_path.

Definition restore_log_lines (now : Z) (temp_dir : str)
    (move_operations : list (str * str * str)) : list str :=
  [lit "#!/bin/bash";
   lit "# Restore script for plex-dance operation";
   lit "# Generated: " ++ strftime rt now;
   []]
  ++ map restore_command
       (filter (fun op => startswith (snd (fst op)) temp_dir) move_operations).

(** Lines 609-618: "Write restore log before moving files". *)
Definition write_restore_logs (move_operations : list (str * str * str)) : M unit :=
  dirs <- get w_library_temp_dirs ;;
  for_each dirs
    (fun item =>
       let temp_dir := snd item in
       let restore_log := join temp_dir (lit "restore.log") in
       now <- get w_clock ;;
       write_file restore_log (restore_log_lines now temp_dir move_operations)).

(** Lines 620-629: "Execute moves sequentially". *)
Fixpoint move_all (i total : nat) (move_operations : list (str * str * str))
  : M (list bool) :=
  match move_operations with
  | [] => ret []
  | (local_path, temp_path, plex_path) :: rest =>
      print (MsgMoveProgress (S i) total (basename local_path) (dirname temp_path)) ;;
      result <- move_file local_path temp_path (Some plex_path) ;;
      print (MsgResult result) ;;
      results <- move_all (S i) total rest ;;
      ret (result :: results)
  end.

(** Lines 538-629: plan every entry, write the logs, move. *)
Definition staging_phase (a : args) (library_locations plex_paths : list str)
  : M (list (str * str * str) * list bool) :=
  print MsgPhase1 ;;
  move_operations <- plan_loop a library_locations 0 plex_paths ;;
  write_restore_logs move_operations ;;
  print MsgMovingAlbums ;;
  results <- move_all 0 (List.length move_operations) move_operations ;;
  ret (move_operations, results).

(** Lines 660-666: what a poll asks about. *)
Definition moved_albums_with_ids (album_ids_map : list (str * list str))
    (move_operations : list (str * str * str)) (results : list bool)
  : list (str * list str) :=
  flat_map
    (fun x : bool * (str * str * str) =>
       if fst x then
         let plex_path := snd (snd x) in
         [(plex_path,
           match dict_get album_ids_map plex_path with
           | Some album_ids => album_ids
           | None => []
           end)]
       else [])
    (combine results move_operations).

(** Lines 657-680: [while elapsed_time < max_wait_time].  [all_removed] is
    unbound until the first poll. *)
Fixpoint poll_loop (fuel : nat) (max_wait_time : Z) (moved : list (str * list str))
    (total : nat) (elapsed_time : Z) (all_removed : option bool)
  : M (Z * option bool) :=
  match fuel with
  | O => ret (elapsed_time, all_removed)
  | S f =>
      if (elapsed_time <? max_wait_time)%Z then
        print (MsgPolling elapsed_time) ;;
        r <- check_albums_removed_from_plex moved ;;
        if fst r then
          print (MsgAllRemoved elapsed_time) ;;
          ret (elapsed_time, Some true)
        else
          print (MsgStillVisible (snd r) total) ;;
          time_sleep 5 ;;
          poll_loop f max_wait_time moved total (elapsed_time + 5)%Z (Some false)
      else ret (elapsed_time, all_removed)
  end.

(** Lines 647-686: phase 2. *)
Definition wait_for_plex (a : args) (album_ids_map : list (str * list str))
    (move_operations : list (str * str * str)) (results : list bool) : M unit :=
  if negb (skip_validation a) then
    print MsgPhase2 ;;
    let moved := moved_albums_with_ids album_ids_map move_operations results in
    r <- poll_loop (S (Z.to_nat (max_wait a))) (max_wait a) moved
           (List.length moved) 0%Z None ;;
    let elapsed_time := fst r in
    if (max_wait a <=? elapsed_time)%Z then
      match snd r with
      | None => raise NameError
      | Some all_removed =>
          if negb all_removed then print (MsgTimeout (max_wait a)) else ret tt
      end
    else ret tt
  else print MsgSkipPolling.

(** Lines 692-695 *)
Fixpoint collect_restores (i : nat) (file_paths temp_paths : list str)
  : M (list (str * str)) :=
  match file_paths with
  | [] => ret []
  | orig_path :: rest =>
      match nth_error temp_paths i with
      | None => raise IndexError
      | Some temp_path =>
          present <- os_path_exists temp_path ;;
          ops <- collect_restores (S i) rest temp_paths ;;
          ret (if present then (temp_path, orig_path) :: ops else ops)
      end
  end.

(** Lines 700-706 *)
Fixpoint restore_all (i total : nat) (restore_operations : list (str * str))
  : M (list bool) :=
  match restore_operations with
  | [] => ret []
  | (temp_path, orig_path) :: rest =>
      print (MsgRestoreProgress (S i) total (basename orig_path) (dirname temp_path)) ;;
      result <- restore_file temp_path orig_path ;;
      print (MsgResult result) ;;
      results <- restore_all (S i) total rest ;;
      ret (result :: results)
  end.

(** Lines 688-717: phase 3. *)
Definition restore_phase : M unit :=
  print MsgPhase3 ;;
  file_paths <- get w_file_paths ;;
  temp_paths <- get w_temp_paths ;;
  restore_operations <- collect_restores 0 file_paths temp_paths ;;
  print MsgRestoringAlbums ;;
  results <- restore_all 0 (List.length restore_operations) restore_operations ;;
  let failed_restores := List.length (filter negb results) in
  (if 0 <? failed_restores then print (MsgFailedRestores failed_restores)
   else ret tt) ;;
  print MsgCompleted ;;
  (* Clear globals to prevent cleanup on normal exit *)
  modify (fun w => with_library_temp_dirs w []) ;;
  modify (fun w => with_temp_paths w []) ;;
  modify (fun w => with_file_paths w []).

(** Lines 538-717: the body of the [try]. *)
Definition dance (a : args) (album_ids_map : list (str * list str))
    (library_locations plex_paths : list str) : M unit :=
  staged <- staging_phase a library_locations plex_paths ;;
  let move_operations := fst staged in
  let results := snd staged in
  (* Update global variables for signal handling *)
  modify (fun w => with_file_paths w (map (fun op => fst (fst op)) move_operations)) ;;
  let failed_moves := List.length (filter negb results) in
  let successful_moves := List.length results - failed_moves in
  (if 0 <? failed_moves then print (MsgFailedMoves failed_moves) else ret tt) ;;
  if successful_moves =? 0 then print MsgNoMoves
  else
    print (MsgMoved successful_moves) ;;
    wait_for_plex a album_ids_map move_operations results ;;
    restore_phase.

(** Lines 160-171: the request for the library locations, one connection
    to the service; its two lines of error output are one message here. *)
Definition get_plex_library_locations : M (list str) :=
  try_except
    (srv <- connect ;;
     let locations := section_locations srv in
     print (MsgLibraryLocations locations) ;;
     ret locations)
    any_exception
    (fun e => print (MsgLocationsError e) ;; sys_exit 1).

(** Lines 470-529: the dry run. *)
Fixpoint dry_run_loop (a : args) (library_locations paths : list str)
    (validation_errors : nat) : M nat :=
  match paths with
  | [] => ret validation_errors
  | plex_path :: rest =>
      let local_path := to_local a plex_path in
      print (MsgDryChecking local_path) ;;
      present <- os_path_exists local_path ;;
      if negb present then
        print MsgDryMissing ;;
        dry_run_loop a library_locations rest (S validation_errors)
      else
        let temp_dir :=
          join (staging_parent a library_locations plex_path) (lit "tmp.plexdance") in
        print (MsgDryTempDir temp_dir) ;;
        same <- are_on_same_filesystem local_path temp_dir ;;
        print (MsgDrySameFilesystem same) ;;
        leftover <- os_path_exists temp_dir ;;
        (if leftover then
           listing <- os_listdir temp_dir ;;
           print (MsgDryTempDirState (Some (List.length (filter not_hidden listing))))
         else print (MsgDryTempDirState None)) ;;
        dry_run_loop a library_locations rest
          (if same then validation_errors else S validation_errors)
  end.

Definition dry_run (a : args) (library_locations plex_paths : list str) : M unit :=
  print MsgDryRunMode ;;
  validation_errors <- dry_run_loop a library_locations (sorted plex_paths) 0 ;;
  print (MsgDrySummary validation_errors (List.length plex_paths)) ;;
  if 0 <? validation_errors then sys_exit 1 else ret tt.

Definition main (a : args) : M unit :=
  modify (fun w => with_atexit w true) ;;
  modify (fun w => with_file_paths w []) ;;
  match lines a with
  | [] => print MsgNoPaths ;; sys_exit 1
  | _ =>
      let parsed := map parse_line (lines a) in
      let album_ids_map :=
        fold_left (fun d e => dict_set d (fst e) (snd e)) parsed [] in
      modify (fun w => with_file_paths w (map fst parsed)) ;;
      plex_paths <- get w_file_paths ;;
      (match path_mapping a with
       | Some m =>
           print (MsgUsingMapping (mapping_dict m)) ;;
           for_each (firstn 3 plex_paths)
             (fun plex_path =>
                print (MsgMappingExample plex_path
                         (match dict_get album_ids_map plex_path with
                          | Some album_ids => album_ids
                          | None => []
                          end)
                         (apply_path_mapping plex_path (Some (mapping_dict m)))))
       | None => ret tt
       end) ;;
      validated <-
        (if negb (skip_validation a) then
           match plex_token a with
           | Some (_ :: _) =>
               print MsgValidating ;;
               library_locations <- get_plex_library_locations ;;
               valid <- validate_paths_in_library plex_paths library_locations None ;;
               ret (library_locations, valid)
           | _ => print MsgTokenRequired ;; sys_exit 1
           end
         else ret ([], plex_paths)) ;;
      let library_locations := fst validated in
      let plex_paths := snd validated in
      print (MsgProcessing (List.length plex_paths)) ;;
      if negb (no_dry_run a) then dry_run a library_locations plex_paths
      else
        print MsgInterruptWarning ;;
        try_except (dance a album_ids_map library_locations plex_paths)
          any_exception
          (fun e => print (MsgOperationError e) ;; raise e)
  end.

(** ** A process: [main], the signal handler, the exit hook *)

Definition exit_status {A : Type} (r : outcome A) : Z :=
  match r with
  | Ret _ => 0
  | Raise _ => 1
  | SysExit code => code
  | Interrupt => 1
  end.

(** The handler runs on the world as the interrupted call left it. *)
Definition deliver (w : world) : Z * world :=
  let r := signal_handler w in (exit_status (fst r), snd r).

Definition run_atexit (status : Z) (w : world) : Z * world :=
  if w_atexit w then
    match cleanup_and_restore w with
    | (Interrupt, w') => deliver w'
    | (_, w') => (status, w')
    end
  else (status, w).

Definition run (a : args) (w : world) : Z * world :=
  match main a w with
  | (Interrupt, w') => deliver w'
  | (r, w') => run_atexit (exit_status r) w'
  end.

End Script.

(** ** Reading the command line and the input *)

(** [str.isspace] for one character. *)
Definition py_isspace (c : char) : bool :=
  (((9 <=? c) && (c <=? 13)) || ((28 <=? c) && (c <=? 32))
   || (c =? 133) || (c =? 160) || (c =? 5760)
   || ((8192 <=? c) && (c <=? 8202))
   || (c =? 8232) || (c =? 8233) || (c =? 8239) || (c =? 8287)
   || (c =? 12288))%N.

(** [s.lstrip()] *)
Fixpoint lstrip (s : str) : str :=
  match s with
  | c :: r => if py_isspace c then lstrip r else s
  | [] => []
  end.

(** [s.strip()] *)
Definition strip (s : str) : str := rev (lstrip (rev (lstrip s))).

Definition colon : char := 58%N.
Definition tab : char := 9%N.
Definition comma : char := 44%N.

(** Lines 40-53.  [inl s]: the message about [s] is printed and the
    process exits with status 1. *)
Definition parse_path_mapping (mapping_str : option str) : str + option pathmap :=
  match mapping_str with
  | None | Some [] => inr None
  | Some s =>
      match split_first colon s with
      | Some (local_root, plex_root) =>
          inr (Some {| local_root := Some (strip local_root);
                       plex_root := Some (strip plex_root) |})
      | None => inl s
      end
  end.

(** Lines 426 and 429: [[line.strip() for line in f if line.strip()]]. *)
Definition read_lines (raw : list str) : list str :=
  map strip
    (filter (fun line => match strip line with [] => false | _ => true end) raw).

(** ** The interpreter: [str.isalnum] and [int] *)

Module Unicode.

Definition in_ranges (c : char) (table : list (N * N)) : bool :=
  existsb (fun r => (fst r <=? c) && (c <=? snd r))%N table.

(** The code points for which [str.isalnum] holds (letters and the
    decimal, digit and numeric characters of the Unicode character
    database, version 14.0.0), as closed ranges in increasing order. *)
Definition alnum_ranges : list (N * N) :=
  [(48, 57); (65, 90); (97, 122); (170, 170); (178, 179);
   (181, 181); (185, 186); (188, 190); (192, 214); (216, 246);
   (248, 705); (710, 721); (736, 740); (748, 748); (750, 750);
   (880, 884); (886, 887); (890, 893); (895, 895); (902, 902);
   (904, 906); (908, 908); (910, 929); (931, 1013); (1015, 1153);
   (1162, 1327); (1329, 1366); (1369, 1369); (1376, 1416); (1488, 1514);
   (1519, 1522); (1568, 1610); (1632, 1641); (1646, 1647); (1649, 1747);
   (1749, 1749); (1765, 1766); (1774, 1788); (1791, 1791); (1808, 1808);
   (1810, 1839); (1869, 1957); (1969, 1969); (1984, 2026); (2036, 2037);
   (2042, 2042); (2048, 2069); (2074, 2074); (2084, 2084); (2088, 2088);
   (2112, 2136); (2144, 2154); (2160, 2183); (2185, 2190); (2208, 2249);
   (2308, 2361); (2365, 2365); (2384, 2384); (2392, 2401); (2406, 2415);
   (2417, 2432); (2437, 2444); (2447, 2448); (2451, 2472); (2474, 2480);
   (2482, 2482); (2486, 2489); (2493, 2493); (2510, 2510); (2524, 2525);
   (2527, 2529); (2534, 2545); (2548, 2553); (2556, 2556); (2565, 2570);
   (2575, 2576); (2579, 2600); (2602, 2608); (2610, 2611); (2613, 2614);
   (2616, 2617); (2649, 2652); (2654, 2654); (2662, 2671); (2674, 2676);
   (2693, 2701); (2703, 2705); (2707, 2728); (2730, 2736); (2738, 2739);
   (2741, 2745); (2749, 2749); (2768, 2768); (2784, 2785); (2790, 2799);
   (2809, 2809); (2821, 2828); (2831, 2832); (2835, 2856); (2858, 2864);
   (2866, 2867); (2869, 2873); (2877, 2877); (2908, 2909); (2911, 2913);
   (2918, 2927); (2929, 2935); (2947, 2947); (2949, 2954); (2958, 2960);
   (2962, 2965); (2969, 2970); (2972, 2972); (2974, 2975); (2979, 2980);
   (2984, 2986); (2990, 3001); (3024, 3024); (3046, 3058); (3077, 3084);
   (3086, 3088); (3090, 3112); (3114, 3129); (3133, 3133); (3160, 3162);
   (3165, 3165); (3168, 3169); (3174, 3183); (3192, 3198); (3200, 3200);
   (3205, 3212); (3214, 3216); (3218, 3240); (3242, 3251); (3253, 3257);
   (3261, 3261); (3293, 3294); (3296, 3297); (3302, 3311); (3313, 3314);
   (3332, 3340); (3342, 3344); (3346, 3386); (3389, 3389); (3406, 3406);
   (3412, 3414); (3416, 3425); (3430, 3448); (3450, 3455); (3461, 3478);
   (3482, 3505); (3507, 3515); (3517, 3517); (3520, 3526); (3558, 3567);
   (3585, 3632); (3634, 3635); (3648, 3654); (3664, 3673); (3713, 3714);
   (3716, 3716); (3718, 3722); (3724, 3747); (3749, 3749); (3751, 3760);
   (3762, 3763); (3773, 3773); (3776, 3780); (3782, 3782); (3792, 3801);
   (3804, 3807); (3840, 3840); (3872, 3891); (3904, 3911); (3913, 3948);
   (3976, 3980); (4096, 4138); (4159, 4169); (4176, 4181); (4186, 4189);
   (4193, 4193); (4197, 4198); (4206, 4208); (4213, 4225); (4238, 4238);
   (4240, 4249); (4256, 4293); (4295, 4295); (4301, 4301); (4304, 4346);
   (4348, 4680); (4682, 4685); (4688, 4694); (4696, 4696); (4698, 4701);
   (4704, 4744); (4746, 4749); (4752, 4784); (4786, 4789); (4792, 4798);
   (4800, 4800); (4802, 4805); (4808, 4822); (4824, 4880); (4882, 4885);
   (4888, 4954); (4969, 4988); (4992, 5007); (5024, 5109); (5112, 5117);
   (5121, 5740); (5743, 5759); (5761, 5786); (5792, 5866); (5870, 5880);
   (5888, 5905); (5919, 5937); (5952, 5969); (5984, 5996); (5998, 6000);
   (6016, 6067); (6103, 6103); (6108, 6108); (6112, 6121); (6128, 6137);
   (6160, 6169); (6176, 6264); (6272, 6276); (6279, 6312); (6314, 6314);
   (6320, 6389); (6400, 6430); (6470, 6509); (6512, 6516); (6528, 6571);
   (6576, 6601); (6608, 6618); (6656, 6678); (6688, 6740); (6784, 6793);
   (6800, 6809); (6823, 6823); (6917, 6963); (6981, 6988); (6992, 7001);
   (7043, 7072); (7086, 7141); (7168, 7203); (7232, 7241); (7245, 7293);
   (7296, 7304); (7312, 7354); (7357, 7359); (7401, 7404); (7406, 7411);
   (7413, 7414); (7418, 7418); (7424, 7615); (7680, 7957); (7960, 7965);
   (7968, 8005); (8008, 8013); (8016, 8023); (8025, 8025); (8027, 8027);
   (8029, 8029); (8031, 8061); (8064, 8116); (8118, 8124); (8126, 8126);
   (8130, 8132); (8134, 8140); (8144, 8147); (8150, 8155); (8160, 8172);
   (8178, 8180); (8182, 8188); (8304, 8305); (8308, 8313); (8319, 8329);
   (8336, 8348); (8450, 8450); (8455, 8455); (8458, 8467); (8469, 8469);
   (8473, 8477); (8484, 8484); (8486, 8486); (8488, 8488); (8490, 8493);
   (8495, 8505); (8508, 8511); (8517, 8521); (8526, 8526); (8528, 8585);
   (9312, 9371); (9450, 9471); (10102, 10131); (11264, 11492); (11499, 11502);
   (11506, 11507); (11517, 11517); (11520, 11557); (11559, 11559); (11565, 11565);
   (11568, 11623); (11631, 11631); (11648, 11670); (11680, 11686); (11688, 11694);
   (11696, 11702); (11704, 11710); (11712, 11718); (11720, 11726); (11728, 11734);
   (11736, 11742); (11823, 11823); (12293, 12295); (12321, 12329); (12337, 12341);
   (12344, 12348); (12353, 12438); (12445, 12447); (12449, 12538); (12540, 12543);
   (12549, 12591); (12593, 12686); (12690, 12693); (12704, 12735); (12784, 12799);
   (12832, 12841); (12872, 12879); (12881, 12895); (12928, 12937); (12977, 12991);
   (13312, 19903); (19968, 42124); (42192, 42237); (42240, 42508); (42512, 42539);
   (42560, 42606); (42623, 42653); (42656, 42735); (42775, 42783); (42786, 42888);
   (42891, 42954); (42960, 42961); (42963, 42963); (42965, 42969); (42994, 43009);
   (43011, 43013); (43015, 43018); (43020, 43042); (43056, 43061); (43072, 43123);
   (43138, 43187); (43216, 43225); (43250, 43255); (43259, 43259); (43261, 43262);
   (43264, 43301); (43312, 43334); (43360, 43388); (43396, 43442); (43471, 43481);
   (43488, 43492); (43494, 43518); (43520, 43560); (43584, 43586); (43588, 43595);
   (43600, 43609); (43616, 43638); (43642, 43642); (43646, 43695); (43697, 43697);
   (43701, 43702); (43705, 43709); (43712, 43712); (43714, 43714); (43739, 43741);
   (43744, 43754); (43762, 43764); (43777, 43782); (43785, 43790); (43793, 43798);
   (43808, 43814); (43816, 43822); (43824, 43866); (43868, 43881); (43888, 44002);
   (44016, 44025); (44032, 55203); (55216, 55238); (55243, 55291); (63744, 64109);
   (64112, 64217); (64256, 64262); (64275, 64279); (64285, 64285); (64287, 64296);
   (64298, 64310); (64312, 64316); (64318, 64318); (64320, 64321); (64323, 64324);
   (64326, 64433); (64467, 64829); (64848, 64911); (64914, 64967); (65008, 65019);
   (65136, 65140); (65142, 65276); (65296, 65305); (65313, 65338); (65345, 65370);
   (65382, 65470); (65474, 65479); (65482, 65487); (65490, 65495); (65498, 65500);
   (65536, 65547); (65549, 65574); (65576, 65594); (65596, 65597); (65599, 65613);
   (65616, 65629); (65664, 65786); (65799, 65843); (65856, 65912); (65930, 65931);
   (66176, 66204); (66208, 66256); (66273, 66299); (66304, 66339); (66349, 66378);
   (66384, 66421); (66432, 66461); (66464, 66499); (66504, 66511); (66513, 66517);
   (66560, 66717); (66720, 66729); (66736, 66771); (66776, 66811); (66816, 66855);
   (66864, 66915); (66928, 66938); (66940, 66954); (66956, 66962); (66964, 66965);
   (66967, 66977); (66979, 66993); (66995, 67001); (67003, 67004); (67072, 67382);
   (67392, 67413); (67424, 67431); (67456, 67461); (67463, 67504); (67506, 67514);
   (67584, 67589); (67592, 67592); (67594, 67637); (67639, 67640); (67644, 67644);
   (67647, 67669); (67672, 67702); (67705, 67742); (67751, 67759); (67808, 67826);
   (67828, 67829); (67835, 67867); (67872, 67897); (67968, 68023); (68028, 68047);
   (68050, 68096); (68112, 68115); (68117, 68119); (68121, 68149); (68160, 68168);
   (68192, 68222); (68224, 68255); (68288, 68295); (68297, 68324); (68331, 68335);
   (68352, 68405); (68416, 68437); (68440, 68466); (68472, 68497); (68521, 68527);
   (68608, 68680); (68736, 68786); (68800, 68850); (68858, 68899); (68912, 68921);
   (69216, 69246); (69248, 69289); (69296, 69297); (69376, 69415); (69424, 69445);
   (69457, 69460); (69488, 69505); (69552, 69579); (69600, 69622); (69635, 69687);
   (69714, 69743); (69745, 69746); (69749, 69749); (69763, 69807); (69840, 69864);
   (69872, 69881); (69891, 69926); (69942, 69951); (69956, 69956); (69959, 69959);
   (69968, 70002); (70006, 70006); (70019, 70066); (70081, 70084); (70096, 70106);
   (70108, 70108); (70113, 70132); (70144, 70161); (70163, 70187); (70272, 70278);
   (70280, 70280); (70282, 70285); (70287, 70301); (70303, 70312); (70320, 70366);
   (70384, 70393); (70405, 70412); (70415, 70416); (70419, 70440); (70442, 70448);
   (70450, 70451); (70453, 70457); (70461, 70461); (70480, 70480); (70493, 70497);
   (70656, 70708); (70727, 70730); (70736, 70745); (70751, 70753); (70784, 70831);
   (70852, 70853); (70855, 70855); (70864, 70873); (71040, 71086); (71128, 71131);
   (71168, 71215); (71236, 71236); (71248, 71257); (71296, 71338); (71352, 71352);
   (71360, 71369); (71424, 71450); (71472, 71483); (71488, 71494); (71680, 71723);
   (71840, 71922); (71935, 71942); (71945, 71945); (71948, 71955); (71957, 71958);
   (71960, 71983); (71999, 71999); (72001, 72001); (72016, 72025); (72096, 72103);
   (72106, 72144); (72161, 72161); (72163, 72163); (72192, 72192); (72203, 72242);
   (72250, 72250); (72272, 72272); (72284, 72329); (72349, 72349); (72368, 72440);
   (72704, 72712); (72714, 72750); (72768, 72768); (72784, 72812); (72818, 72847);
   (72960, 72966); (72968, 72969); (72971, 73008); (73030, 73030); (73040, 73049);
   (73056, 73061); (73063, 73064); (73066, 73097); (73112, 73112); (73120, 73129);
   (73440, 73458); (73648, 73648); (73664, 73684); (73728, 74649); (74752, 74862);
   (74880, 75075); (77712, 77808); (77824, 78894); (82944, 83526); (92160, 92728);
   (92736, 92766); (92768, 92777); (92784, 92862); (92864, 92873); (92880, 92909);
   (92928, 92975); (92992, 92995); (93008, 93017); (93019, 93025); (93027, 93047);
   (93053, 93071); (93760, 93846); (93952, 94026); (94032, 94032); (94099, 94111);
   (94176, 94177); (94179, 94179); (94208, 100343); (100352, 101589); (101632, 101640);
   (110576, 110579); (110581, 110587); (110589, 110590); (110592, 110882); (110928, 110930);
   (110948, 110951); (110960, 111355); (113664, 113770); (113776, 113788); (113792, 113800);
   (113808, 113817); (119520, 119539); (119648, 119672); (119808, 119892); (119894, 119964);
   (119966, 119967); (119970, 119970); (119973, 119974); (119977, 119980); (119982, 119993);
   (119995, 119995); (119997, 120003); (120005, 120069); (120071, 120074); (120077, 120084);
   (120086, 120092); (120094, 120121); (120123, 120126); (120128, 120132); (120134, 120134);
   (120138, 120144); (120146, 120485); (120488, 120512); (120514, 120538); (120540, 120570);
   (120572, 120596); (120598, 120628); (120630, 120654); (120656, 120686); (120688, 120712);
   (120714, 120744); (120746, 120770); (120772, 120779); (120782, 120831); (122624, 122654);
   (123136, 123180); (123191, 123197); (123200, 123209); (123214, 123214); (123536, 123565);
   (123584, 123627); (123632, 123641); (124896, 124902); (124904, 124907); (124909, 124910);
   (124912, 124926); (124928, 125124); (125127, 125135); (125184, 125251); (125259, 125259);
   (125264, 125273); (126065, 126123); (126125, 126127); (126129, 126132); (126209, 126253);
   (126255, 126269); (126464, 126467); (126469, 126495); (126497, 126498); (126500, 126500);
   (126503, 126503); (126505, 126514); (126516, 126519); (126521, 126521); (126523, 126523);
   (126530, 126530); (126535, 126535); (126537, 126537); (126539, 126539); (126541, 126543);
   (126545, 126546); (126548, 126548); (126551, 126551); (126553, 126553); (126555, 126555);
   (126557, 126557); (126559, 126559); (126561, 126562); (126564, 126564); (126567, 126570);
   (126572, 126578); (126580, 126583); (126585, 126588); (126590, 126590); (126592, 126601);
   (126603, 126619); (126625, 126627); (126629, 126633); (126635, 126651); (127232, 127244);
   (130032, 130041); (131072, 173791); (173824, 177976); (177984, 178205); (178208, 183969);
   (183984, 191456); (194560, 195101); (196608, 201546)]%N.

(** [c.isalnum()] for a string of one character. *)
Definition isalnum (c : char) : bool := in_ranges c alnum_ranges.

(** The decimal digits ([str.isdecimal]): every range starts at a digit
    zero and holds whole runs of the ten digits in order. *)
Definition decimal_ranges : list (N * N) :=
  [(48, 57); (1632, 1641); (1776, 1785); (1984, 1993); (2406, 2415);
   (2534, 2543); (2662, 2671); (2790, 2799); (2918, 2927); (3046, 3055);
   (3174, 3183); (3302, 3311); (3430, 3439); (3558, 3567); (3664, 3673);
   (3792, 3801); (3872, 3881); (4160, 4169); (4240, 4249); (6112, 6121);
   (6160, 6169); (6470, 6479); (6608, 6617); (6784, 6793); (6800, 6809);
   (6992, 7001); (7088, 7097); (7232, 7241); (7248, 7257); (42528, 42537);
   (43216, 43225); (43264, 43273); (43472, 43481); (43504, 43513); (43600, 43609);
   (44016, 44025); (65296, 65305); (66720, 66729); (68912, 68921); (69734, 69743);
   (69872, 69881); (69942, 69951); (70096, 70105); (70384, 70393); (70736, 70745);
   (70864, 70873); (71248, 71257); (71360, 71369); (71472, 71481); (71904, 71913);
   (72016, 72025); (72784, 72793); (73040, 73049); (73120, 73129); (92768, 92777);
   (92864, 92873); (93008, 93017); (120782, 120831); (123200, 123209); (123632, 123641);
   (125264, 125273); (130032, 130041)]%N.

Definition decimal_digit (c : char) : option N :=
  match find (fun r => (fst r <=? c) && (c <=? snd r))%N decimal_ranges with
  | Some r => Some ((c - fst r) mod 10)%N
  | None => None
  end.

End Unicode.

(** [int(s)] for a string, in base ten.  The text is first brought to
    ASCII: white space beyond ASCII becomes a blank, a decimal digit of
    any script its ASCII digit, anything else beyond ASCII a ['?'].  Then
    come optional C white space, an optional sign, and digits that single
    underscores may separate, followed by C white space only.  More than
    4300 digits are refused.  [None] is [ValueError]. *)
Definition int_ascii (c : char) : char :=
  (if c <? 128 then c
   else if py_isspace c then 32
   else match Unicode.decimal_digit c with
        | Some d => 48 + d
        | None => 63
        end)%N.

(** [Py_ISSPACE] *)
Definition c_isspace (c : char) : bool :=
  (((9 <=? c) && (c <=? 13)) || (c =? 32))%N.

Fixpoint lstrip_c (s : str) : str :=
  match s with
  | c :: r => if c_isspace c then lstrip_c r else s
  | [] => []
  end.

(** The digits and what follows them: the value, the number of digits and
    the rest; [prev] tells that the last character was an underscore. *)
Fixpoint scan_digits (s : str) (prev : bool) (acc : Z) (digits : nat)
    : option (Z * nat * str) :=
  match s with
  | c :: r =>
      if ((48 <=? c) && (c <=? 57))%N
      then scan_digits r false (acc * 10 + Z.of_N (c - 48))%Z (S digits)
      else if (c =? 95)%N
           then (if prev then None else scan_digits r true acc digits)
           else if prev then None else Some (acc, digits, s)
  | [] => if prev then None else Some (acc, digits, [])
  end.

Definition int_of_str (s : str) : option Z :=
  let text := lstrip_c (map int_ascii s) in
  let '(negative, text) :=
    match text with
    | 43%N :: r => (false, r)
    | 45%N :: r => (true, r)
    | _ => (false, text)
    end in
  match text with
  | 95%N :: _ => None
  | _ =>
      match scan_digits text false 0 0 with
      | Some (value, digits, rest) =>
          if (digits =? 0) || (4300 <? digits) || negb (forallb c_isspace rest)
          then None
          else Some (if negative then - value else value)%Z
      | None => None
      end
  end.

(** ** Vocabulary of the statements *)

(** [steps R m]: every run of [m] takes a world to an [R]-related one,
    however it ends. *)
Definition steps (R : world -> world -> Prop) {A : Type} (m : M A) : Prop :=
  forall w r w', m w = (r, w') -> R w w'.

(** Two relations between the world before and after.  [agree F]: the
    observation [F] is unchanged.  [emits P]: the trace grew by system calls
    that all satisfy [P]. *)
Definition agree {T : Type} (F : world -> T) (w w' : world) : Prop := F w' = F w.

Definition emits (P : event -> Prop) (w w' : world) : Prop :=
  exists evs, w_trace w' = w_trace w ++ evs /\ Forall P evs.

(** [calm m]: started with no signal pending, [m] returns or raises, and
    no signal is pending afterwards. *)
Definition calm {A : Type} (m : M A) : Prop :=
  forall w r w',
    w_signal w = None -> m w = (r, w') ->
    w_signal w' = None /\ ((exists a, r = Ret a) \/ (exists e, r = Raise e)).

(** Kinds of system calls. *)
Definition not_rename (e : event) : Prop := is_rename e = false.

Definition any_event (e : event) : Prop := True.

(** The system call [e] is the rename of the entry of [op] into its
    staging path, or of the entry's AppleDouble file next to it. *)
Definition stages (op : str * str * str) (e : event) : bool :=
  let '(local_path, temp_path, _) := op in
  match e with
  | EvRename src dst _ =>
      (PyStr.eqb src local_path && PyStr.eqb dst temp_path)
      || (PyStr.eqb src (appledouble (PosixPath.dirname local_path)
                           (PosixPath.basename local_path))
          && PyStr.eqb dst (appledouble (PosixPath.dirname temp_path)
                              (PosixPath.basename temp_path)))
  | _ => false
  end.

(** [only_stages op e]: if [e] is a rename, it stages the entry of [op];
    [stages_one_of ops e]: if [e] is a rename, it stages the entry of one
    of [ops]. *)
Definition only_stages (op : str * str * str) (e : event) : Prop :=
  is_rename e = true -> stages op e = true.

Definition stages_one_of (ops : list (str * str * str)) (e : event) : Prop :=
  is_rename e = true -> exists op, In op ops /\ stages op e = true.

(** [keeps_roots w w']: every staging directory registered in [w] is still
    registered, for the same parent, in [w']. *)
Definition keeps_roots (w w' : world) : Prop :=
  forall parent temp_dir,
    dict_get (w_library_temp_dirs w) parent = Some temp_dir ->
    dict_get (w_library_temp_dirs w') parent = Some temp_dir.

(** [registers parent temp_dir w w']: the registry is as it was, or has
    [temp_dir] entered for [parent]. *)
Definition registers (parent temp_dir : str) (w w' : world) : Prop :=
  w_library_temp_dirs w' = w_library_temp_dirs w \/
  w_library_temp_dirs w' = dict_set (w_library_temp_dirs w) parent temp_dir.

(** The world after a connection attempt. *)
Definition connected (w : world) : world :=
  with_polls (with_trace w (w_trace w ++ [EvConnect])) (S (w_polls w)).

(** [polled k w w']: from [w] to [w'], [k] polls took place, each followed
    by a five-second sleep, and nothing else happened but printing. *)
Definition polled (k : nat) (w w' : world) : Prop :=
  w_signal w' = None /\
  w_plex w' = w_plex w /\
  w_polls w' = w_polls w + k /\
  w_trace w' = w_trace w ++ List.concat (repeat [EvConnect; EvSleep 5] k) /\
  w_fs w' = w_fs w /\
  w_library_temp_dirs w' = w_library_temp_dirs w /\
  w_temp_paths w' = w_temp_paths w /\
  w_file_paths w' = w_file_paths w /\
  w_atexit w' = w_atexit w /\
  w_clock w' = (w_clock w + 5 * Z.of_nat k)%Z /\
  exists more, w_out w' = w_out w ++ more.

(** The service, as reached from [w], answers every poll with "not all
    removed". *)
Definition always_visible (rt : runtime) (moved : list (str * list str))
    (w : world) : Prop :=
  forall w0,
    w_plex w0 = w_plex w -> w_signal w0 = None ->
    exists n, fst (check_albums_removed_from_plex rt moved w0) = Ret (false, n).

(** A file name: no separator in it. *)
Definition no_slash (s : str) : bool := forallb (fun c => negb (N.eqb c slash)) s.

(** [sep.join(l)] *)
Fixpoint join_with (sep : char) (l : list str) : str :=
  match l with
  | [] => []
  | [x] => x
  | x :: r => x ++ sep :: join_with sep r
  end.

(** No white space at either end. *)
Definition trimmed (s : str) : bool :=
  match s with
  | [] => true
  | c :: _ => negb (py_isspace c) && negb (py_isspace (last s c))
  end.

Definition all_space (s : str) : bool := forallb py_isspace s.

(** [escapes allowed m]: [m] never ends in [sys.exit], and an exception
    that leaves it is one of [allowed].  It may return, and a signal may
    interrupt it. *)
Definition escapes (allowed : exn -> bool) {A : Type} (m : M A) : Prop :=
  forall w r w',
    m w = (r, w') ->
    match r with
    | Ret _ | Interrupt => True
    | Raise e => allowed e = true
    | SysExit _ => False
    end.

Definition no_exception (e : exn) : bool := false.

Definition is_ValueError (e : exn) : bool :=
  match e with
  | ValueError => true
  | _ => false
  end.

(** System calls that only look at the file system. *)
Definition is_read (e : event) : bool :=
  match e with
  | EvExists _ | EvIsDir _ | EvIsFile _ | EvListdir _ | EvStat _ => true
  | _ => false
  end.

(** System calls that delete. *)
Definition is_delete (e : event) : bool :=
  match e with
  | EvRmdir _ _ | EvRmtree _ _ | EvRemove _ _ => true
  | _ => false
  end.

(** The outcome is a return, or the delivery of a signal. *)
Definition settled {A : Type} (r : outcome A) : bool :=
  match r with
  | Ret _ | Interrupt => true
  | Raise _ | SysExit _ => false
  end.

(** [interrupts_cleanly m]: when a signal interrupts [m], none is pending
    any more. *)
Definition interrupts_cleanly {A : Type} (m : M A) : Prop :=
  forall w w', m w = (Interrupt, w') -> w_signal w' = None.

(** Calls to the catalog service, and the waiting between them. *)
Definition is_service (e : event) : bool :=
  match e with
  | EvConnect | EvSleep _ => true
  | _ => false
  end.

Definition reads (e : event) : Prop := is_read e = true.

Definition offline (e : event) : Prop := is_service e = false.

(** At most one more connection was made. *)
Definition polls_once (w w' : world) : Prop :=
  w_polls w' = w_polls w \/ w_polls w' = S (w_polls w).

(** System calls that delete nothing. *)
Definition keeps (e : event) : Prop := is_delete e = false.

(** The configurations [main] refuses before it looks at the library: no
    input line; or, with validation on, no token, or a service (as the
    first connection finds it) that does not give the library locations
    or gives locations that some path lies outside of. *)
Definition rejects (a : args) (srv : plex_server) : bool :=
  match lines a with
  | [] => true
  | _ =>
      negb (skip_validation a) &&
      match plex_token a with
      | Some (_ :: _) =>
          match connect_error srv with
          | Some _ => true
          | None =>
              match section_locations srv with
              | [] => false
              | locs =>
                  negb (forallb (fun p => existsb (startswith p) locs)
                          (map fst (map parse_line (lines a))))
              end
          end
      | _ => true
      end
  end.

(** One connection to the service at most, and no other system call. *)
Definition at_most_one_connection (evs : list event) : bool :=
  match evs with
  | [] | [EvConnect] => true
  | _ => false
  end.

(** What [are_on_same_filesystem] computes on a file system that does not
    change under it: the nearest existing ancestor of [path2] (lines
    60-63), then the comparison of the two device numbers, [False] for
    every [OSError]. *)
Fixpoint existing_ancestor (fs : FS.t) (fuel : nat) (check_path2 : str)
    : option str :=
  match fuel with
  | O => None
  | S f =>
      if FS.exists_ fs check_path2 then Some check_path2
      else
        let parent := PosixPath.dirname check_path2 in
        if PyStr.eqb parent check_path2 then None
        else existing_ancestor fs f parent
  end.

Definition same_device (fs : FS.t) (path1 path2 : str) : bool :=
  match existing_ancestor fs (S (List.length path2)) path2 with
  | Some check_path2 =>
      match FS.stat_dev fs path1, FS.stat_dev fs check_path2 with
      | inr stat1, inr stat2 => N.eqb stat1 stat2
      | _, _ => false
      end
  | None => false
  end.

(** The staging directory the dry run and the dance compute for a path. *)
Definition staging_dir (a : args) (library_locations : list str)
    (plex_path : str) : str :=
  PosixPath.join (staging_parent a library_locations plex_path) (lit "tmp.plexdance").

(** A path the dry run finds no fault with: its local copy exists, on the
    device of its staging directory. *)
Definition ready (a : args) (library_locations : list str) (fs : FS.t)
    (plex_path : str) : bool :=
  FS.exists_ fs (to_local a plex_path) &&
  same_device fs (to_local a plex_path) (staging_dir a library_locations plex_path).

(** The staging directory of a path can be listed if it is there. *)
Definition listable (a : args) (library_locations : list str) (fs : FS.t)
    (plex_path : str) : bool :=
  negb (FS.exists_ fs (staging_dir a library_locations plex_path))
  || FS.isdir fs (staging_dir a library_locations plex_path).

(** How a POSIX shell reads a line of literal words.  Blanks separate the
    words; a word is a run of pieces, each of them plain characters, a
    single-quoted text (everything up to the next single quote) or a
    double-quoted text without [$], backquote and backslash.  [None]: the
    line is outside of this fragment, or a quote is left open. *)
Inductive sh_mode := ShOut | ShWord | ShSingle | ShDouble.

Definition sh_plain (c : char) : bool :=
  (((48 <=? c) && (c <=? 57)) || ((65 <=? c) && (c <=? 90))
   || ((97 <=? c) && (c <=? 122))
   || (c =? 95) || (c =? 64) || (c =? 37) || (c =? 43) || (c =? 61)
   || (c =? 58) || (c =? 44) || (c =? 46) || (c =? 47) || (c =? 45))%N.

(** [cur] is the current word and [acc] are the words read, both
    backwards. *)
Fixpoint sh_scan (s : str) (mode : sh_mode) (cur : str) (acc : list str)
    : option (list str) :=
  match s with
  | [] =>
      match mode with
      | ShOut => Some (rev acc)
      | ShWord => Some (rev (rev cur :: acc))
      | ShSingle | ShDouble => None
      end
  | c :: r =>
      match mode with
      | ShOut | ShWord =>
          if (c =? 39)%N then sh_scan r ShSingle cur acc
          else if (c =? 34)%N then sh_scan r ShDouble cur acc
          else if (c =? 32)%N || (c =? 9)%N then
            match mode with
            | ShWord => sh_scan r ShOut [] (rev cur :: acc)
            | _ => sh_scan r ShOut [] acc
            end
          else if sh_plain c then sh_scan r ShWord (c :: cur) acc
          else None
      | ShSingle =>
          if (c =? 39)%N then sh_scan r ShWord cur acc
          else sh_scan r ShSingle (c :: cur) acc
      | ShDouble =>
          if (c =? 34)%N then sh_scan r ShWord cur acc
          else if (c =? 36)%N || (c =? 96)%N || (c =? 92)%N then None
          else sh_scan r ShDouble (c :: cur) acc
      end
  end.

Definition sh_words (line : str) : option (list str) := sh_scan line ShOut [] [].

(** The file system raises [OSError]s, and [ValueError] for a name with
    an embedded NUL. *)
Definition fs_error (nul : bool) (e : exn) : Prop :=
  is_OSError e = true \/ (e = ValueError /\ nul = true).

(** The request for the library locations is one connection at most. *)
Definition one_connection (w w' : world) : Prop :=
  exists c, w_trace w' = w_trace w ++ c /\ at_most_one_connection c = true.

(** At most one connection, then reads only. *)
Definition connects_first (w w' : world) : Prop :=
  exists c rs,
    w_trace w' = w_trace w ++ c ++ rs /\
    at_most_one_connection c = true /\ Forall reads rs.

(** ** Concrete runs *)

Module Examples.

(** The interpreter as it is, at a fixed time and process. *)
Definition rt0 : runtime :=
  {| isalnum := Unicode.isalnum;
     py_int := int_of_str;
     strftime := fun _ => lit "2025-01-01 00:00:00";
     getpid := 4242%N |}.

Definition dir (dev : N) (p : list string) : FS.path * FS.node :=
  (map lit p, {| FS.n_kind := FS.Dir; FS.n_dev := dev |}).

Definition file (dev : N) (p : list string) : FS.path * FS.node :=
  (map lit p, {| FS.n_kind := FS.File []; FS.n_dev := dev |}).

(** The service no longer knows any album. *)
Definition server_gone : plex_server :=
  {| connect_error := None;
     section_locations := [lit "/media/Music"];
     search_albums := inr [];
     fetch_item := fun _ => inl NotFound |}.

(** The service still shows every album. *)
Definition server_busy : plex_server :=
  {| connect_error := None;
     section_locations := [lit "/media/Music"];
     search_albums := inr [];
     fetch_item := fun _ => inr true |}.

(** The service accepts the connection, then every lookup fails. *)
Definition server_flaky : plex_server :=
  {| connect_error := None;
     section_locations := [lit "/media/Music"];
     search_albums := inl ServiceError;
     fetch_item := fun _ => inl ServiceError |}.

(** The service cannot be reached. *)
Definition server_down : plex_server :=
  {| connect_error := Some ServiceError;
     section_locations := [];
     search_albums := inl ServiceError;
     fetch_item := fun _ => inl ServiceError |}.

(** A fresh process: nothing printed, nothing staged. *)
Definition start (fs : FS.t) (srv : plex_server) (signal : option nat) : world :=
  {| w_fs := fs; w_trace := []; w_out := [];
     w_library_temp_dirs := []; w_temp_paths := []; w_file_paths := [];
     w_atexit := false; w_plex := fun _ => srv; w_polls := 0;
     w_clock := 0%Z; w_signal := signal |}.

(** *** A mapped library: [/media/Music] for the service, [/Users/u/Music]
    on this machine; three albums of one artist. *)

Definition music_fs : FS.t :=
  [dir 1 []; dir 1 ["Users"]; dir 1 ["Users"; "u"];
   dir 1 ["Users"; "u"; "Music"]; dir 1 ["Users"; "u"; "Music"; "A"];
   dir 1 ["Users"; "u"; "Music"; "A"; "x1"];
   file 1 ["Users"; "u"; "Music"; "A"; "x1"; "01.flac"];
   dir 1 ["Users"; "u"; "Music"; "A"; "x2"];
   file 1 ["Users"; "u"; "Music"; "A"; "x2"; "01.flac"];
   dir 1 ["Users"; "u"; "Music"; "A"; "x3"];
   file 1 ["Users"; "u"; "Music"; "A"; "x3"; "01.flac"]]%string.

Definition music_args : args :=
  {| lines := [lit "/media/Music/A/x1" ++ [9%N] ++ lit "101";
               lit "/media/Music/A/x2" ++ [9%N] ++ lit "102";
               lit "/media/Music/A/x3" ++ [9%N] ++ lit "103"];
     path_mapping := Some (lit "/Users/u/Music", lit "/media/Music");
     parallel := false;
     max_wait := 10%Z;
     no_dry_run := true;
     plex_token := Some (lit "token");
     skip_validation := false |}.

Definition x1_local : str := lit "/Users/u/Music/A/x1".
Definition x1_catalog : str := lit "/media/Music/A/x1".
Definition x1_staged : str := lit "/Users/u/tmp.plexdance/0_A_x1".

(** The same library with the residue of an earlier run: a staging
    directory that holds one album and no recovery log. *)
Definition leftover_fs : FS.t :=
  music_fs ++
  [dir 1 ["Users"; "u"; "tmp.plexdance"];
   dir 1 ["Users"; "u"; "tmp.plexdance"; "0_A_old"]]%string.

(** *** An album and its artist directory, both listed; no mapping. *)

Definition nested_fs : FS.t :=
  [dir 1 []; dir 1 ["m"]; dir 1 ["m"; "A"]; dir 1 ["m"; "A"; "x"];
   file 1 ["m"; "A"; "x"; "01.flac"];
   dir 1 ["m"; "B"]; dir 1 ["m"; "B"; "y"]]%string.

Definition nested_args : args :=
  {| lines := [lit "/m/A/x"; lit "/m/A"; lit "/m/B/y"];
     path_mapping := None;
     parallel := false;
     max_wait := 10%Z;
     no_dry_run := true;
     plex_token := None;
     skip_validation := true |}.

(** *** An album on another device than the staging directory. *)

Definition split_fs : FS.t :=
  [dir 1 []; dir 1 ["stage"]; dir 2 ["mnt"]; dir 2 ["mnt"; "A"];
   dir 2 ["mnt"; "A"; "x"]]%string.

(** Does the trace hold a rename from [src] to [dst]? *)
Definition renamed (src dst : str) (e : event) : bool :=
  match e with
  | EvRename s d _ => PyStr.eqb s src && PyStr.eqb d dst
  | _ => false
  end.

Definition is_restore_hint (m : msg) : bool :=
  match m with
  | MsgRestoreHint _ => true
  | _ => false
  end.

(** Is some node of the store called [name]? *)
Definition holds_name (fs : FS.t) (name : str) : bool :=
  existsb (fun e => PyStr.eqb (last (fst e) []) name) fs.

(** *** The mapped library again: a dry run, and a run that does not wait. *)

Definition dry_args : args :=
  {| lines := lines music_args;
     path_mapping := path_mapping music_args;
     parallel := false;
     max_wait := 10%Z;
     no_dry_run := false;
     plex_token := plex_token music_args;
     skip_validation := false |}.

Definition impatient_args : args :=
  {| lines := lines music_args;
     path_mapping := path_mapping music_args;
     parallel := false;
     max_wait := 0%Z;
     no_dry_run := true;
     plex_token := plex_token music_args;
     skip_validation := false |}.

(** *** The mapped library with one input line outside of it. *)

Definition stray_args : args :=
  {| lines := lines music_args ++ [lit "/srv/other/z" ++ [9%N] ++ lit "7"];
     path_mapping := path_mapping music_args;
     parallel := false;
     max_wait := 10%Z;
     no_dry_run := true;
     plex_token := plex_token music_args;
     skip_validation := false |}.

(** *** Two albums of two artists, no mapping, no validation; and the
    process at the moment a signal reaches it at the first system call of
    phase 3, with both albums staged. *)

Definition plain_args : args :=
  {| lines := [lit "/m/A/x"; lit "/m/B/y"];
     path_mapping := None;
     parallel := false;
     max_wait := 10%Z;
     no_dry_run := true;
     plex_token := None;
     skip_validation := true |}.

Definition staged_world : world :=
  snd (main rt0 plain_args (start nested_fs server_gone (Some 24))).

End Examples.

(* ================================================================== *)
(** * Properties *)

(** ** UTF-8 *)

Module Utf8Facts.
Import Utf8.

Ltac ndm := zify; Z.to_euclidean_division_equations; lia.

Lemma encode_char_cases (c : char) (a : list N) :
  encode_char c = Some a ->
  (c < 128 /\ a = [c])%N \/
  (128 <= c < 2048 /\ a = [192 + c / 64; 128 + c mod 64])%N \/
  (2048 <= c < 65536 /\ is_surrogate c = false /\
   a = [224 + c / 4096; 128 + (c / 64) mod 64; 128 + c mod 64])%N \/
  (65536 <= c <= 1114111 /\
   a = [240 + c / 262144; 128 + (c / 4096) mod 64;
        128 + (c / 64) mod 64; 128 + c mod 64])%N.
Proof.
  unfold encode_char.
  destruct (N.ltb_spec c 128); [intros [= <-]; auto|].
  destruct (N.ltb_spec c 2048); [intros [= <-]; right; left; auto|].
  destruct (N.ltb_spec c 65536).
  - destruct (is_surrogate c) eqn:E; [discriminate|].
    intros [= <-]. right; right; left; auto.
  - destruct (N.leb_spec c 1114111); [|discriminate].
    intros [= <-]. right; right; right; auto.
Qed.

Lemma encode_char_length (c : char) (a : list N) :
  encode_char c = Some a -> 1 <= List.length a <= 4.
Proof.
  intros H. apply encode_char_cases in H.
  destruct H as [[_ ->]|[[_ ->]|[(_ & _ & ->)|[_ ->]]]]; simpl; lia.
Qed.

Lemma decode_step (c : char) (a r : list N) :
  encode_char c = Some a ->
  decode (a ++ r) = option_map (cons c) (decode r).
Proof.
  intros H. apply encode_char_cases in H.
  destruct H as [[Hc ->]|[[Hc ->]|[(Hc & Hs & ->)|[Hc ->]]]].
  - simpl. destruct (N.ltb_spec c 128); [reflexivity|lia].
  - cbn [app decode].
    assert (E1 : (192 + c / 64 <? 128)%N = false) by (apply N.ltb_ge; ndm).
    assert (E2 : (192 + c / 64 <? 194)%N = false) by (apply N.ltb_ge; ndm).
    assert (E3 : (192 + c / 64 <? 224)%N = true) by (apply N.ltb_lt; ndm).
    rewrite E1, E2, E3.
    assert (E4 : is_cont (128 + c mod 64) = true).
    { unfold is_cont. apply andb_true_iff; split;
        [apply N.leb_le; ndm | apply N.ltb_lt; ndm]. }
    rewrite E4.
    replace ((192 + c / 64 - 192) * 64 + (128 + c mod 64 - 128))%N with c
      by ndm.
    reflexivity.
  - cbn [app decode].
    assert (E1 : (224 + c / 4096 <? 128)%N = false) by (apply N.ltb_ge; ndm).
    assert (E2 : (224 + c / 4096 <? 194)%N = false) by (apply N.ltb_ge; ndm).
    assert (E3 : (224 + c / 4096 <? 224)%N = false) by (apply N.ltb_ge; ndm).
    assert (E4 : (224 + c / 4096 <? 240)%N = true) by (apply N.ltb_lt; ndm).
    rewrite E1, E2, E3, E4.
    assert (E5 : is_cont (128 + (c / 64) mod 64) = true).
    { unfold is_cont. apply andb_true_iff; split;
        [apply N.leb_le; ndm | apply N.ltb_lt; ndm]. }
    assert (E6 : is_cont (128 + c mod 64) = true).
    { unfold is_cont. apply andb_true_iff; split;
        [apply N.leb_le; ndm | apply N.ltb_lt; ndm]. }
    rewrite E5, E6.
    replace ((224 + c / 4096 - 224) * 4096 + (128 + (c / 64) mod 64 - 128) * 64
             + (128 + c mod 64 - 128))%N with c by ndm.
    rewrite Hs.
    assert (E7 : (2048 <=? c)%N = true) by (apply N.leb_le; ndm).
    rewrite E7. reflexivity.
  - cbn [app decode].
    assert (E1 : (240 + c / 262144 <? 128)%N = false) by (apply N.ltb_ge; ndm).
    assert (E2 : (240 + c / 262144 <? 194)%N = false) by (apply N.ltb_ge; ndm).
    assert (E3 : (240 + c / 262144 <? 224)%N = false) by (apply N.ltb_ge; ndm).
    assert (E4 : (240 + c / 262144 <? 240)%N = false) by (apply N.ltb_ge; ndm).
    assert (E4' : (240 + c / 262144 <? 245)%N = true) by (apply N.ltb_lt; ndm).
    rewrite E1, E2, E3, E4, E4'.
    assert (E5 : is_cont (128 + (c / 4096) mod 64) = true).
    { unfold is_cont. apply andb_true_iff; split;
        [apply N.leb_le; ndm | apply N.ltb_lt; ndm]. }
    assert (E6 : is_cont (128 + (c / 64) mod 64) = true).
    { unfold is_cont. apply andb_true_iff; split;
        [apply N.leb_le; ndm | apply N.ltb_lt; ndm]. }
    assert (E7 : is_cont (128 + c mod 64) = true).
    { unfold is_cont. apply andb_true_iff; split;
        [apply N.leb_le; ndm | apply N.ltb_lt; ndm]. }
    rewrite E5, E6, E7.
    replace ((240 + c / 262144 - 240) * 262144
             + (128 + (c / 4096) mod 64 - 128) * 4096
             + (128 + (c / 64) mod 64 - 128) * 64
             + (128 + c mod 64 - 128))%N with c by ndm.
    assert (E8 : (65536 <=? c)%N = true) by (apply N.leb_le; ndm).
    assert (E9 : (c <=? 1114111)%N = true) by (apply N.leb_le; ndm).
    rewrite E8, E9. reflexivity.
Qed.

Lemma encode_decode (t : str) (b : list N) :
  encode t = Some b -> decode b = Some t.
Proof.
  revert b. induction t as [|c t IH]; simpl; intros b H.
  - injection H as <-. reflexivity.
  - destruct (encode_char c) as [a|] eqn:Ec; [|discriminate].
    destruct (encode t) as [bt|] eqn:Et; [|discriminate].
    injection H as <-.
    rewrite (decode_step c a bt Ec), (IH _ eq_refl). reflexivity.
Qed.

Lemma is_cont_range (b : N) : is_cont b = true -> (128 <= b < 192)%N.
Proof.
  unfold is_cont. rewrite andb_true_iff, N.leb_le, N.ltb_lt. tauto.
Qed.

Lemma encode_cons (c : char) (t : str) (a bt : list N) :
  encode_char c = Some a -> encode t = Some bt ->
  encode (c :: t) = Some (a ++ bt).
Proof. intros Ha Ht. simpl. rewrite Ha, Ht. reflexivity. Qed.

Lemma decode_encode_aux (n : nat) :
  forall (b : list N) (t : str),
    List.length b <= n -> decode b = Some t -> encode t = Some b.
Proof.
  induction n as [|n IH]; intros b t Hn Hd.
  - destruct b; [|simpl in Hn; lia]. injection Hd as <-. reflexivity.
  - destruct b as [|b0 r]; [injection Hd as <-; reflexivity|].
    simpl in Hn. cbn [decode] in Hd.
    destruct (N.ltb_spec b0 128) as [L1|L1].
    { destruct (decode r) as [t'|] eqn:Er; [|discriminate].
      injection Hd as <-.
      change (b0 :: r) with ([b0] ++ r). apply encode_cons.
      - unfold encode_char. destruct (N.ltb_spec b0 128); [reflexivity|lia].
      - apply IH; [lia|assumption]. }
    destruct (N.ltb_spec b0 194) as [L2|L2]; [discriminate|].
    destruct (N.ltb_spec b0 224) as [L3|L3].
    { destruct r as [|b1 r1]; [discriminate|].
      destruct (is_cont b1) eqn:C1; [|discriminate].
      apply is_cont_range in C1.
      destruct (decode r1) as [t'|] eqn:Er; [|discriminate].
      injection Hd as <-.
      change (b0 :: b1 :: r1) with ([b0; b1] ++ r1). apply encode_cons.
      - set (c := ((b0 - 192) * 64 + (b1 - 128))%N).
        assert (Hc : (128 <= c < 2048)%N) by (subst c; lia).
        unfold encode_char.
        destruct (N.ltb_spec c 128); [lia|].
        destruct (N.ltb_spec c 2048); [|lia].
        f_equal. f_equal; [|f_equal]; subst c; ndm.
      - apply IH; [simpl in Hn |- *; lia|assumption]. }
    destruct (N.ltb_spec b0 240) as [L4|L4].
    { destruct r as [|b1 [|b2 r2]]; try discriminate.
      set (c := ((b0 - 224) * 4096 + (b1 - 128) * 64 + (b2 - 128))%N) in *.
      destruct (is_cont b1) eqn:C1; [|discriminate].
      destruct (is_cont b2) eqn:C2; [|discriminate].
      apply is_cont_range in C1. apply is_cont_range in C2.
      destruct (N.leb_spec 2048 c) as [Lc|Lc]; [|discriminate].
      destruct (is_surrogate c) eqn:Sc; [discriminate|].
      cbn [andb negb] in Hd.
      destruct (decode r2) as [t'|] eqn:Er; [|discriminate].
      injection Hd as <-.
      change (b0 :: b1 :: b2 :: r2) with ([b0; b1; b2] ++ r2).
      apply encode_cons.
      - assert (Hc : (c < 65536)%N) by (subst c; lia).
        unfold encode_char.
        destruct (N.ltb_spec c 128); [lia|].
        destruct (N.ltb_spec c 2048); [lia|].
        destruct (N.ltb_spec c 65536); [|lia].
        rewrite Sc.
        f_equal. f_equal; [|f_equal; [|f_equal]]; subst c; ndm.
      - apply IH; [simpl in Hn |- *; lia|assumption]. }
    destruct (N.ltb_spec b0 245) as [L5|L5]; [|discriminate].
    destruct r as [|b1 [|b2 [|b3 r3]]]; try discriminate.
    set (c := ((b0 - 240) * 262144 + (b1 - 128) * 4096
               + (b2 - 128) * 64 + (b3 - 128))%N) in *.
    destruct (is_cont b1) eqn:C1; [|discriminate].
    destruct (is_cont b2) eqn:C2; [|discriminate].
    destruct (is_cont b3) eqn:C3; [|discriminate].
    apply is_cont_range in C1. apply is_cont_range in C2.
    apply is_cont_range in C3.
    destruct (N.leb_spec 65536 c) as [Lc|Lc]; [|discriminate].
    destruct (N.leb_spec c 1114111) as [Uc|Uc]; [|discriminate].
    cbn [andb] in Hd.
    destruct (decode r3) as [t'|] eqn:Er; [|discriminate].
    injection Hd as <-.
    change (b0 :: b1 :: b2 :: b3 :: r3) with ([b0; b1; b2; b3] ++ r3).
    apply encode_cons.
    + unfold encode_char.
      destruct (N.ltb_spec c 128); [lia|].
      destruct (N.ltb_spec c 2048); [lia|].
      destruct (N.ltb_spec c 65536); [lia|].
      destruct (N.leb_spec c 1114111); [|lia].
      f_equal. f_equal; [|f_equal; [|f_equal; [|f_equal]]]; subst c; ndm.
    + apply IH; [simpl in Hn |- *; lia|assumption].
Qed.

Lemma decode_encode (b : list N) (t : str) :
  decode b = Some t -> encode t = Some b.
Proof. apply (decode_encode_aux (List.length b)). lia. Qed.

Lemma encode_char_inj (c c' : char) (a : list N) :
  encode_char c = Some a -> encode_char c' = Some a -> c = c'.
Proof.
  intros H H'.
  pose proof (decode_step c a [] H) as D.
  pose proof (decode_step c' a [] H') as D'.
  rewrite D in D'. simpl in D'. congruence.
Qed.

Lemma cons_eq_inv {A : Type} (x y : A) (l m : list A) :
  x :: l = y :: m -> x = y /\ l = m.
Proof. intros [= -> ->]. auto. Qed.

(** The first byte fixes the length of a character's encoding. *)
Lemma encode_char_lead (c c' : char) (a a' x y : list N) :
  encode_char c = Some a -> encode_char c' = Some a' ->
  a ++ x = a' ++ y -> a = a'.
Proof.
  intros H H' E.
  apply encode_char_cases in H. apply encode_char_cases in H'.
  destruct H as [[Hc ->]|[[Hc ->]|[(Hc & Hs & ->)|[Hc ->]]]];
    destruct H' as [[Hc' ->]|[[Hc' ->]|[(Hc' & Hs' & ->)|[Hc' ->]]]];
    cbn [app] in E;
    repeat match type of E with
           | _ :: _ = _ :: _ =>
               let E1 := fresh "E1" in
               apply cons_eq_inv in E; destruct E as [E1 E]
           end;
    try congruence; exfalso; ndm.
Qed.

Lemma encode_app (s t : str) (bs bt : list N) :
  encode s = Some bs -> encode t = Some bt -> encode (s ++ t) = Some (bs ++ bt).
Proof.
  revert bs. induction s as [|c s IH]; simpl; intros bs Hs Ht.
  - injection Hs as <-. assumption.
  - destruct (encode_char c) as [a|]; [|discriminate].
    destruct (encode s) as [b|]; [|discriminate].
    injection Hs as <-. rewrite (IH b eq_refl Ht), app_assoc. reflexivity.
Qed.

Lemma encode_app_inv (s t : str) (b : list N) :
  encode (s ++ t) = Some b ->
  exists bs bt, encode s = Some bs /\ encode t = Some bt /\ b = bs ++ bt.
Proof.
  revert b. induction s as [|c s IH]; simpl; intros b H.
  - exists [], b. auto.
  - destruct (encode_char c) as [a|]; [|discriminate].
    destruct (encode (s ++ t)) as [b'|] eqn:E; [|discriminate].
    injection H as <-.
    destruct (IH b' eq_refl) as (bs & bt & -> & -> & ->).
    exists (a ++ bs), bt. rewrite app_assoc. auto.
Qed.

(** A byte prefix that is itself an encoding stops at a character boundary. *)
Lemma encode_prefix (t : str) :
  forall (s : str) (bt r : list N),
    encode t = Some bt -> encode s = Some (bt ++ r) ->
    exists s', s = t ++ s'.
Proof.
  induction t as [|c t IH]; intros s bt r Ht Hs.
  - exists s. reflexivity.
  - simpl in Ht.
    destruct (encode_char c) as [a|] eqn:Ec; [|discriminate].
    destruct (encode t) as [bt'|] eqn:Et; [|discriminate].
    injection Ht as <-.
    destruct s as [|c' s1].
    + simpl in Hs. injection Hs as Hs.
      pose proof (encode_char_length c a Ec) as L.
      destruct a; simpl in *; [lia|discriminate].
    + simpl in Hs.
      destruct (encode_char c') as [a'|] eqn:Ec'; [|discriminate].
      destruct (encode s1) as [b1|] eqn:E1; [|discriminate].
      injection Hs as Hs. rewrite <- app_assoc in Hs.
      assert (a' = a) by (eapply encode_char_lead; eauto). subst a'.
      apply app_inv_head in Hs. subst b1.
      assert (c' = c) by (eapply encode_char_inj; eauto). subst c'.
      destruct (IH s1 bt' r eq_refl E1) as [s' ->].
      exists s'. reflexivity.
Qed.

Lemma encode_ascii (s : str) :
  Forall (fun c => (c < 128)%N) s -> encode s = Some s.
Proof.
  induction 1 as [|c s Hc _ IH]; [reflexivity|].
  simpl. unfold encode_char.
  destruct (N.ltb_spec c 128); [|lia]. rewrite IH. reflexivity.
Qed.

End Utf8Facts.


(** ** Decimal rendering *)

Module PyStrFacts.

Lemma digits_rev_lt10 (fuel : nat) :
  forall n, Forall (fun d => (d < 10)%N) (digits_rev fuel n).
Proof.
  induction fuel as [|f IH]; intros n; simpl; [constructor|].
  destruct (N.ltb_spec n 10).
  - constructor; [assumption|constructor].
  - constructor; [apply N.mod_lt; lia|apply IH].
Qed.

Lemma digits_rev_length (fuel : nat) :
  forall n, List.length (digits_rev fuel n) <= fuel.
Proof.
  induction fuel as [|f IH]; intros n; simpl; [lia|].
  destruct (N.ltb_spec n 10); simpl; [lia|].
  specialize (IH (n / 10)%N). lia.
Qed.

Lemma digits_rev_val (fuel : nat) :
  forall n, (n < 2 ^ N.of_nat fuel)%N -> val_rev (digits_rev fuel n) = n.
Proof.
  induction fuel as [|f IH]; intros n Hn.
  - simpl in *. lia.
  - cbn [digits_rev]. destruct (N.ltb_spec n 10).
    + simpl. lia.
    + cbn [val_rev]. rewrite IH.
      * Utf8Facts.ndm.
      * rewrite Nat2N.inj_succ, N.pow_succ_r' in Hn.
        assert (n / 10 <= n / 2)%N by Utf8Facts.ndm.
        assert (n / 2 < 2 ^ N.of_nat f)%N by Utf8Facts.ndm.
        lia.
Qed.

Lemma log2_fuel (n : N) : (n < 2 ^ N.of_nat (S (N.to_nat (N.log2 n))))%N.
Proof.
  rewrite Nat2N.inj_succ, N2Nat.id.
  destruct n as [|p]; [reflexivity|].
  apply N.log2_spec. lia.
Qed.

Lemma map_digit_char_inj (l m : list N) :
  map digit_char l = map digit_char m -> l = m.
Proof.
  revert m. induction l as [|x l IH]; intros [|y m]; cbn [map];
    try discriminate.
  - reflexivity.
  - intros E. apply Utf8Facts.cons_eq_inv in E. destruct E as [E1 E2].
    unfold digit_char in E1. f_equal; [lia|auto].
Qed.

Lemma str_of_int_inj (n m : N) : str_of_int n = str_of_int m -> n = m.
Proof.
  unfold str_of_int. intros E.
  apply map_digit_char_inj in E.
  apply (f_equal (@rev N)) in E. rewrite !rev_involutive in E.
  rewrite <- (digits_rev_val _ n (log2_fuel n)).
  rewrite <- (digits_rev_val _ m (log2_fuel m)).
  rewrite E. reflexivity.
Qed.

Lemma str_of_int_digits (n : N) :
  Forall (fun c => (48 <= c <= 57)%N) (str_of_int n).
Proof.
  unfold str_of_int. apply Forall_map, Forall_rev.
  apply (Forall_impl (P := fun d => (d < 10)%N)); [|apply digits_rev_lt10].
  intros d Hd. unfold digit_char. lia.
Qed.

Lemma str_of_int_length (n : N) :
  (n < 2 ^ 63)%N -> List.length (str_of_int n) <= 63.
Proof.
  intros Hn. unfold str_of_int. rewrite length_map, length_rev.
  etransitivity; [apply digits_rev_length|].
  destruct n as [|p]; [simpl; lia|].
  assert (N.log2 (N.pos p) < 63)%N by (apply N.log2_lt_pow2; lia).
  lia.
Qed.

Lemma str_of_int_no_underscore (n : N) : ~ In underscore (str_of_int n).
Proof.
  intros H. pose proof (str_of_int_digits n) as D.
  rewrite Forall_forall in D. apply D in H. unfold underscore in H. lia.
Qed.

(** Two strings that agree up to their first separator agree before it. *)
Lemma split_at_first {A : Type} (x : A) (l1 : list A) :
  forall l2 r1 r2,
    ~ In x l1 -> ~ In x l2 -> l1 ++ x :: r1 = l2 ++ x :: r2 -> l1 = l2.
Proof.
  induction l1 as [|a l1 IH]; intros [|b l2] r1 r2 H1 H2 E; simpl in *.
  - reflexivity.
  - injection E as -> _. tauto.
  - injection E as -> _. tauto.
  - injection E as -> E. f_equal. apply (IH l2 r1 r2); tauto.
Qed.

End PyStrFacts.

(** ** Staging names *)

Section NamingFacts.

Variable isalnum : char -> bool.

(** Surrogates and values past U+10FFFF are not alphanumeric: every
    alphanumeric character has a UTF-8 encoding. *)
Hypothesis isalnum_scalar :
  forall c, isalnum c = true -> Utf8.encode_char c <> None.

Lemma lit_underscore (r : str) : lit "_" ++ r = underscore :: r.
Proof. reflexivity. Qed.

Lemma safe_char_encodable (c : char) :
  exists a,
    Utf8.encode_char
      (if isalnum c || mem c (lit "-_. ") then c else underscore) = Some a.
Proof.
  destruct (isalnum c) eqn:Ea; cbn [orb].
  - destruct (Utf8.encode_char c) as [a|] eqn:E; [eauto|].
    exfalso. exact (isalnum_scalar c Ea E).
  - destruct (mem c (lit "-_. ")) eqn:Em; [|exists [underscore]; reflexivity].
    exists [c]. change (lit "-_. ") with [45; 95; 46; 32]%N in Em.
    unfold mem in Em. cbn [existsb] in Em.
    rewrite !orb_true_iff, !N.eqb_eq in Em.
    unfold Utf8.encode_char.
    destruct (N.ltb_spec c 128); [reflexivity|lia].
Qed.

Lemma safe_chars_encodable (s : str) :
  exists b, Utf8.encode (safe_chars isalnum s) = Some b.
Proof.
  induction s as [|c s [b IH]]; [exists []; reflexivity|].
  destruct (safe_char_encodable c) as [a Ha].
  exists (a ++ b). cbn [safe_chars map].
  apply Utf8Facts.encode_cons; assumption.
Qed.

Lemma truncate_loop_sound (encoded : list N) (i : nat) (t : str) :
  truncate_loop encoded i = Some t ->
  exists k, 1 <= k <= i /\ Utf8.decode (firstn k encoded) = Some t.
Proof.
  induction i as [|j IH]; [discriminate|].
  cbn [truncate_loop].
  destruct (Utf8.decode (firstn (S j) encoded)) as [t'|] eqn:E.
  - intros [= <-]. exists (S j). split; [lia|assumption].
  - intros H. destruct (IH H) as (k & Hk & Hd). exists k. split; [lia|assumption].
Qed.

Lemma truncate_loop_complete (encoded : list N) (i k : nat) (t0 : str) :
  1 <= k <= i -> Utf8.decode (firstn k encoded) = Some t0 ->
  truncate_loop encoded i <> None.
Proof.
  induction i as [|j IH]; intros Hk Hd; [lia|].
  cbn [truncate_loop].
  destruct (Utf8.decode (firstn (S j) encoded)) as [t'|] eqn:E; [discriminate|].
  apply IH; [|assumption].
  destruct (Nat.eq_dec k (S j)) as [->|]; [congruence|lia].
Qed.

Lemma truncate_loop_largest (encoded : list N) (i : nat) (t : str) :
  truncate_loop encoded i = Some t ->
  exists k, 1 <= k <= i /\ Utf8.decode (firstn k encoded) = Some t /\
            forall k', k < k' <= i -> Utf8.decode (firstn k' encoded) = None.
Proof.
  induction i as [|j IH]; [discriminate|].
  cbn [truncate_loop].
  destruct (Utf8.decode (firstn (S j) encoded)) as [t'|] eqn:E.
  - intros [= <-]. exists (S j). split; [lia|]. split; [assumption|]. intros k' H. lia.
  - intros H. destruct (IH H) as (k & Hk & Hd & Hmax). exists k.
    split; [lia|]. split; [assumption|]. intros k' Hk'.
    destruct (Nat.eq_dec k' (S j)) as [->|]; [exact E|]. apply Hmax. lia.
Qed.

Lemma truncate_utf8_safe_longest (text : str) (encoded : list N) (m : Z) :
  Utf8.encode text = Some encoded -> (4 <= m)%Z ->
  exists t rest bt,
    truncate_utf8_safe text m = Some t /\
    text = t ++ rest /\
    Utf8.encode t = Some bt /\
    (Z.of_nat (List.length bt) <= m)%Z /\
    ((Z.of_nat (List.length encoded) <= m)%Z -> rest = []) /\
    forall c rest' b,
      rest = c :: rest' -> Utf8.encode (t ++ [c]) = Some b ->
      (m < Z.of_nat (List.length b))%Z.
Proof.
  intros He Hm. unfold truncate_utf8_safe. rewrite He.
  destruct (Z.leb_spec (Z.of_nat (List.length encoded)) m) as [L|L].
  { exists text, [], encoded. rewrite app_nil_r. repeat split; auto.
    intros c rest' b H. discriminate. }
  destruct (truncate_loop encoded (Z.to_nat m)) as [t|] eqn:El.
  - destruct (truncate_loop_largest _ _ _ El) as (k & Hk & Hd & Hmax).
    pose proof (Utf8Facts.decode_encode _ _ Hd) as Ht.
    destruct (Utf8Facts.encode_prefix t text (firstn k encoded) (skipn k encoded) Ht)
      as [rest Hr]; [rewrite firstn_skipn; assumption|].
    exists t, rest, (firstn k encoded).
    split; [reflexivity|]. split; [exact Hr|]. split; [exact Ht|].
    split; [rewrite length_firstn; lia|]. split; [lia|].
    intros c rest' b Hrest Hb.
    destruct (Z.lt_ge_cases m (Z.of_nat (List.length b))) as [|Hle]; [assumption|].
    exfalso.
    assert (Hsplit : text = (t ++ [c]) ++ rest').
    { rewrite Hr, Hrest, <- app_assoc. reflexivity. }
    rewrite Hsplit in He.
    destruct (Utf8Facts.encode_app_inv _ _ _ He) as (b1 & b2 & H1 & H2 & Henc).
    rewrite Hb in H1. injection H1 as <-.
    destruct (Utf8Facts.encode_app_inv _ _ _ Hb) as (b3 & b4 & H3 & H4 & Hbb).
    rewrite Ht in H3. injection H3 as H3.
    assert (Hc : 1 <= List.length b4).
    { cbn in H4. destruct (Utf8.encode_char c) as [a|] eqn:Ec; [|discriminate].
      injection H4 as <-. rewrite app_nil_r.
      apply (Utf8Facts.encode_char_length c a Ec). }
    assert (Lb : List.length b = List.length b3 + List.length b4).
    { rewrite Hbb. apply length_app. }
    assert (Le : List.length encoded = List.length b + List.length b2).
    { rewrite Henc. apply length_app. }
    assert (L3 : List.length b3 = Nat.min k (List.length encoded)).
    { rewrite <- H3. apply length_firstn. }
    assert (Hd' : Utf8.decode (firstn (List.length b) encoded) = None).
    { apply Hmax. lia. }
    rewrite Henc, firstn_app, firstn_all, Nat.sub_diag, firstn_O, app_nil_r in Hd'.
    rewrite (Utf8Facts.encode_decode _ _ Hb) in Hd'. discriminate.
  - exfalso.
    destruct text as [|c r]; [injection He as <-; cbn in L; lia|].
    cbn in He.
    destruct (Utf8.encode_char c) as [a|] eqn:Ec; [|discriminate].
    destruct (Utf8.encode r) as [br|]; [|discriminate].
    injection He as <-.
    pose proof (Utf8Facts.encode_char_length c a Ec) as La.
    apply (truncate_loop_complete (a ++ br) (Z.to_nat m) (List.length a) [c]);
      [lia| |assumption].
    rewrite firstn_app, firstn_all, Nat.sub_diag, firstn_O, app_nil_r.
    rewrite <- (app_nil_r a).
    rewrite (Utf8Facts.decode_step c a [] Ec). reflexivity.
Qed.

Lemma truncate_utf8_safe_spec (text : str) (encoded : list N) (m : Z) :
  Utf8.encode text = Some encoded -> (0 <= m)%Z ->
  exists t bt,
    truncate_utf8_safe text m = Some t /\
    Utf8.encode t = Some bt /\
    (Z.of_nat (List.length bt) <= m)%Z /\
    ((4 <= m)%Z -> exists rest, text = t ++ rest).
Proof.
  intros He Hm. unfold truncate_utf8_safe. rewrite He.
  destruct (Z.leb_spec (Z.of_nat (List.length encoded)) m) as [L|L].
  { exists text, encoded. repeat split; auto.
    intros _. exists []. rewrite app_nil_r. reflexivity. }
  destruct (truncate_loop encoded (Z.to_nat m)) as [t|] eqn:El.
  - destruct (truncate_loop_sound _ _ _ El) as (k & Hk & Hd).
    apply Utf8Facts.decode_encode in Hd.
    exists t, (firstn k encoded). repeat split; auto.
    + rewrite length_firstn. lia.
    + intros _.
      apply (Utf8Facts.encode_prefix t text (firstn k encoded) (skipn k encoded));
        [assumption|].
      rewrite firstn_skipn. assumption.
  - set (ascii := filter (fun c => (c <? 128)%N) text).
    exists (slice_to ascii m), (slice_to ascii m).
    assert (Ha : Forall (fun c => (c < 128)%N) (slice_to ascii m)).
    { unfold slice_to. destruct (Z.leb_spec 0 m); [|lia].
      apply Forall_forall. intros c Hc.
      assert (Hc' : In c ascii).
      { rewrite <- (firstn_skipn (Z.to_nat m) ascii). apply in_or_app. auto. }
      apply filter_In in Hc'. apply N.ltb_lt. tauto. }
    repeat split; auto.
    + apply Utf8Facts.encode_ascii. assumption.
    + unfold slice_to. destruct (Z.leb_spec 0 m); [|lia].
      rewrite length_firstn. lia.
    + intros H4. exfalso.
      destruct text as [|c r]; [injection He as <-; simpl in L; lia|].
      simpl in He.
      destruct (Utf8.encode_char c) as [a|] eqn:Ec; [|discriminate].
      destruct (Utf8.encode r) as [br|]; [|discriminate].
      injection He as <-.
      pose proof (Utf8Facts.encode_char_length c a Ec) as La.
      apply (truncate_loop_complete (a ++ br) (Z.to_nat m) (List.length a) [c]);
        [lia| |assumption].
      rewrite firstn_app, firstn_all, Nat.sub_diag, firstn_O, app_nil_r.
      rewrite <- (app_nil_r a).
      rewrite (Utf8Facts.decode_step c a [] Ec). reflexivity.
Qed.

Lemma safe_temp_name_form (index : N) (artist album name : str) (m : Z) :
  safe_temp_name isalnum index artist album m = Some name ->
  exists rest, name = str_of_int index ++ underscore :: rest.
Proof.
  unfold safe_temp_name.
  destruct (Utf8.encode _) as [base_bytes|]; [|discriminate].
  destruct (Z.leb_spec (Z.of_nat (List.length base_bytes)) m).
  - intros [= <-]. eexists. reflexivity.
  - destruct (Utf8.encode _) as [index_bytes|]; [|discriminate].
    destruct (truncate_utf8_safe _ _) as [a'|]; [|discriminate].
    destruct (truncate_utf8_safe _ _) as [b'|]; [|discriminate].
    intros [= <-]. eexists. reflexivity.
Qed.

Lemma index_part_ascii (index : N) :
  Forall (fun c => (c < 128)%N) (str_of_int index ++ lit "_").
Proof.
  apply Forall_app. split.
  - eapply Forall_impl; [|apply PyStrFacts.str_of_int_digits].
    intros c Hc. simpl in Hc. lia.
  - repeat constructor.
Qed.

Lemma encode_name (index : N) (a b : str) (ba bb : list N) :
  Utf8.encode a = Some ba -> Utf8.encode b = Some bb ->
  Utf8.encode (str_of_int index ++ lit "_" ++ a ++ lit "_" ++ b)
  = Some ((str_of_int index ++ lit "_") ++ ba ++ lit "_" ++ bb).
Proof.
  intros Ha Hb. rewrite (app_assoc (str_of_int index)).
  apply Utf8Facts.encode_app; [apply Utf8Facts.encode_ascii, index_part_ascii|].
  apply Utf8Facts.encode_app; [assumption|].
  apply Utf8Facts.encode_app; [reflexivity|assumption].
Qed.

(** C8.  For every list index (below 2^63) and every artist and album
    name, [safe_temp_name] returns a name of the form
    [{index}_{artist part}_{album part}] whose parts are prefixes of the
    sanitised artist and album; the name is valid UTF-8 of at most 255
    bytes; it is the whole name whenever that fits.  When something is cut,
    the bytes left after the index and the two separators are split in two
    shares, the album's being the artist's or one more, and each part is
    the longest prefix of its component that fits its share: its encoding
    fits, and with the next character of the component it would not.
    A different index never yields the same name. *)
Theorem safe_temp_name_bounded_unique (index : N) (artist album : str) :
  (index < 2 ^ 63)%N ->
  exists (artist_part album_part artist_rest album_rest name : str)
         (bytes : list N),
    safe_temp_name isalnum index artist album 255 = Some name /\
    name = str_of_int index ++ lit "_" ++ artist_part ++ lit "_" ++ album_part /\
    safe_chars isalnum artist = artist_part ++ artist_rest /\
    safe_chars isalnum album = album_part ++ album_rest /\
    Utf8.encode name = Some bytes /\
    List.length bytes <= 255 /\
    Utf8.decode bytes = Some name /\
    (forall full,
        Utf8.encode (str_of_int index ++ lit "_" ++ safe_chars isalnum artist
                     ++ lit "_" ++ safe_chars isalnum album) = Some full ->
        List.length full <= 255 ->
        artist_rest = [] /\ album_rest = []) /\
    ((artist_rest = [] /\ album_rest = []) \/
     exists ba bb,
       Utf8.encode artist_part = Some ba /\
       Utf8.encode album_part = Some bb /\
       let remaining_bytes :=
         (255 - Z.of_nat (List.length (str_of_int index ++ lit "_")) - 1)%Z in
       let artist_bytes := (remaining_bytes / 2)%Z in
       let album_bytes := (remaining_bytes - artist_bytes)%Z in
       (Z.of_nat (List.length ba) <= artist_bytes)%Z /\
       (Z.of_nat (List.length bb) <= album_bytes)%Z /\
       (0 <= album_bytes - artist_bytes <= 1)%Z /\
       (forall c rest b,
           artist_rest = c :: rest ->
           Utf8.encode (artist_part ++ [c]) = Some b ->
           (artist_bytes < Z.of_nat (List.length b))%Z) /\
       (forall c rest b,
           album_rest = c :: rest ->
           Utf8.encode (album_part ++ [c]) = Some b ->
           (album_bytes < Z.of_nat (List.length b))%Z)) /\
    (forall (index' : N) (artist' album' name' : str),
        index' <> index ->
        safe_temp_name isalnum index' artist' album' 255 = Some name' ->
        name' <> name).
Proof.
  intros Hidx.
  assert (Uniq : forall rest index' artist' album' name',
             index' <> index ->
             safe_temp_name isalnum index' artist' album' 255 = Some name' ->
             name' <> str_of_int index ++ lit "_" ++ rest).
  { intros rest index' artist' album' name' Hne Hn' E.
    destruct (safe_temp_name_form _ _ _ _ _ Hn') as [rest' ->].
    rewrite lit_underscore in E.
    apply PyStrFacts.split_at_first in E;
      try apply PyStrFacts.str_of_int_no_underscore.
    apply PyStrFacts.str_of_int_inj in E. contradiction. }
  destruct (safe_chars_encodable artist) as [bA HA].
  destruct (safe_chars_encodable album) as [bB HB].
  pose proof (encode_name index _ _ _ _ HA HB) as Hbase.
  pose proof (PyStrFacts.str_of_int_length index Hidx) as Hlen.
  unfold safe_temp_name. cbv zeta. rewrite Hbase.
  match goal with
  | |- context [Z.leb ?x ?y] => destruct (Z.leb_spec x y) as [L|L]
  end.
  - exists (safe_chars isalnum artist), (safe_chars isalnum album), [], [].
    eexists. eexists.
    split; [reflexivity|]. split; [reflexivity|].
    split; [symmetry; apply app_nil_r|].
    split; [symmetry; apply app_nil_r|].
    split; [exact Hbase|].
    split; [lia|].
    split; [apply Utf8Facts.encode_decode; exact Hbase|].
    split; [intros; auto|].
    split; [left; auto|].
    intros. eapply Uniq; eauto.
  - rewrite (Utf8Facts.encode_ascii _ (index_part_ascii index)).
    unfold char in *.
    remember (255 - Z.of_nat (@List.length N (str_of_int index ++ lit "_")) - 1)%Z
      as remaining_bytes eqn:ER.
    assert (HI : @List.length N (str_of_int index ++ lit "_") <= 64).
    { rewrite length_app. unfold char.
      change (@List.length N (lit "_")) with 1. lia. }
    assert (HR : (190 <= remaining_bytes)%Z) by lia.
    destruct (truncate_utf8_safe_longest (safe_chars isalnum artist) bA
                (remaining_bytes / 2) HA)
      as (a' & ra & ba & Ta & Pa & Ea & La & _ & Ma);
      [Z.to_euclidean_division_equations; lia|].
    destruct (truncate_utf8_safe_longest (safe_chars isalnum album) bB
                (remaining_bytes - remaining_bytes / 2) HB)
      as (b' & rb & bb & Tb & Pb & Eb & Lb & _ & Mb);
      [Z.to_euclidean_division_equations; lia|].
    unfold char in *. rewrite <- ER. rewrite Ta, Tb.
    pose proof (encode_name index _ _ _ _ Ea Eb) as Hname.
    unfold char in *.
    exists a', b', ra, rb. eexists. eexists.
    split; [reflexivity|]. split; [reflexivity|].
    split; [exact Pa|]. split; [exact Pb|].
    split; [exact Hname|].
    split.
    { rewrite (length_app (str_of_int index ++ lit "_")), (length_app ba).
      unfold char.
      change (@List.length N (lit "_" ++ bb)) with (S (@List.length N bb)).
      Z.to_euclidean_division_equations; lia. }
    split; [apply Utf8Facts.encode_decode; exact Hname|].
    split.
    { intros full Hfull Hfit. exfalso.
      assert (Hq : (str_of_int index ++ lit "_") ++ bA ++ lit "_" ++ bB = full)
        by (injection Hfull as Hq; exact Hq).
      rewrite <- Hq in Hfit. unfold char in *. lia. }
    split.
    { right. exists ba, bb. split; [assumption|]. split; [assumption|].
      cbv zeta. unfold char in *.
      split; [assumption|]. split; [assumption|].
      split; [Z.to_euclidean_division_equations; lia|].
      split; [exact Ma|exact Mb]. }
    intros. eapply Uniq; eauto.
Qed.

End NamingFacts.

Lemma in_ranges_scalar (table : list (N * N)) (c : char) :
  forallb (fun r => (snd r <? 55296) || ((57343 <? fst r) && (snd r <=? 1114111)))%N
    table = true ->
  Unicode.in_ranges c table = true -> Utf8.encode_char c <> None.
Proof.
  intros Ht Hc. unfold Unicode.in_ranges in Hc.
  apply existsb_exists in Hc. destruct Hc as ([lo hi] & Hin & Hr).
  rewrite forallb_forall in Ht. specialize (Ht _ Hin). cbn [fst snd] in *.
  apply andb_true_iff in Hr. destruct Hr as [H1 H2].
  apply N.leb_le in H1, H2.
  unfold Utf8.encode_char, Utf8.is_surrogate.
  apply orb_true_iff in Ht. destruct Ht as [Ht|Ht].
  - apply N.ltb_lt in Ht.
    destruct (N.ltb_spec c 128); [discriminate|].
    destruct (N.ltb_spec c 2048); [discriminate|].
    destruct (N.ltb_spec c 65536); [|lia].
    destruct (N.leb_spec 55296 c); [lia|]. cbn [andb]. discriminate.
  - apply andb_true_iff in Ht. destruct Ht as [Ha Hb].
    apply N.ltb_lt in Ha. apply N.leb_le in Hb.
    destruct (N.ltb_spec c 128); [discriminate|].
    destruct (N.ltb_spec c 2048); [discriminate|].
    destruct (N.ltb_spec c 65536).
    + destruct (N.leb_spec 55296 c); [|cbn [andb]; discriminate].
      destruct (N.leb_spec c 57343); [lia|]. cbn [andb]. discriminate.
    + destruct (N.leb_spec c 1114111); [discriminate|lia].
Qed.

(** What [str.isalnum] accepts is a Unicode scalar value. *)
Lemma isalnum_scalar (c : char) :
  Unicode.isalnum c = true -> Utf8.encode_char c <> None.
Proof. apply in_ranges_scalar. vm_compute. reflexivity. Qed.

Lemma safe_temp_name_bounded_unique_witness :
  let artist := repeat 233%N 150 in
  let album := 198%N :: lit "nima/Live" in
  exists (name : str) (bytes : list N),
    safe_temp_name Unicode.isalnum 12 artist album 255 = Some name /\
    name = lit "12_" ++ repeat 233%N 62 ++ lit "_" ++ 198%N :: lit "nima_Live" /\
    Utf8.encode name = Some bytes /\
    List.length bytes = 139 /\
    Utf8.decode bytes = Some name.
Proof.
  cbv zeta.
  destruct (safe_temp_name_bounded_unique Unicode.isalnum isalnum_scalar
              12 (repeat 233%N 150) (198%N :: lit "nima/Live")
              ltac:(reflexivity))
    as (a & b & ra & rb & name & bytes & H1 & _ & _ & _ & H5 & _ & H7 & _).
  exists name, bytes.
  assert (Hn : name = lit "12_" ++ repeat 233%N 62 ++ lit "_"
                      ++ 198%N :: lit "nima_Live").
  { vm_compute in H1. injection H1 as <-. reflexivity. }
  split; [exact H1|]. split; [exact Hn|]. split; [exact H5|].
  split; [|exact H7].
  rewrite Hn in H5. vm_compute in H5. injection H5 as <-. reflexivity.
Defined.

(** ** Path mapping *)

Lemma startswith_app (p r : str) : startswith (p ++ r) p = true.
Proof.
  induction p as [|c p IH]; [reflexivity|].
  simpl. rewrite N.eqb_refl, IH. reflexivity.
Qed.

Lemma replace1_unfold (s old new : str) :
  replace1 s old new =
  if startswith s old then new ++ skipn (List.length old) s
  else match s with
       | [] => []
       | c :: r => c :: replace1 r old new
       end.
Proof. destruct s; reflexivity. Qed.

Lemma replace1_prefix (p r new : str) : replace1 (p ++ r) p new = new ++ r.
Proof.
  rewrite replace1_unfold, startswith_app.
  rewrite skipn_app, skipn_all, Nat.sub_diag. reflexivity.
Qed.

(** C10.  Path resolution is a substitution on the raw character
    sequence: whatever follows the source root, a path separator or not,
    is appended unchanged to the destination root.  With source root
    [/media/Music], the path [/media/Music2/x] becomes the destination
    root followed by [2/x]. *)
Theorem apply_path_mapping_raw_prefix (source_root dest_root rest : str) :
  apply_path_mapping (source_root ++ rest)
    (Some {| local_root := Some dest_root; plex_root := Some source_root |})
  = dest_root ++ rest
  /\ apply_path_mapping (lit "/media/Music2/x")
       (Some {| local_root := Some dest_root;
                plex_root := Some (lit "/media/Music") |})
     = dest_root ++ lit "2/x".
Proof.
  assert (G : forall src rst,
             apply_path_mapping (src ++ rst)
               (Some {| local_root := Some dest_root; plex_root := Some src |})
             = dest_root ++ rst).
  { intros src rst. unfold apply_path_mapping. cbn [local_root plex_root].
    rewrite startswith_app. apply replace1_prefix. }
  split; [apply G|].
  exact (G (lit "/media/Music") (lit "2/x")).
Qed.

(** ** Reasoning about computations *)

Section Steps.

Variable R : world -> world -> Prop.
Hypothesis R_refl : forall w, R w w.
Hypothesis R_trans : forall a b c, R a b -> R b c -> R a c.

Lemma steps_ret {A : Type} (a : A) : steps R (ret a).
Proof. intros w r w' [= <- <-]. apply R_refl. Qed.

Lemma steps_raise {A : Type} (e : exn) : steps R (@raise A e).
Proof. intros w r w' [= <- <-]. apply R_refl. Qed.

Lemma steps_sys_exit {A : Type} (c : Z) : steps R (@sys_exit A c).
Proof. intros w r w' [= <- <-]. apply R_refl. Qed.

Lemma steps_get {A : Type} (f : world -> A) : steps R (get f).
Proof. intros w r w' [= <- <-]. apply R_refl. Qed.

Lemma steps_bind {A B : Type} (m : M A) (k : A -> M B) :
  steps R m -> (forall a, steps R (k a)) -> steps R (bind m k).
Proof.
  intros Hm Hk w r w'. unfold bind.
  destruct (m w) as [[a|e|c|] w1] eqn:E; intros H.
  - eapply R_trans; [eapply Hm; eauto|eapply Hk; eauto].
  - injection H as <- <-. eapply Hm; eauto.
  - injection H as <- <-. eapply Hm; eauto.
  - injection H as <- <-. eapply Hm; eauto.
Qed.

Lemma steps_try_except {A : Type} (m : M A) (handles : exn -> bool)
    (handler : exn -> M A) :
  steps R m -> (forall e, steps R (handler e)) ->
  steps R (try_except m handles handler).
Proof.
  intros Hm Hh w r w'. unfold try_except.
  destruct (m w) as [[a|e|c|] w1] eqn:E; intros H.
  - injection H as <- <-. eapply Hm; eauto.
  - destruct (handles e).
    + eapply R_trans; [eapply Hm; eauto|eapply Hh; eauto].
    + injection H as <- <-. eapply Hm; eauto.
  - injection H as <- <-. eapply Hm; eauto.
  - injection H as <- <-. eapply Hm; eauto.
Qed.

Lemma steps_for_each {A : Type} (l : list A) (body : A -> M unit) :
  (forall x, steps R (body x)) -> steps R (for_each l body).
Proof.
  intros Hb. induction l as [|x l IH]; cbn [for_each].
  - apply steps_ret.
  - apply steps_bind; auto.
Qed.

Lemma steps_map_m {A B : Type} (f : A -> M B) (l : list A) :
  (forall x, steps R (f x)) -> steps R (map_m f l).
Proof.
  intros Hf. induction l as [|x l IH]; cbn [map_m].
  - apply steps_ret.
  - apply steps_bind; [auto|]. intros y.
    apply steps_bind; [auto|]. intros ys. apply steps_ret.
Qed.

End Steps.

Lemma agree_refl {T : Type} (F : world -> T) (w : world) : agree F w w.
Proof. reflexivity. Qed.

Lemma agree_trans {T : Type} (F : world -> T) (a b c : world) :
  agree F a b -> agree F b c -> agree F a c.
Proof. unfold agree. congruence. Qed.

Lemma emits_refl (P : event -> Prop) (w : world) : emits P w w.
Proof. exists []. rewrite app_nil_r. auto. Qed.

Lemma emits_trans (P : event -> Prop) (a b c : world) :
  emits P a b -> emits P b c -> emits P a c.
Proof.
  intros (e1 & H1 & F1) (e2 & H2 & F2). exists (e1 ++ e2).
  rewrite H2, H1, app_assoc. split; [reflexivity|].
  apply Forall_app. auto.
Qed.

Create HintDb steps discriminated.

#[local] Hint Resolve agree_refl agree_trans emits_refl emits_trans : steps.

(** Breaking a goal [steps R m] down along the shape of [m]. *)
Ltac steps_split :=
  repeat first
    [ match goal with |- forall _, _ => intro end
    | solve [eauto with steps]
    | apply steps_ret
    | apply steps_raise
    | apply steps_sys_exit
    | apply steps_get
    | apply steps_bind
    | apply steps_try_except
    | apply steps_for_each
    | apply steps_map_m
    | match goal with
      | |- steps _ (let _ := _ in _) => cbv zeta
      | |- steps _ (match ?x with _ => _ end) => destruct x
      | |- steps _ (if ?b then _ else _) => destruct b
      end ].

Ltac run_prim :=
  let w := fresh "w" in
  let r := fresh "r" in
  let w' := fresh "w'" in
  intros w r w';
  unfold tick, emit, print, modify, get, raise, ret, bind;
  repeat match goal with
         | |- context [match ?x with _ => _ end] => destruct x
         end;
  intros [= <- <-].

Section AgreePrimitives.

Context {T : Type} (F : world -> T).

Lemma agree_tick :
  (forall w s, F (with_signal w s) = F w) -> steps (agree F) tick.
Proof. intros H. run_prim; unfold agree; auto. Qed.

Lemma agree_emit (e : event) :
  (forall w t, F (with_trace w t) = F w) -> steps (agree F) (emit e).
Proof. intros H. run_prim; unfold agree; auto. Qed.

Lemma agree_print (x : msg) :
  (forall w o, F (with_out w o) = F w) -> steps (agree F) (print x).
Proof. intros H. run_prim; unfold agree; auto. Qed.

Lemma agree_modify (f : world -> world) :
  (forall w, F (f w) = F w) -> steps (agree F) (modify f).
Proof. intros H. run_prim; unfold agree; auto. Qed.

End AgreePrimitives.

Lemma emits_same_trace (P : event -> Prop) (w w' : world) :
  w_trace w' = w_trace w -> emits P w w'.
Proof. intros H. exists []. rewrite H, app_nil_r. auto. Qed.

Lemma emits_tick (P : event -> Prop) : steps (emits P) tick.
Proof. run_prim; apply emits_same_trace; reflexivity. Qed.

Lemma emits_emit (P : event -> Prop) (e : event) : P e -> steps (emits P) (emit e).
Proof. intros H. run_prim. exists [e]. cbn. auto. Qed.

Lemma emits_print (P : event -> Prop) (x : msg) : steps (emits P) (print x).
Proof. run_prim; apply emits_same_trace; reflexivity. Qed.

Lemma emits_modify (P : event -> Prop) (f : world -> world) :
  (forall w, w_trace (f w) = w_trace w) -> steps (emits P) (modify f).
Proof. intros H. run_prim. apply emits_same_trace, H. Qed.

#[local] Hint Resolve agree_tick agree_emit agree_print agree_modify
  emits_tick emits_emit emits_print emits_modify : steps.
#[local] Hint Extern 2 (_ = _) => reflexivity : steps.

Section AgreeCalls.

Context {T : Type} (F : world -> T).
Hypothesis F_signal : forall w s, F (with_signal w s) = F w.
Hypothesis F_trace : forall w t, F (with_trace w t) = F w.

Lemma agree_fs_read {A : Type} (ev : event) (f : FS.t -> A) :
  steps (agree F) (fs_read ev f).
Proof. unfold fs_read. steps_split. Qed.

Lemma agree_fs_query {A : Type} (ev : event) (f : FS.t -> exn + A) :
  steps (agree F) (fs_query ev f).
Proof. unfold fs_query. steps_split. Qed.

Lemma agree_fs_update (ev : bool -> event) (f : FS.t -> exn + FS.t) :
  (forall w fs, F (with_fs w fs) = F w) -> steps (agree F) (fs_update ev f).
Proof. intros H. unfold fs_update. steps_split. Qed.

End AgreeCalls.

Lemma emits_fs_read (P : event -> Prop) {A : Type} (ev : event) (f : FS.t -> A) :
  P ev -> steps (emits P) (fs_read ev f).
Proof. intros H. unfold fs_read. steps_split. Qed.

Lemma emits_fs_query (P : event -> Prop) {A : Type} (ev : event)
    (f : FS.t -> exn + A) :
  P ev -> steps (emits P) (fs_query ev f).
Proof. intros H. unfold fs_query. steps_split. Qed.

Lemma emits_fs_update (P : event -> Prop) (ev : bool -> event)
    (f : FS.t -> exn + FS.t) :
  (forall ok, P (ev ok)) -> steps (emits P) (fs_update ev f).
Proof. intros H. unfold fs_update. steps_split. Qed.

(** *** Crash recovery runs once *)

Lemma cleanup_temp_dir_keeps_registry (temp_dir : str) :
  steps (agree w_library_temp_dirs) (cleanup_temp_dir temp_dir).
Proof.
  unfold cleanup_temp_dir, remove_temp_dir, restore_tracked,
    os_path_exists, os_listdir, os_path_isdir, os_path_isfile, os_rename,
    os_remove, os_rmdir, shutil_rmtree.
  steps_split; apply agree_fs_read || apply agree_fs_query
               || apply agree_fs_update; auto with steps.
Qed.

Lemma cleanup_nothing_staged (w : world) :
  w_library_temp_dirs w = [] -> cleanup_and_restore w = (Ret tt, w).
Proof.
  intros H. unfold cleanup_and_restore, bind, get. rewrite H. reflexivity.
Qed.

Lemma cleanup_clears_registry (w : world) :
  w_library_temp_dirs (snd (cleanup_and_restore w)) = [].
Proof.
  unfold cleanup_and_restore, bind, get, modify, print.
  destruct (w_library_temp_dirs w) as [|d ds] eqn:E; [exact E|].
  assert (S : steps (agree w_library_temp_dirs)
                (for_each (d :: ds) (fun item => cleanup_temp_dir (snd item)))).
  { steps_split. }
  match goal with
  | |- context [for_each ?l ?body ?w0] =>
      destruct (for_each l body w0) as [r w1] eqn:Ef
  end.
  apply S in Ef. unfold agree in Ef. cbn in Ef.
  destruct r; exact Ef.
Qed.

(** C7.  Whatever the world, after one run of the crash-recovery routine
    the registry of staging directories is empty, and a second run right
    after it returns at once: it makes no system call, prints nothing and
    leaves the file system, and the whole world, as the first run left
    it. *)
Theorem cleanup_and_restore_idempotent (w : world) :
  let w1 := snd (cleanup_and_restore w) in
  let second := cleanup_and_restore w1 in
  w_library_temp_dirs w1 = [] /\
  second = (Ret tt, w1) /\
  w_fs (snd second) = w_fs w1 /\
  w_trace (snd second) = w_trace w1.
Proof.
  cbv zeta.
  pose proof (cleanup_clears_registry w) as H.
  rewrite (cleanup_nothing_staged _ H).
  auto.
Qed.

(** ** Runs that no signal interrupts *)

Lemma calm_ret {A : Type} (a : A) : calm (ret a).
Proof. intros w r w' Hs [= <- <-]. eauto. Qed.

Lemma calm_raise {A : Type} (e : exn) : calm (@raise A e).
Proof. intros w r w' Hs [= <- <-]. eauto. Qed.

Lemma calm_get {A : Type} (f : world -> A) : calm (get f).
Proof. intros w r w' Hs [= <- <-]. eauto. Qed.

Lemma calm_print (x : msg) : calm (print x).
Proof. intros w r w' Hs [= <- <-]. eauto. Qed.

Lemma calm_emit (e : event) : calm (emit e).
Proof. intros w r w' Hs [= <- <-]. eauto. Qed.

Lemma calm_tick : calm tick.
Proof. intros w r w' Hs. unfold tick. rewrite Hs. intros [= <- <-]. eauto. Qed.

Lemma calm_modify (f : world -> world) :
  (forall w, w_signal (f w) = w_signal w) -> calm (modify f).
Proof. intros H w r w' Hs [= <- <-]. rewrite H. eauto. Qed.

Lemma calm_bind {A B : Type} (m : M A) (k : A -> M B) :
  calm m -> (forall a, calm (k a)) -> calm (bind m k).
Proof.
  intros Hm Hk w r w' Hs. unfold bind.
  destruct (m w) as [r1 w1] eqn:E.
  destruct (Hm _ _ _ Hs E) as [Hs1 [[a ->]|[e ->]]].
  - intros H. eapply Hk; eauto.
  - intros [= <- <-]. eauto.
Qed.

Lemma calm_try_except {A : Type} (m : M A) (handles : exn -> bool)
    (handler : exn -> M A) :
  calm m -> (forall e, calm (handler e)) -> calm (try_except m handles handler).
Proof.
  intros Hm Hh w r w' Hs. unfold try_except.
  destruct (m w) as [r1 w1] eqn:E.
  destruct (Hm _ _ _ Hs E) as [Hs1 [[a ->]|[e ->]]].
  - intros [= <- <-]. eauto.
  - destruct (handles e).
    + intros H. eapply Hh; eauto.
    + intros [= <- <-]. eauto.
Qed.

Lemma calm_for_each {A : Type} (l : list A) (body : A -> M unit) :
  (forall x, calm (body x)) -> calm (for_each l body).
Proof.
  intros Hb. induction l as [|x l IH]; cbn [for_each].
  - apply calm_ret.
  - apply calm_bind; auto.
Qed.

#[local] Hint Resolve calm_ret calm_raise calm_get calm_print calm_emit
  calm_tick calm_modify : steps.

Ltac calm_split :=
  repeat first
    [ match goal with |- forall _, _ => intro end
    | solve [eauto with steps]
    | apply calm_bind
    | apply calm_try_except
    | apply calm_for_each
    | match goal with
      | |- calm (let _ := _ in _) => cbv zeta
      | |- calm (match ?x with _ => _ end) => destruct x
      | |- calm (if ?b then _ else _) => destruct b
      end ].

(** What the system calls do when no signal is pending. *)
Section Calls.

Variable w : world.
Hypothesis no_signal : w_signal w = None.

Lemma run_fs_read {A : Type} (ev : event) (f : FS.t -> A) :
  fs_read ev f w = (Ret (f (w_fs w)), with_trace w (w_trace w ++ [ev])).
Proof. unfold fs_read, bind, tick. rewrite no_signal. reflexivity. Qed.

Lemma run_fs_query {A : Type} (ev : event) (f : FS.t -> exn + A) :
  fs_query ev f w =
  (match f (w_fs w) with inr a => Ret a | inl e => Raise e end,
   with_trace w (w_trace w ++ [ev])).
Proof.
  unfold fs_query, bind, tick. rewrite no_signal. cbn.
  destruct (f (w_fs w)); reflexivity.
Qed.

Lemma run_fs_update (ev : bool -> event) (f : FS.t -> exn + FS.t) :
  fs_update ev f w =
  match f (w_fs w) with
  | inr fs' => (Ret tt, with_fs (with_trace w (w_trace w ++ [ev true])) fs')
  | inl e => (Raise e, with_trace w (w_trace w ++ [ev false]))
  end.
Proof.
  unfold fs_update, bind, tick. rewrite no_signal. cbn.
  destruct (f (w_fs w)); reflexivity.
Qed.

End Calls.

Lemma new_events_app (w w' : world) (evs : list event) :
  w_trace w' = w_trace w ++ evs -> new_events w w' = evs.
Proof.
  intros H. unfold new_events. rewrite H, skipn_app, skipn_all, Nat.sub_diag.
  reflexivity.
Qed.

Lemma new_output_app (w w' : world) (out : list msg) :
  w_out w' = w_out w ++ out -> new_output w w' = out.
Proof.
  intros H. unfold new_output. rewrite H, skipn_app, skipn_all, Nat.sub_diag.
  reflexivity.
Qed.

(** ** The device check only reads *)

#[local] Hint Extern 1 (not_rename _) => exact eq_refl : steps.

Section DeviceCheck.

Context {T : Type} (F : world -> T).
Hypothesis F_signal : forall w s, F (with_signal w s) = F w.
Hypothesis F_trace : forall w t, F (with_trace w t) = F w.

Lemma find_existing_ancestor_agree (fuel : nat) :
  forall p, steps (agree F) (find_existing_ancestor fuel p).
Proof.
  induction fuel as [|f IH]; intros p; cbn [find_existing_ancestor];
    steps_split.
Qed.

Lemma are_on_same_filesystem_agree (path1 path2 : str) :
  steps (agree F) (are_on_same_filesystem path1 path2).
Proof.
  unfold are_on_same_filesystem.
  pose proof find_existing_ancestor_agree. steps_split.
Qed.

End DeviceCheck.

Lemma find_existing_ancestor_emits (fuel : nat) :
  forall p, steps (emits not_rename) (find_existing_ancestor fuel p).
Proof.
  induction fuel as [|f IH]; intros p; cbn [find_existing_ancestor];
    steps_split.
Qed.

Lemma are_on_same_filesystem_emits (path1 path2 : str) :
  steps (emits not_rename) (are_on_same_filesystem path1 path2).
Proof.
  unfold are_on_same_filesystem.
  pose proof find_existing_ancestor_emits. steps_split.
Qed.

Lemma find_existing_ancestor_calm (fuel : nat) :
  forall p, calm (find_existing_ancestor fuel p).
Proof.
  induction fuel as [|f IH]; intros p; cbn [find_existing_ancestor];
    calm_split.
Qed.

Lemma are_on_same_filesystem_calm (path1 path2 : str) :
  calm (are_on_same_filesystem path1 path2).
Proof.
  unfold are_on_same_filesystem.
  pose proof find_existing_ancestor_calm. calm_split.
Qed.

(** ** [move_file] renames only behind its two checks *)

Lemma lookup_app_l (fs : FS.t) (x : FS.t) (p : FS.path) (n : FS.node) :
  FS.lookup fs p = Some n -> FS.lookup (fs ++ x) p = Some n.
Proof.
  induction fs as [|[q m] fs IH]; cbn [FS.lookup app]; [discriminate|].
  destruct (FS.path_eqb q p); auto.
Qed.

Lemma make_components_keeps (rest : list str) :
  forall fs cur fs' p n,
    FS.make_components fs cur rest = inr fs' ->
    FS.lookup fs p = Some n -> FS.lookup fs' p = Some n.
Proof.
  induction rest as [|c rest IH]; intros fs cur fs' p n H L; cbn in H.
  - injection H as <-. assumption.
  - destruct (FS.lookup fs (cur ++ [c])) as [m|].
    + destruct (FS.is_dir_node m); [eauto|]. destruct rest; discriminate.
    + destruct (FS.lookup fs cur) as [pn|]; [|discriminate].
      eapply IH; [eassumption|]. apply lookup_app_l. assumption.
Qed.

Lemma makedirs_keeps (fs fs' : FS.t) (s : str) (p : FS.path) (n : FS.node) :
  FS.makedirs fs s = inr fs' ->
  FS.lookup fs p = Some n -> FS.lookup fs' p = Some n.
Proof.
  unfold FS.makedirs. destruct (FS.resolve s); [|discriminate].
  apply make_components_keeps.
Qed.

Lemma existsb_is_rename_false (evs : list event) :
  Forall not_rename evs -> existsb is_rename evs = false.
Proof.
  induction 1 as [|e evs He _ IH]; [reflexivity|].
  cbn. rewrite He, IH. reflexivity.
Qed.


Lemma bind_ret {A B : Type} (m : M A) (k : A -> M B) (w w1 : world) (a : A) :
  m w = (Ret a, w1) -> bind m k w = k a w1.
Proof. intros H. unfold bind. rewrite H. reflexivity. Qed.

Lemma bind_raise {A B : Type} (m : M A) (k : A -> M B) (w w1 : world) (e : exn) :
  m w = (Raise e, w1) -> bind m k w = (Raise e, w1).
Proof. intros H. unfold bind. rewrite H. reflexivity. Qed.

Lemma run_exists (w : world) (p : str) :
  w_signal w = None ->
  os_path_exists p w =
  (Ret (FS.exists_ (w_fs w) p), with_trace w (w_trace w ++ [EvExists p])).
Proof. intros H. apply run_fs_read, H. Qed.

Lemma run_print (w : world) (x : msg) :
  print x w = (Ret tt, with_out w (w_out w ++ [x])).
Proof. reflexivity. Qed.


Lemma run_update (w : world) (ev : bool -> event) (f : FS.t -> exn + FS.t) :
  w_signal w = None ->
  (exists fs', f (w_fs w) = inr fs' /\
     fs_update ev f w =
     (Ret tt, with_fs (with_trace w (w_trace w ++ [ev true])) fs'))
  \/ (exists e, f (w_fs w) = inl e /\
     fs_update ev f w = (Raise e, with_trace w (w_trace w ++ [ev false]))).
Proof.
  intros H. rewrite (run_fs_update w H).
  destruct (f (w_fs w)) as [e|fs']; [right|left]; eauto.
Qed.

Section MoveFile.

Variables (orig_path temp_path : str) (original_plex_path : option str).
Variable w : world.
Hypothesis no_signal : w_signal w = None.

Let wa := with_trace w (w_trace w ++ [EvExists orig_path]).

Lemma move_file_source_missing :
  FS.exists_ (w_fs w) orig_path = false ->
  move_file orig_path temp_path original_plex_path w =
  (Ret false,
   with_out wa
     (w_out w ++ [MsgSourceMissing orig_path (if_truthy original_plex_path)])).
Proof.
  intros Ex. unfold move_file, try_except at 1.
  rewrite (bind_ret _ _ _ _ _ (run_exists w orig_path no_signal)).
  rewrite Ex. reflexivity.
Qed.

Lemma move_file_makedirs_fails (e : exn) :
  FS.exists_ (w_fs w) orig_path = true ->
  FS.makedirs (w_fs w) (PosixPath.dirname temp_path) = inl e ->
  move_file orig_path temp_path original_plex_path w =
  (Ret false,
   with_out
     (with_trace wa (w_trace wa ++ [EvMakedirs (PosixPath.dirname temp_path) false]))
     (w_out w ++ [MsgMoveError e orig_path temp_path (if_truthy original_plex_path)])).
Proof.
  intros Ex Mk. unfold move_file, try_except at 1.
  rewrite (bind_ret _ _ _ _ _ (run_exists w orig_path no_signal)).
  rewrite Ex. cbn [negb].
  assert (Sa : w_signal wa = None) by exact no_signal.
  assert (H : os_makedirs (PosixPath.dirname temp_path) wa =
              (Raise e, with_trace wa
                 (w_trace wa ++ [EvMakedirs (PosixPath.dirname temp_path) false]))).
  { unfold os_makedirs. rewrite (run_fs_update wa Sa).
    change (w_fs wa) with (w_fs w). rewrite Mk. reflexivity. }
  fold wa. rewrite (bind_raise _ _ _ _ _ H). reflexivity.
Qed.

Section AfterMakedirs.

Variable fs' : FS.t.
Hypothesis Ex : FS.exists_ (w_fs w) orig_path = true.
Hypothesis Mk : FS.makedirs (w_fs w) (PosixPath.dirname temp_path) = inr fs'.

Let wb :=
  with_fs
    (with_trace wa (w_trace wa ++ [EvMakedirs (PosixPath.dirname temp_path) true]))
    fs'.

Variables (rs : outcome bool) (wc : world).
Hypothesis Es : are_on_same_filesystem orig_path temp_path wb = (rs, wc).

Lemma move_file_head (k : M bool) (h : exn -> M bool) :
  try_except
    (b <- os_path_exists orig_path ;;
     if negb b then
       print (MsgSourceMissing orig_path (if_truthy original_plex_path)) ;;
       ret false
     else
       os_makedirs (PosixPath.dirname temp_path) ;;
       same <- are_on_same_filesystem orig_path temp_path ;;
       if negb same then
         print (MsgNotSameFilesystem orig_path (if_truthy original_plex_path)) ;;
         ret false
       else k) any_exception h w =
  match rs with
  | Ret true => try_except k any_exception h wc
  | Ret false =>
      (Ret false,
       with_out wc
         (w_out wc ++ [MsgNotSameFilesystem orig_path (if_truthy original_plex_path)]))
  | Raise e => h e wc
  | SysExit c => (SysExit c, wc)
  | Interrupt => (Interrupt, wc)
  end.
Proof.
  unfold try_except.
  rewrite (bind_ret _ _ _ _ _ (run_exists w orig_path no_signal)).
  rewrite Ex. cbn [negb].
  assert (Sa : w_signal wa = None) by exact no_signal.
  assert (H : os_makedirs (PosixPath.dirname temp_path) wa = (Ret tt, wb)).
  { unfold os_makedirs. rewrite (run_fs_update wa Sa).
    change (w_fs wa) with (w_fs w). rewrite Mk. reflexivity. }
  fold wa. rewrite (bind_ret _ _ _ _ _ H).
  unfold bind at 1. rewrite Es.
  destruct rs as [[|]|e|c|]; reflexivity.
Qed.

End AfterMakedirs.

End MoveFile.

#[local] Hint Extern 1 (any_event _) => exact I : steps.

Lemma move_file_tail_emits (orig_path temp_path : str) :
  steps (emits any_event)
    (has_sidecar <-
       os_path_exists
         (appledouble (PosixPath.dirname orig_path) (PosixPath.basename orig_path)) ;;
     (if has_sidecar then
        try_except
          (os_rename
             (appledouble (PosixPath.dirname orig_path) (PosixPath.basename orig_path))
             (appledouble (PosixPath.dirname temp_path) (PosixPath.basename temp_path)))
          any_exception (fun _ => ret tt)
      else ret tt) ;;
     ret true).
Proof. steps_split. Qed.

(** C6.  With no signal pending: if the source does not exist, or the
    device check on the source and the staging path reports a mismatch,
    [move_file] returns [False], attempts no rename at all, and every node
    of the file system is still where it was (the call may only have
    created the staging path's parent directories).  A rename is attempted
    only when the source exists and the device check has succeeded, and
    in that case the entry's rename is attempted. *)
Theorem move_file_guards (orig_path temp_path : str)
    (original_plex_path : option str) (w : world) :
  w_signal w = None ->
  let w1 := snd (os_path_exists orig_path w) in
  let w2 := snd (os_makedirs (PosixPath.dirname temp_path) w1) in
  let same := fst (are_on_same_filesystem orig_path temp_path w2) in
  let r := move_file orig_path temp_path original_plex_path w in
  (FS.exists_ (w_fs w) orig_path = false \/ same = Ret false ->
   fst r = Ret false /\
   existsb is_rename (new_events w (snd r)) = false /\
   forall p n, FS.lookup (w_fs w) p = Some n ->
               FS.lookup (w_fs (snd r)) p = Some n) /\
  (existsb is_rename (new_events w (snd r)) = true ->
   FS.exists_ (w_fs w) orig_path = true /\ same = Ret true) /\
  (FS.exists_ (w_fs w) orig_path = true ->
   fst (os_makedirs (PosixPath.dirname temp_path) w1) = Ret tt ->
   same = Ret true ->
   exists ok, In (EvRename orig_path temp_path ok) (new_events w (snd r))).
Proof.
  intros Hs. cbv zeta.
  rewrite (run_exists w orig_path Hs). cbn [snd].
  set (wa := with_trace w (w_trace w ++ [EvExists orig_path])).
  assert (Sa : w_signal wa = None) by exact Hs.
  destruct (FS.exists_ (w_fs w) orig_path) eqn:Ex.
  2:{ rewrite (move_file_source_missing _ _ _ w Hs Ex). cbn [fst snd].
      match goal with
      | |- context [new_events w ?x] =>
          assert (N : new_events w x = [EvExists orig_path])
            by (apply new_events_app; reflexivity)
      end.
      rewrite N. cbn [existsb is_rename orb].
      split; [intros _; repeat split; auto|].
      split; [discriminate|intros; discriminate]. }
  unfold os_makedirs.
  destruct (run_update wa (EvMakedirs (PosixPath.dirname temp_path))
              (fun fs => FS.makedirs fs (PosixPath.dirname temp_path)) Sa)
    as [(fs' & Mk & Hm)|(e & Mk & Hm)]; rewrite Hm; cbn [fst snd];
    change (w_fs wa) with (w_fs w) in Mk.
  2:{ rewrite (move_file_makedirs_fails _ _ _ w Hs e Ex Mk). cbn [fst snd].
      fold wa.
      match goal with
      | |- context [new_events w ?x] =>
          assert (N : new_events w x =
                      [EvExists orig_path;
                       EvMakedirs (PosixPath.dirname temp_path) false])
            by (apply new_events_app; cbn; rewrite <- app_assoc; reflexivity)
      end.
      rewrite N. cbn [existsb is_rename orb].
      split; [intros _; repeat split; auto|].
      split; [discriminate|intros _ H; discriminate H]. }
  set (wb := with_fs
               (with_trace wa
                  (w_trace wa ++ [EvMakedirs (PosixPath.dirname temp_path) true]))
               fs').
  assert (Sb : w_signal wb = None) by exact Hs.
  destruct (are_on_same_filesystem orig_path temp_path wb) as [rs wc] eqn:Es.
  destruct (are_on_same_filesystem_calm _ _ _ _ _ Sb Es) as [Sc Hrs].
  destruct (are_on_same_filesystem_emits _ _ _ _ _ Es) as (evs & Tc & Nr).
  pose proof (are_on_same_filesystem_agree w_fs
                ltac:(reflexivity) ltac:(reflexivity) _ _ _ _ _ Es) as Fc.
  unfold agree in Fc. change (w_fs wb) with fs' in Fc. cbn [fst].
  assert (Tc' : w_trace wc = w_trace w ++
                  ([EvExists orig_path;
                    EvMakedirs (PosixPath.dirname temp_path) true] ++ evs)).
  { rewrite Tc. cbn. rewrite <- !app_assoc. reflexivity. }
  assert (Nr' : Forall not_rename
                  ([EvExists orig_path;
                    EvMakedirs (PosixPath.dirname temp_path) true] ++ evs)).
  { apply Forall_app. split; [repeat constructor|assumption]. }
  unfold move_file.
  rewrite (move_file_head _ _ _ w Hs fs' Ex Mk rs wc Es).
  destruct Hrs as [[[|] ->]|[e ->]].
  - (* the check passed *)
    split; [intros [|]; discriminate|]. split; [auto|].
    intros _ _ _.
    unfold try_except. unfold os_rename at 1.
    destruct (run_update wc (EvRename orig_path temp_path)
                (fun fs => FS.rename fs orig_path temp_path) Sc)
      as [(fs2 & _ & Hr)|(e & _ & Hr)].
    + rewrite (bind_ret _ _ _ _ _ Hr).
      match goal with
      | |- context [bind ?m ?k ?w0] =>
          destruct (bind m k w0) as [r2 w3] eqn:E2;
          pose proof (move_file_tail_emits orig_path temp_path _ _ _ E2)
            as (evs2 & T2 & _)
      end.
      exists true.
      assert (T3 : w_trace w3 = w_trace w ++
                ([EvExists orig_path;
                  EvMakedirs (PosixPath.dirname temp_path) true] ++ evs)
                ++ EvRename orig_path temp_path true :: evs2).
      { rewrite T2. cbn [w_trace with_fs with_trace]. rewrite Tc'.
        rewrite <- !app_assoc. reflexivity. }
      assert (N : forall w4, w_trace w4 = w_trace w3 ->
                  In (EvRename orig_path temp_path true) (new_events w w4)).
      { intros w4 H4. rewrite T3 in H4.
        rewrite (new_events_app _ _ _ H4). apply in_elt. }
      destruct r2 as [b|e|c|]; cbn; apply N; reflexivity.
    + rewrite (bind_raise _ _ _ _ _ Hr). cbn.
      exists false.
      match goal with
      | |- In _ (new_events w ?x) =>
          assert (T : w_trace x = w_trace w ++
                    ([EvExists orig_path;
                      EvMakedirs (PosixPath.dirname temp_path) true] ++ evs)
                    ++ [EvRename orig_path temp_path false])
            by (cbn [w_trace with_out with_trace]; rewrite Tc';
                rewrite <- !app_assoc; reflexivity);
          rewrite (new_events_app _ _ _ T)
      end.
      apply in_elt.
  - (* the check reported a mismatch *)
    cbn [fst snd].
    erewrite new_events_app; [|exact Tc'].
    rewrite (existsb_is_rename_false _ Nr').
    split; [|split; [discriminate|intros _ _ H; discriminate H]].
    intros _. repeat split; auto.
    intros p n L. cbn. rewrite Fc. eapply makedirs_keeps; eauto.
  - (* the check raised *)
    cbn [fst snd].
    erewrite new_events_app; [|exact Tc'].
    rewrite (existsb_is_rename_false _ Nr').
    split; [intros [|]; discriminate|].
    split; [discriminate|intros _ _ H; discriminate H].
Qed.

(** ** One poll of the catalog service *)

Section Poll.

Variable rt : runtime.

Lemma run_connect (w : world) :
  w_signal w = None ->
  connect w =
  (match connect_error (w_plex w (w_polls w)) with
   | Some e => Raise e
   | None => Ret (w_plex w (w_polls w))
   end, connected w).
Proof.
  intros Hs. unfold connect, bind, tick, emit, get, modify. rewrite Hs. cbn.
  destruct (connect_error (w_plex w (w_polls w))); reflexivity.
Qed.

Lemma check_paths_run (srv : plex_server) (moved : list (str * list str)) :
  forall still w,
  exists r more,
    check_paths rt srv moved still w = (r, with_out w (w_out w ++ more)) /\
    ((exists l, r = Ret l) \/ (exists e, r = Raise e)).
Proof.
  assert (Same : forall w, w = with_out w (w_out w ++ [])).
  { intros w. rewrite app_nil_r. destruct w; reflexivity. }
  assert (Step : forall (m : M (list str)) w,
             (forall w1, exists r more,
                 m w1 = (r, with_out w1 (w_out w1 ++ more)) /\
                 ((exists l, r = Ret l) \/ (exists e, r = Raise e))) ->
             exists r more,
               (print MsgLegacyCheck ;; m) w = (r, with_out w (w_out w ++ more)) /\
               ((exists l, r = Ret l) \/ (exists e, r = Raise e))).
  { intros m w H.
    destruct (H (with_out w (w_out w ++ [MsgLegacyCheck]))) as (r & more & E & Hr).
    exists r, (MsgLegacyCheck :: more). split; [|assumption].
    rewrite (bind_ret _ _ _ _ _ (run_print w MsgLegacyCheck)), E.
    cbn. rewrite <- app_assoc. reflexivity. }
  induction moved as [|[plex_path album_ids] rest IH]; intros still w.
  - exists (Ret still), []. split; [cbn [check_paths]; unfold ret, raise; f_equal; apply Same|eauto].
  - cbn [check_paths]. destruct album_ids as [|i ids].
    + apply Step. intros w1.
      destruct (search_albums srv) as [e|all_albums].
      { exists (Raise e), []. split; [cbn [check_paths]; unfold ret, raise; f_equal; apply Same|eauto]. }
      destruct (legacy_visible all_albums plex_path) as [e|[|]].
      * exists (Raise e), []. split; [cbn [check_paths]; unfold ret, raise; f_equal; apply Same|eauto].
      * apply IH.
      * apply IH.
    + destruct (any_album_visible rt srv (i :: ids)); apply IH.
Qed.

(** Whatever the service does, a poll with no signal pending returns: it
    makes one connection attempt and only prints. *)
Lemma check_run (moved : list (str * list str)) (w : world) :
  w_signal w = None ->
  exists res more,
    check_albums_removed_from_plex rt moved w =
    (Ret res, with_out (connected w) (w_out w ++ more)).
Proof.
  intros Hs. unfold check_albums_removed_from_plex, try_except.
  rewrite (bind_ret _ _ _ _ _ (run_print w MsgConnecting)).
  set (w1 := with_out w (w_out w ++ [MsgConnecting])).
  assert (S1 : w_signal w1 = None) by exact Hs.
  unfold bind at 1. rewrite (run_connect w1 S1).
  destruct (connect_error (w_plex w1 (w_polls w1))) as [e|].
  - eexists. exists [MsgConnecting; MsgCheckWarning e].
    cbn. rewrite <- app_assoc. reflexivity.
  - rewrite (bind_ret _ _ _ _ _ (run_print (connected w1) _)).
    match goal with
    | |- context [bind (check_paths rt ?srv moved []) _ ?w2] =>
        destruct (check_paths_run srv moved [] w2) as (r & more & E & Hr)
    end.
    unfold bind at 1. rewrite E.
    destruct Hr as [[l ->]|[e ->]].
    + eexists. eexists. cbn. rewrite <- !app_assoc. reflexivity.
    + eexists.
      exists ([MsgConnecting] ++
              [MsgCheckingAlbums
                 (list_sum (map (fun x => List.length (snd x)) moved))]
              ++ more ++ [MsgCheckWarning e]).
      cbn. rewrite <- !app_assoc. reflexivity.
Qed.

End Poll.

(** ** The polling loop *)

Lemma run_sleep (w : world) (seconds : Z) :
  w_signal w = None ->
  time_sleep seconds w =
  (Ret tt,
   with_clock (with_trace w (w_trace w ++ [EvSleep seconds]))
     (w_clock w + seconds)%Z).
Proof.
  intros Hs. unfold time_sleep, bind, tick, emit, modify. rewrite Hs.
  reflexivity.
Qed.

Section PollLoop.

Variable rt : runtime.
Variable moved : list (str * list str).
Variable total : nat.
Variable max_wait_time : Z.

Variable w : world.
Hypothesis visible : always_visible rt moved w.

Lemma poll_loop_times_out (k : nat) :
  forall fuel elapsed all_removed w0,
    w_plex w0 = w_plex w -> w_signal w0 = None ->
    k < fuel ->
    (max_wait_time <= elapsed + 5 * Z.of_nat k)%Z ->
    (k <> 0 -> (elapsed + 5 * (Z.of_nat k - 1) < max_wait_time)%Z) ->
    exists w',
      poll_loop rt fuel max_wait_time moved total elapsed all_removed w0 =
      (Ret ((elapsed + 5 * Z.of_nat k)%Z,
            if k =? 0 then all_removed else Some false), w') /\
      polled k w0 w'.
Proof.
  induction k as [|k IH]; intros fuel elapsed all_removed w0 Hp Hs Hf Hu Hl;
    (destruct fuel as [|f]; [lia|]); cbn [poll_loop].
  - destruct (Z.ltb_spec elapsed max_wait_time) as [L|L]; [lia|].
    exists w0. split.
    + unfold ret. f_equal. f_equal. f_equal. lia.
    + unfold polled. cbn [repeat List.concat].
      rewrite app_nil_r, Nat.add_0_r, Z.mul_0_r, Z.add_0_r.
      repeat split; auto. exists []. rewrite app_nil_r. reflexivity.
  - destruct (Z.ltb_spec elapsed max_wait_time) as [L|L]; [|lia].
    rewrite (bind_ret _ _ _ _ _ (run_print w0 _)).
    set (w1 := with_out w0 (w_out w0 ++ [MsgPolling elapsed])).
    assert (S1 : w_signal w1 = None) by exact Hs.
    assert (P1 : w_plex w1 = w_plex w) by exact Hp.
    destruct (check_run rt moved w1 S1) as (res & more & Ec).
    destruct (visible w1 P1 S1) as [n Hn]. rewrite Ec in Hn. cbn in Hn.
    injection Hn as ->.
    rewrite (bind_ret _ _ _ _ _ Ec). cbn [fst snd].
    rewrite (bind_ret _ _ _ _ _ (run_print _ _)).
    match goal with
    | |- context [bind (time_sleep 5) _ ?w3] =>
        assert (S3 : w_signal w3 = None) by exact Hs;
        rewrite (bind_ret _ _ _ _ _ (run_sleep w3 5 S3));
        set (w4 := with_clock (with_trace w3 (w_trace w3 ++ [EvSleep 5]))
                     (w_clock w3 + 5)%Z)
    end.
    destruct (IH f (elapsed + 5)%Z (Some false) w4) as (w' & E & Q);
      try exact Hp; try exact Hs; try lia.
    exists w'. split.
    + rewrite E. f_equal. f_equal. f_equal; [lia|destruct k; reflexivity].
    + unfold polled in *.
      destruct Q as (Q1 & Q2 & Q3 & Q4 & Q5 & Q6 & Q7 & Q8 & Q9 & Q10 & more' & Q11).
      assert (C4 : w_clock w4 = (w_clock w0 + 5)%Z) by reflexivity.
      assert (P4 : w_polls w4 = S (w_polls w0)) by reflexivity.
      assert (T4 : w_trace w4 = w_trace w0 ++ [EvConnect; EvSleep 5]).
      { cbn. rewrite <- app_assoc. reflexivity. }
      assert (O4 : exists m4, w_out w4 = w_out w0 ++ m4).
      { cbn. rewrite <- !app_assoc. eexists. reflexivity. }
      repeat split; try assumption.
      * rewrite Q3, P4. lia.
      * rewrite Q4, T4. cbn [repeat List.concat].
        rewrite <- !app_assoc. reflexivity.
      * rewrite Q10, C4. lia.
      * destruct O4 as [m4 O4]. rewrite Q11, O4, <- app_assoc.
        eexists. reflexivity.
Qed.

End PollLoop.

(** C4.  With verification enabled, no signal pending and a service that
    answers every poll with "not all removed", phase 2 returns normally
    after [k] polls, where [k] is the number of five-second intervals
    needed to reach [max_wait]: [5(k-1) < max_wait <= 5k], so two polls
    for [max_wait = 10].  It does nothing else but print; the timeout line
    is printed; and the restore phase then runs on the resulting world. *)
Theorem polling_times_out (rt : runtime) (a : args)
    (album_ids_map : list (str * list str))
    (move_operations : list (str * str * str)) (results : list bool)
    (w : world) :
  skip_validation a = false ->
  (0 < max_wait a)%Z ->
  w_signal w = None ->
  always_visible rt
    (moved_albums_with_ids album_ids_map move_operations results) w ->
  exists (k : nat) (w' : world),
    wait_for_plex rt a album_ids_map move_operations results w = (Ret tt, w') /\
    polled k w w' /\
    (5 * (Z.of_nat k - 1) < max_wait a <= 5 * Z.of_nat k)%Z /\
    (max_wait a = 10%Z -> k = 2) /\
    In (MsgTimeout (max_wait a)) (new_output w w') /\
    bind (wait_for_plex rt a album_ids_map move_operations results)
      (fun _ => restore_phase) w = restore_phase w'.
Proof.
  intros Hv Hm Hs Hvis.
  set (moved := moved_albums_with_ids album_ids_map move_operations results) in *.
  set (k := Z.to_nat ((max_wait a + 4) / 5)).
  assert (Hk : (5 * (Z.of_nat k - 1) < max_wait a <= 5 * Z.of_nat k)%Z).
  { subst k. rewrite Z2Nat.id by (Z.to_euclidean_division_equations; lia).
    Z.to_euclidean_division_equations; lia. }
  assert (Hk0 : k <> 0) by lia.
  set (w0 := with_out w (w_out w ++ [MsgPhase2])).
  destruct (poll_loop_times_out rt moved (List.length moved) (max_wait a) w Hvis k
              (S (Z.to_nat (max_wait a))) 0%Z None w0)
    as (w1 & E & Q); try reflexivity; try exact Hs; try lia.
  assert (Run : wait_for_plex rt a album_ids_map move_operations results w =
                (Ret tt, with_out w1 (w_out w1 ++ [MsgTimeout (max_wait a)]))).
  { unfold wait_for_plex. rewrite Hv. cbn [negb].
    rewrite (bind_ret _ _ _ _ _ (run_print w MsgPhase2)).
    fold moved. fold w0. rewrite (bind_ret _ _ _ _ _ E). cbn [fst snd].
    destruct (Z.leb_spec (max_wait a) (0 + 5 * Z.of_nat k)) as [L|L]; [|lia].
    destruct (Nat.eqb_spec k 0) as [K|K]; [contradiction|].
    reflexivity. }
  exists k, (with_out w1 (w_out w1 ++ [MsgTimeout (max_wait a)])).
  destruct Q as (Q1 & Q2 & Q3 & Q4 & Q5 & Q6 & Q7 & Q8 & Q9 & Q10 & more & Q11).
  split; [exact Run|]. split.
  { unfold polled. cbn [w_signal w_plex w_polls w_trace w_fs
                         w_library_temp_dirs w_temp_paths w_file_paths w_atexit
                         w_clock w_out with_out].
    repeat split; try assumption.
    rewrite Q11. cbn [w_out w0 with_out]. rewrite <- !app_assoc.
    eexists. reflexivity. }
  split; [exact Hk|]. split; [intros H10; lia|]. split.
  { erewrite new_output_app.
    2:{ cbn [w_out with_out]. rewrite Q11. cbn [w_out w0 with_out].
        rewrite <- !app_assoc. reflexivity. }
    apply in_or_app. right. apply in_or_app. right. left. reflexivity. }
  rewrite (bind_ret _ _ _ _ _ Run). reflexivity.
Qed.

(** ** Errors during a poll *)

(** The outer handler (lines 219-221) turns a failed connection or a
    failed listing into "not removed, everything still visible"; the
    inner one (lines 210-212) turns a failed lookup into an absent album. *)

Section PollErrors.

Variable rt : runtime.
Variable moved : list (str * list str).

Lemma check_connect_error (w : world) (e : exn) :
  w_signal w = None ->
  connect_error (w_plex w (w_polls w)) = Some e ->
  check_albums_removed_from_plex rt moved w =
  (Ret (false, List.length moved),
   with_out (connected w) (w_out w ++ [MsgConnecting; MsgCheckWarning e])).
Proof.
  intros Hs He. unfold check_albums_removed_from_plex, try_except.
  rewrite (bind_ret _ _ _ _ _ (run_print w MsgConnecting)).
  set (w1 := with_out w (w_out w ++ [MsgConnecting])).
  assert (S1 : w_signal w1 = None) by exact Hs.
  unfold bind at 1. rewrite (run_connect w1 S1).
  change (w_plex w1 (w_polls w1)) with (w_plex w (w_polls w)). rewrite He.
  cbn. rewrite <- app_assoc. reflexivity.
Qed.

Lemma check_listing_error (w : world) (e : exn) (plex_path : str)
    (rest : list (str * list str)) :
  w_signal w = None ->
  moved = (plex_path, []) :: rest ->
  connect_error (w_plex w (w_polls w)) = None ->
  search_albums (w_plex w (w_polls w)) = inl e ->
  fst (check_albums_removed_from_plex rt moved w)
  = Ret (false, List.length moved).
Proof.
  intros Hs Hm Hc He. unfold check_albums_removed_from_plex, try_except.
  rewrite (bind_ret _ _ _ _ _ (run_print w MsgConnecting)).
  set (w1 := with_out w (w_out w ++ [MsgConnecting])).
  assert (S1 : w_signal w1 = None) by exact Hs.
  unfold bind at 1. rewrite (run_connect w1 S1).
  change (w_plex w1 (w_polls w1)) with (w_plex w (w_polls w)). rewrite Hc.
  rewrite (bind_ret _ _ _ _ _ (run_print (connected w1) _)).
  rewrite Hm. cbn [check_paths].
  unfold bind at 1.
  rewrite (bind_ret _ _ _ _ _ (run_print _ MsgLegacyCheck)).
  rewrite He. reflexivity.
Qed.

Lemma lookup_errors_mean_absent (srv : plex_server) (album_ids : list str) :
  (forall album_id n,
      In album_id album_ids -> py_int rt album_id = Some n ->
      exists e, fetch_item srv n = inl e) ->
  any_album_visible rt srv album_ids = false.
Proof.
  induction album_ids as [|album_id rest IH]; intros H; [reflexivity|].
  cbn [any_album_visible].
  assert (IH' : any_album_visible rt srv rest = false).
  { apply IH. intros i n Hi. apply H. right. assumption. }
  destruct (py_int rt album_id) as [n|] eqn:En; [|exact IH'].
  destruct (H album_id n (or_introl eq_refl) En) as [e ->]. exact IH'.
Qed.

End PollErrors.

(** ** The theorems at work *)

Import Examples.

Lemma move_file_guards_witness :
  let w := start split_fs server_gone None in
  let r := move_file (lit "/mnt/A/x") (lit "/stage/tmp.plexdance/0_A_x") None w in
  fst r = Ret false /\ existsb is_rename (new_events w (snd r)) = false.
Proof.
  cbv zeta.
  destruct (move_file_guards (lit "/mnt/A/x") (lit "/stage/tmp.plexdance/0_A_x")
              None (start split_fs server_gone None) eq_refl)
    as [H _].
  destruct H as (H1 & H2 & _); [right; vm_compute; reflexivity|].
  split; assumption.
Defined.

Lemma busy_server_always_visible :
  always_visible rt0 [(x1_catalog, [lit "101"])] (start music_fs server_busy None).
Proof.
  intros w0 Hp Hs. unfold check_albums_removed_from_plex, try_except.
  rewrite (bind_ret _ _ _ _ _ (run_print w0 MsgConnecting)).
  set (w1 := with_out w0 (w_out w0 ++ [MsgConnecting])).
  assert (S1 : w_signal w1 = None) by exact Hs.
  unfold bind at 1. rewrite (run_connect w1 S1).
  change (w_plex w1) with (w_plex w0). rewrite Hp.
  exists 1. reflexivity.
Qed.

Lemma polling_times_out_witness :
  exists w',
    wait_for_plex rt0 music_args [(x1_catalog, [lit "101"])]
      [(x1_local, x1_staged, x1_catalog)] [true]
      (start music_fs server_busy None) = (Ret tt, w') /\
    polled 2 (start music_fs server_busy None) w'.
Proof.
  destruct (polling_times_out rt0 music_args [(x1_catalog, [lit "101"])]
              [(x1_local, x1_staged, x1_catalog)] [true]
              (start music_fs server_busy None)
              eq_refl eq_refl eq_refl busy_server_always_visible)
    as (k & w' & H1 & H2 & _ & H4 & _).
  exists w'. rewrite (H4 eq_refl) in H2. split; assumption.
Defined.

(** C9 (the code departs from the claim).  The service accepts every
    connection and fails every lookup of a catalog identifier with a
    transport error.  The poll does not answer "could not determine": it
    answers that everything was removed, whereas the same poll against a
    service that cannot be reached answers "not removed, one still
    visible".  The run with three staged albums therefore declares after
    its first poll, at 0 seconds and without sleeping, that the service
    has noticed all changes, and goes on to restore. *)
Theorem lookup_failure_reported_as_removed :
  let w := start music_fs server_flaky None in
  let r := run rt0 music_args w in
  connect_error server_flaky = None /\
  fetch_item server_flaky 101 = inl ServiceError /\
  fst (check_albums_removed_from_plex rt0 [(x1_catalog, [lit "101"])] w)
  = Ret (true, 0) /\
  fst (check_albums_removed_from_plex rt0 [(x1_catalog, [lit "101"])]
         (start music_fs server_down None))
  = Ret (false, 1) /\
  fst r = 0%Z /\
  In (MsgAllRemoved 0) (w_out (snd r)) /\
  List.length (filter is_connect (w_trace (snd r))) = 2 /\
  existsb (fun e => match e with EvSleep _ => true | _ => false end)
    (w_trace (snd r)) = false.
Proof. vm_compute. repeat split; auto 80. Qed.

(** ** Two defects of the crash recovery *)

(** C1 (the code departs from the claim).  The mapped library, three
    entries of one staging root; the termination signal arrives after the
    seventeenth system call (the connection that asks for the library
    locations and sixteen calls on the file system), when entry 1 is
    staged and entry 2 has not begun.  The list [file_paths] still holds the catalog paths (it is set
    to the local paths only after the move loop), so the recovery renames
    the staged entry to its catalog path [/media/Music/A/x1], which fails
    on this machine, never to its local path, and the entry ends up at
    neither place.  Entries 2 and 3 are untouched and the exit status is
    1. *)
Theorem signal_during_staging_restores_to_catalog_path :
  let r := run rt0 music_args (start music_fs server_gone (Some 17)) in
  fst r = 1%Z /\
  existsb (renamed x1_local x1_staged) (w_trace (snd r)) = true /\
  existsb (renamed x1_staged x1_catalog) (w_trace (snd r)) = true /\
  existsb (renamed x1_staged x1_local) (w_trace (snd r)) = false /\
  In (MsgFailedRestore x1_staged FileNotFoundError) (w_out (snd r)) /\
  FS.exists_ (w_fs (snd r)) x1_local = false /\
  FS.exists_ (w_fs (snd r)) (lit "/Users/u/Music/A/x2") = true /\
  FS.exists_ (w_fs (snd r)) (lit "/Users/u/Music/A/x3") = true.
Proof. vm_compute. repeat split; auto 20. Qed.

(** C2 (the code departs from the claim).  An album and its artist
    directory are both listed, without mapping; the signal arrives when
    both are staged.  The recovery cannot rename the album back, its
    parent being staged too, reports the failure, and then removes the
    staging directory recursively: the album and its track exist nowhere
    afterwards. *)
Theorem recovery_deletes_what_it_could_not_restore :
  let w := start nested_fs server_gone (Some 32) in
  let r := run rt0 nested_args w in
  holds_name (w_fs w) (lit "01.flac") = true /\
  fst r = 1%Z /\
  In (EvRename (lit "/m/tmp.plexdance/0_A_x") (lit "/m/A/x") false)
     (w_trace (snd r)) /\
  In (MsgFailedRestore (lit "/m/tmp.plexdance/0_A_x") FileNotFoundError)
     (w_out (snd r)) /\
  In (EvRmtree (lit "/m/tmp.plexdance") true) (w_trace (snd r)) /\
  FS.exists_ (w_fs (snd r)) (lit "/m/A/x") = false /\
  FS.exists_ (w_fs (snd r)) (lit "/m/tmp.plexdance/0_A_x") = false /\
  holds_name (w_fs (snd r)) (lit "01.flac") = false.
Proof. vm_compute. repeat split; auto 50. Qed.

(** C3 as stated fails: the staging directory of an earlier run holds one
    album and no recovery log.  The run aborts with status 1 before any
    rename, and no recovery-log path is reported. *)
Lemma leftover_without_log_reports_no_path :
  let w := start leftover_fs server_gone None in
  let r := run rt0 music_args w in
  FS.listdir (w_fs w) (lit "/Users/u/tmp.plexdance") = inr [lit "0_A_old"] /\
  fst r = 1%Z /\
  In (MsgTempDirExists (lit "/Users/u/tmp.plexdance")) (w_out (snd r)) /\
  existsb is_rename (w_trace (snd r)) = false /\
  existsb is_restore_hint (w_out (snd r)) = false.
Proof. vm_compute. repeat split; auto 20. Qed.

(** ** Paths of staging directories *)

Lemma eqb_eq (a b : str) : PyStr.eqb a b = true <-> a = b.
Proof.
  revert b. induction a as [|x a IH]; intros [|y b]; cbn; split;
    try discriminate; try reflexivity.
  - rewrite andb_true_iff, N.eqb_eq, IH. intros [-> ->]. reflexivity.
  - intros [= -> ->]. rewrite N.eqb_refl. apply IH. reflexivity.
Qed.

Lemma eqb_refl (a : str) : PyStr.eqb a a = true.
Proof. apply eqb_eq. reflexivity. Qed.

Lemma path_eqb_eq (p q : FS.path) : FS.path_eqb p q = true <-> p = q.
Proof.
  revert q. induction p as [|x p IH]; intros [|y q]; cbn; split;
    try discriminate; try reflexivity.
  - rewrite andb_true_iff, eqb_eq, IH. intros [-> ->]. reflexivity.
  - intros [= -> ->]. rewrite eqb_refl. apply IH. reflexivity.
Qed.

Lemma is_prefix_refl (p : FS.path) : FS.is_prefix p p = true.
Proof. induction p as [|x p IH]; cbn; [reflexivity|]. rewrite eqb_refl. exact IH. Qed.

Lemma lookup_remove_subtree (fs : FS.t) (p : FS.path) :
  FS.lookup (FS.remove_subtree fs p) p = None.
Proof.
  unfold FS.remove_subtree.
  induction fs as [|[q n] fs IH]; cbn; [reflexivity|].
  destruct (FS.is_prefix p q) eqn:E; cbn; [exact IH|].
  destruct (FS.path_eqb q p) eqn:Q; [|exact IH].
  apply path_eqb_eq in Q. subst q. rewrite is_prefix_refl in E. discriminate.
Qed.

Lemma split_slash_no_slash (s : str) :
  forall cur, no_slash s = true -> FS.split_slash s cur = [rev cur ++ s].
Proof.
  induction s as [|c s IH]; intros cur H; cbn.
  - rewrite app_nil_r. reflexivity.
  - cbn in H. apply andb_true_iff in H. destruct H as [Hc Hs].
    destruct (N.eqb c slash); [discriminate|].
    rewrite (IH (c :: cur) Hs). cbn. rewrite <- app_assoc. reflexivity.
Qed.

Lemma split_slash_app (a s : str) :
  forall cur,
    FS.split_slash (a ++ slash :: s) cur
    = FS.split_slash a cur ++ FS.split_slash s [].
Proof.
  induction a as [|c a IH]; intros cur; cbn.
  - reflexivity.
  - destruct (N.eqb c slash); [rewrite IH; reflexivity|apply IH].
Qed.

(** [join a b] is [b] itself or ends in a separator followed by [b]. *)
Lemma join_shape (a b : str) :
  startswith b [slash] = false ->
  (a = [] /\ PosixPath.join a b = b) \/
  (exists a0, PosixPath.join a b = a0 ++ slash :: b).
Proof.
  intros Hb. unfold PosixPath.join. rewrite Hb.
  destruct a as [|c a]; [left; auto|]. right.
  destruct (endswith (c :: a) [slash]) eqn:E.
  - unfold endswith in E. change (rev [slash]) with [slash] in E.
    destruct (rev (c :: a)) as [|x r] eqn:R; [cbn in E; discriminate|].
    cbn [startswith] in E. rewrite andb_true_r in E.
    apply N.eqb_eq in E. subst x.
    apply (f_equal (@rev N)) in R. rewrite rev_involutive in R. cbn in R.
    exists (rev r). rewrite R, <- app_assoc. reflexivity.
  - exists (c :: a). reflexivity.
Qed.

Lemma join_startswith (a b : str) :
  startswith b [slash] = false -> startswith (PosixPath.join a b) a = true.
Proof.
  intros Hb. unfold PosixPath.join. rewrite Hb.
  destruct a as [|c a]; [reflexivity|].
  destruct (endswith (c :: a) [slash]); apply startswith_app.
Qed.

Lemma resolve_no_nul (s : str) (p : FS.path) :
  FS.resolve s = Some p -> FS.has_nul s = false.
Proof.
  unfold FS.resolve. destruct s as [|c r]; [discriminate|].
  destruct (FS.has_nul (c :: r)); [discriminate|reflexivity].
Qed.

Lemma exists_no_nul (fs : FS.t) (s : str) :
  FS.exists_ fs s = true -> FS.has_nul s = false.
Proof.
  unfold FS.exists_. destruct (FS.resolve s) as [p|] eqn:E; [|discriminate].
  intros _. exact (resolve_no_nul s p E).
Qed.

Lemma resolve_join (a b : str) :
  FS.has_nul (PosixPath.join a b) = false ->
  startswith b [slash] = false -> no_slash b = true ->
  PyStr.eqb b [] || PyStr.eqb b (lit ".") = false ->
  PyStr.eqb b (lit "..") = false ->
  exists q, FS.resolve (PosixPath.join a b) = Some (q ++ [b]).
Proof.
  intros Hz Hb Hn H1 H2.
  assert (Push : forall acc, FS.push_component acc b = acc ++ [b]).
  { intros acc. unfold FS.push_component. rewrite H1, H2. reflexivity. }
  assert (Nonempty : b <> []).
  { intros ->. cbn in H1. discriminate. }
  revert Hz. destruct (join_shape a b Hb) as [[-> ->]|[a0 ->]]; intros Hz.
  - exists []. unfold FS.resolve. rewrite Hz.
    destruct b as [|c b]; [contradiction|].
    rewrite (split_slash_no_slash (c :: b) [] Hn). cbn [rev app fold_left].
    rewrite Push. reflexivity.
  - unfold FS.resolve. rewrite Hz.
    destruct (a0 ++ slash :: b) as [|c r] eqn:E;
      [destruct a0; discriminate|]. rewrite <- E.
    rewrite split_slash_app, (split_slash_no_slash b [] Hn).
    cbn [rev app]. rewrite fold_left_app. cbn [fold_left].
    rewrite Push. eexists. reflexivity.
Qed.

(** ** Planning: no entry is renamed while staging roots are acquired *)

Lemma bind_exit {A B : Type} (m : M A) (k : A -> M B) (w w1 : world) (c : Z) :
  m w = (SysExit c, w1) -> bind m k w = (SysExit c, w1).
Proof. intros H. unfold bind. rewrite H. reflexivity. Qed.

Lemma run_listdir (w : world) (p : str) :
  w_signal w = None ->
  os_listdir p w =
  (match FS.listdir (w_fs w) p with inr l => Ret l | inl e => Raise e end,
   with_trace w (w_trace w ++ [EvListdir p])).
Proof. intros H. apply run_fs_query, H. Qed.

Section Planning.

Variable rt : runtime.
Variable a : args.
Variable library_locations : list str.

Lemma plan_entry_emits (i : nat) (plex_path : str) :
  steps (emits not_rename) (plan_entry rt a library_locations i plex_path).
Proof.
  unfold plan_entry, acquire_temp_dir.
  pose proof are_on_same_filesystem_emits. steps_split.
Qed.

Lemma plan_loop_emits (plex_paths : list str) :
  forall i, steps (emits not_rename) (plan_loop rt a library_locations i plex_paths).
Proof.
  induction plex_paths as [|p rest IH]; intros i; cbn [plan_loop].
  - steps_split.
  - pose proof plan_entry_emits. steps_split.
Qed.

Lemma plan_loop_app (l1 l2 : list str) :
  forall i w,
    plan_loop rt a library_locations i (l1 ++ l2) w =
    (ops1 <- plan_loop rt a library_locations i l1 ;;
     ops2 <- plan_loop rt a library_locations (i + List.length l1) l2 ;;
     ret (ops1 ++ ops2)) w.
Proof.
  induction l1 as [|p l1 IH]; intros i w.
  - cbn [app plan_loop List.length]. rewrite Nat.add_0_r.
    unfold bind, ret. destruct (plan_loop rt a library_locations i l2 w) as [[x| | |] w'];
      reflexivity.
  - cbn [app plan_loop List.length]. unfold bind.
    destruct (plan_entry rt a library_locations i p w) as [[op|e|c|] w1];
      try reflexivity.
    rewrite IH. unfold bind, ret.
    replace (S i + List.length l1) with (i + S (List.length l1)) by lia.
    destruct (plan_loop rt a library_locations (S i) l1 w1) as [[ops1|e|c|] w2];
      try reflexivity.
    destruct (plan_loop rt a library_locations (i + S (List.length l1)) l2 w2)
      as [[ops2|e|c|] w3]; reflexivity.
Qed.

Lemma reclaim_conflict (temp_dir : str) (w1 : world) (listing : list str) :
  w_signal w1 = None ->
  FS.exists_ (w_fs w1) temp_dir = true ->
  FS.listdir (w_fs w1) temp_dir = inr listing ->
  filter not_hidden listing <> [] ->
  let restore_log := PosixPath.join temp_dir (lit "restore.log") in
  reclaim_leftover temp_dir w1 =
  (SysExit 1,
   with_out
     (with_trace w1
        (w_trace w1 ++ [EvExists temp_dir; EvListdir temp_dir; EvExists restore_log]))
     (w_out w1 ++
      MsgTempDirExists temp_dir ::
      (if FS.exists_ (w_fs w1) restore_log then [MsgRestoreHint restore_log]
       else []))).
Proof.
  intros Hs Ex Hl Hne. cbv zeta. unfold reclaim_leftover.
  rewrite (bind_ret _ _ _ _ _ (run_exists w1 temp_dir Hs)). rewrite Ex.
  set (wa := with_trace w1 (w_trace w1 ++ [EvExists temp_dir])).
  assert (Sa : w_signal wa = None) by exact Hs.
  assert (La : os_listdir temp_dir wa =
               (Ret listing, with_trace wa (w_trace wa ++ [EvListdir temp_dir]))).
  { rewrite (run_listdir wa temp_dir Sa). change (w_fs wa) with (w_fs w1).
    rewrite Hl. reflexivity. }
  rewrite (bind_ret _ _ _ _ _ La). cbv zeta.
  destruct (filter not_hidden listing) as [|f fs]; [contradiction|].
  rewrite (bind_ret _ _ _ _ _ (run_print _ _)).
  match goal with
  | |- context [bind (os_path_exists ?p) _ ?wb] =>
      assert (Sb : w_signal wb = None) by exact Hs;
      rewrite (bind_ret _ _ _ _ _ (run_exists wb p Sb));
      change (w_fs wb) with (w_fs w1)
  end.
  destruct (FS.exists_ (w_fs w1) (PosixPath.join temp_dir (lit "restore.log"))).
  - rewrite (bind_ret _ _ _ _ _ (run_print _ _)).
    unfold sys_exit. cbn. rewrite <- !app_assoc. reflexivity.
  - unfold bind, ret, sys_exit. cbn. rewrite <- !app_assoc. reflexivity.
Qed.

Lemma reclaim_empty (parent : str) (w1 : world) :
  let temp_dir := PosixPath.join parent (lit "tmp.plexdance") in
  w_signal w1 = None ->
  FS.exists_ (w_fs w1) temp_dir = true ->
  FS.listdir (w_fs w1) temp_dir = inr [] ->
  exists fs',
    FS.rmdir (w_fs w1) temp_dir = inr fs' /\
    FS.exists_ fs' temp_dir = false /\
    reclaim_leftover temp_dir w1 =
    (Ret tt,
     with_fs
       (with_out
          (with_trace w1
             (w_trace w1 ++
              [EvExists temp_dir; EvListdir temp_dir; EvRmdir temp_dir true]))
          (w_out w1 ++ [MsgFoundEmptyTempDir temp_dir]))
       fs').
Proof.
  cbv zeta. set (temp_dir := PosixPath.join parent (lit "tmp.plexdance")).
  intros Hs Ex Hl.
  destruct (resolve_join parent (lit "tmp.plexdance")
              (exists_no_nul _ _ Ex) eq_refl eq_refl eq_refl eq_refl) as [q Hq].
  fold temp_dir in Hq.
  assert (Rm : FS.rmdir (w_fs w1) temp_dir
               = inr (FS.remove_subtree (w_fs w1) (q ++ [lit "tmp.plexdance"]))).
  { unfold FS.listdir in Hl. unfold FS.rmdir. rewrite Hq in *.
    destruct (FS.lookup (w_fs w1) (q ++ [lit "tmp.plexdance"])) as [n|];
      [|discriminate].
    destruct (FS.is_dir_node n); [|discriminate]. cbn [negb].
    injection Hl as Hc.
    destruct (q ++ [lit "tmp.plexdance"]) as [|s0 l] eqn:Eq;
      [destruct q; discriminate|].
    rewrite Hc. reflexivity. }
  exists (FS.remove_subtree (w_fs w1) (q ++ [lit "tmp.plexdance"])).
  split; [exact Rm|]. split.
  { unfold FS.exists_. rewrite Hq, lookup_remove_subtree. reflexivity. }
  unfold reclaim_leftover.
  rewrite (bind_ret _ _ _ _ _ (run_exists w1 temp_dir Hs)). rewrite Ex.
  set (wa := with_trace w1 (w_trace w1 ++ [EvExists temp_dir])).
  assert (Sa : w_signal wa = None) by exact Hs.
  assert (La : os_listdir temp_dir wa =
               (Ret [], with_trace wa (w_trace wa ++ [EvListdir temp_dir]))).
  { rewrite (run_listdir wa temp_dir Sa). change (w_fs wa) with (w_fs w1).
    rewrite Hl. reflexivity. }
  rewrite (bind_ret _ _ _ _ _ La). cbv zeta. cbn [filter].
  rewrite (bind_ret _ _ _ _ _ (run_print _ _)).
  unfold os_rmdir.
  match goal with
  | |- fs_update _ _ ?wb = _ =>
      assert (Sb : w_signal wb = None) by exact Hs;
      rewrite (run_fs_update wb Sb); change (w_fs wb) with (w_fs w1)
  end.
  rewrite Rm. cbn. rewrite <- !app_assoc. reflexivity.
Qed.

(** C3, as the code has it.  Planning has reached an entry whose
    staging root is not yet registered, no signal is pending, and the
    staging directory already exists on disk.  If it holds a non-hidden
    item, the run ends with [sys.exit(1)]: no rename was attempted since
    the run began, the file system is as the planning so far left it, the
    "already exists" error is printed, and the recovery-log path is
    reported exactly when a [restore.log] exists in that directory.  If
    the directory holds nothing at all, it is removed with a notice, and
    the acquisition goes on. *)
Theorem leftover_staging_directory (album_ids_map : list (str * list str))
    (done rest : list str) (plex_path : str) (w w1 : world)
    (ops : list (str * str * str)) (listing : list str) :
  let parent := staging_parent a library_locations plex_path in
  let temp_dir := PosixPath.join parent (lit "tmp.plexdance") in
  let restore_log := PosixPath.join temp_dir (lit "restore.log") in
  w_signal w1 = None ->
  FS.exists_ (w_fs w1) temp_dir = true ->
  FS.listdir (w_fs w1) temp_dir = inr listing ->
  (filter not_hidden listing <> [] ->
   plan_loop rt a library_locations 0 done (snd (print MsgPhase1 w)) = (Ret ops, w1) ->
   dict_get (w_library_temp_dirs w1) parent = None ->
   exists w2,
     dance rt a album_ids_map library_locations (done ++ plex_path :: rest) w
     = (SysExit 1, w2) /\
     existsb is_rename (new_events w w2) = false /\
     w_fs w2 = w_fs w1 /\
     In (MsgTempDirExists temp_dir) (new_output w1 w2) /\
     (In (MsgRestoreHint restore_log) (new_output w1 w2) <->
      FS.exists_ (w_fs w1) restore_log = true)) /\
  (listing = [] ->
   exists fs',
     FS.rmdir (w_fs w1) temp_dir = inr fs' /\
     FS.exists_ fs' temp_dir = false /\
     reclaim_leftover temp_dir w1 =
     (Ret tt,
      with_fs
        (with_out
           (with_trace w1
              (w_trace w1 ++
               [EvExists temp_dir; EvListdir temp_dir; EvRmdir temp_dir true]))
           (w_out w1 ++ [MsgFoundEmptyTempDir temp_dir]))
        fs')).
Proof.
  cbv zeta. intros Hs Ex Hl. split.
  2:{ intros ->. exact (reclaim_empty _ w1 Hs Ex Hl). }
  intros Hne Hplan Hd.
  set (parent := staging_parent a library_locations plex_path) in *.
  set (temp_dir := PosixPath.join parent (lit "tmp.plexdance")) in *.
  set (restore_log := PosixPath.join temp_dir (lit "restore.log")).
  pose proof (reclaim_conflict temp_dir w1 listing Hs Ex Hl Hne) as Hr.
  cbv zeta in Hr. fold restore_log in Hr.
  match type of Hr with _ = (_, ?x) => set (w2 := x) in * end.
  exists w2.
  assert (Hentry : plan_entry rt a library_locations (0 + List.length done)
                     plex_path w1 = (SysExit 1, w2)).
  { unfold plan_entry. fold parent.
    unfold bind at 1. unfold get at 1. rewrite Hd.
    apply bind_exit. unfold acquire_temp_dir. fold temp_dir.
    apply bind_exit. exact Hr. }
  assert (Hloop : plan_loop rt a library_locations 0 (done ++ plex_path :: rest)
                    (snd (print MsgPhase1 w)) = (SysExit 1, w2)).
  { rewrite plan_loop_app. rewrite (bind_ret _ _ _ _ _ Hplan).
    apply bind_exit. cbn [plan_loop]. apply bind_exit. exact Hentry. }
  assert (Hdance : dance rt a album_ids_map library_locations
                     (done ++ plex_path :: rest) w = (SysExit 1, w2)).
  { unfold dance. apply bind_exit. unfold staging_phase.
    rewrite (bind_ret _ _ _ _ _ (run_print w MsgPhase1)).
    apply bind_exit. exact Hloop. }
  split; [exact Hdance|].
  destruct (plan_loop_emits done 0 _ _ _ Hplan) as (evs & Ht & Hn).
  cbn [snd print w_trace with_out] in Ht.
  split.
  { erewrite new_events_app.
    2:{ subst w2. cbn [w_trace with_out with_trace]. rewrite Ht, <- app_assoc.
        reflexivity. }
    rewrite existsb_app, (existsb_is_rename_false _ Hn). reflexivity. }
  split; [reflexivity|].
  assert (Ho : new_output w1 w2 =
               MsgTempDirExists temp_dir ::
               (if FS.exists_ (w_fs w1) restore_log
                then [MsgRestoreHint restore_log] else []))
    by (apply new_output_app; reflexivity).
  rewrite Ho. split; [left; reflexivity|].
  destruct (FS.exists_ (w_fs w1) restore_log); cbn; split; intros H; auto.
  - destruct H as [H|[]]; discriminate.
  - discriminate.
Qed.

End Planning.

Lemma leftover_staging_directory_witness :
  let w := start leftover_fs server_gone None in
  exists w2,
    dance rt0 music_args [] [lit "/media/Music"]
      [x1_catalog; lit "/media/Music/A/x2"] w = (SysExit 1, w2) /\
    existsb is_rename (new_events w w2) = false /\
    In (MsgTempDirExists (lit "/Users/u/tmp.plexdance")) (w_out w2).
Proof.
  cbv zeta.
  destruct (leftover_staging_directory rt0 music_args [lit "/media/Music"] []
              [] [lit "/media/Music/A/x2"] x1_catalog
              (start leftover_fs server_gone None)
              (snd (print MsgPhase1 (start leftover_fs server_gone None)))
              [] [lit "0_A_old"] eq_refl eq_refl eq_refl) as [H _].
  destruct H as (w2 & H1 & H2 & _ & H4 & _);
    [discriminate|reflexivity|reflexivity|].
  exists w2. split; [exact H1|]. split; [exact H2|].
  unfold new_output in H4.
  rewrite <- (firstn_skipn
                (List.length
                   (w_out (snd (print MsgPhase1 (start leftover_fs server_gone None)))))
                (w_out w2)).
  apply in_or_app. right. exact H4.
Defined.

(** ** The recovery log is on disk before the first rename *)

Lemma steps_weaken (R1 R2 : world -> world -> Prop) {A : Type} (m : M A) :
  (forall w w', R1 w w' -> R2 w w') -> steps R1 m -> steps R2 m.
Proof. intros H Hm w r w' E. apply H. eapply Hm. exact E. Qed.

Lemma emits_weaken (P Q : event -> Prop) (w w' : world) :
  (forall e, P e -> Q e) -> emits P w w' -> emits Q w w'.
Proof.
  intros H (evs & T & F). exists evs. split; [exact T|].
  eapply Forall_impl; eauto.
Qed.

(** Where a first rename sits in a trace made of rename-free parts
    followed by the moves. *)
Lemma first_rename_split (quiet moves pre post : list event) (e : event) :
  Forall not_rename quiet -> is_rename e = true ->
  quiet ++ moves = pre ++ e :: post ->
  exists pre', pre = quiet ++ pre' /\ moves = pre' ++ e :: post.
Proof.
  revert pre. induction quiet as [|q quiet IH]; intros pre Hq He E.
  - exists pre. auto.
  - inversion Hq as [|? ? Hq1 Hq2]; subst.
    destruct pre as [|p pre]; cbn in E.
    + injection E as -> _. unfold not_rename in Hq1. congruence.
    + injection E as -> E.
      destruct (IH pre Hq2 He E) as (pre' & -> & ->).
      exists pre'. auto.
Qed.

Lemma dict_get_in {V : Type} (d : list (str * V)) (k : str) (v : V) :
  dict_get d k = Some v -> exists k', In (k', v) d.
Proof.
  induction d as [|[k0 v0] d IH]; cbn; [discriminate|].
  destruct (PyStr.eqb k0 k).
  - intros [= ->]. eauto.
  - intros H. destruct (IH H) as [k' Hk]. eauto.
Qed.

Lemma dict_set_fresh {V : Type} (d : list (str * V)) (k : str) (v : V) :
  dict_get d k = None ->
  forall p t, dict_get d p = Some t -> dict_get (dict_set d k v) p = Some t.
Proof.
  induction d as [|[k0 v0] d IH]; cbn; intros Hk p t Hp; [discriminate|].
  destruct (PyStr.eqb k0 k) eqn:E; [discriminate|]. cbn.
  destruct (PyStr.eqb k0 p); [assumption|]. apply IH; assumption.
Qed.

Lemma dict_set_idem {V : Type} (d : list (str * V)) (k : str) (v : V) :
  dict_set (dict_set d k v) k v = dict_set d k v.
Proof.
  induction d as [|[k0 v0] d IH]; cbn.
  - rewrite eqb_refl. reflexivity.
  - destruct (PyStr.eqb k0 k) eqn:E; cbn; rewrite E; [reflexivity|].
    rewrite IH. reflexivity.
Qed.

Lemma bind_inv {A B : Type} (m : M A) (k : A -> M B) (w w' : world)
    (r : outcome B) :
  bind m k w = (r, w') ->
  exists r1 w1,
    m w = (r1, w1) /\
    match r1 with
    | Ret x => k x w1 = (r, w')
    | Raise e => r = Raise e /\ w' = w1
    | SysExit c => r = SysExit c /\ w' = w1
    | Interrupt => r = Interrupt /\ w' = w1
    end.
Proof.
  unfold bind. destruct (m w) as [[x|e|c|] w1]; intros H;
    eexists _, _; (split; [reflexivity|]); cbn;
    try exact H; injection H as <- <-; auto.
Qed.

Lemma steps_seq (R1 R2 R3 : world -> world -> Prop) {A B : Type}
    (m : M A) (k : A -> M B) :
  (forall x y z, R1 x y -> R2 y z -> R3 x z) ->
  (forall x y, R1 x y -> R3 x y) ->
  steps R1 m -> (forall x, steps R2 (k x)) -> steps R3 (bind m k).
Proof.
  intros Hc Hi Hm Hk w r w' E. apply bind_inv in E.
  destruct E as (r1 & w1 & E1 & E). pose proof (Hm _ _ _ E1) as H1.
  destruct r1 as [x|e|c|]; [exact (Hc _ _ _ H1 (Hk _ _ _ _ E))| | |];
    destruct E as [_ ->]; exact (Hi _ _ H1).
Qed.

Lemma steps_try_seq (R1 R2 R3 : world -> world -> Prop) {A : Type}
    (m : M A) (handles : exn -> bool) (handler : exn -> M A) :
  (forall x y z, R1 x y -> R2 y z -> R3 x z) ->
  (forall x y, R1 x y -> R3 x y) ->
  steps R1 m -> (forall e, steps R2 (handler e)) ->
  steps R3 (try_except m handles handler).
Proof.
  intros Hc Hi Hm Hh w r w'. unfold try_except.
  destruct (m w) as [[x|e|c|] w1] eqn:E1; pose proof (Hm _ _ _ E1) as H1;
    try (intros [= <- <-]; exact (Hi _ _ H1)).
  destruct (handles e).
  - intros E. exact (Hc _ _ _ H1 (Hh _ _ _ _ E)).
  - intros [= <- <-]. exact (Hi _ _ H1).
Qed.

Lemma keeps_roots_refl (w : world) : keeps_roots w w.
Proof. intros p t H. exact H. Qed.

Lemma keeps_roots_trans (x y z : world) :
  keeps_roots x y -> keeps_roots y z -> keeps_roots x z.
Proof. intros H1 H2 p t H. apply H2, H1, H. Qed.

Lemma keeps_roots_agree (w w' : world) :
  agree w_library_temp_dirs w w' -> keeps_roots w w'.
Proof. intros H p t. unfold agree in H. rewrite H. auto. Qed.

Lemma registers_trans (parent temp_dir : str) (x y z : world) :
  registers parent temp_dir x y -> registers parent temp_dir y z ->
  registers parent temp_dir x z.
Proof.
  unfold registers. intros [H1|H1] [H2|H2]; rewrite H2, H1;
    rewrite ?dict_set_idem; auto.
Qed.

Lemma registers_agree (parent temp_dir : str) (w w' : world) :
  agree w_library_temp_dirs w w' -> registers parent temp_dir w w'.
Proof. intros H. left. exact H. Qed.

Lemma registers_keeps_roots (parent temp_dir : str) (w w' : world) :
  dict_get (w_library_temp_dirs w) parent = None ->
  registers parent temp_dir w w' -> keeps_roots w w'.
Proof.
  intros Hn [H|H] p t Hp; rewrite H; [exact Hp|].
  apply dict_set_fresh; assumption.
Qed.

(** ** The recovery log, as a shell reads it *)

Lemma sh_plain_safe (c : char) : shlex_safe c = true -> sh_plain c = true.
Proof.
  unfold shlex_safe, sh_plain, ascii_isalnum.
  change (lit "_@%+=:,./-") with [95; 64; 37; 43; 61; 58; 44; 46; 47; 45]%N.
  unfold mem. cbn [existsb].
  rewrite orb_false_r. rewrite !orb_assoc. intros H. exact H.
Qed.

Lemma sh_plain_literal (c : char) :
  sh_plain c = true ->
  (c =? 39)%N = false /\ (c =? 34)%N = false /\
  (c =? 32)%N = false /\ (c =? 9)%N = false.
Proof.
  intros H. repeat split; apply N.eqb_neq; intros ->; vm_compute in H;
    discriminate H.
Qed.

Lemma sh_scan_plain (p : str) :
  forallb shlex_safe p = true ->
  forall (m : sh_mode) cur rest acc,
    m = ShOut \/ m = ShWord -> p <> [] ->
    sh_scan (p ++ rest) m cur acc = sh_scan rest ShWord (rev p ++ cur) acc.
Proof.
  induction p as [|c p IH]; intros Hp m cur rest acc Hm Hne; [contradiction|].
  cbn [forallb] in Hp. apply andb_true_iff in Hp. destruct Hp as [Hc Hp].
  pose proof (sh_plain_safe c Hc) as Hs.
  destruct (sh_plain_literal c Hs) as (H1 & H2 & H3 & H4).
  assert (Step : sh_scan ((c :: p) ++ rest) m cur acc
                 = sh_scan (p ++ rest) ShWord (c :: cur) acc).
  { cbn [app sh_scan]. destruct Hm as [-> | ->];
      rewrite H1, H2, H3, H4, Hs; reflexivity. }
  rewrite Step. destruct p as [|d p].
  - reflexivity.
  - rewrite (IH Hp ShWord (c :: cur) rest acc (or_intror eq_refl));
      [|discriminate].
    cbn [rev]. rewrite <- !app_assoc. reflexivity.
Qed.

Lemma sh_scan_quoted (p : str) :
  forall cur rest acc,
    sh_scan (flat_map (fun c => if N.eqb c 39 then [39; 34; 39; 34; 39]%N else [c]) p
             ++ rest) ShSingle cur acc
    = sh_scan rest ShSingle (rev p ++ cur) acc.
Proof.
  induction p as [|c p IH]; intros cur rest acc; [reflexivity|].
  cbn [flat_map rev]. rewrite <- !app_assoc.
  destruct (N.eqb_spec c 39) as [->|Hc].
  - cbn [app sh_scan N.eqb Pos.eqb orb]. rewrite IH. reflexivity.
  - cbn [app sh_scan]. apply N.eqb_neq in Hc. rewrite Hc. rewrite IH.
    reflexivity.
Qed.

(** A quoted path is one word, or the end of the word being read, and
    that word is the path. *)
Lemma sh_scan_quote (p : str) (m : sh_mode) (rest : str) (acc : list str) :
  m = ShOut \/ m = ShWord ->
  sh_scan (shlex_quote p ++ rest) m [] acc = sh_scan rest ShWord (rev p) acc.
Proof.
  intros Hm. unfold shlex_quote. destruct p as [|c p].
  - destruct Hm as [-> | ->]; reflexivity.
  - destruct (forallb shlex_safe (c :: p)) eqn:Hp.
    + rewrite (sh_scan_plain (c :: p) Hp m [] rest acc Hm); [|discriminate].
      rewrite app_nil_r. reflexivity.
    + rewrite <- !app_assoc.
      assert (Open : forall tail,
                 sh_scan ([39%N] ++ tail) m [] acc = sh_scan tail ShSingle [] acc).
      { intros tail. destruct Hm as [-> | ->]; reflexivity. }
      rewrite Open, sh_scan_quoted. rewrite app_nil_r. reflexivity.
Qed.

Lemma sh_words_restore_command (op : str * str * str) :
  sh_words (restore_command op)
  = Some [lit "mv"; snd (fst op); fst (fst op)].
Proof.
  destruct op as [[local_path temp_path] plex_path].
  unfold sh_words, restore_command. cbn [fst snd].
  change (lit "mv " ++ ?x) with (109%N :: 118%N :: 32%N :: x).
  cbn [sh_scan N.eqb Pos.eqb orb sh_plain N.leb N.compare Pos.compare
       Pos.compare_cont andb rev app].
  rewrite (sh_scan_quote temp_path ShOut _ _ (or_introl eq_refl)).
  change (lit " " ++ ?x) with (32%N :: x).
  cbn [sh_scan N.eqb Pos.eqb orb].
  rewrite <- (app_nil_r (shlex_quote local_path)).
  rewrite (sh_scan_quote local_path ShOut _ _ (or_introl eq_refl)).
  cbn [sh_scan rev app]. rewrite !rev_involutive. reflexivity.
Qed.

Section Staging.

Variable rt : runtime.
Variable a : args.
Variable library_locations : list str.

Lemma reclaim_leftover_agree (temp_dir : str) :
  steps (agree w_library_temp_dirs) (reclaim_leftover temp_dir).
Proof.
  unfold reclaim_leftover, os_path_exists, os_listdir, os_rmdir.
  steps_split; apply agree_fs_read || apply agree_fs_query
               || apply agree_fs_update; auto with steps.
Qed.

Lemma acquire_temp_dir_registers (local_path parent : str) :
  steps (registers parent (PosixPath.join parent (lit "tmp.plexdance")))
    (acquire_temp_dir rt local_path parent).
Proof.
  assert (Q : forall (A : Type) (m : M A),
             steps (agree w_library_temp_dirs) m ->
             steps (registers parent (PosixPath.join parent (lit "tmp.plexdance"))) m).
  { intros A m H. eapply steps_weaken; [apply registers_agree|exact H]. }
  unfold acquire_temp_dir. cbv zeta.
  apply steps_bind; [apply registers_trans|apply Q, reclaim_leftover_agree|intros _].
  apply steps_bind; [apply registers_trans| |intros same].
  { apply Q, are_on_same_filesystem_agree; reflexivity. }
  apply steps_bind; [apply registers_trans| |intros _].
  { apply Q. steps_split. }
  apply steps_bind; [apply registers_trans| |intros _].
  { apply Q. unfold os_makedirs. apply agree_fs_update; reflexivity. }
  apply steps_bind; [apply registers_trans| |intros now].
  { apply Q. steps_split. }
  apply steps_bind; [apply registers_trans| |intros _].
  { apply Q. unfold write_file. apply agree_fs_update; reflexivity. }
  intros w r w' [= <- <-]. right. reflexivity.
Qed.

Lemma plan_entry_keeps_roots (i : nat) (plex_path : str) :
  steps keeps_roots (plan_entry rt a library_locations i plex_path).
Proof.
  intros w r w' E. unfold plan_entry in E. cbv zeta in E.
  apply bind_inv in E. destruct E as (r1 & w1 & E1 & E).
  injection E1 as <- <-.
  apply bind_inv in E. destruct E as (r2 & w2 & E2 & E).
  assert (K2 : keeps_roots w w2).
  { destruct (dict_get (w_library_temp_dirs w) _) as [t|] eqn:Ed.
    - injection E2 as <- <-. apply keeps_roots_refl.
    - eapply registers_keeps_roots; [exact Ed|].
      eapply acquire_temp_dir_registers. exact E2. }
  assert (K3 : forall (x : unit),
             steps (agree w_library_temp_dirs)
               (dirs <- get w_library_temp_dirs ;;
                match dict_get dirs (staging_parent a library_locations plex_path) with
                | None => raise KeyError
                | Some temp_dir =>
                    match safe_temp_name (isalnum rt) (N.of_nat i)
                            (PosixPath.basename (PosixPath.dirname (to_local a plex_path)))
                            (PosixPath.basename (to_local a plex_path)) 255 with
                    | None => raise UnicodeEncodeError
                    | Some safe_name =>
                        modify (fun w => with_temp_paths w
                                  (w_temp_paths w ++ [PosixPath.join temp_dir safe_name])) ;;
                        ret (to_local a plex_path, PosixPath.join temp_dir safe_name,
                             plex_path)
                    end
                end)).
  { intros x. steps_split. }
  destruct r2 as [x|e|c|].
  - eapply keeps_roots_trans; [exact K2|].
    apply keeps_roots_agree. exact (K3 tt _ _ _ E).
  - destruct E as [_ ->]. exact K2.
  - destruct E as [_ ->]. exact K2.
  - destruct E as [_ ->]. exact K2.
Qed.

Lemma plan_loop_keeps_roots (plex_paths : list str) :
  forall i, steps keeps_roots (plan_loop rt a library_locations i plex_paths).
Proof.
  induction plex_paths as [|p rest IH]; intros i; cbn [plan_loop].
  - apply steps_ret, keeps_roots_refl.
  - apply steps_bind; [exact keeps_roots_trans|apply plan_entry_keeps_roots|].
    intros op. apply steps_bind; [exact keeps_roots_trans|apply IH|].
    intros ops. apply steps_ret, keeps_roots_refl.
Qed.

Lemma safe_name_relative (index : N) (artist album name : str) :
  safe_temp_name (isalnum rt) index artist album 255 = Some name ->
  startswith name [slash] = false.
Proof.
  intros H. apply safe_temp_name_form in H. destruct H as [rest ->].
  pose proof (PyStrFacts.str_of_int_digits index) as D.
  destruct (str_of_int index) as [|c r]; [reflexivity|].
  inversion D as [|? ? Hc _]; subst. cbn [app startswith].
  replace (N.eqb c slash) with false; [reflexivity|].
  symmetry. apply N.eqb_neq. unfold slash. lia.
Qed.

(** The entry planned for a path is staged under a registered staging
    directory. *)
Lemma plan_entry_root (i : nat) (plex_path : str) (w w' : world)
    (op : str * str * str) :
  plan_entry rt a library_locations i plex_path w = (Ret op, w') ->
  exists parent temp_dir,
    dict_get (w_library_temp_dirs w') parent = Some temp_dir /\
    startswith (snd (fst op)) temp_dir = true.
Proof.
  intros E. unfold plan_entry in E. cbv zeta in E.
  apply bind_inv in E. destruct E as (r1 & w1 & E1 & E).
  injection E1 as <- <-.
  apply bind_inv in E. destruct E as (r2 & w2 & _ & E).
  destruct r2 as [x|e|c|]; try (destruct E; discriminate).
  apply bind_inv in E. destruct E as (r3 & w3 & E3 & E).
  injection E3 as <- <-.
  destruct (dict_get (w_library_temp_dirs w2) _) as [temp_dir|] eqn:Ed;
    [|discriminate E].
  destruct (safe_temp_name _ _ _ _ _) as [safe_name|] eqn:En; [|discriminate E].
  injection E as <- <-.
  exists (staging_parent a library_locations plex_path), temp_dir.
  split; [exact Ed|].
  apply join_startswith. eapply safe_name_relative. exact En.
Qed.

Lemma plan_loop_roots (plex_paths : list str) :
  forall i w w' ops,
    plan_loop rt a library_locations i plex_paths w = (Ret ops, w') ->
    forall op, In op ops ->
      exists parent temp_dir,
        dict_get (w_library_temp_dirs w') parent = Some temp_dir /\
        startswith (snd (fst op)) temp_dir = true.
Proof.
  induction plex_paths as [|p rest IH]; intros i w w' ops E op Hop;
    cbn [plan_loop] in E.
  - injection E as <- <-. destruct Hop.
  - apply bind_inv in E. destruct E as (r1 & w1 & E1 & E).
    destruct r1 as [op1|e|c|]; try (destruct E; discriminate).
    apply bind_inv in E. destruct E as (r2 & w2 & E2 & E).
    destruct r2 as [ops2|e|c|]; try (destruct E; discriminate).
    injection E as <- <-.
    destruct Hop as [<-|Hop].
    + destruct (plan_entry_root _ _ _ _ _ E1) as (parent & temp_dir & H1 & H2).
      exists parent, temp_dir. split; [|exact H2].
      eapply plan_loop_keeps_roots; [exact E2|exact H1].
    + eapply IH; [exact E2|exact Hop].
Qed.

Lemma write_file_ret (p : str) (content : list str) (w w' : world) :
  write_file p content w = (Ret tt, w') ->
  w_trace w' = w_trace w ++ [EvWrite p content true] /\
  w_clock w' = w_clock w.
Proof.
  unfold write_file, fs_update, bind, tick, get, emit, modify, raise.
  destruct (w_signal w) as [[|n]|]; [discriminate| |]; cbn;
    destruct (FS.write_file _ p content); intros [= <-]; auto.
Qed.

Lemma restore_logs_written (ops : list (str * str * str))
    (dirs : list (str * str)) :
  forall w w',
    for_each dirs
      (fun item =>
         now <- get w_clock ;;
         write_file (PosixPath.join (snd item) (lit "restore.log"))
           (restore_log_lines rt now (snd item) ops)) w = (Ret tt, w') ->
    w_clock w' = w_clock w /\
    exists evs,
      w_trace w' = w_trace w ++ evs /\
      forall item, In item dirs ->
        In (EvWrite (PosixPath.join (snd item) (lit "restore.log"))
              (restore_log_lines rt (w_clock w) (snd item) ops) true) evs.
Proof.
  induction dirs as [|d dirs IH]; intros w w' E; cbn [for_each] in E.
  - injection E as <-. split; [reflexivity|]. exists [].
    rewrite app_nil_r. split; [reflexivity|]. intros item [].
  - apply bind_inv in E. destruct E as (r1 & w1 & E1 & E).
    destruct r1 as [[]|e|c|]; try (destruct E; discriminate).
    apply bind_inv in E1. destruct E1 as (r0 & w0 & E0 & E1).
    injection E0 as <- <-.
    apply write_file_ret in E1. destruct E1 as [T1 C1].
    destruct (IH _ _ E) as (C2 & evs & T2 & I2).
    split; [congruence|].
    exists (EvWrite (PosixPath.join (snd d) (lit "restore.log"))
              (restore_log_lines rt (w_clock w) (snd d) ops) true :: evs).
    split; [rewrite T2, T1, <- app_assoc; reflexivity|].
    intros item [<-|H]; [left; reflexivity|].
    right. rewrite <- C1. apply I2, H.
Qed.

Lemma write_restore_logs_emits (ops : list (str * str * str)) :
  steps (emits not_rename) (write_restore_logs rt ops).
Proof. unfold write_restore_logs. steps_split. Qed.

Lemma write_restore_logs_written (ops : list (str * str * str)) (w w' : world) :
  write_restore_logs rt ops w = (Ret tt, w') ->
  forall parent temp_dir,
    dict_get (w_library_temp_dirs w) parent = Some temp_dir ->
    In (EvWrite (PosixPath.join temp_dir (lit "restore.log"))
          (restore_log_lines rt (w_clock w) temp_dir ops) true)
       (new_events w w').
Proof.
  intros E parent temp_dir Hd. unfold write_restore_logs in E.
  apply bind_inv in E. destruct E as (r0 & w0 & E0 & E).
  injection E0 as <- <-. cbv zeta in E.
  apply restore_logs_written in E. destruct E as (_ & evs & T & I).
  rewrite (new_events_app _ _ _ T).
  destruct (dict_get_in _ _ _ Hd) as [k' Hk]. exact (I _ Hk).
Qed.

Lemma only_stages_quiet (op : str * str * str) (e : event) :
  not_rename e -> only_stages op e.
Proof. unfold not_rename, only_stages. congruence. Qed.

Lemma only_stages_entry (local_path temp_path plex_path : str) (ok : bool) :
  only_stages (local_path, temp_path, plex_path)
    (EvRename local_path temp_path ok).
Proof. intros _. cbn [stages]. rewrite !eqb_refl. reflexivity. Qed.

Lemma only_stages_sidecar (local_path temp_path plex_path : str) (ok : bool) :
  only_stages (local_path, temp_path, plex_path)
    (EvRename
       (appledouble (PosixPath.dirname local_path) (PosixPath.basename local_path))
       (appledouble (PosixPath.dirname temp_path) (PosixPath.basename temp_path))
       ok).
Proof.
  intros _. cbn [stages]. rewrite !eqb_refl, orb_true_r. reflexivity.
Qed.

Lemma move_file_stages (local_path temp_path plex_path : str) :
  steps (emits (only_stages (local_path, temp_path, plex_path)))
    (move_file local_path temp_path (Some plex_path)).
Proof.
  pose proof (fun p1 p2 =>
                steps_weaken _ _ _
                  (fun w w' =>
                     emits_weaken _ _ w w'
                       (only_stages_quiet (local_path, temp_path, plex_path)))
                  (are_on_same_filesystem_emits p1 p2)) as Hdev.
  pose proof (only_stages_entry local_path temp_path plex_path).
  pose proof (only_stages_sidecar local_path temp_path plex_path).
  assert (Q : forall e, is_rename e = false ->
                        only_stages (local_path, temp_path, plex_path) e).
  { intros e. apply only_stages_quiet. }
  unfold move_file. steps_split.
Qed.

Lemma move_all_stages (all : list (str * str * str)) :
  forall ops i total,
    incl ops all ->
    steps (emits (stages_one_of all)) (move_all i total ops).
Proof.
  induction ops as [|[[local_path temp_path] plex_path] rest IH];
    intros i total Hin; cbn [move_all].
  - steps_split.
  - assert (Hm : steps (emits (stages_one_of all))
                   (move_file local_path temp_path (Some plex_path))).
    { eapply steps_weaken; [|apply move_file_stages].
      intros w w'. apply emits_weaken. intros e He Hr.
      exists (local_path, temp_path, plex_path).
      split; [apply Hin; left; reflexivity|exact (He Hr)]. }
    assert (Hrest : steps (emits (stages_one_of all)) (move_all (S i) total rest)).
    { apply IH. intros op Hop. apply Hin. right. exact Hop. }
    steps_split.
Qed.

Lemma no_rename_among (quiet pre post : list event) (e : event) :
  Forall not_rename quiet -> is_rename e = true ->
  quiet <> pre ++ e :: post.
Proof.
  intros Hq He ->. apply Forall_app in Hq. destruct Hq as [_ Hq].
  inversion Hq as [|? ? H _]; subst. unfold not_rename in H. congruence.
Qed.

(** C5.  Take any run of the staging phase, however it ends (completed,
    stopped by an error or interrupted by a signal), and any rename [e] in
    the system calls it made, with [pre] the calls before it.  Then the
    planning loop had completed with a list of move operations; [e] stages
    the entry of one of them (or its AppleDouble file); and every planned
    operation has a registered staging directory under which its staging
    path lies, whose recovery log was written successfully during [pre],
    before [e].  That log is the four lines of the header followed by one
    command for each operation planned under this staging directory, in
    the order of the plan: [mv], the quoted staging path, the quoted
    original local path.  A shell reads each command as the three words
    [mv], the staging path and the original local path. *)
Theorem restore_log_precedes_renames (plex_paths : list str) (w w' : world)
    (r : outcome (list (str * str * str) * list bool))
    (pre post : list event) (e : event) :
  staging_phase rt a library_locations plex_paths w = (r, w') ->
  new_events w w' = pre ++ e :: post ->
  is_rename e = true ->
  exists move_operations w1,
    plan_loop rt a library_locations 0 plex_paths (snd (print MsgPhase1 w))
    = (Ret move_operations, w1) /\
    (exists op, In op move_operations /\ stages op e = true) /\
    forall op, In op move_operations ->
      exists parent temp_dir commands,
        dict_get (w_library_temp_dirs w1) parent = Some temp_dir /\
        startswith (snd (fst op)) temp_dir = true /\
        In (EvWrite (PosixPath.join temp_dir (lit "restore.log"))
              ([lit "#!/bin/bash";
                lit "# Restore script for plex-dance operation";
                lit "# Generated: " ++ strftime rt (w_clock w1);
                []] ++ commands) true)
           pre /\
        commands
        = map (fun planned =>
                 lit "mv " ++ shlex_quote (snd (fst planned)) ++ lit " "
                 ++ shlex_quote (fst (fst planned)))
            (filter (fun planned => startswith (snd (fst planned)) temp_dir)
               move_operations) /\
        map sh_words commands
        = map (fun planned =>
                 Some [lit "mv"; snd (fst planned); fst (fst planned)])
            (filter (fun planned => startswith (snd (fst planned)) temp_dir)
               move_operations) /\
        In (Some [lit "mv"; snd (fst op); fst (fst op)]) (map sh_words commands).
Proof.
  intros E Hsplit He. unfold staging_phase in E.
  apply bind_inv in E. destruct E as (r0 & w0 & E0 & E).
  rewrite run_print in E0. injection E0 as <- <-.
  apply bind_inv in E. destruct E as (r1 & w1 & E1 & E).
  destruct (plan_loop_emits rt a library_locations plex_paths 0 _ _ _ E1)
    as (e1 & T1 & F1).
  change (w_trace (with_out w (w_out w ++ [MsgPhase1]))) with (w_trace w) in T1.
  destruct r1 as [ops|x|c|].
  2,3,4: destruct E as [_ ->]; exfalso;
    rewrite (new_events_app _ _ _ T1) in Hsplit;
    exact (no_rename_among _ _ _ _ F1 He Hsplit).
  apply bind_inv in E. destruct E as (r2 & w2 & E2 & E).
  destruct (write_restore_logs_emits ops _ _ _ E2) as (e2 & T2 & F2).
  assert (T12 : w_trace w2 = w_trace w ++ (e1 ++ e2)).
  { rewrite T2, T1, app_assoc. reflexivity. }
  assert (F12 : Forall not_rename (e1 ++ e2)).
  { apply Forall_app. auto. }
  destruct r2 as [[]|x|c|].
  2,3,4: destruct E as [_ ->]; exfalso;
    rewrite (new_events_app _ _ _ T12) in Hsplit;
    exact (no_rename_among _ _ _ _ F12 He Hsplit).
  apply bind_inv in E. destruct E as (r3 & w3 & E3 & E).
  rewrite run_print in E3. injection E3 as <- <-.
  apply bind_inv in E. destruct E as (r4 & w4 & E4 & E).
  destruct (move_all_stages ops ops 0 (List.length ops) (incl_refl ops) _ _ _ E4)
    as (e3 & T3 & F3).
  change (w_trace (with_out w2 (w_out w2 ++ [MsgMovingAlbums])))
    with (w_trace w2) in T3.
  assert (W : w' = w4).
  { destruct r4 as [results|x|c|]; [injection E as _ <-; reflexivity| | |];
      destruct E as [_ ->]; reflexivity. }
  subst w'.
  assert (T : w_trace w4 = w_trace w ++ ((e1 ++ e2) ++ e3)).
  { rewrite T3, T12. symmetry. apply app_assoc. }
  rewrite (new_events_app _ _ _ T) in Hsplit.
  destruct (first_rename_split _ _ _ _ _ F12 He Hsplit) as (pre' & -> & M).
  exists ops, w1. split; [exact E1|]. split.
  - rewrite Forall_forall in F3. apply (F3 e); [|exact He].
    rewrite M. apply in_elt.
  - intros op Hop.
    destruct (plan_loop_roots _ _ _ _ _ E1 op Hop) as (parent & temp_dir & Hd & Hs).
    assert (Hc : map sh_words
                   (map restore_command
                      (filter (fun planned => startswith (snd (fst planned)) temp_dir)
                         ops))
                 = map (fun planned =>
                          Some [lit "mv"; snd (fst planned); fst (fst planned)])
                     (filter (fun planned => startswith (snd (fst planned)) temp_dir)
                        ops)).
    { rewrite map_map. apply map_ext. intros planned.
      apply sh_words_restore_command. }
    exists parent, temp_dir,
      (map restore_command
         (filter (fun planned => startswith (snd (fst planned)) temp_dir) ops)).
    split; [exact Hd|]. split; [exact Hs|]. split; [|split; [|split]].
    + apply in_or_app. left. apply in_or_app. right.
      rewrite <- (new_events_app _ _ _ T2).
      exact (write_restore_logs_written ops _ _ E2 parent temp_dir Hd).
    + apply map_ext. intros [[local_path temp_path] plex_path]. reflexivity.
    + exact Hc.
    + rewrite Hc.
      apply (in_map (fun planned =>
                       Some [lit "mv"; snd (fst planned); fst (fst planned)])).
      apply filter_In. split; assumption.
Qed.

End Staging.

Lemma restore_log_precedes_renames_witness :
  let w := start music_fs server_gone None in
  let staged :=
    staging_phase rt0 music_args [lit "/media/Music"] [x1_catalog] w in
  exists move_operations w1,
    plan_loop rt0 music_args [lit "/media/Music"] 0 [x1_catalog]
      (snd (print MsgPhase1 w)) = (Ret move_operations, w1) /\
    (exists op,
        In op move_operations /\
        stages op (EvRename x1_local x1_staged true) = true) /\
    forall op, In op move_operations ->
      exists parent temp_dir commands,
        dict_get (w_library_temp_dirs w1) parent = Some temp_dir /\
        startswith (snd (fst op)) temp_dir = true /\
        In (EvWrite (PosixPath.join temp_dir (lit "restore.log"))
              ([lit "#!/bin/bash";
                lit "# Restore script for plex-dance operation";
                lit "# Generated: " ++ strftime rt0 (w_clock w1);
                []] ++ commands) true)
           (firstn 14 (new_events w (snd staged))) /\
        commands
        = map (fun planned =>
                 lit "mv " ++ shlex_quote (snd (fst planned)) ++ lit " "
                 ++ shlex_quote (fst (fst planned)))
            (filter (fun planned => startswith (snd (fst planned)) temp_dir)
               move_operations) /\
        map sh_words commands
        = map (fun planned =>
                 Some [lit "mv"; snd (fst planned); fst (fst planned)])
            (filter (fun planned => startswith (snd (fst planned)) temp_dir)
               move_operations) /\
        In (Some [lit "mv"; snd (fst op); fst (fst op)]) (map sh_words commands).
Proof.
  cbv zeta.
  apply (restore_log_precedes_renames rt0 music_args [lit "/media/Music"]
           [x1_catalog] (start music_fs server_gone None)
           (snd (staging_phase rt0 music_args [lit "/media/Music"] [x1_catalog]
                   (start music_fs server_gone None)))
           (fst (staging_phase rt0 music_args [lit "/media/Music"] [x1_catalog]
                   (start music_fs server_gone None)))
           (firstn 14
              (new_events (start music_fs server_gone None)
                 (snd (staging_phase rt0 music_args [lit "/media/Music"]
                         [x1_catalog] (start music_fs server_gone None)))))
           (skipn 15
              (new_events (start music_fs server_gone None)
                 (snd (staging_phase rt0 music_args [lit "/media/Music"]
                         [x1_catalog] (start music_fs server_gone None)))))
           (EvRename x1_local x1_staged true)).
  - vm_compute. reflexivity.
  - vm_compute. reflexivity.
  - reflexivity.
Defined.

(** ** The two bounded loops never reach their bound *)

Lemma lstrip_slash_suffix (s : str) :
  exists q, s = q ++ PosixPath.lstrip_slash s.
Proof.
  induction s as [|c s [q IH]]; [exists []; reflexivity|].
  cbn [PosixPath.lstrip_slash]. destruct (N.eqb c slash).
  - exists (c :: q). cbn [app]. f_equal. exact IH.
  - exists []. reflexivity.
Qed.

Lemma rstrip_slash_prefix (s : str) :
  exists q, s = PosixPath.rstrip_slash s ++ q.
Proof.
  unfold PosixPath.rstrip_slash.
  destruct (lstrip_slash_suffix (rev s)) as [q H]. exists (rev q).
  rewrite <- rev_app_distr, <- H, rev_involutive. reflexivity.
Qed.

(** [os.path.dirname] returns its argument or something shorter. *)
Lemma dirname_shorter (p : str) :
  PosixPath.dirname p = p \/
  List.length (PosixPath.dirname p) < List.length p.
Proof.
  unfold PosixPath.dirname, PosixPath.head_of.
  generalize (List.length p - List.length (PosixPath.basename p)). intros n.
  assert (Hh : firstn n p = p \/ List.length (firstn n p) < List.length p).
  { destruct (Nat.le_gt_cases (List.length p) n) as [L|L].
    - left. apply firstn_all2, L.
    - right. rewrite length_firstn. lia. }
  destruct (firstn n p) as [|c h] eqn:Eh; [exact Hh|].
  destruct (PosixPath.all_slashes (c :: h)); [exact Hh|].
  destruct (rstrip_slash_prefix (c :: h)) as [q Hq].
  assert (Hl : List.length (c :: h)
               = List.length (PosixPath.rstrip_slash (c :: h)) + List.length q).
  { rewrite Hq at 1. apply length_app. }
  destruct q as [|x q].
  - rewrite app_nil_r in Hq. rewrite <- Hq. exact Hh.
  - right. cbn [List.length] in Hl.
    assert (List.length (c :: h) <= List.length p).
    { rewrite <- Eh. rewrite length_firstn. lia. }
    cbn [List.length] in *. lia.
Qed.

(** More fuel than the length of the path changes nothing: the loop of
    [are_on_same_filesystem] ends by itself. *)
Lemma find_existing_ancestor_fuel (fuel : nat) :
  forall fuel' p w,
    List.length p < fuel -> List.length p < fuel' ->
    find_existing_ancestor fuel p w = find_existing_ancestor fuel' p w.
Proof.
  induction fuel as [|f IH]; intros [|f'] p w H1 H2; try lia.
  cbn [find_existing_ancestor]. unfold bind.
  destruct (os_path_exists p w) as [[[|]|e|c|] w1]; try reflexivity.
  destruct (PyStr.eqb (PosixPath.dirname p) p) eqn:E; [reflexivity|].
  destruct (dirname_shorter p) as [D|D].
  - rewrite D, eqb_refl in E. discriminate.
  - apply IH; lia.
Qed.

(** Likewise for the polling loop, whose bound is [max_wait + 1]
    rounds, each of them adding five seconds. *)
Lemma poll_loop_fuel (rt : runtime) (max_wait_time : Z)
    (moved : list (str * list str)) (total : nat) (fuel : nat) :
  forall fuel' elapsed_time all_removed w,
    (max_wait_time - elapsed_time < Z.of_nat fuel)%Z ->
    (max_wait_time - elapsed_time < Z.of_nat fuel')%Z ->
    poll_loop rt fuel max_wait_time moved total elapsed_time all_removed w
    = poll_loop rt fuel' max_wait_time moved total elapsed_time all_removed w.
Proof.
  induction fuel as [|f IH]; intros [|f'] elapsed_time all_removed w H1 H2;
    cbn [poll_loop];
    destruct (Z.ltb_spec elapsed_time max_wait_time) as [L|L];
    try reflexivity; try lia.
  unfold bind.
  destruct (print (MsgPolling elapsed_time) w) as [[[]|e|c|] w1]; try reflexivity.
  destruct (check_albums_removed_from_plex rt moved w1) as [[r|e|c|] w2];
    try reflexivity.
  destruct (fst r); [reflexivity|].
  destruct (print (MsgStillVisible (snd r) total) w2) as [[[]|e|c|] w3];
    try reflexivity.
  destruct (time_sleep 5 w3) as [[[]|e|c|] w4]; try reflexivity.
  apply IH; lia.
Qed.

(* ================================================================== *)
(** * Further properties *)

(** ** The path mapping option *)

Lemma mem_In (c : char) (s : str) : mem c s = true <-> In c s.
Proof.
  unfold mem. rewrite existsb_exists. split.
  - intros (x & Hx & E). apply N.eqb_eq in E. subst x. exact Hx.
  - intros H. exists c. split; [exact H|apply N.eqb_refl].
Qed.

Lemma mem_false (c : char) (s : str) : mem c s = false <-> ~ In c s.
Proof.
  rewrite <- mem_In. destruct (mem c s); split; intros H; try discriminate; auto.
  exfalso. apply H. reflexivity.
Qed.

Lemma lstrip_split (s : str) :
  exists a, s = a ++ lstrip s /\ all_space a = true /\
            match lstrip s with c :: _ => py_isspace c = false | [] => True end.
Proof.
  induction s as [|c s (a & E & A & H)]; [exists []; repeat split|].
  cbn [lstrip]. destruct (py_isspace c) eqn:Ec.
  - exists (c :: a). unfold all_space in *. cbn [app forallb]. rewrite Ec, A.
    split; [congruence|auto].
  - exists []. rewrite Ec. repeat split.
Qed.

Lemma lstrip_head (s : str) :
  match s with c :: _ => py_isspace c = false | [] => True end -> lstrip s = s.
Proof. destruct s as [|c s]; [reflexivity|]. cbn. intros ->. reflexivity. Qed.

Lemma strip_split (s : str) :
  exists a b, s = a ++ strip s ++ b /\ all_space a = true /\ all_space b = true /\
              trimmed (strip s) = true.
Proof.
  unfold strip.
  destruct (lstrip_split s) as (a & E1 & A1 & H1).
  destruct (lstrip_split (rev (lstrip s))) as (b & E2 & A2 & H2).
  exists a, (rev b). split; [|split; [exact A1|split]].
  - rewrite <- rev_app_distr, <- E2, rev_involutive. exact E1.
  - unfold all_space in *. rewrite forallb_forall in *. intros x Hx.
    apply A2, in_rev. exact Hx.
  - set (t := lstrip (rev (lstrip s))) in *.
    destruct (rev t) as [|c r] eqn:Er; [reflexivity|].
    cbn [trimmed].
    assert (Et : t = rev (c :: r)) by (rewrite <- Er, rev_involutive; reflexivity).
    assert (Hc : py_isspace c = false).
    { assert (L : lstrip s = rev t ++ rev b).
      { rewrite <- rev_app_distr, <- E2, rev_involutive. reflexivity. }
      rewrite Er in L. rewrite L in H1. exact H1. }
    assert (Hl : py_isspace (last (c :: r) c) = false).
    { destruct (exists_last (l := c :: r)) as (r' & z & Ez); [discriminate|].
      rewrite Ez, last_last. rewrite Ez, rev_app_distr in Et. cbn in Et.
      rewrite Et in H2. exact H2. }
    rewrite Hc, Hl. reflexivity.
Qed.

Lemma strip_trimmed (s : str) : trimmed s = true -> strip s = s.
Proof.
  intros H. unfold strip. destruct s as [|c s]; [reflexivity|].
  cbn [trimmed] in H. apply andb_true_iff in H. destruct H as [H1 H2].
  apply negb_true_iff in H1, H2.
  rewrite (lstrip_head (c :: s)) by exact H1.
  destruct (exists_last (l := c :: s)) as (r' & z & Ez); [discriminate|].
  rewrite Ez in *. rewrite last_last in H2.
  rewrite rev_app_distr. cbn [rev app].
  rewrite (lstrip_head (z :: rev r')) by exact H2.
  change (z :: rev r') with ([z] ++ rev r'). rewrite rev_app_distr, rev_involutive.
  reflexivity.
Qed.

Lemma split_first_none (sep : char) (s : str) :
  split_first sep s = None <-> ~ In sep s.
Proof.
  induction s as [|c s IH]; cbn; [tauto|].
  destruct (N.eqb_spec c sep) as [->|Hn].
  - split; [discriminate|]. intros H. exfalso. apply H. auto.
  - destruct (split_first sep s) as [[a b]|].
    + split; [discriminate|]. intros H. exfalso.
      assert (Hs : ~ In sep s) by tauto. apply IH in Hs. discriminate.
    + split; [|reflexivity]. intros _ [H|H]; [congruence|].
      apply (proj1 IH eq_refl H).
Qed.

Lemma split_first_some (sep : char) (s a b : str) :
  split_first sep s = Some (a, b) <-> s = a ++ sep :: b /\ ~ In sep a.
Proof.
  revert a. induction s as [|c s IH]; intros a; cbn.
  - split; [discriminate|]. intros [H _]. destruct a; discriminate.
  - destruct (N.eqb_spec c sep) as [->|Hn].
    + split.
      * intros [= <- <-]. split; [reflexivity|intros []].
      * intros [H Ha]. destruct a as [|x a]; cbn in H.
        -- injection H as <-. reflexivity.
        -- injection H as <- _. exfalso. apply Ha. left. reflexivity.
    + destruct (split_first sep s) as [[a' b']|] eqn:E.
      * split.
        -- intros [= <- <-]. destruct (proj1 (IH a') eq_refl) as [-> Ha].
           split; [reflexivity|]. intros [H|H]; [congruence|tauto].
        -- intros [H Ha]. destruct a as [|x a]; cbn in H.
           ++ injection H as H _. congruence.
           ++ injection H as <- H.
              assert (Q : Some (a', b') = Some (a, b)).
              { apply IH. split; [exact H|]. intros Hi. apply Ha. right. exact Hi. }
              injection Q as -> ->. reflexivity.
      * split; [discriminate|]. intros [H Ha].
        destruct a as [|x a]; cbn in H.
        -- injection H as H _. congruence.
        -- injection H as <- H.
           assert (Q : None = Some (a, b)).
           { apply IH. split; [exact H|]. intros Hi. apply Ha. right. exact Hi. }
           discriminate.
Qed.

(** X1.  [parse_path_mapping] reads back a mapping written as
    [local_root:plex_root]: when the local root holds no colon and neither
    root begins or ends with white space, the result is the dict of the
    two roots, unchanged. *)
Theorem parse_path_mapping_round_trip (local plex : str) :
  mem colon local = false -> trimmed local = true -> trimmed plex = true ->
  parse_path_mapping (Some (local ++ colon :: plex))
  = inr (Some (mapping_dict (local, plex))).
Proof.
  intros Hc Hl Hp. apply mem_false in Hc. unfold parse_path_mapping.
  destruct (local ++ colon :: plex) as [|c s] eqn:E; [destruct local; discriminate|].
  rewrite <- E.
  rewrite (proj2 (split_first_some colon _ local plex) (conj eq_refl Hc)).
  rewrite !strip_trimmed by assumption. reflexivity.
Qed.

(** X2.  What [parse_path_mapping] makes of any string.  The empty one
    means no mapping.  One without a colon is rejected (message, exit
    status 1).  Any other is cut at its first colon, so that the local
    root never holds a colon, and both sides lose the white space around
    them and nothing else. *)
Theorem parse_path_mapping_shape (s : str) :
  match parse_path_mapping (Some s) with
  | inl shown => shown = s /\ s <> [] /\ mem colon s = false
  | inr None => s = []
  | inr (Some m) =>
      exists l p a b c d,
        local_root m = Some l /\ plex_root m = Some p /\
        s = (a ++ l ++ b) ++ colon :: (c ++ p ++ d) /\
        mem colon (a ++ l ++ b) = false /\
        trimmed l = true /\ trimmed p = true /\
        all_space a = true /\ all_space b = true /\
        all_space c = true /\ all_space d = true
  end.
Proof.
  unfold parse_path_mapping. destruct s as [|x s]; [reflexivity|].
  destruct (split_first colon (x :: s)) as [[l0 p0]|] eqn:E.
  - apply split_first_some in E. destruct E as [E Hn].
    destruct (strip_split l0) as (a & b & El & Aa & Ab & Tl).
    destruct (strip_split p0) as (c & d & Ep & Ac & Ad & Tp).
    exists (strip l0), (strip p0), a, b, c, d. cbn [local_root plex_root].
    rewrite <- El, <- Ep. apply mem_false in Hn. repeat split; auto.
  - apply split_first_none in E. apply mem_false in E.
    repeat split; [discriminate|exact E].
Qed.

(** ** The input lines *)

Lemma split_all_field (sep : char) (x rest cur : str) :
  ~ In sep x ->
  split_all sep (x ++ rest) cur = split_all sep rest (rev x ++ cur).
Proof.
  revert cur. induction x as [|c x IH]; intros cur H; [reflexivity|].
  cbn [app split_all]. destruct (N.eqb_spec c sep) as [->|Hn].
  - exfalso. apply H. left. reflexivity.
  - rewrite IH; [|intros Hi; apply H; right; exact Hi].
    cbn [rev]. rewrite <- app_assoc. reflexivity.
Qed.

Lemma split_all_join (sep : char) (l : list str) :
  l <> [] -> (forall x, In x l -> ~ In sep x) ->
  split_all sep (join_with sep l) [] = l.
Proof.
  induction l as [|x l IH]; intros Hne Hl; [contradiction|].
  destruct l as [|y l].
  - cbn [join_with]. rewrite <- (app_nil_r x) at 1.
    rewrite split_all_field by (apply Hl; left; reflexivity).
    cbn [split_all]. rewrite app_nil_r, rev_involutive. reflexivity.
  - change (join_with sep (x :: y :: l)) with (x ++ sep :: join_with sep (y :: l)).
    rewrite split_all_field by (apply Hl; left; reflexivity).
    cbn [split_all]. rewrite N.eqb_refl, app_nil_r, rev_involutive.
    f_equal. apply IH; [discriminate|]. intros z Hz. apply Hl. right. exact Hz.
Qed.

Lemma join_split_all (sep : char) (s : str) :
  forall cur,
    join_with sep (split_all sep s cur) = rev cur ++ s /\
    split_all sep s cur <> [] /\
    (~ In sep cur -> forall x, In x (split_all sep s cur) -> ~ In sep x).
Proof.
  induction s as [|c s IH]; intros cur; cbn [split_all].
  - split; [cbn; rewrite app_nil_r; reflexivity|]. split; [discriminate|].
    intros Hc x [<-|[]]. rewrite <- in_rev. exact Hc.
  - destruct (N.eqb_spec c sep) as [->|Hn].
    + destruct (IH []) as (J & Ne & F). split; [|split; [discriminate|]].
      * destruct (split_all sep s []) as [|y l] eqn:E; [contradiction|].
        change (join_with sep (rev cur :: y :: l))
          with (rev cur ++ sep :: join_with sep (y :: l)).
        rewrite J. reflexivity.
      * intros Hc x [<-|Hx]; [rewrite <- in_rev; exact Hc|].
        apply F; [intros []|exact Hx].
    + destruct (IH (c :: cur)) as (J & Ne & F). split; [|split; [exact Ne|]].
      * rewrite J. cbn [rev]. rewrite <- app_assoc. reflexivity.
      * intros Hc. apply F. intros [H|H]; [congruence|contradiction].
Qed.

(** X3.  A line written as a path, a tab and identifiers joined by commas
    is read back by [parse_line] as that path and those identifiers,
    provided the path holds no tab and no identifier holds a comma. *)
Theorem parse_line_round_trip (path first : str) (others : list str) :
  mem tab path = false ->
  forallb (fun x => negb (mem comma x)) (first :: others) = true ->
  parse_line (path ++ tab :: join_with comma (first :: others))
  = (path, first :: others).
Proof.
  intros Hp Hc. apply mem_false in Hp. unfold parse_line. unfold tab, comma in *.
  rewrite (proj2 (split_first_some 9%N _ path (join_with 44%N (first :: others)))
             (conj eq_refl Hp)).
  f_equal. apply split_all_join; [discriminate|].
  intros x Hx. rewrite forallb_forall in Hc. apply mem_false.
  apply negb_true_iff, Hc, Hx.
Qed.

Lemma parse_line_cases (line : str) :
  let path := fst (parse_line line) in
  let album_ids := snd (parse_line line) in
  (album_ids = [] /\ mem tab line = false /\ path = line) \/
  (album_ids <> [] /\ mem tab line = true /\ mem tab path = false /\
   forallb (fun x => negb (mem comma x)) album_ids = true /\
   line = path ++ tab :: join_with comma album_ids).
Proof.
  cbv zeta. unfold parse_line.
  destruct (split_first 9%N line) as [[path rest]|] eqn:E.
  - right. apply (split_first_some tab) in E. destruct E as [E Hp].
    destruct (join_split_all comma rest []) as (J & Ne & F).
    cbn [fst snd]. split; [exact Ne|]. split.
    { apply mem_In. rewrite E. apply in_or_app. right. left. reflexivity. }
    split; [apply mem_false; exact Hp|]. split.
    { apply forallb_forall. intros x Hx. apply negb_true_iff, mem_false.
      apply F; [intros []|exact Hx]. }
    change (split_all 44%N rest []) with (split_all comma rest []).
    rewrite J. exact E.
  - left. apply (split_first_none tab) in E. apply mem_false in E. auto.
Qed.

(** X4.  Every line is its own parse written out again.  The list of
    identifiers is empty exactly when the line holds no tab, and then the
    path is the whole line; otherwise the line is the path, a tab and the
    identifiers joined by commas, the path holds no tab and no identifier
    holds a comma. *)
Theorem parse_line_inverse (line : str) :
  let path := fst (parse_line line) in
  let album_ids := snd (parse_line line) in
  (album_ids = [] /\ mem tab line = false /\ path = line) \/
  (album_ids <> [] /\ mem tab line = true /\ mem tab path = false /\
   forallb (fun x => negb (mem comma x)) album_ids = true /\
   line = path ++ tab :: join_with comma album_ids).
Proof.
  exact (parse_line_cases line).
Qed.

Lemma trimmed_ends (s : str) :
  trimmed s = true -> s <> [] ->
  exists c r z, s = c :: r /\ py_isspace c = false /\
                last s c = z /\ py_isspace z = false.
Proof.
  destruct s as [|c r]; [contradiction|]. cbn [trimmed]. intros H _.
  apply andb_true_iff in H. destruct H as [H1 H2].
  apply negb_true_iff in H1, H2. eauto 8.
Qed.

(** X5.  The lines the script works on are the non-blank input lines
    with the white space around them removed.  Since a tab is white space,
    such a line neither begins nor ends with one: the path [parse_line]
    finds in it is never empty, and when the line has a tab the text of
    identifiers after it is not empty either. *)
Theorem read_lines_parse (raw : list str) (line : str) :
  In line (read_lines raw) ->
  line <> [] /\ trimmed line = true /\
  fst (parse_line line) <> [] /\
  (mem tab line = true -> join_with comma (snd (parse_line line)) <> []).
Proof.
  unfold read_lines. intros H. apply in_map_iff in H.
  destruct H as (l0 & <- & H). apply filter_In in H. destruct H as [_ Hne].
  destruct (strip_split l0) as (_ & _ & _ & _ & _ & T).
  set (s := strip l0) in *.
  assert (Ne : s <> []) by (destruct s; [discriminate|discriminate]).
  split; [exact Ne|]. split; [exact T|].
  destruct (trimmed_ends s T Ne) as (c & r & z & Es & Hc & Hz & Hzs).
  assert (Htab : py_isspace tab = true) by reflexivity.
  destruct (parse_line_cases s) as [(_ & _ & ->)|(_ & _ & Hp & _ & El)].
  - split; [exact Ne|]. intros Hm.
    destruct (parse_line_cases s) as [(_ & Hn & _)|(_ & _ & _ & _ & El)];
      [congruence|].
    intros J. rewrite J in El.
    rewrite El, last_last in Hz. congruence.
  - split.
    + intros Hf. rewrite Hf in El. cbn [app] in El. rewrite Es in El.
      injection El as El _. congruence.
    + intros _ J. rewrite J in El. rewrite El, last_last in Hz. congruence.
Qed.

Lemma dict_get_set {V : Type} (d : list (str * V)) (k p : str) (v : V) :
  dict_get (dict_set d k v) p = if PyStr.eqb k p then Some v else dict_get d p.
Proof.
  induction d as [|[k0 v0] d IH]; cbn; [reflexivity|].
  destruct (PyStr.eqb k0 k) eqn:E; cbn.
  - apply eqb_eq in E. rewrite E. destruct (PyStr.eqb k p); reflexivity.
  - rewrite IH. destruct (PyStr.eqb k0 p) eqn:E0; [|reflexivity].
    destruct (PyStr.eqb k p) eqn:E1; [|reflexivity].
    apply eqb_eq in E0, E1. rewrite E0, E1, eqb_refl in E. discriminate.
Qed.

Lemma dict_get_app {V : Type} (d1 d2 : list (str * V)) (p : str) :
  dict_get (d1 ++ d2) p =
  match dict_get d1 p with Some v => Some v | None => dict_get d2 p end.
Proof.
  induction d1 as [|[k v] d1 IH]; cbn; [reflexivity|].
  destruct (PyStr.eqb k p); [reflexivity|exact IH].
Qed.

Lemma fold_dict_set {V : Type} (l : list (str * V)) :
  forall d p,
    dict_get (fold_left (fun d e => dict_set d (fst e) (snd e)) l d) p =
    match dict_get (rev l) p with Some v => Some v | None => dict_get d p end.
Proof.
  induction l as [|[k v] l IH]; intros d p; cbn [fold_left rev]; [reflexivity|].
  rewrite IH, dict_get_app, dict_get_set. cbn [fst snd dict_get].
  destruct (dict_get (rev l) p); [reflexivity|].
  destruct (PyStr.eqb k p); reflexivity.
Qed.

(** X6.  The table of identifiers that [main] builds from the input
    (lines 436-446) answers, for any path, with the identifiers of the
    last line that names this path, and it has an entry for every path of
    the input: the default of [album_ids_map.get(plex_path, [])] is never
    taken for them. *)
Theorem album_ids_map_last_line_wins (input : list str) (p : str) :
  let parsed := map parse_line input in
  let album_ids_map := fold_left (fun d e => dict_set d (fst e) (snd e)) parsed [] in
  dict_get album_ids_map p = dict_get (rev parsed) p /\
  (In p (map fst parsed) -> dict_get album_ids_map p <> None).
Proof.
  cbv zeta. rewrite fold_dict_set. cbn [dict_get].
  split; [destruct (dict_get _ p); reflexivity|].
  intros Hin. destruct (dict_get (rev (map parse_line input)) p) eqn:E; [discriminate|].
  exfalso. apply in_map_iff in Hin. destruct Hin as ([k v] & <- & Hin).
  apply in_rev in Hin. revert E Hin.
  generalize (rev (map parse_line input)). intros l.
  induction l as [|[k0 v0] l IH]; cbn; [intros _ []|].
  destruct (PyStr.eqb k0 k) eqn:Ek; [discriminate|].
  intros E [H|H]; [|exact (IH E H)].
  injection H as -> _. rewrite eqb_refl in Ek. discriminate.
Qed.

(** ** Validation against the library locations *)

Lemma map_m_pure {A B : Type} (f : A -> B) (l : list A) (w : world) :
  map_m (fun x => ret (f x)) l w = (Ret (map f l), w).
Proof.
  induction l as [|x l IH]; [reflexivity|].
  cbn [map_m map]. unfold bind at 1. unfold ret at 1.
  unfold bind at 1. rewrite IH. reflexivity.
Qed.

Lemma filter_tagged {A : Type} (f : A -> bool) (l : list A) :
  map fst (filter snd (map (fun x => (x, f x)) l)) = filter f l /\
  map fst (filter (fun x => negb (snd x)) (map (fun x => (x, f x)) l))
  = filter (fun x => negb (f x)) l.
Proof.
  induction l as [|x l [IH1 IH2]]; [split; reflexivity|].
  cbn [map filter fst snd]. destruct (f x); cbn [negb map fst];
    rewrite ?IH1, ?IH2; split; reflexivity.
Qed.

Lemma filter_all {A : Type} (f : A -> bool) (l : list A) :
  forallb f l = true -> filter f l = l /\ filter (fun x => negb (f x)) l = [].
Proof.
  induction l as [|x l IH]; [split; reflexivity|].
  cbn [forallb filter]. intros H. apply andb_true_iff in H. destruct H as [Hx Hl].
  rewrite Hx. cbn [negb]. destruct (IH Hl) as [-> ->]. split; reflexivity.
Qed.

Lemma filter_some {A : Type} (f : A -> bool) (l : list A) :
  forallb f l = false -> filter (fun x => negb (f x)) l <> [].
Proof.
  induction l as [|x l IH]; [discriminate|].
  cbn [forallb filter]. destruct (f x); cbn [negb andb]; [exact IH|discriminate].
Qed.

(** X7.  [validate_paths_in_library] is all or nothing.  With no library
    location at all it warns and accepts every path.  Otherwise it returns
    the very list it was given when every path (after the reverse mapping,
    if one is passed) starts with some location, and when one does not it
    prints the offending paths and exits with status 1: it never returns a
    shortened list.  It makes no system call. *)
Theorem validate_paths_all_or_nothing (file_paths library_locations : list str)
    (mapping : option (str * str)) (w : world) :
  let validation_path path :=
    match mapping with
    | Some m => replace1 path (fst m) (snd m)
    | None => path
    end in
  let inside path :=
    existsb (startswith (validation_path path)) library_locations in
  validate_paths_in_library file_paths library_locations
    (option_map mapping_dict mapping) w
  = match library_locations with
    | [] => (Ret file_paths, with_out w (w_out w ++ [MsgNoLocations]))
    | _ =>
        if forallb inside file_paths then (Ret file_paths, w)
        else (SysExit 1,
              with_out w
                (w_out w ++
                 [MsgOutsideLibrary
                    (filter (fun path => negb (inside path)) file_paths)]))
    end.
Proof.
  cbv zeta. unfold validate_paths_in_library.
  destruct library_locations as [|loc locs]; [reflexivity|].
  set (inside := fun path : str =>
         existsb
           (startswith
              match mapping with
              | Some m => replace1 path (fst m) (snd m)
              | None => path
              end) (loc :: locs)).
  assert (E : forall w0,
             map_m
               (fun path =>
                  validation_path <-
                    (if mapping_truthy (option_map mapping_dict mapping) then
                       match option_map mapping_dict mapping with
                       | Some {| local_root := Some l; plex_root := Some p |} =>
                           ret (replace1 path l p)
                       | _ => raise KeyError
                       end
                     else ret path) ;;
                  ret (path, existsb (startswith validation_path) (loc :: locs)))
               file_paths w0
             = (Ret (map (fun path => (path, inside path)) file_paths), w0)).
  { intros w0. rewrite <- map_m_pure. f_equal.
    destruct mapping as [[l p]|]; reflexivity. }
  unfold bind at 1. rewrite E.
  destruct (filter_tagged inside file_paths) as [-> ->].
  destruct (forallb inside file_paths) eqn:F.
  - destruct (filter_all _ _ F) as [-> ->]. reflexivity.
  - pose proof (filter_some _ _ F) as Hne.
    destruct (filter (fun x => negb (inside x)) file_paths) as [|x l] eqn:Ef;
      [contradiction|].
    change (filter _ file_paths) with (filter (fun x => negb (inside x)) file_paths).
    rewrite Ef. reflexivity.
Qed.

Lemma startswith_skipn (s p : str) :
  startswith s p = true -> s = p ++ skipn (List.length p) s.
Proof.
  revert s. induction p as [|c p IH]; intros s H; [reflexivity|].
  destruct s as [|d s]; [discriminate|]. cbn in H.
  apply andb_true_iff in H. destruct H as [H1 H2].
  apply N.eqb_eq in H1. subst d. cbn [List.length skipn app].
  f_equal. apply IH, H2.
Qed.

(** X8.  The reverse mapping of [validate_paths_in_library] (line 236)
    undoes [apply_path_mapping] (line 36): a path under the service's root
    that was mapped to the local root is mapped back to itself. *)
Theorem reverse_mapping_round_trip (path local plex : str) :
  startswith path plex = true ->
  replace1 (apply_path_mapping path (Some (mapping_dict (local, plex)))) local plex
  = path.
Proof.
  intros H. unfold apply_path_mapping, mapping_dict. cbn [local_root plex_root fst snd].
  rewrite H. rewrite (replace1_unfold path), H.
  rewrite replace1_unfold, startswith_app.
  rewrite skipn_app, skipn_all, Nat.sub_diag. cbn [app skipn].
  symmetry. apply startswith_skipn, H.
Qed.

(** ** Staging names, continued *)

(** X9.  For a limit of at least four bytes, [truncate_utf8_safe] returns
    the longest prefix of the text whose UTF-8 encoding fits the limit:
    the result is a prefix, it fits, it is the whole text when the text
    fits, and one more character of the text would exceed the limit. *)
Theorem truncate_utf8_safe_longest_prefix (text : str) (encoded : list N) (m : Z) :
  Utf8.encode text = Some encoded -> (4 <= m)%Z ->
  exists t rest bt,
    truncate_utf8_safe text m = Some t /\
    text = t ++ rest /\
    Utf8.encode t = Some bt /\
    (Z.of_nat (List.length bt) <= m)%Z /\
    ((Z.of_nat (List.length encoded) <= m)%Z -> rest = []) /\
    forall c rest' b,
      rest = c :: rest' -> Utf8.encode (t ++ [c]) = Some b ->
      (m < Z.of_nat (List.length b))%Z.
Proof. exact (truncate_utf8_safe_longest text encoded m). Qed.

Section StagingNames.

Variable isalnum : char -> bool.
Hypothesis slash_not_alnum : isalnum slash = false.

Lemma truncate_loop_chars (text : str) (encoded : list N) (i : nat) (t : str) :
  Utf8.encode text = Some encoded ->
  truncate_loop encoded i = Some t -> incl t text.
Proof.
  intros He Hl.
  destruct (truncate_loop_sound _ _ _ Hl) as (k & _ & Hd).
  apply Utf8Facts.decode_encode in Hd.
  destruct (Utf8Facts.encode_prefix t text (firstn k encoded) (skipn k encoded) Hd)
    as [rest ->]; [rewrite firstn_skipn; assumption|].
  apply incl_appl, incl_refl.
Qed.

Lemma truncate_utf8_safe_chars (text : str) (m : Z) (t : str) :
  truncate_utf8_safe text m = Some t -> incl t text.
Proof.
  unfold truncate_utf8_safe.
  destruct (Utf8.encode text) as [encoded|] eqn:He; [|discriminate].
  destruct (Z.of_nat (List.length encoded) <=? m)%Z.
  { intros [= <-]. apply incl_refl. }
  destruct (truncate_loop encoded (Z.to_nat m)) as [t'|] eqn:El.
  - intros [= <-]. eapply truncate_loop_chars; eassumption.
  - intros [= <-]. intros c Hc. unfold slice_to in Hc.
    assert (Hf : In c (filter (fun c => (c <? 128)%N) text)).
    { destruct (0 <=? m)%Z;
        match type of Hc with
        | In _ (firstn ?n ?l) =>
            rewrite <- (firstn_skipn n l); apply in_or_app; left; exact Hc
        end. }
    apply filter_In in Hf. tauto.
Qed.

Lemma safe_chars_no_slash (s : str) : no_slash (safe_chars isalnum s) = true.
Proof.
  unfold no_slash, safe_chars. apply forallb_forall.
  intros x Hx. apply in_map_iff in Hx. destruct Hx as (c & <- & _).
  destruct (isalnum c) eqn:Ea; cbn [orb].
  - destruct (N.eqb_spec c slash) as [->|]; [congruence|reflexivity].
  - destruct (mem c (lit "-_. ")) eqn:Em; [|reflexivity].
    destruct (N.eqb_spec c slash) as [->|]; [|reflexivity].
    vm_compute in Em. discriminate.
Qed.

Lemma no_slash_incl (s t : str) : incl t s -> no_slash s = true -> no_slash t = true.
Proof.
  unfold no_slash. rewrite !forallb_forall. intros Hi H c Hc. apply H, Hi, Hc.
Qed.

Lemma no_slash_app (s t : str) :
  no_slash (s ++ t) = no_slash s && no_slash t.
Proof. unfold no_slash. apply forallb_app. Qed.

Lemma str_of_int_no_slash (n : N) : no_slash (str_of_int n) = true.
Proof.
  unfold no_slash. apply forallb_forall. intros c Hc.
  pose proof (PyStrFacts.str_of_int_digits n) as D.
  rewrite Forall_forall in D. apply D in Hc.
  apply negb_true_iff, N.eqb_neq. unfold slash. lia.
Qed.

Lemma str_of_int_nonempty (n : N) : str_of_int n <> [].
Proof.
  unfold str_of_int. cbn [digits_rev].
  destruct (n <? 10)%N; cbn [rev]; intros H;
    apply (f_equal (@List.length char)) in H;
    rewrite length_map, length_app in H; cbn in H; lia.
Qed.

Lemma name_no_slash (index : N) (a b : str) :
  no_slash a = true -> no_slash b = true ->
  no_slash (str_of_int index ++ lit "_" ++ a ++ lit "_" ++ b) = true.
Proof.
  intros Ha Hb. rewrite !no_slash_app, str_of_int_no_slash, Ha, Hb. reflexivity.
Qed.

(** X10.  A staging name is a plain file name that no scan of a staging
    directory skips: it holds no path separator (['/'] not being
    alphanumeric), it begins with a digit, so it is not hidden, and it is
    neither [lock] nor [restore.log]; the leftover check of the planning
    loop counts it and [cleanup_and_restore] keeps it among the entries to
    restore. *)
Theorem safe_temp_name_visible_to_recovery (index : N) (artist album name : str)
    (m : Z) :
  safe_temp_name isalnum index artist album m = Some name ->
  no_slash name = true /\
  not_hidden name = true /\
  (negb (startswith name (lit "."))
   && negb (str_in name [lit "lock"; lit "restore.log"])) = true /\
  (exists digit rest, name = digit :: rest /\ (48 <= digit <= 57)%N).
Proof.
  intros H.
  assert (Hd : exists digit rest, name = digit :: rest /\ (48 <= digit <= 57)%N).
  { destruct (safe_temp_name_form _ _ _ _ _ _ H) as [rest ->].
    pose proof (PyStrFacts.str_of_int_digits index) as D.
    pose proof (str_of_int_nonempty index) as Ne.
    destruct (str_of_int index) as [|d ds]; [contradiction|].
    inversion D; subst. exists d, (ds ++ underscore :: rest). auto. }
  assert (Hs : no_slash name = true).
  { revert H. unfold safe_temp_name.
    destruct (Utf8.encode _) as [base_bytes|]; [|discriminate].
    destruct (Z.of_nat (List.length base_bytes) <=? m)%Z.
    - intros [= <-]. apply name_no_slash; apply safe_chars_no_slash.
    - destruct (Utf8.encode _) as [index_bytes|]; [|discriminate].
      destruct (truncate_utf8_safe _ _) as [a'|] eqn:Ea; [|discriminate].
      destruct (truncate_utf8_safe (safe_chars isalnum album) _) as [b'|] eqn:Eb;
        [|discriminate].
      intros [= <-].
      apply name_no_slash.
      + exact (no_slash_incl _ _ (truncate_utf8_safe_chars _ _ _ Ea)
                 (safe_chars_no_slash artist)).
      + exact (no_slash_incl _ _ (truncate_utf8_safe_chars _ _ _ Eb)
                 (safe_chars_no_slash album)). }
  destruct Hd as (d & rest & -> & Hdig).
  split; [exact Hs|].
  assert (Hdot : startswith (d :: rest) (lit ".") = false).
  { cbn. destruct (N.eqb_spec d 46); [lia|reflexivity]. }
  assert (Hres : str_in (d :: rest) [lit "lock"; lit "restore.log"] = false).
  { unfold str_in. cbn [existsb].
    assert (E1 : PyStr.eqb (d :: rest) (lit "lock") = false).
    { cbn. destruct (N.eqb_spec d 108); [lia|reflexivity]. }
    assert (E2 : PyStr.eqb (d :: rest) (lit "restore.log") = false).
    { cbn. destruct (N.eqb_spec d 114); [lia|reflexivity]. }
    rewrite E1, E2. reflexivity. }
  unfold not_hidden. rewrite Hdot, Hres. repeat split. eauto.
Qed.

End StagingNames.

(** *** At work *)

Lemma parse_path_mapping_round_trip_witness :
  parse_path_mapping (Some (lit "/Users/u/Music:/media/Music"))
  = inr (Some (mapping_dict (lit "/Users/u/Music", lit "/media/Music"))).
Proof.
  exact (parse_path_mapping_round_trip (lit "/Users/u/Music") (lit "/media/Music")
           eq_refl eq_refl eq_refl).
Defined.

Lemma parse_line_round_trip_witness :
  parse_line (lit "/media/Music/A/x1" ++ tab :: lit "101,102")
  = (lit "/media/Music/A/x1", [lit "101"; lit "102"]).
Proof.
  exact (parse_line_round_trip (lit "/media/Music/A/x1") (lit "101") [lit "102"]
           eq_refl eq_refl).
Defined.

Lemma read_lines_parse_witness :
  let raw := [lit "  /media/Music/A/x1" ++ tab :: lit "101,102 "; lit "   "] in
  let line := lit "/media/Music/A/x1" ++ tab :: lit "101,102" in
  read_lines raw = [line] /\
  fst (parse_line line) <> [] /\
  join_with comma (snd (parse_line line)) <> [].
Proof.
  cbv zeta. split; [reflexivity|].
  destruct (read_lines_parse
              [lit "  /media/Music/A/x1" ++ tab :: lit "101,102 "; lit "   "]
              (lit "/media/Music/A/x1" ++ tab :: lit "101,102")
              (or_introl eq_refl)) as (_ & _ & H1 & H2).
  split; [exact H1|exact (H2 eq_refl)].
Defined.

Lemma reverse_mapping_round_trip_witness :
  replace1
    (apply_path_mapping x1_catalog
       (Some (mapping_dict (lit "/Users/u/Music", lit "/media/Music"))))
    (lit "/Users/u/Music") (lit "/media/Music")
  = x1_catalog.
Proof.
  exact (reverse_mapping_round_trip x1_catalog (lit "/Users/u/Music")
           (lit "/media/Music") eq_refl).
Defined.

Lemma truncate_utf8_safe_longest_prefix_witness :
  exists t rest,
    truncate_utf8_safe [233; 233; 233; 97]%N 5 = Some t /\
    [233; 233; 233; 97]%N = t ++ rest /\
    forall c rest' b,
      rest = c :: rest' -> Utf8.encode (t ++ [c]) = Some b ->
      (5 < Z.of_nat (List.length b))%Z.
Proof.
  destruct (truncate_utf8_safe_longest_prefix [233; 233; 233; 97]%N
              [195; 169; 195; 169; 195; 169; 97]%N 5 eq_refl)
    as (t & rest & bt & H1 & H2 & _ & _ & _ & H6); [lia|].
  exists t, rest. auto.
Defined.

Lemma safe_temp_name_visible_to_recovery_witness :
  no_slash (lit "0_A_x1") = true /\ not_hidden (lit "0_A_x1") = true.
Proof.
  destruct (safe_temp_name_visible_to_recovery Unicode.isalnum eq_refl 0
              (lit "A") (lit "x1") (lit "0_A_x1") 255 eq_refl) as (H1 & H2 & _).
  split; assumption.
Defined.

(** ** Exceptions that are caught *)

Section Escapes.

Variable P : exn -> bool.

Lemma escapes_ret {A : Type} (a : A) : escapes P (ret a).
Proof. intros w r w' [= <- <-]. exact I. Qed.

Lemma escapes_get {A : Type} (f : world -> A) : escapes P (get f).
Proof. intros w r w' [= <- <-]. exact I. Qed.

Lemma escapes_print (x : msg) : escapes P (print x).
Proof. intros w r w' [= <- <-]. exact I. Qed.

Lemma escapes_emit (e : event) : escapes P (emit e).
Proof. intros w r w' [= <- <-]. exact I. Qed.

Lemma escapes_modify (f : world -> world) : escapes P (modify f).
Proof. intros w r w' [= <- <-]. exact I. Qed.

Lemma escapes_tick : escapes P tick.
Proof.
  intros w r w'. unfold tick. destruct (w_signal w) as [[|n]|];
    intros [= <- <-]; exact I.
Qed.

Lemma escapes_raise {A : Type} (e : exn) : P e = true -> escapes P (@raise A e).
Proof. intros H w r w' [= <- <-]. exact H. Qed.

Lemma escapes_bind {A B : Type} (m : M A) (k : A -> M B) :
  escapes P m -> (forall a, escapes P (k a)) -> escapes P (bind m k).
Proof.
  intros Hm Hk w r w'. unfold bind.
  destruct (m w) as [[a|e|c|] w1] eqn:E; intros H.
  - eapply Hk; eauto.
  - injection H as <- <-. exact (Hm _ _ _ E).
  - injection H as <- <-. exact (Hm _ _ _ E).
  - injection H as <- <-. exact I.
Qed.

Lemma escapes_try_except {A : Type} (Q : exn -> bool) (m : M A)
    (handles : exn -> bool) (handler : exn -> M A) :
  escapes Q m ->
  (forall e, handles e = true -> escapes P (handler e)) ->
  (forall e, Q e = true -> handles e = false -> P e = true) ->
  escapes P (try_except m handles handler).
Proof.
  intros Hm Hh Hp w r w'. unfold try_except.
  destruct (m w) as [[a|e|c|] w1] eqn:E; intros H.
  - injection H as <- <-. exact I.
  - pose proof (Hm _ _ _ E) as Qe. cbn in Qe.
    destruct (handles e) eqn:He.
    + eapply Hh; eauto.
    + injection H as <- <-. exact (Hp e Qe He).
  - exfalso. exact (Hm _ _ _ E).
  - injection H as <- <-. exact I.
Qed.

Lemma escapes_for_each {A : Type} (l : list A) (body : A -> M unit) :
  (forall x, escapes P (body x)) -> escapes P (for_each l body).
Proof.
  intros Hb. induction l as [|x l IH]; cbn [for_each].
  - apply escapes_ret.
  - apply escapes_bind; auto.
Qed.

Lemma escapes_fs_read {A : Type} (ev : event) (f : FS.t -> A) :
  escapes P (fs_read ev f).
Proof.
  unfold fs_read.
  apply escapes_bind; [apply escapes_tick|intros _].
  apply escapes_bind; [apply escapes_emit|intros _]. apply escapes_get.
Qed.

Lemma escapes_fs_query {A : Type} (ev : event) (f : FS.t -> exn + A) :
  (forall fs e, f fs = inl e -> P e = true) -> escapes P (fs_query ev f).
Proof.
  intros H w r w'. unfold fs_query, bind, tick, emit, get.
  destruct (w_signal w) as [[|n]|]; cbn;
    try (destruct (f (w_fs w)) eqn:E); intros [= <- <-]; try exact I;
    eapply H; eassumption.
Qed.

Lemma escapes_fs_update (ev : bool -> event) (f : FS.t -> exn + FS.t) :
  (forall fs e, f fs = inl e -> P e = true) -> escapes P (fs_update ev f).
Proof.
  intros H w r w'. unfold fs_update, bind, tick, emit, get, modify, raise.
  destruct (w_signal w) as [[|n]|]; cbn;
    try (destruct (f (w_fs w)) eqn:E); intros [= <- <-]; try exact I;
    eapply H; eassumption.
Qed.

End Escapes.

Lemma escapes_weaken (P Q : exn -> bool) {A : Type} (m : M A) :
  (forall e, P e = true -> Q e = true) -> escapes P m -> escapes Q m.
Proof.
  intros H Hm w r w' E. pose proof (Hm _ _ _ E) as Hr.
  destruct r; auto.
Qed.

Ltac fs_error_cases :=
  repeat match goal with
         | |- context [match ?x with _ => _ end] => destruct x eqn:?
         end;
  intros [= <-];
  first [ left; reflexivity
        | right; split; reflexivity
        | unfold FS.unresolved;
          match goal with
          | |- fs_error _ (if ?b then _ else _) =>
              destruct b eqn:?; [right; split; reflexivity|left; reflexivity]
          end ].

Lemma fs_errors :
  (forall fs s e, FS.listdir fs s = inl e -> fs_error (FS.has_nul s) e) /\
  (forall fs s e, FS.stat_dev fs s = inl e -> fs_error (FS.has_nul s) e) /\
  (forall fs s d e, FS.rename fs s d = inl e ->
                    fs_error (FS.has_nul s || FS.has_nul d) e) /\
  (forall fs s e, FS.makedirs fs s = inl e -> fs_error (FS.has_nul s) e) /\
  (forall fs s e, FS.rmdir fs s = inl e -> fs_error (FS.has_nul s) e) /\
  (forall fs s e, FS.rmtree fs s = inl e -> fs_error (FS.has_nul s) e) /\
  (forall fs s e, FS.remove fs s = inl e -> fs_error (FS.has_nul s) e) /\
  (forall fs s c e, FS.write_file fs s c = inl e -> fs_error (FS.has_nul s) e).
Proof.
  assert (Mk : forall rest fs cur e nul,
             FS.make_components fs cur rest = inl e -> fs_error nul e).
  { induction rest as [|c r IH]; intros fs cur e nul; cbn [FS.make_components];
      [discriminate|].
    destruct (FS.lookup fs (cur ++ [c])) as [n|].
    - destruct (FS.is_dir_node n); [apply IH|].
      destruct r; intros [= <-]; left; reflexivity.
    - destruct (FS.lookup fs cur); [apply IH|intros [= <-]; left; reflexivity]. }
  repeat split; intros fs s.
  - intros e. unfold FS.listdir. fs_error_cases.
  - intros e. unfold FS.stat_dev. fs_error_cases.
  - intros d e. unfold FS.rename. fs_error_cases.
  - intros e. unfold FS.makedirs.
    destruct (FS.resolve s); [apply Mk|]. fs_error_cases.
  - intros e. unfold FS.rmdir. fs_error_cases.
  - intros e. unfold FS.rmtree. fs_error_cases.
  - intros e. unfold FS.remove. fs_error_cases.
  - intros c e. unfold FS.write_file. fs_error_cases.
Qed.

Create HintDb escapes discriminated.
Create HintDb interrupts discriminated.

#[local] Hint Resolve escapes_ret escapes_get escapes_print escapes_emit
  escapes_modify escapes_tick escapes_fs_read : escapes.
#[local] Hint Extern 1 (escapes any_exception (raise _)) =>
  apply escapes_raise; reflexivity : escapes.

Ltac escapes_split :=
  repeat first
    [ match goal with |- forall _, _ => intro end
    | solve [eauto with escapes]
    | apply escapes_bind
    | apply escapes_for_each
    | match goal with
      | |- escapes _ (try_except _ any_exception _) =>
          apply (escapes_try_except _ any_exception);
          [ | | let H := fresh in intros ? ? H; discriminate H]
      | |- escapes _ (let _ := _ in _) => cbv zeta
      | |- escapes _ (match ?x with _ => _ end) => destruct x
      | |- escapes _ (if ?b then _ else _) => destruct b
      end ].

Section OsCalls.

Variable P : exn -> bool.
Hypothesis P_os : forall e, is_OSError e = true -> P e = true.
Hypothesis P_nul : P ValueError = true.

Lemma fs_error_allowed (nul : bool) (e : exn) : fs_error nul e -> P e = true.
Proof. intros [H|[-> _]]; [exact (P_os e H)|exact P_nul]. Qed.

Lemma escapes_os_listdir (p : str) : escapes P (os_listdir p).
Proof.
  apply escapes_fs_query. intros fs e H. eapply fs_error_allowed.
  exact (proj1 fs_errors fs p e H).
Qed.

Lemma escapes_os_stat_dev (p : str) : escapes P (os_stat_dev p).
Proof.
  apply escapes_fs_query. intros fs e H. eapply fs_error_allowed.
  exact (proj1 (proj2 fs_errors) fs p e H).
Qed.

Lemma escapes_os_rename (s d : str) : escapes P (os_rename s d).
Proof.
  apply escapes_fs_update. intros fs e H. eapply fs_error_allowed.
  exact (proj1 (proj2 (proj2 fs_errors)) fs s d e H).
Qed.

Lemma escapes_os_makedirs (p : str) : escapes P (os_makedirs p).
Proof.
  apply escapes_fs_update. intros fs e H. eapply fs_error_allowed.
  exact (proj1 (proj2 (proj2 (proj2 fs_errors))) fs p e H).
Qed.

Lemma escapes_os_rmdir (p : str) : escapes P (os_rmdir p).
Proof.
  apply escapes_fs_update. intros fs e H. eapply fs_error_allowed.
  exact (proj1 (proj2 (proj2 (proj2 (proj2 fs_errors)))) fs p e H).
Qed.

Lemma escapes_shutil_rmtree (p : str) : escapes P (shutil_rmtree p).
Proof.
  apply escapes_fs_update. intros fs e H. eapply fs_error_allowed.
  exact (proj1 (proj2 (proj2 (proj2 (proj2 (proj2 fs_errors))))) fs p e H).
Qed.

Lemma escapes_os_remove (p : str) : escapes P (os_remove p).
Proof.
  apply escapes_fs_update. intros fs e H. eapply fs_error_allowed.
  exact (proj1 (proj2 (proj2 (proj2 (proj2 (proj2 (proj2 fs_errors)))))) fs p e H).
Qed.

Lemma escapes_write_file (p : str) (content : list str) :
  escapes P (write_file p content).
Proof.
  apply escapes_fs_update. intros fs e H. eapply fs_error_allowed.
  exact (proj2 (proj2 (proj2 (proj2 (proj2 (proj2 (proj2 fs_errors)))))) fs p content e H).
Qed.

End OsCalls.

Lemma escapes_find_existing_ancestor (P : exn -> bool) (fuel : nat) :
  forall p, escapes P (find_existing_ancestor fuel p).
Proof.
  induction fuel as [|f IH]; intros p; cbn [find_existing_ancestor];
    unfold os_path_exists; escapes_split.
Qed.

(** [except OSError] lets the [ValueError] of a name with a NUL through. *)
Lemma escapes_are_on_same_filesystem (P : exn -> bool) (path1 path2 : str) :
  P ValueError = true -> escapes P (are_on_same_filesystem path1 path2).
Proof.
  intros HP. unfold are_on_same_filesystem.
  apply (escapes_try_except _ (fun e => is_OSError e || is_ValueError e)).
  - apply escapes_bind; [apply escapes_find_existing_ancestor|].
    intros [check_path2|]; [|apply escapes_ret].
    apply escapes_bind;
      [apply escapes_os_stat_dev; [intros e ->|]; reflexivity|intros stat1].
    apply escapes_bind;
      [apply escapes_os_stat_dev; [intros e ->|]; reflexivity|intros stat2].
    apply escapes_ret.
  - intros e _. apply escapes_ret.
  - intros e H1 H2. rewrite H2 in H1. cbn [orb] in H1.
    destruct e; try discriminate H1. exact HP.
Qed.

#[local] Hint Extern 1 (escapes any_exception (are_on_same_filesystem _ _)) =>
  apply escapes_are_on_same_filesystem; reflexivity : escapes.
#[local] Hint Extern 1 (escapes any_exception (os_rename _ _)) =>
  apply escapes_os_rename; reflexivity : escapes.
#[local] Hint Extern 1 (escapes any_exception (os_makedirs _)) =>
  apply escapes_os_makedirs; reflexivity : escapes.
#[local] Hint Extern 1 (escapes any_exception (os_listdir _)) =>
  apply escapes_os_listdir; reflexivity : escapes.
#[local] Hint Extern 1 (escapes any_exception (os_rmdir _)) =>
  apply escapes_os_rmdir; reflexivity : escapes.
#[local] Hint Extern 1 (escapes any_exception (os_remove _)) =>
  apply escapes_os_remove; reflexivity : escapes.
#[local] Hint Extern 1 (escapes any_exception (shutil_rmtree _)) =>
  apply escapes_shutil_rmtree; reflexivity : escapes.
#[local] Hint Extern 1 (escapes _ (os_path_exists _)) =>
  apply escapes_fs_read : escapes.
#[local] Hint Extern 1 (escapes _ (os_path_isdir _)) =>
  apply escapes_fs_read : escapes.
#[local] Hint Extern 1 (escapes _ (os_path_isfile _)) =>
  apply escapes_fs_read : escapes.

Lemma escapes_move_file (P : exn -> bool) (orig_path temp_path : str)
    (original_plex_path : option str) :
  escapes P (move_file orig_path temp_path original_plex_path).
Proof. unfold move_file. escapes_split. Qed.

Lemma escapes_restore_file (P : exn -> bool) (temp_path orig_path : str) :
  escapes P (restore_file temp_path orig_path).
Proof. unfold restore_file. escapes_split. Qed.

Section Service.

Variable rt : runtime.

Lemma escapes_connect : escapes any_exception (connect).
Proof. unfold connect. escapes_split. Qed.

Lemma escapes_check_paths (srv : plex_server) (moved : list (str * list str)) :
  forall acc, escapes any_exception (check_paths rt srv moved acc).
Proof.
  induction moved as [|[plex_path album_ids] rest IH]; intros acc;
    cbn [check_paths]; escapes_split.
Qed.

Lemma escapes_check_albums_removed_from_plex (P : exn -> bool)
    (moved : list (str * list str)) :
  escapes P (check_albums_removed_from_plex rt moved).
Proof.
  unfold check_albums_removed_from_plex.
  pose proof escapes_connect. pose proof escapes_check_paths.
  escapes_split.
Qed.

End Service.

Lemma escapes_cleanup_temp_dir (P : exn -> bool) (temp_dir : str) :
  escapes P (cleanup_temp_dir temp_dir).
Proof.
  unfold cleanup_temp_dir.
  apply (escapes_try_except _ any_exception);
    [ | intros e _; apply escapes_print | intros e _ H; discriminate H].
  apply escapes_bind; [apply escapes_fs_read|intros present].
  destruct present; [|apply escapes_ret].
  apply escapes_bind; [apply escapes_os_listdir; reflexivity|intros temp_files].
  cbv zeta. apply escapes_bind.
  - destruct (filter _ temp_files); [apply escapes_ret|].
    apply escapes_bind; [apply escapes_print|intros _].
    apply escapes_for_each. intros temp_file. unfold restore_tracked.
    escapes_split.
  - intros _. unfold remove_temp_dir.
    apply (escapes_try_except _ any_exception).
    + escapes_split.
    + intros e _. escapes_split.
    + intros e _ H.
      (* an exception that is no OSError is not caught here *)
      reflexivity.
Qed.

Lemma escapes_cleanup_and_restore (P : exn -> bool) :
  escapes P cleanup_and_restore.
Proof.
  unfold cleanup_and_restore.
  apply escapes_bind; [apply escapes_get|intros dirs].
  destruct dirs as [|d dirs]; [apply escapes_ret|].
  cbv zeta.
  apply escapes_bind; [apply escapes_modify|intros _].
  apply escapes_bind; [apply escapes_print|intros _].
  apply escapes_for_each. intros item. apply escapes_cleanup_temp_dir.
Qed.

Lemma escapes_settled {A : Type} (m : M A) :
  escapes no_exception m -> forall w, settled (fst (m w)) = true.
Proof.
  intros H w. destruct (m w) as [r w'] eqn:E. pose proof (H _ _ _ E) as Hr.
  destruct r; cbn in *; auto; contradiction.
Qed.

(** ** The device check *)

Lemma fs_read_inv {A : Type} (ev : event) (f : FS.t -> A) (w w' : world) (x : A) :
  fs_read ev f w = (Ret x, w') -> x = f (w_fs w) /\ w_fs w' = w_fs w.
Proof.
  unfold fs_read, bind, tick, emit, get.
  destruct (w_signal w) as [[|n]|]; cbn; intros [= <- <-]; auto.
Qed.

Lemma fs_query_inv {A : Type} (ev : event) (f : FS.t -> exn + A)
    (w w' : world) (r : outcome A) :
  fs_query ev f w = (r, w') ->
  w_fs w' = w_fs w /\
  match r with
  | Ret x => f (w_fs w) = inr x
  | Raise e => f (w_fs w) = inl e
  | SysExit _ => False
  | Interrupt => True
  end.
Proof.
  unfold fs_query, bind, tick, emit, get, ret, raise.
  destruct (w_signal w) as [[|n]|]; cbn;
    try (destruct (f (w_fs w)) eqn:E); intros [= <- <-]; auto.
Qed.

Lemma find_existing_ancestor_some (fuel : nat) :
  forall (p c : str) (w w' : world),
    find_existing_ancestor fuel p w = (Ret (Some c), w') ->
    FS.exists_ (w_fs w') c = true /\ w_fs w' = w_fs w.
Proof.
  induction fuel as [|f IH]; intros p c w w' E; cbn [find_existing_ancestor] in E.
  - discriminate E.
  - apply bind_inv in E. destruct E as (r1 & w1 & E1 & E).
    destruct r1 as [b|e|x|]; try (destruct E; discriminate).
    apply fs_read_inv in E1. destruct E1 as [-> F1].
    destruct (FS.exists_ (w_fs w) p) eqn:Ex.
    + injection E as <- <-. rewrite F1. auto.
    + destruct (PyStr.eqb (PosixPath.dirname p) p); [discriminate E|].
      destruct (IH _ _ _ _ E) as [H1 H2]. split; [exact H1|congruence].
Qed.

Lemma stat_dev_exists (fs : FS.t) (p : str) :
  FS.exists_ fs p = true -> exists d, FS.stat_dev fs p = inr d.
Proof.
  unfold FS.exists_, FS.stat_dev. destruct (FS.resolve p) as [q|]; [|discriminate].
  destruct (FS.lookup fs q) as [n|]; [eauto|discriminate].
Qed.

Lemma stat_dev_unsettled (fs : FS.t) (p : str) (e : exn) :
  FS.stat_dev fs p = inl e -> is_OSError e = false ->
  e = ValueError /\ FS.has_nul p = true.
Proof.
  intros H Hn. destruct (proj1 (proj2 fs_errors) fs p e H) as [Ho|Hv];
    [congruence|exact Hv].
Qed.

(** The one exception that leaves [are_on_same_filesystem]. *)
Lemma are_on_same_filesystem_raises (path1 path2 : str) (w w' : world)
    (r : outcome bool) :
  are_on_same_filesystem path1 path2 w = (r, w') ->
  match r with
  | Ret _ | Interrupt => True
  | Raise e => e = ValueError /\ FS.has_nul path1 = true
  | SysExit _ => False
  end.
Proof.
  intros E. unfold are_on_same_filesystem, try_except in E.
  match type of E with
  | match ?body w with _ => _ end = _ => destruct (body w) as [r0 w0] eqn:B
  end.
  assert (Hb : match r0 with
               | Ret _ | Interrupt => True
               | Raise e => is_OSError e = true \/
                            (e = ValueError /\ FS.has_nul path1 = true)
               | SysExit _ => False
               end).
  { clear E. apply bind_inv in B. destruct B as (r1 & w1 & E1 & B).
    pose proof (escapes_find_existing_ancestor no_exception _ _ _ _ _ E1) as H1.
    destruct r1 as [[c|]|e1|c1|]; cbn in H1; try discriminate H1;
      try contradiction.
    - destruct (find_existing_ancestor_some _ _ _ _ _ E1) as [Hc F1].
      apply bind_inv in B. destruct B as (r2 & w2 & E2 & B).
      apply fs_query_inv in E2. destruct E2 as [F2 E2].
      destruct r2 as [d1|e2|c2|]; try contradiction.
      + apply bind_inv in B. destruct B as (r3 & w3 & E3 & B).
        apply fs_query_inv in E3. destruct E3 as [F3 E3].
        destruct r3 as [d2|e3|c3|]; try contradiction.
        * injection B as <- _. exact I.
        * rewrite F2 in E3. destruct (stat_dev_exists _ _ Hc) as [d Hd].
          congruence.
        * destruct B as [-> _]. exact I.
      + destruct B as [-> _].
        destruct (is_OSError e2) eqn:Ho; [left; reflexivity|right].
        exact (stat_dev_unsettled _ _ _ E2 Ho).
      + destruct B as [-> _]. exact I.
    - injection B as <- _. exact I.
    - destruct B as [-> _]. exact I. }
  destruct r0 as [b|e0|c0|].
  - injection E as <- _. exact I.
  - destruct (is_OSError e0) eqn:Ho.
    + injection E as <- _. exact I.
    + injection E as <- _. destruct Hb as [Hb|Hb]; [congruence|exact Hb].
  - contradiction.
  - injection E as <- _. exact I.
Qed.

Lemma find_existing_ancestor_run (fuel : nat) :
  forall (p : str) (w : world),
    w_signal w = None ->
    exists w',
      find_existing_ancestor fuel p w
      = (Ret (existing_ancestor (w_fs w) fuel p), w') /\
      w_fs w' = w_fs w /\ w_signal w' = None.
Proof.
  induction fuel as [|f IH]; intros p w Hs;
    cbn [find_existing_ancestor existing_ancestor].
  - exists w. auto.
  - rewrite (bind_ret _ _ _ _ _ (run_exists w p Hs)).
    set (w1 := with_trace w (w_trace w ++ [EvExists p])).
    destruct (FS.exists_ (w_fs w) p).
    + exists w1. auto.
    + destruct (PyStr.eqb (PosixPath.dirname p) p).
      * exists w1. auto.
      * destruct (IH (PosixPath.dirname p) w1 Hs) as (w' & E & F & S').
        exists w'. auto.
Qed.

Lemma existing_ancestor_exists (fs : FS.t) (fuel : nat) :
  forall p c, existing_ancestor fs fuel p = Some c -> FS.exists_ fs c = true.
Proof.
  induction fuel as [|f IH]; intros p c; cbn [existing_ancestor]; [discriminate|].
  destruct (FS.exists_ fs p) eqn:Ex; [intros [= <-]; exact Ex|].
  destruct (PyStr.eqb (PosixPath.dirname p) p); [discriminate|apply IH].
Qed.

(** With no signal pending the device check is a function of the file
    system: it answers [same_device], unless the first path holds a NUL
    and the second has an existing ancestor, so that [os.stat] is reached
    and raises. *)
Lemma are_on_same_filesystem_run (path1 path2 : str) (w : world) :
  w_signal w = None ->
  exists w',
    are_on_same_filesystem path1 path2 w
    = (match existing_ancestor (w_fs w) (S (List.length path2)) path2 with
       | Some _ =>
           if FS.has_nul path1 then Raise ValueError
           else Ret (same_device (w_fs w) path1 path2)
       | None => Ret false
       end, w') /\
    w_fs w' = w_fs w /\ w_signal w' = None.
Proof.
  intros Hs. unfold are_on_same_filesystem, try_except, same_device.
  destruct (find_existing_ancestor_run (S (List.length path2)) path2 w Hs)
    as (w1 & E1 & F1 & S1).
  unfold bind at 1. rewrite E1.
  destruct (existing_ancestor (w_fs w) (S (List.length path2)) path2)
    as [anc|] eqn:Ea; [|exists w1; auto].
  unfold bind at 1. unfold os_stat_dev at 1. rewrite (run_fs_query w1 S1).
  rewrite F1.
  set (w2 := with_trace w1 (w_trace w1 ++ [EvStat path1])).
  assert (S2 : w_signal w2 = None) by exact S1.
  assert (F2 : w_fs w2 = w_fs w) by exact F1.
  destruct (FS.stat_dev (w_fs w) path1) as [e|d1] eqn:D1.
  - destruct (is_OSError e) eqn:Ho.
    + destruct (proj1 (proj2 fs_errors) _ _ _ D1) as [_|[-> _]];
        [|discriminate Ho].
      exists w2. destruct (FS.has_nul path1) eqn:Hn; [|auto].
      exfalso. unfold FS.stat_dev, FS.resolve in D1. rewrite Hn in D1.
      unfold FS.unresolved in D1. rewrite Hn in D1.
      destruct path1; injection D1 as <-; discriminate Ho.
    + destruct (stat_dev_unsettled _ _ _ D1 Ho) as [-> Hn]. rewrite Hn.
      exists w2. auto.
  - assert (Hn : FS.has_nul path1 = false).
    { unfold FS.stat_dev in D1.
      destruct (FS.resolve path1) as [q|] eqn:R; [|discriminate D1].
      exact (resolve_no_nul _ _ R). }
    rewrite Hn.
    unfold bind at 1. unfold os_stat_dev at 1. rewrite (run_fs_query w2 S2).
    rewrite F2.
    destruct (stat_dev_exists _ _ (existing_ancestor_exists _ _ _ _ Ea))
      as [d2 D2].
    rewrite D2. eexists. split; [reflexivity|]. auto.
Qed.

Lemma are_on_same_filesystem_run_existing (path1 path2 : str) (w : world) :
  w_signal w = None -> FS.exists_ (w_fs w) path1 = true ->
  exists w',
    are_on_same_filesystem path1 path2 w
    = (Ret (same_device (w_fs w) path1 path2), w') /\
    w_fs w' = w_fs w /\ w_signal w' = None.
Proof.
  intros Hs Ex.
  destruct (are_on_same_filesystem_run path1 path2 w Hs) as (w' & E & F & S').
  exists w'. split; [|auto]. rewrite E, (exists_no_nul _ _ Ex).
  unfold same_device.
  destruct (existing_ancestor (w_fs w) (S (List.length path2)) path2);
    reflexivity.
Qed.

(** X11.  No exception and no [sys.exit] leaves [move_file],
    [restore_file], [check_albums_removed_from_plex] or
    [cleanup_and_restore]: whatever the file system and the service do,
    each of them returns (or is interrupted by a signal).
    [are_on_same_filesystem] never exits either, but it catches [OSError]
    only: the one exception that leaves it is the [ValueError] of
    [os.stat] for a first path with an embedded NUL. *)
Theorem errors_are_contained (rt : runtime) (w : world) :
  (forall orig_path temp_path original_plex_path,
      settled (fst (move_file orig_path temp_path original_plex_path w)) = true) /\
  (forall temp_path orig_path,
      settled (fst (restore_file temp_path orig_path w)) = true) /\
  (forall moved,
      settled (fst (check_albums_removed_from_plex rt moved w)) = true) /\
  settled (fst (cleanup_and_restore w)) = true /\
  (forall path1 path2,
      match fst (are_on_same_filesystem path1 path2 w) with
      | Ret _ | Interrupt => True
      | Raise e => e = ValueError /\ FS.has_nul path1 = true
      | SysExit _ => False
      end).
Proof.
  split; [|split; [|split; [|split]]].
  - intros. apply escapes_settled, escapes_move_file.
  - intros. apply escapes_settled, escapes_restore_file.
  - intros. apply escapes_settled, escapes_check_albums_removed_from_plex.
  - apply escapes_settled, escapes_cleanup_and_restore.
  - intros path1 path2.
    destruct (are_on_same_filesystem path1 path2 w) as [r w'] eqn:E.
    exact (are_on_same_filesystem_raises _ _ _ _ _ E).
Qed.

(** X12.  With no signal pending, [are_on_same_filesystem] makes only
    system calls that read and leaves the file system unchanged.  It
    answers whenever its first path holds no NUL: [False] when that path
    does not exist, and the comparison of the two device numbers when both
    paths exist.  For a first path with a NUL it raises [ValueError] when
    the second path has an existing ancestor, and answers [False]
    otherwise. *)
Theorem are_on_same_filesystem_answer (path1 path2 : str) (w : world) :
  w_signal w = None ->
  exists r w',
    are_on_same_filesystem path1 path2 w = (r, w') /\
    w_fs w' = w_fs w /\ w_signal w' = None /\
    forallb is_read (new_events w w') = true /\
    (FS.has_nul path1 = false ->
     exists b,
       r = Ret b /\
       (FS.exists_ (w_fs w) path1 = false -> b = false) /\
       (forall d1 d2,
           FS.stat_dev (w_fs w) path1 = inr d1 ->
           FS.stat_dev (w_fs w) path2 = inr d2 -> b = N.eqb d1 d2)) /\
    (FS.has_nul path1 = true ->
     r = match existing_ancestor (w_fs w) (S (List.length path2)) path2 with
         | Some _ => Raise ValueError
         | None => Ret false
         end).
Proof.
  intros Hs.
  destruct (are_on_same_filesystem_run path1 path2 w Hs) as (w' & E & F & S').
  eexists. exists w'. split; [exact E|]. split; [exact F|]. split; [exact S'|].
  split.
  { assert (R : steps (emits (fun e => is_read e = true))
                  (are_on_same_filesystem path1 path2)).
    { unfold are_on_same_filesystem.
      assert (Q : forall fuel p,
                 steps (emits (fun e => is_read e = true))
                   (find_existing_ancestor fuel p)).
      { induction fuel as [|f IH]; intros p; cbn [find_existing_ancestor];
          steps_split. }
      steps_split. }
    destruct (R _ _ _ E) as (evs & T & Q).
    rewrite (new_events_app _ _ _ T). apply forallb_forall.
    rewrite Forall_forall in Q. exact Q. }
  split.
  - intros Hn. rewrite Hn. unfold same_device.
    destruct (existing_ancestor (w_fs w) (S (List.length path2)) path2)
      as [anc|] eqn:Ea.
    + eexists. split; [reflexivity|]. split.
      * intros Ex. unfold FS.exists_ in Ex. unfold FS.stat_dev at 1.
        destruct (FS.resolve path1) as [q|]; [|reflexivity].
        destruct (FS.lookup (w_fs w) q); [discriminate|reflexivity].
      * intros d1 d2 H1 H2.
        assert (Ex : FS.exists_ (w_fs w) path2 = true).
        { unfold FS.exists_. unfold FS.stat_dev in H2.
          destruct (FS.resolve path2); [|discriminate].
          destruct (FS.lookup (w_fs w) p); [reflexivity|discriminate]. }
        cbn [existing_ancestor] in Ea. rewrite Ex in Ea. injection Ea as <-.
        rewrite H1, H2. reflexivity.
    + exists false. split; [reflexivity|]. split; [reflexivity|].
      intros d1 d2 H1 H2. exfalso.
      assert (Ex : FS.exists_ (w_fs w) path2 = true).
      { unfold FS.exists_. unfold FS.stat_dev in H2.
        destruct (FS.resolve path2); [|discriminate].
        destruct (FS.lookup (w_fs w) p); [reflexivity|discriminate]. }
      cbn [existing_ancestor] in Ea. rewrite Ex in Ea. discriminate Ea.
  - intros Hn. rewrite Hn.
    destruct (existing_ancestor (w_fs w) (S (List.length path2)) path2);
      reflexivity.
Qed.

(** ** The crash recovery returns, the handler exits *)

Lemma cleanup_and_restore_calm : calm cleanup_and_restore.
Proof.
  unfold cleanup_and_restore, cleanup_temp_dir, remove_temp_dir, restore_tracked.
  calm_split.
Qed.

Lemma cleanup_and_restore_run (w : world) :
  w_signal w = None ->
  exists w',
    cleanup_and_restore w = (Ret tt, w') /\
    w_library_temp_dirs w' = [] /\
    w_signal w' = None.
Proof.
  intros Hs. destruct (cleanup_and_restore w) as [r w'] eqn:E.
  pose proof (escapes_cleanup_and_restore no_exception _ _ _ E) as Hr.
  destruct (cleanup_and_restore_calm _ _ _ Hs E) as [Hs' Hc].
  pose proof (cleanup_clears_registry w) as Hreg. rewrite E in Hreg.
  destruct r as [[]|e|c|]; try (destruct Hc as [[? Hc]|[? Hc]]; discriminate Hc);
    [|cbn in Hr; discriminate].
  exists w'. auto.
Qed.

(** X13.  With no further signal, [cleanup_and_restore] always returns:
    it neither raises nor exits, whatever it finds on disk, and when it
    returns the registry of staging directories is empty.  The signal
    handler therefore always reaches its [sys.exit(1)], with the exit hook
    unregistered. *)
Theorem signal_handler_exits_1 (w : world) :
  w_signal w = None ->
  (exists w', cleanup_and_restore w = (Ret tt, w') /\
              w_library_temp_dirs w' = [] /\ w_signal w' = None) /\
  (exists w', signal_handler w = (SysExit 1, w') /\
              w_atexit w' = false /\ w_library_temp_dirs w' = [] /\
              w_signal w' = None).
Proof.
  intros Hs. split; [exact (cleanup_and_restore_run w Hs)|].
  unfold signal_handler.
  rewrite (bind_ret _ _ _ _ _ (run_print w MsgSignal)).
  set (w1 := with_out w (w_out w ++ [MsgSignal])).
  assert (S1 : w_signal w1 = None) by exact Hs.
  destruct (cleanup_and_restore_run w1 S1) as (w2 & E2 & R2 & S2).
  rewrite (bind_ret _ _ _ _ _ E2).
  eexists. split; [reflexivity|]. cbn. auto.
Qed.

(** ** A signal during [main] *)

Section Interrupts.

Lemma ic_ret {A : Type} (a : A) : interrupts_cleanly (ret a).
Proof. intros w w' H. discriminate H. Qed.

Lemma ic_raise {A : Type} (e : exn) : interrupts_cleanly (@raise A e).
Proof. intros w w' H. discriminate H. Qed.

Lemma ic_sys_exit {A : Type} (c : Z) : interrupts_cleanly (@sys_exit A c).
Proof. intros w w' H. discriminate H. Qed.

Lemma ic_get {A : Type} (f : world -> A) : interrupts_cleanly (get f).
Proof. intros w w' H. discriminate H. Qed.

Lemma ic_print (x : msg) : interrupts_cleanly (print x).
Proof. intros w w' H. discriminate H. Qed.

Lemma ic_emit (e : event) : interrupts_cleanly (emit e).
Proof. intros w w' H. discriminate H. Qed.

Lemma ic_modify (f : world -> world) : interrupts_cleanly (modify f).
Proof. intros w w' H. discriminate H. Qed.

Lemma ic_tick : interrupts_cleanly tick.
Proof.
  intros w w'. unfold tick. destruct (w_signal w) as [[|n]|]; intros [= <-];
    reflexivity.
Qed.

Lemma ic_bind {A B : Type} (m : M A) (k : A -> M B) :
  interrupts_cleanly m -> (forall a, interrupts_cleanly (k a)) ->
  interrupts_cleanly (bind m k).
Proof.
  intros Hm Hk w w'. unfold bind.
  destruct (m w) as [[a|e|c|] w1] eqn:E; intros H; try discriminate H.
  - eapply Hk; eauto.
  - injection H as <-. eapply Hm; eauto.
Qed.

Lemma ic_try_except {A : Type} (m : M A) (handles : exn -> bool)
    (handler : exn -> M A) :
  interrupts_cleanly m -> (forall e, interrupts_cleanly (handler e)) ->
  interrupts_cleanly (try_except m handles handler).
Proof.
  intros Hm Hh w w'. unfold try_except.
  destruct (m w) as [[a|e|c|] w1] eqn:E; intros H; try discriminate H.
  - destruct (handles e); [eapply Hh; eauto|discriminate H].
  - injection H as <-. eapply Hm; eauto.
Qed.

Lemma ic_for_each {A : Type} (l : list A) (body : A -> M unit) :
  (forall x, interrupts_cleanly (body x)) -> interrupts_cleanly (for_each l body).
Proof.
  intros Hb. induction l as [|x l IH]; cbn [for_each].
  - apply ic_ret.
  - apply ic_bind; auto.
Qed.

Lemma ic_map_m {A B : Type} (f : A -> M B) (l : list A) :
  (forall x, interrupts_cleanly (f x)) -> interrupts_cleanly (map_m f l).
Proof.
  intros Hf. induction l as [|x l IH]; cbn [map_m].
  - apply ic_ret.
  - apply ic_bind; [auto|]. intros y.
    apply ic_bind; [auto|]. intros ys. apply ic_ret.
Qed.

End Interrupts.

#[local] Hint Resolve ic_ret ic_raise ic_sys_exit ic_get ic_print ic_emit
  ic_modify ic_tick : interrupts.

Ltac ic_split :=
  repeat first
    [ match goal with |- forall _, _ => intro end
    | solve [eauto with interrupts]
    | apply ic_bind
    | apply ic_try_except
    | apply ic_for_each
    | apply ic_map_m
    | match goal with
      | |- interrupts_cleanly (let _ := _ in _) => cbv zeta
      | |- interrupts_cleanly (match ?x with _ => _ end) => destruct x
      | |- interrupts_cleanly (if ?b then _ else _) => destruct b
      end ].

Section MainInterrupted.

Variable rt : runtime.
Variable a : args.

Lemma ic_find_existing_ancestor (fuel : nat) :
  forall p, interrupts_cleanly (find_existing_ancestor fuel p).
Proof.
  induction fuel as [|f IH]; intros p; cbn [find_existing_ancestor]; ic_split.
Qed.

Lemma ic_are_on_same_filesystem (p1 p2 : str) :
  interrupts_cleanly (are_on_same_filesystem p1 p2).
Proof.
  unfold are_on_same_filesystem. pose proof ic_find_existing_ancestor. ic_split.
Qed.

Lemma ic_move_file (o t : str) (p : option str) : interrupts_cleanly (move_file o t p).
Proof. unfold move_file. pose proof ic_are_on_same_filesystem. ic_split. Qed.

Lemma ic_restore_file (t o : str) : interrupts_cleanly (restore_file t o).
Proof. unfold restore_file. ic_split. Qed.

Lemma ic_check_paths (srv : plex_server) (moved : list (str * list str)) :
  forall acc, interrupts_cleanly (check_paths rt srv moved acc).
Proof.
  induction moved as [|[plex_path album_ids] rest IH]; intros acc;
    cbn [check_paths]; ic_split.
Qed.

Lemma ic_check_albums (moved : list (str * list str)) :
  interrupts_cleanly (check_albums_removed_from_plex rt moved).
Proof.
  unfold check_albums_removed_from_plex, connect. pose proof ic_check_paths.
  ic_split.
Qed.

Lemma ic_plan_loop (locs plex_paths : list str) :
  forall i, interrupts_cleanly (plan_loop rt a locs i plex_paths).
Proof.
  induction plex_paths as [|p rest IH]; intros i; cbn [plan_loop];
    [ic_split|].
  unfold plan_entry, acquire_temp_dir, reclaim_leftover.
  pose proof ic_are_on_same_filesystem. ic_split.
Qed.

Lemma ic_move_all (ops : list (str * str * str)) :
  forall i total, interrupts_cleanly (move_all i total ops).
Proof.
  induction ops as [|[[l t] p] rest IH]; intros i total; cbn [move_all];
    pose proof ic_move_file; ic_split.
Qed.

Lemma ic_poll_loop (fuel : nat) :
  forall max_wait_time moved total elapsed all_removed,
    interrupts_cleanly
      (poll_loop rt fuel max_wait_time moved total elapsed all_removed).
Proof.
  induction fuel as [|f IH]; intros; cbn [poll_loop];
    pose proof ic_check_albums; unfold time_sleep; ic_split.
Qed.

Lemma ic_collect_restores (file_paths : list str) :
  forall i temp_paths, interrupts_cleanly (collect_restores i file_paths temp_paths).
Proof.
  induction file_paths as [|o rest IH]; intros i temp_paths;
    cbn [collect_restores]; ic_split.
Qed.

Lemma ic_restore_all (ops : list (str * str)) :
  forall i total, interrupts_cleanly (restore_all i total ops).
Proof.
  induction ops as [|[t o] rest IH]; intros i total; cbn [restore_all];
    pose proof ic_restore_file; ic_split.
Qed.

Lemma ic_dry_run_loop (locs paths : list str) :
  forall n, interrupts_cleanly (dry_run_loop a locs paths n).
Proof.
  induction paths as [|p rest IH]; intros n; cbn [dry_run_loop];
    pose proof ic_are_on_same_filesystem; ic_split.
Qed.

Lemma ic_main : interrupts_cleanly (main rt a).
Proof.
  unfold main, dance, staging_phase, write_restore_logs, wait_for_plex,
    restore_phase, dry_run, validate_paths_in_library,
    get_plex_library_locations.
  pose proof ic_plan_loop. pose proof ic_move_all. pose proof ic_poll_loop.
  pose proof ic_collect_restores. pose proof ic_restore_all.
  pose proof ic_dry_run_loop.
  ic_split.
Qed.

(** X14.  A run in which a signal interrupts [main] ends with exit
    status 1, however far [main] had got: the handler has run the crash
    recovery, emptied the registry of staging directories and unregistered
    the exit hook. *)
Theorem interrupted_run_exits_1 (w : world) :
  fst (main rt a w) = Interrupt ->
  fst (run rt a w) = 1%Z /\
  w_atexit (snd (run rt a w)) = false /\
  w_library_temp_dirs (snd (run rt a w)) = [].
Proof.
  intros H. unfold run. destruct (main rt a w) as [r w1] eqn:E.
  cbn [fst snd] in *. subst r.
  pose proof (ic_main _ _ E) as S1.
  unfold deliver, signal_handler.
  rewrite (bind_ret _ _ _ _ _ (run_print w1 MsgSignal)).
  set (w2 := with_out w1 (w_out w1 ++ [MsgSignal])).
  assert (S2 : w_signal w2 = None) by exact S1.
  destruct (cleanup_and_restore_run w2 S2) as (w3 & E3 & R3 & S3).
  rewrite (bind_ret _ _ _ _ _ E3). cbn [bind modify sys_exit fst snd exit_status].
  repeat split; auto.
Qed.

End MainInterrupted.

Lemma are_on_same_filesystem_answer_witness :
  let w := start split_fs server_gone None in
  (exists w',
      are_on_same_filesystem (lit "/mnt/A/x") (lit "/stage") w = (Ret false, w') /\
      w_fs w' = w_fs w) /\
  (exists w',
      are_on_same_filesystem (lit "/mnt/A/x" ++ [0%N]) (lit "/stage/tmp.plexdance") w
      = (Raise ValueError, w') /\
      w_fs w' = w_fs w).
Proof.
  cbv zeta. split.
  - destruct (are_on_same_filesystem_answer (lit "/mnt/A/x") (lit "/stage")
                (start split_fs server_gone None) eq_refl)
      as (r & w' & E & Hfs & _ & _ & Hdev & _).
    destruct (Hdev eq_refl) as (b & -> & _ & Hb).
    exists w'. rewrite (Hb 2%N 1%N eq_refl eq_refl) in E. split; assumption.
  - destruct (are_on_same_filesystem_answer (lit "/mnt/A/x" ++ [0%N])
                (lit "/stage/tmp.plexdance")
                (start split_fs server_gone None) eq_refl)
      as (r & w' & E & Hfs & _ & _ & _ & Hnul).
    exists w'. rewrite (Hnul eq_refl) in E. split; assumption.
Defined.

Lemma signal_handler_exits_1_witness :
  let w := staged_world in
  w_library_temp_dirs w = [(lit "/m", lit "/m/tmp.plexdance")] /\
  FS.exists_ (w_fs w) (lit "/m/A/x") = false /\
  FS.exists_ (w_fs w) (lit "/m/B/y") = false /\
  exists w',
    signal_handler w = (SysExit 1, w') /\
    w_atexit w' = false /\ w_library_temp_dirs w' = [] /\
    FS.exists_ (w_fs w') (lit "/m/A/x") = true /\
    FS.exists_ (w_fs w') (lit "/m/B/y") = true /\
    FS.exists_ (w_fs w') (lit "/m/tmp.plexdance") = false.
Proof.
  cbv zeta.
  split; [vm_compute; reflexivity|]. split; [vm_compute; reflexivity|].
  split; [vm_compute; reflexivity|].
  destruct (signal_handler_exits_1 staged_world) as [_ (w' & H1 & H2 & H3 & _)];
    [vm_compute; reflexivity|].
  exists w'. split; [exact H1|]. split; [exact H2|]. split; [exact H3|].
  assert (W : w' = snd (signal_handler staged_world)) by (rewrite H1; reflexivity).
  rewrite W. vm_compute. auto.
Defined.

Lemma interrupted_run_exits_1_witness :
  fst (run rt0 music_args (start music_fs server_gone (Some 17))) = 1%Z.
Proof.
  destruct (interrupted_run_exits_1 rt0 music_args
              (start music_fs server_gone (Some 17)))
    as [H _]; [vm_compute; reflexivity|exact H].
Defined.

#[local] Hint Extern 1 (reads _) => exact eq_refl : steps.
#[local] Hint Extern 1 (offline _) => exact eq_refl : steps.

(** ** The dry run *)

Lemma find_existing_ancestor_reads (fuel : nat) :
  forall p, steps (emits reads) (find_existing_ancestor fuel p).
Proof.
  induction fuel as [|f IH]; intros p; cbn [find_existing_ancestor];
    steps_split.
Qed.

Lemma are_on_same_filesystem_reads (path1 path2 : str) :
  steps (emits reads) (are_on_same_filesystem path1 path2).
Proof.
  unfold are_on_same_filesystem.
  pose proof find_existing_ancestor_reads. steps_split.
Qed.

Section DryRun.

Variable rt : runtime.
Variable a : args.
Hypothesis dry : no_dry_run a = false.

Lemma dry_run_loop_reads (locs paths : list str) :
  forall n, steps (emits reads) (dry_run_loop a locs paths n).
Proof.
  induction paths as [|p rest IH]; intros n; cbn [dry_run_loop];
    pose proof are_on_same_filesystem_reads; steps_split.
Qed.

Lemma dry_run_loop_agree {T : Type} (F : world -> T) (locs paths : list str) :
  (forall w s, F (with_signal w s) = F w) ->
  (forall w t, F (with_trace w t) = F w) ->
  (forall w o, F (with_out w o) = F w) ->
  forall n, steps (agree F) (dry_run_loop a locs paths n).
Proof.
  intros F1 F2 F3.
  induction paths as [|p rest IH]; intros n; cbn [dry_run_loop];
    pose proof (are_on_same_filesystem_agree F F1 F2); steps_split.
Qed.

Lemma one_connection_quiet (x y : world) :
  agree w_trace x y -> one_connection x y.
Proof.
  unfold agree. intros H. exists []. rewrite app_nil_r. split; [exact H|reflexivity].
Qed.

Lemma one_connection_after (x y z : world) :
  agree w_trace x y -> one_connection y z -> one_connection x z.
Proof. unfold agree. intros H (c & T & C). exists c. rewrite T, H. auto. Qed.

Lemma one_connection_before (x y z : world) :
  one_connection x y -> agree w_trace y z -> one_connection x z.
Proof. unfold agree. intros (c & T & C) H. exists c. rewrite H, T. auto. Qed.

Lemma connects_first_one (x y : world) :
  one_connection x y -> connects_first x y.
Proof.
  intros (c & T & C). exists c, []. rewrite app_nil_r. repeat split; auto.
Qed.

Lemma connects_first_then (x y z : world) :
  one_connection x y -> emits reads y z -> connects_first x z.
Proof.
  intros (c & T & C) (rs & T' & R). exists c, rs.
  rewrite T', T, <- app_assoc. repeat split; auto.
Qed.

Lemma connects_first_after (x y z : world) :
  agree w_trace x y -> connects_first y z -> connects_first x z.
Proof.
  unfold agree. intros H (c & rs & T & C & R). exists c, rs.
  rewrite T, H. repeat split; auto.
Qed.

Lemma get_plex_library_locations_connects :
  steps one_connection get_plex_library_locations.
Proof.
  intros w r w'.
  unfold get_plex_library_locations, try_except, connect, bind, tick, emit,
    get, modify, ret, raise, print, sys_exit.
  destruct (w_signal w) as [[|n]|]; cbn;
    try (destruct (connect_error (w_plex w (w_polls w))); cbn);
    intros [= <- <-]; cbn;
    first [ exists []; rewrite app_nil_r; split; reflexivity
          | exists [EvConnect]; split; reflexivity ].
Qed.

Lemma validate_paths_quiet (file_paths locs : list str) (mapping : option pathmap) :
  steps (agree w_trace) (validate_paths_in_library file_paths locs mapping).
Proof. unfold validate_paths_in_library. steps_split. Qed.

Lemma dry_run_reads (locs paths : list str) :
  steps (emits reads) (dry_run a locs paths).
Proof. unfold dry_run. pose proof dry_run_loop_reads. steps_split. Qed.

Lemma main_validation_connects (plex_paths : list str) :
  steps one_connection
    (if negb (skip_validation a) then
       match plex_token a with
       | Some (_ :: _) =>
           print MsgValidating ;;
           library_locations <- get_plex_library_locations ;;
           valid <- validate_paths_in_library plex_paths library_locations None ;;
           ret (library_locations, valid)
       | _ => print MsgTokenRequired ;; sys_exit 1
       end
     else ret ([], plex_paths)).
Proof.
  assert (Q : forall {A : Type} (m : M A),
             steps (agree w_trace) m -> steps one_connection m).
  { intros A m H. eapply steps_weaken; [|exact H].
    intros x y. apply one_connection_quiet. }
  destruct (negb (skip_validation a)); [|apply Q; steps_split].
  destruct (plex_token a) as [[|c tk]|];
    [apply Q; steps_split| |apply Q; steps_split].
  apply (steps_seq (agree w_trace) one_connection one_connection);
    [apply one_connection_after|apply one_connection_quiet|steps_split|].
  intros _.
  apply (steps_seq one_connection (agree w_trace) one_connection);
    [apply one_connection_before|auto|
     apply get_plex_library_locations_connects|].
  intros locs. pose proof validate_paths_quiet. steps_split.
Qed.

Lemma dry_main_connects_first : steps connects_first (main rt a).
Proof.
  assert (Q : forall {A : Type} (m : M A),
             steps (agree w_trace) m -> steps connects_first m).
  { intros A m H. eapply steps_weaken; [|exact H].
    intros x y Hxy. apply connects_first_one, one_connection_quiet, Hxy. }
  assert (Seq : forall {A B : Type} (m : M A) (k : A -> M B),
             steps (agree w_trace) m -> (forall x, steps connects_first (k x)) ->
             steps connects_first (bind m k)).
  { intros A B m k Hm Hk.
    apply (steps_seq (agree w_trace) connects_first connects_first);
      [apply connects_first_after|
       intros x y Hxy; apply connects_first_one, one_connection_quiet, Hxy|
       exact Hm|exact Hk]. }
  unfold main. rewrite dry. cbn [negb].
  apply Seq; [steps_split|intros _].
  apply Seq; [steps_split|intros _].
  destruct (lines a) as [|l0 ls]; [apply Q; steps_split|].
  cbv zeta.
  apply Seq; [steps_split|intros _].
  apply Seq; [steps_split|intros plex_paths].
  apply Seq; [steps_split|intros _].
  apply (steps_seq one_connection (emits reads) connects_first);
    [apply connects_first_then|apply connects_first_one|
     apply main_validation_connects|].
  intros validated. pose proof dry_run_reads. steps_split.
Qed.

Lemma dry_main_fs : steps (agree w_fs) (main rt a).
Proof.
  unfold main. rewrite dry. cbn [negb].
  unfold dry_run, validate_paths_in_library, get_plex_library_locations.
  pose proof (fun locs paths =>
                dry_run_loop_agree w_fs locs paths (fun _ _ => eq_refl)
                  (fun _ _ => eq_refl) (fun _ _ => eq_refl)).
  steps_split.
Qed.

Lemma dry_main_registry : steps (agree w_library_temp_dirs) (main rt a).
Proof.
  unfold main. rewrite dry. cbn [negb].
  unfold dry_run, validate_paths_in_library, get_plex_library_locations.
  pose proof (fun locs paths =>
                dry_run_loop_agree w_library_temp_dirs locs paths
                  (fun _ _ => eq_refl) (fun _ _ => eq_refl) (fun _ _ => eq_refl)).
  steps_split.
Qed.

(** X15.  Without [--no-dry-run] the script only looks: started with an
    empty registry, a run leaves the file system exactly as it was and
    registers nothing for recovery.  The first system call it makes may be
    the one connection that asks the service for the library locations;
    every other one is [os.path.exists], [os.listdir] or [os.stat].  This
    holds also when a signal cuts the run short. *)
Theorem dry_run_is_read_only (w : world) :
  w_library_temp_dirs w = [] ->
  let r := run rt a w in
  w_fs (snd r) = w_fs w /\
  (exists c rs,
      new_events w (snd r) = c ++ rs /\
      at_most_one_connection c = true /\
      forallb is_read rs = true) /\
  w_library_temp_dirs (snd r) = [].
Proof.
  intros Hreg. cbv zeta. unfold run.
  destruct (main rt a w) as [r w1] eqn:E.
  pose proof (dry_main_fs _ _ _ E) as Hfs.
  pose proof (dry_main_registry _ _ _ E) as Hr.
  destruct (dry_main_connects_first _ _ _ E) as (c & rs & T & C & F).
  unfold agree in Hfs, Hr. rewrite Hreg in Hr.
  assert (Hev : exists c rs,
             new_events w w1 = c ++ rs /\
             at_most_one_connection c = true /\ forallb is_read rs = true).
  { exists c, rs. rewrite (new_events_app _ _ _ T). split; [reflexivity|].
    split; [exact C|]. apply forallb_forall.
    rewrite Forall_forall in F. exact F. }
  assert (Hat : forall status, run_atexit status w1 = (status, w1)).
  { intros status. unfold run_atexit. rewrite (cleanup_nothing_staged w1 Hr).
    destruct (w_atexit w1); reflexivity. }
  destruct r as [x|e|c0|]; rewrite ?Hat; cbn [snd]; auto.
  unfold deliver, signal_handler.
  rewrite (bind_ret _ _ _ _ _ (run_print w1 MsgSignal)).
  set (w2 := with_out w1 (w_out w1 ++ [MsgSignal])).
  assert (R2 : w_library_temp_dirs w2 = []) by exact Hr.
  rewrite (bind_ret _ _ _ _ _ (cleanup_nothing_staged w2 R2)).
  cbn. auto.
Qed.

End DryRun.

(** ** Without validation the service is never contacted *)

Lemma reads_offline (e : event) : reads e -> offline e.
Proof. unfold reads, offline. destruct e; cbn; congruence. Qed.

Lemma are_on_same_filesystem_offline (path1 path2 : str) :
  steps (emits offline) (are_on_same_filesystem path1 path2).
Proof.
  eapply steps_weaken; [|apply are_on_same_filesystem_reads].
  intros w w'. apply emits_weaken, reads_offline.
Qed.

Lemma cleanup_and_restore_offline : steps (emits offline) cleanup_and_restore.
Proof.
  unfold cleanup_and_restore, cleanup_temp_dir, remove_temp_dir, restore_tracked.
  steps_split.
Qed.

Section SkipValidation.

Variable rt : runtime.
Variable a : args.
Hypothesis skip : skip_validation a = true.

Lemma plan_loop_offline (locs plex_paths : list str) :
  forall i, steps (emits offline) (plan_loop rt a locs i plex_paths).
Proof.
  induction plex_paths as [|p rest IH]; intros i; cbn [plan_loop];
    [steps_split|].
  unfold plan_entry, acquire_temp_dir, reclaim_leftover.
  pose proof are_on_same_filesystem_offline. steps_split.
Qed.

Lemma move_all_offline (ops : list (str * str * str)) :
  forall i total, steps (emits offline) (move_all i total ops).
Proof.
  induction ops as [|[[l t] p] rest IH]; intros i total; cbn [move_all];
    [steps_split|].
  unfold move_file. pose proof are_on_same_filesystem_offline. steps_split.
Qed.

Lemma collect_restores_offline (file_paths : list str) :
  forall i temp_paths,
    steps (emits offline) (collect_restores i file_paths temp_paths).
Proof.
  induction file_paths as [|o rest IH]; intros i temp_paths;
    cbn [collect_restores]; steps_split.
Qed.

Lemma restore_all_offline (ops : list (str * str)) :
  forall i total, steps (emits offline) (restore_all i total ops).
Proof.
  induction ops as [|[t o] rest IH]; intros i total; cbn [restore_all];
    [steps_split|].
  unfold restore_file. steps_split.
Qed.

Lemma dry_run_loop_offline (locs paths : list str) :
  forall n, steps (emits offline) (dry_run_loop a locs paths n).
Proof.
  induction paths as [|p rest IH]; intros n; cbn [dry_run_loop];
    pose proof are_on_same_filesystem_offline; steps_split.
Qed.

Lemma main_offline : steps (emits offline) (main rt a).
Proof.
  unfold main, dance, staging_phase, write_restore_logs, wait_for_plex,
    restore_phase, dry_run.
  rewrite skip. cbn [negb].
  pose proof plan_loop_offline. pose proof move_all_offline.
  pose proof collect_restores_offline. pose proof restore_all_offline.
  pose proof dry_run_loop_offline.
  steps_split.
Qed.

(** X16.  With [--skip-validation] the catalog service is never
    contacted and the script never sleeps, in the dry run as in the real
    one, and also in the crash recovery that may end the run. *)
Theorem skip_validation_never_connects (w : world) :
  existsb is_service (new_events w (snd (run rt a w))) = false.
Proof.
  assert (Hrun : emits offline w (snd (run rt a w))).
  { unfold run. destruct (main rt a w) as [r w1] eqn:E.
    pose proof (main_offline _ _ _ E) as H1.
    assert (Hd : emits offline w1 (snd (deliver w1))).
    { unfold deliver. cbn [snd].
      destruct (signal_handler w1) as [r2 w2] eqn:E2. cbn [snd].
      assert (S : steps (emits offline) signal_handler).
      { unfold signal_handler. pose proof cleanup_and_restore_offline.
        steps_split. }
      exact (S _ _ _ E2). }
    assert (Ha : forall status, emits offline w1 (snd (run_atexit status w1))).
    { intros status. unfold run_atexit.
      destruct (w_atexit w1); [|apply emits_refl].
      destruct (cleanup_and_restore w1) as [r3 w3] eqn:E3.
      pose proof (cleanup_and_restore_offline _ _ _ E3) as H3.
      destruct r3; cbn [snd]; try exact H3.
      eapply emits_trans; [exact H3|].
      unfold deliver. cbn [snd].
      destruct (signal_handler w3) as [r4 w4] eqn:E4. cbn [snd].
      assert (S : steps (emits offline) signal_handler).
      { unfold signal_handler. pose proof cleanup_and_restore_offline.
        steps_split. }
      exact (S _ _ _ E4). }
    destruct r; (eapply emits_trans; [exact H1|]); auto. }
  destruct Hrun as (evs & T & F). rewrite (new_events_app _ _ _ T).
  apply not_true_is_false. intros H. apply existsb_exists in H.
  destruct H as (e & He & Hs). rewrite Forall_forall in F.
  pose proof (F e He) as Ho. unfold offline in Ho. congruence.
Qed.

End SkipValidation.

(** ** Polling, continued *)

Section Waiting.

Variable rt : runtime.
Variable a : args.

Lemma some_success (results : list bool) :
  existsb (fun b => b) results = true ->
  (List.length results - List.length (filter negb results) =? 0) = false.
Proof.
  intros H. apply Nat.eqb_neq.
  assert (L : List.length (filter negb results) < List.length results).
  { induction results as [|b r IH]; [discriminate|].
    cbn [existsb filter] in *. destruct b; cbn [negb List.length].
    - pose proof (filter_length_le negb r). lia.
    - cbn [orb] in H. specialize (IH H). lia. }
  lia.
Qed.

Lemma run_modify (w : world) (f : world -> world) : modify f w = (Ret tt, f w).
Proof. reflexivity. Qed.

Lemma wait_for_plex_unbound (album_ids_map : list (str * list str))
    (ops : list (str * str * str)) (results : list bool) (w : world) :
  skip_validation a = false -> (max_wait a <= 0)%Z ->
  wait_for_plex rt a album_ids_map ops results w
  = (Raise NameError, with_out w (w_out w ++ [MsgPhase2])).
Proof.
  intros Hv Hm. unfold wait_for_plex. rewrite Hv. cbn [negb].
  rewrite (bind_ret _ _ _ _ _ (run_print w MsgPhase2)).
  cbn [poll_loop]. destruct (Z.ltb_spec 0 (max_wait a)); [lia|].
  unfold bind, ret. cbn [fst snd].
  destruct (Z.leb_spec (max_wait a) 0); [reflexivity|lia].
Qed.

(** X17.  With validation on and [--max-wait] zero or negative, the
    polling loop is not entered and [all_removed] is never bound: once
    the staging phase has moved at least one album, the dance stops with
    a [NameError] before any poll and before the restore phase.  The
    albums are still staged; [file_paths] holds their local paths by
    then. *)
Theorem max_wait_zero_raises_name_error
    (album_ids_map : list (str * list str)) (locs plex_paths : list str)
    (w w1 : world) (ops : list (str * str * str)) (results : list bool) :
  skip_validation a = false -> (max_wait a <= 0)%Z ->
  staging_phase rt a locs plex_paths w = (Ret (ops, results), w1) ->
  existsb (fun b => b) results = true ->
  exists w2,
    dance rt a album_ids_map locs plex_paths w = (Raise NameError, w2) /\
    w_trace w2 = w_trace w1 /\ w_fs w2 = w_fs w1 /\
    w_library_temp_dirs w2 = w_library_temp_dirs w1 /\
    w_temp_paths w2 = w_temp_paths w1 /\
    w_file_paths w2 = map (fun op => fst (fst op)) ops.
Proof.
  intros Hv Hm Hs Hr. unfold dance.
  rewrite (bind_ret _ _ _ _ _ Hs). cbn [fst snd].
  rewrite (bind_ret _ _ _ _ _ (run_modify _ _)).
  rewrite (some_success results Hr).
  set (w2 := with_file_paths w1 (map (fun op => fst (fst op)) ops)).
  assert (E3 : exists w3,
             (if 0 <? List.length (filter negb results)
              then print (MsgFailedMoves (List.length (filter negb results)))
              else ret tt) w2 = (Ret tt, w3) /\
             w_trace w3 = w_trace w1 /\ w_fs w3 = w_fs w1 /\
             w_library_temp_dirs w3 = w_library_temp_dirs w1 /\
             w_temp_paths w3 = w_temp_paths w1 /\
             w_file_paths w3 = map (fun op => fst (fst op)) ops).
  { destruct (0 <? List.length (filter negb results)); eexists;
      (split; [reflexivity|]); cbn; auto. }
  destruct E3 as (w3 & E3 & H3).
  rewrite (bind_ret _ _ _ _ _ E3).
  rewrite (bind_ret _ _ _ _ _ (run_print w3 _)).
  rewrite (bind_raise _ _ _ _ _ (wait_for_plex_unbound _ _ _ _ Hv Hm)).
  eexists. split; [reflexivity|]. exact H3.
Qed.

Lemma check_paths_count (srv : plex_server) (moved : list (str * list str)) :
  forall acc w l w',
    check_paths rt srv moved acc w = (Ret l, w') ->
    List.length l <= List.length acc + List.length moved.
Proof.
  induction moved as [|[plex_path album_ids] rest IH]; intros acc w l w' E;
    cbn [check_paths] in E.
  - injection E as <- _. cbn. lia.
  - cbn [List.length].
    destruct album_ids as [|i ids].
    + apply bind_inv in E. destruct E as (r0 & w0 & E0 & E).
      injection E0 as <- <-.
      destruct (search_albums srv) as [e|all]; [discriminate|].
      destruct (legacy_visible all plex_path) as [e|[|]]; [discriminate| |].
      * apply IH in E. rewrite length_app in E. cbn in E. lia.
      * apply IH in E. lia.
    + destruct (any_album_visible rt srv (i :: ids)).
      * apply IH in E. rewrite length_app in E. cbn in E. lia.
      * apply IH in E. lia.
Qed.

Lemma check_paths_agree {T : Type} (F : world -> T) (srv : plex_server)
    (moved : list (str * list str)) :
  (forall w o, F (with_out w o) = F w) ->
  forall acc, steps (agree F) (check_paths rt srv moved acc).
Proof.
  intros H. induction moved as [|[plex_path album_ids] rest IH]; intros acc;
    cbn [check_paths]; steps_split.
Qed.

Lemma connect_counts (w : world) (r : outcome plex_server) (w' : world) :
  connect w = (r, w') -> r <> Interrupt -> w_polls w' = S (w_polls w).
Proof.
  unfold connect, bind, tick, emit, get, modify.
  destruct (w_signal w) as [[|n]|]; cbn;
    try (intros [= <- <-] H; congruence);
    destruct (connect_error (w_plex w (w_polls w))); intros [= <- <-] _;
    reflexivity.
Qed.

(** X18.  When [check_albums_removed_from_plex] returns, it has made one
    connection and has touched neither the file system nor the clock; the
    count it reports is at most the number of paths it was given, and it
    reports "all removed" only together with a count of zero. *)
Theorem check_albums_result_bounds (moved : list (str * list str))
    (w w' : world) (all_removed : bool) (still_visible_count : nat) :
  check_albums_removed_from_plex rt moved w
  = (Ret (all_removed, still_visible_count), w') ->
  still_visible_count <= List.length moved /\
  (all_removed = true -> still_visible_count = 0) /\
  (still_visible_count = 0 -> moved <> [] -> all_removed = true) /\
  w_fs w' = w_fs w /\ w_clock w' = w_clock w /\
  w_polls w' = S (w_polls w).
Proof.
  intros E.
  assert (Hfs : steps (agree w_fs) (check_albums_removed_from_plex rt moved)).
  { unfold check_albums_removed_from_plex, connect.
    pose proof (fun srv moved =>
                  check_paths_agree w_fs srv moved (fun _ _ => eq_refl)).
    steps_split. }
  assert (Hck : steps (agree w_clock) (check_albums_removed_from_plex rt moved)).
  { unfold check_albums_removed_from_plex, connect.
    pose proof (fun srv moved =>
                  check_paths_agree w_clock srv moved (fun _ _ => eq_refl)).
    steps_split. }
  pose proof (Hfs _ _ _ E) as Afs. pose proof (Hck _ _ _ E) as Ack.
  unfold check_albums_removed_from_plex, try_except in E.
  match type of E with
  | (match ?body w with _ => _ end) = _ => destruct (body w) as [r1 w1] eqn:Eb
  end.
  rewrite (bind_ret _ _ _ _ _ (run_print w MsgConnecting)) in Eb.
  apply bind_inv in Eb. destruct Eb as (r2 & w2 & E2 & Eb).
  assert (P0 : w_polls (with_out w (w_out w ++ [MsgConnecting])) = w_polls w)
    by reflexivity.
  destruct r2 as [srv|e2|c2|].
  - pose proof (connect_counts _ _ _ E2 ltac:(discriminate)) as P2.
    rewrite P0 in P2.
    rewrite (bind_ret _ _ _ _ _ (run_print w2 _)) in Eb.
    apply bind_inv in Eb. destruct Eb as (r3 & w3 & E3 & Eb).
    pose proof (check_paths_agree w_polls srv moved (fun _ _ => eq_refl) []
                  _ _ _ E3) as P3.
    unfold agree in P3. cbn in P3.
    destruct r3 as [l|e3|c3|].
    + injection Eb as <- <-. injection E as <- <- <-.
      pose proof (check_paths_count _ _ _ _ _ _ E3) as L. cbn in L.
      repeat split; auto; try congruence.
      * intros H. apply Nat.eqb_eq in H. exact H.
      * intros H _. apply Nat.eqb_eq. exact H.
    + destruct Eb as [-> ->]. cbn in E. injection E as <- <- <-.
      cbn in Afs, Ack. unfold agree in Afs, Ack.
      repeat split; cbn; try lia; try congruence; try discriminate;
      try exact Afs; try exact Ack.
      intros H Hne. destruct moved; [contradiction|discriminate].
    + destruct Eb as [-> ->]. discriminate E.
    + destruct Eb as [-> ->]. discriminate E.
  - destruct Eb as [-> ->].
    pose proof (connect_counts _ _ _ E2 ltac:(discriminate)) as P2.
    rewrite P0 in P2. cbn in E. injection E as <- <- <-.
    cbn in Afs, Ack. unfold agree in Afs, Ack.
    repeat split; cbn; try lia; try congruence; try discriminate;
      try exact Afs; try exact Ack.
    intros H Hne. destruct moved; [contradiction|discriminate].
  - destruct Eb as [-> ->]. discriminate E.
  - destruct Eb as [-> ->]. discriminate E.
Qed.


Lemma connect_polls_once : steps polls_once connect.
Proof.
  intros w r w'. unfold connect, bind, tick, emit, get, modify, polls_once.
  destruct (w_signal w) as [[|n]|]; cbn;
    try (intros [= <- <-]; cbn; auto);
    destruct (connect_error (w_plex w (w_polls w))); intros [= <- <-]; cbn; auto.
Qed.

Lemma check_albums_polls_once (moved : list (str * list str)) :
  steps polls_once (check_albums_removed_from_plex rt moved).
Proof.
  assert (L : forall x y z, agree w_polls x y -> polls_once y z -> polls_once x z).
  { unfold agree, polls_once. intros x y z H [H'|H']; rewrite H', H; auto. }
  assert (Rr : forall x y z, polls_once x y -> agree w_polls y z -> polls_once x z).
  { unfold agree, polls_once. intros x y z [H|H] H'; rewrite H', H; auto. }
  unfold check_albums_removed_from_plex.
  apply (steps_try_seq polls_once (agree w_polls)); auto.
  - apply (steps_seq (agree w_polls) polls_once); auto.
    + intros x y H. left. exact H.
    + steps_split.
    + intros _. apply (steps_seq polls_once (agree w_polls)); auto.
      * apply connect_polls_once.
      * intros srv. cbv zeta.
        pose proof (fun moved =>
                      check_paths_agree w_polls srv moved (fun _ _ => eq_refl)).
        steps_split.
  - intros e. steps_split.
Qed.

Lemma check_albums_clock (moved : list (str * list str)) :
  steps (agree w_clock) (check_albums_removed_from_plex rt moved).
Proof.
  unfold check_albums_removed_from_plex, connect.
  pose proof (fun srv moved =>
                check_paths_agree w_clock srv moved (fun _ _ => eq_refl)).
  steps_split.
Qed.

Lemma time_sleep_run (seconds : Z) (w : world) (r : outcome unit) (w' : world) :
  time_sleep seconds w = (r, w') ->
  w_polls w' = w_polls w /\
  ((r = Ret tt /\ w_clock w' = (w_clock w + seconds)%Z) \/
   (r = Interrupt /\ w_clock w' = w_clock w)).
Proof.
  unfold time_sleep, bind, tick, emit, modify.
  destruct (w_signal w) as [[|n]|]; intros [= <- <-]; cbn; auto.
Qed.

Lemma poll_loop_bounded (max_wait_time : Z) (moved : list (str * list str))
    (total : nat) (fuel : nat) :
  forall elapsed all_removed w r w',
    poll_loop rt fuel max_wait_time moved total elapsed all_removed w = (r, w') ->
    w_polls w <= w_polls w' /\
    (0 <= w_clock w' - w_clock w)%Z /\
    ((max_wait_time <= elapsed)%Z ->
     w_clock w' = w_clock w /\ w_polls w' = w_polls w) /\
    ((elapsed < max_wait_time)%Z ->
     (w_clock w' - w_clock w < max_wait_time - elapsed + 5)%Z /\
     (5 * Z.of_nat (w_polls w' - w_polls w) <= w_clock w' - w_clock w + 5)%Z).
Proof.
  induction fuel as [|f IH]; intros elapsed all_removed w r w' E;
    cbn [poll_loop] in E.
  { injection E as _ <-. repeat split; try lia. }
  destruct (Z.ltb_spec elapsed max_wait_time) as [L|L];
    [|injection E as _ <-; repeat split; lia].
  rewrite (bind_ret _ _ _ _ _ (run_print w _)) in E.
  apply bind_inv in E. destruct E as (r1 & w1 & E1 & E).
  pose proof (check_albums_polls_once _ _ _ _ E1) as P1.
  pose proof (check_albums_clock _ _ _ _ E1) as C1.
  unfold polls_once, agree in P1, C1. cbn in P1, C1.
  assert (Done : w' = w1 ->
                 w_polls w <= w_polls w' /\
                 (0 <= w_clock w' - w_clock w)%Z /\
                 ((max_wait_time <= elapsed)%Z ->
                  w_clock w' = w_clock w /\ w_polls w' = w_polls w) /\
                 ((elapsed < max_wait_time)%Z ->
                  (w_clock w' - w_clock w < max_wait_time - elapsed + 5)%Z /\
                  (5 * Z.of_nat (w_polls w' - w_polls w)
                   <= w_clock w' - w_clock w + 5)%Z)).
  { intros ->. rewrite C1. repeat split; try lia. }
  destruct r1 as [[b n]|e|c|].
  2,3,4: destruct E as [_ E]; exact (Done E).
  cbn [fst snd] in E. destruct b.
  { rewrite (bind_ret _ _ _ _ _ (run_print w1 _)) in E. injection E as _ <-.
    cbn [w_polls w_clock with_out]. rewrite C1. repeat split; try lia. }
  rewrite (bind_ret _ _ _ _ _ (run_print w1 _)) in E.
  apply bind_inv in E. destruct E as (r2 & w2 & E2 & E).
  apply time_sleep_run in E2. cbn in E2.
  destruct E2 as [P2 [[-> C2]|[-> C2]]].
  - destruct (IH _ _ _ _ _ E) as (Q1 & Q2 & Q3 & Q4).
    rewrite C2, C1 in *. rewrite P2 in *.
    split; [lia|]. split; [lia|]. split; [lia|]. intros _.
    destruct (Z.lt_ge_cases (elapsed + 5) max_wait_time) as [L'|L'].
    + destruct (Q4 L') as [Q5 Q6]. lia.
    + destruct (Q3 L') as [Q5 Q6]. lia.
  - destruct E as [_ ->]. rewrite C2, C1, P2. repeat split; try lia.
Qed.

(** X19.  Polling is bounded whatever the service answers and whenever
    a signal arrives: the waits of phase 2 add up to less than
    [max_wait] plus one interval of five seconds (to nothing when
    [max_wait] is not positive), and there is at most one connection for
    each interval slept, plus one.  With [max_wait] not positive, or with
    validation off, the phase neither sleeps nor connects. *)
Theorem polling_is_bounded (album_ids_map : list (str * list str))
    (ops : list (str * str * str)) (results : list bool)
    (w : world) (r : outcome unit) (w' : world) :
  wait_for_plex rt a album_ids_map ops results w = (r, w') ->
  w_polls w <= w_polls w' /\
  (0 <= w_clock w' - w_clock w)%Z /\
  (w_clock w' - w_clock w < Z.max (max_wait a) 0 + 5)%Z /\
  (5 * Z.of_nat (w_polls w' - w_polls w) <= w_clock w' - w_clock w + 5)%Z /\
  ((max_wait a <= 0)%Z \/ skip_validation a = true ->
   w_clock w' = w_clock w /\ w_polls w' = w_polls w).
Proof.
  unfold wait_for_plex. destruct (skip_validation a) eqn:Hskip; cbn [negb].
  { intros [= _ <-]. cbn [w_polls w_clock with_out]. repeat split; lia. }
  intros E. rewrite (bind_ret _ _ _ _ _ (run_print w _)) in E.
  apply bind_inv in E. destruct E as (r1 & w1 & E1 & E).
  apply poll_loop_bounded in E1. cbn [w_polls w_clock with_out] in E1.
  destruct E1 as (Q1 & Q2 & Q3 & Q4).
  assert (W : w_polls w' = w_polls w1 /\ w_clock w' = w_clock w1).
  { destruct r1 as [[el ar]|e|c|].
    2,3,4: destruct E as [_ ->]; split; reflexivity.
    cbn [fst snd] in E.
    destruct (max_wait a <=? el)%Z; [|injection E as _ <-; split; reflexivity].
    destruct ar as [[|]|]; cbn in E; injection E as _ <-; split; reflexivity. }
  destruct W as [-> ->].
  destruct (Z.lt_ge_cases 0 (max_wait a)) as [L|L].
  - destruct (Q4 L) as [Q5 Q6]. repeat split; try lia.
    all: intros [H|H]; [lia|discriminate H].
  - destruct (Q3 L) as [Q5 Q6]. rewrite Q5, Q6. repeat split; lia.
Qed.

End Waiting.

(** *** At work *)

Lemma dry_run_is_read_only_witness :
  let w := start music_fs server_gone None in
  let r := run rt0 dry_args w in
  w_fs (snd r) = w_fs w /\
  exists c rs,
    new_events w (snd r) = c ++ rs /\
    at_most_one_connection c = true /\
    forallb is_read rs = true.
Proof.
  cbv zeta.
  destruct (dry_run_is_read_only rt0 dry_args eq_refl
              (start music_fs server_gone None) eq_refl) as (H1 & H2 & _).
  split; assumption.
Defined.

Lemma skip_validation_never_connects_witness :
  let w := start nested_fs server_gone None in
  existsb is_service (new_events w (snd (run rt0 nested_args w))) = false.
Proof.
  exact (skip_validation_never_connects rt0 nested_args eq_refl
           (start nested_fs server_gone None)).
Defined.

Lemma max_wait_zero_raises_name_error_witness :
  let w := start music_fs server_gone None in
  exists w2,
    dance rt0 impatient_args [] [lit "/media/Music"] [x1_catalog] w
    = (Raise NameError, w2) /\
    w_file_paths w2 = [x1_local].
Proof.
  cbv zeta.
  destruct (max_wait_zero_raises_name_error rt0 impatient_args []
              [lit "/media/Music"] [x1_catalog]
              (start music_fs server_gone None)
              (snd (staging_phase rt0 impatient_args [lit "/media/Music"]
                      [x1_catalog] (start music_fs server_gone None)))
              [(x1_local, x1_staged, x1_catalog)] [true]
              eq_refl ltac:(vm_compute; discriminate))
    as (w2 & H1 & _ & _ & _ & _ & H6);
    [vm_compute; reflexivity|reflexivity|].
  exists w2. split; assumption.
Defined.

Lemma check_albums_result_bounds_witness :
  let w := start music_fs server_gone None in
  w_polls (snd (check_albums_removed_from_plex rt0 [(x1_catalog, [lit "101"])] w))
  = 1.
Proof.
  cbv zeta.
  destruct (check_albums_result_bounds rt0 [(x1_catalog, [lit "101"])]
              (start music_fs server_gone None)
              (snd (check_albums_removed_from_plex rt0
                      [(x1_catalog, [lit "101"])]
                      (start music_fs server_gone None)))
              true 0)
    as (_ & _ & _ & _ & _ & H); [vm_compute; reflexivity|exact H].
Defined.

Lemma polling_is_bounded_witness :
  let w := start music_fs server_busy None in
  let w' := snd (wait_for_plex rt0 music_args [(x1_catalog, [lit "101"])]
                   [(x1_local, x1_staged, x1_catalog)] [true] w) in
  (w_clock w' - w_clock w < 15)%Z.
Proof.
  cbv zeta.
  destruct (polling_is_bounded rt0 music_args [(x1_catalog, [lit "101"])]
              [(x1_local, x1_staged, x1_catalog)] [true]
              (start music_fs server_busy None)
              (fst (wait_for_plex rt0 music_args [(x1_catalog, [lit "101"])]
                      [(x1_local, x1_staged, x1_catalog)] [true]
                      (start music_fs server_busy None)))
              (snd (wait_for_plex rt0 music_args [(x1_catalog, [lit "101"])]
                      [(x1_local, x1_staged, x1_catalog)] [true]
                      (start music_fs server_busy None))))
    as (_ & _ & H & _); [apply surjective_pairing|exact H].
Defined.

(** ** The lists the recovery relies on *)

Lemma find_tracked_at (temp_paths : list str) :
  forall (file_paths : list str) (i j : nat) (t : str),
    NoDup temp_paths -> nth_error temp_paths j = Some t ->
    i + j < List.length file_paths ->
    find_tracked i temp_paths file_paths t = nth_error file_paths (i + j).
Proof.
  induction temp_paths as [|t0 rest IH]; intros fps i j t Hnd Hj Hl.
  - destruct j; discriminate.
  - cbn [find_tracked]. inversion Hnd as [|? ? Hnot Hnd']; subst.
    destruct j as [|j]; cbn [nth_error] in Hj.
    + injection Hj as ->. rewrite eqb_refl, Nat.add_0_r.
      destruct (Nat.ltb_spec i (List.length fps)); [reflexivity|lia].
    + destruct (PyStr.eqb t0 t) eqn:E.
      * apply eqb_eq in E. subst t0. exfalso. apply Hnot.
        eapply nth_error_In. exact Hj.
      * cbn [andb]. rewrite (IH fps (S i) j t Hnd' Hj); [|lia].
        f_equal. lia.
Qed.

Lemma find_tracked_unknown (temp_paths : list str) :
  forall (file_paths : list str) (i : nat) (t : str),
    ~ In t temp_paths -> find_tracked i temp_paths file_paths t = None.
Proof.
  induction temp_paths as [|t0 rest IH]; intros fps i t Hn; [reflexivity|].
  cbn [find_tracked]. destruct (PyStr.eqb t0 t) eqn:E.
  - apply eqb_eq in E. subst t0. exfalso. apply Hn. left. reflexivity.
  - cbn [andb]. apply IH. intros H. apply Hn. right. exact H.
Qed.

(** X20.  The search of [cleanup_and_restore] for the origin of a staged
    entry (lines 287-298) is a lookup in two parallel lists: when the
    tracked staging paths are pairwise different, the entry at position
    [j] of [temp_paths] is given the path at position [j] of [file_paths];
    a staging path that is not tracked has no origin (and is only warned
    about). *)
Theorem find_tracked_lookup (temp_paths file_paths : list str) (t : str) :
  (forall j, NoDup temp_paths -> nth_error temp_paths j = Some t ->
             j < List.length file_paths ->
             find_tracked 0 temp_paths file_paths t = nth_error file_paths j) /\
  (existsb (PyStr.eqb t) temp_paths = false ->
   find_tracked 0 temp_paths file_paths t = None).
Proof.
  split.
  - intros j Hnd Hj Hl. exact (find_tracked_at temp_paths file_paths 0 j t Hnd Hj Hl).
  - intros H. apply find_tracked_unknown. intros Hin.
    assert (E : existsb (PyStr.eqb t) temp_paths = true).
    { apply existsb_exists. exists t. split; [exact Hin|apply eqb_refl]. }
    congruence.
Qed.

Section Aligned.

Variable rt : runtime.
Variable a : args.
Variable library_locations : list str.

Lemma acquire_or_not_agree {T : Type} (F : world -> T)
    (local_path parent : str) (known : option str) :
  (forall w s, F (with_signal w s) = F w) ->
  (forall w t, F (with_trace w t) = F w) ->
  (forall w o, F (with_out w o) = F w) ->
  (forall w fs, F (with_fs w fs) = F w) ->
  (forall w d, F (with_library_temp_dirs w d) = F w) ->
  steps (agree F)
    (match known with
     | None => acquire_temp_dir rt local_path parent
     | Some _ => ret tt
     end).
Proof.
  intros F1 F2 F3 F4 F5. destruct known; [steps_split|].
  unfold acquire_temp_dir, reclaim_leftover, os_path_exists, os_listdir,
    os_rmdir, os_makedirs, write_file.
  pose proof (are_on_same_filesystem_agree F F1 F2).
  steps_split; apply agree_fs_read || apply agree_fs_query
               || apply agree_fs_update; auto with steps.
Qed.

Lemma plan_entry_run (i : nat) (plex_path : str) (w w' : world)
    (op : str * str * str) :
  plan_entry rt a library_locations i plex_path w = (Ret op, w') ->
  fst (fst op) = to_local a plex_path /\ snd op = plex_path /\
  w_temp_paths w' = w_temp_paths w ++ [snd (fst op)] /\
  w_file_paths w' = w_file_paths w.
Proof.
  intros E. unfold plan_entry in E. cbv zeta in E.
  apply bind_inv in E. destruct E as (r1 & w1 & E1 & E).
  injection E1 as <- <-.
  apply bind_inv in E. destruct E as (r2 & w2 & E2 & E).
  pose proof (acquire_or_not_agree w_temp_paths _ _ _
                (fun _ _ => eq_refl) (fun _ _ => eq_refl) (fun _ _ => eq_refl)
                (fun _ _ => eq_refl) (fun _ _ => eq_refl) _ _ _ E2) as T2.
  pose proof (acquire_or_not_agree w_file_paths _ _ _
                (fun _ _ => eq_refl) (fun _ _ => eq_refl) (fun _ _ => eq_refl)
                (fun _ _ => eq_refl) (fun _ _ => eq_refl) _ _ _ E2) as P2.
  unfold agree in T2, P2.
  destruct r2 as [x|e|c|].
  2,3,4: destruct E; discriminate.
  apply bind_inv in E. destruct E as (r3 & w3 & E3 & E).
  injection E3 as <- <-.
  destruct (dict_get (w_library_temp_dirs w2) _) as [temp_dir|]; [|discriminate E].
  destruct (safe_temp_name _ _ _ _ _) as [safe_name|]; [|discriminate E].
  injection E as <- <-. cbn. rewrite T2, P2. auto.
Qed.

Lemma plan_loop_run (plex_paths : list str) :
  forall i w w' ops,
    plan_loop rt a library_locations i plex_paths w = (Ret ops, w') ->
    map (fun op => fst (fst op)) ops = map (to_local a) plex_paths /\
    map snd ops = plex_paths /\
    w_temp_paths w' = w_temp_paths w ++ map (fun op => snd (fst op)) ops /\
    w_file_paths w' = w_file_paths w.
Proof.
  induction plex_paths as [|p rest IH]; intros i w w' ops E;
    cbn [plan_loop] in E.
  - injection E as <- <-. cbn. rewrite app_nil_r. auto.
  - apply bind_inv in E. destruct E as (r1 & w1 & E1 & E).
    destruct r1 as [op|e|c|].
    2,3,4: destruct E; discriminate.
    apply bind_inv in E. destruct E as (r2 & w2 & E2 & E).
    destruct r2 as [ops2|e|c|].
    2,3,4: destruct E; discriminate.
    injection E as <- <-.
    destruct (plan_entry_run _ _ _ _ _ E1) as (H1 & H2 & H3 & H4).
    destruct (IH _ _ _ _ E2) as (G1 & G2 & G3 & G4).
    cbn [map]. rewrite H1, H2, G1, G2, G3, G4, H3, H4, <- app_assoc.
    repeat split; reflexivity.
Qed.

Lemma move_all_agree {T : Type} (F : world -> T) (ops : list (str * str * str)) :
  (forall w s, F (with_signal w s) = F w) ->
  (forall w t, F (with_trace w t) = F w) ->
  (forall w o, F (with_out w o) = F w) ->
  (forall w fs, F (with_fs w fs) = F w) ->
  forall i total, steps (agree F) (move_all i total ops).
Proof.
  intros F1 F2 F3 F4.
  induction ops as [|[[l t] p] rest IH]; intros i total; cbn [move_all];
    [steps_split|].
  unfold move_file, os_path_exists, os_makedirs, os_rename.
  pose proof (are_on_same_filesystem_agree F F1 F2).
  steps_split; apply agree_fs_read || apply agree_fs_update; auto with steps.
Qed.

Lemma move_all_results (ops : list (str * str * str)) :
  forall i total w results w',
    move_all i total ops w = (Ret results, w') ->
    List.length results = List.length ops.
Proof.
  induction ops as [|[[l t] p] rest IH]; intros i total w results w' E;
    cbn [move_all] in E.
  - injection E as <- _. reflexivity.
  - rewrite (bind_ret _ _ _ _ _ (run_print w _)) in E.
    apply bind_inv in E. destruct E as (r1 & w1 & E1 & E).
    destruct r1 as [b|e|c|].
    2,3,4: destruct E; discriminate.
    rewrite (bind_ret _ _ _ _ _ (run_print w1 _)) in E.
    apply bind_inv in E. destruct E as (r2 & w2 & E2 & E).
    destruct r2 as [rs|e|c|].
    2,3,4: destruct E; discriminate.
    injection E as <- _. cbn [List.length]. f_equal. eapply IH. exact E2.
Qed.

Lemma write_restore_logs_agree {T : Type} (F : world -> T)
    (ops : list (str * str * str)) :
  (forall w s, F (with_signal w s) = F w) ->
  (forall w t, F (with_trace w t) = F w) ->
  (forall w fs, F (with_fs w fs) = F w) ->
  steps (agree F) (write_restore_logs rt ops).
Proof.
  intros F1 F2 F3. unfold write_restore_logs, write_file.
  steps_split; apply agree_fs_update; auto with steps.
Qed.

(** X21.  When the staging phase returns, the parallel lists are in
    step: there is one planned operation per input path, in input order,
    with the mapped local path as its source; [temp_paths] has grown by
    exactly the staging paths of these operations, in the same order;
    there is one result per operation; and [file_paths] is still what it
    was. *)
Theorem staging_keeps_lists_aligned (plex_paths : list str) (w w' : world)
    (ops : list (str * str * str)) (results : list bool) :
  staging_phase rt a library_locations plex_paths w = (Ret (ops, results), w') ->
  map (fun op => fst (fst op)) ops = map (to_local a) plex_paths /\
  map snd ops = plex_paths /\
  w_temp_paths w' = w_temp_paths w ++ map (fun op => snd (fst op)) ops /\
  List.length results = List.length ops /\
  w_file_paths w' = w_file_paths w.
Proof.
  intros E. unfold staging_phase in E.
  rewrite (bind_ret _ _ _ _ _ (run_print w _)) in E.
  apply bind_inv in E. destruct E as (r1 & w1 & E1 & E).
  destruct r1 as [ops1|e|c|].
  2,3,4: destruct E; discriminate.
  apply bind_inv in E. destruct E as (r2 & w2 & E2 & E).
  destruct r2 as [[]|e|c|].
  2,3,4: destruct E; discriminate.
  rewrite (bind_ret _ _ _ _ _ (run_print w2 _)) in E.
  apply bind_inv in E. destruct E as (r3 & w3 & E3 & E).
  destruct r3 as [rs|e|c|].
  2,3,4: destruct E; discriminate.
  injection E as <- <- <-.
  destruct (plan_loop_run _ _ _ _ _ E1) as (G1 & G2 & G3 & G4).
  cbn [w_temp_paths w_file_paths with_out] in G3, G4.
  pose proof (write_restore_logs_agree w_temp_paths ops1 (fun _ _ => eq_refl)
                (fun _ _ => eq_refl) (fun _ _ => eq_refl) _ _ _ E2) as T2.
  pose proof (write_restore_logs_agree w_file_paths ops1 (fun _ _ => eq_refl)
                (fun _ _ => eq_refl) (fun _ _ => eq_refl) _ _ _ E2) as P2.
  pose proof (move_all_agree w_temp_paths ops1 (fun _ _ => eq_refl)
                (fun _ _ => eq_refl) (fun _ _ => eq_refl) (fun _ _ => eq_refl)
                _ _ _ _ _ E3) as T3.
  pose proof (move_all_agree w_file_paths ops1 (fun _ _ => eq_refl)
                (fun _ _ => eq_refl) (fun _ _ => eq_refl) (fun _ _ => eq_refl)
                _ _ _ _ _ E3) as P3.
  unfold agree in *. cbn [w_temp_paths w_file_paths with_out] in T3, P3.
  split; [exact G1|]. split; [exact G2|].
  split; [congruence|]. split; [exact (move_all_results _ _ _ _ _ _ E3)|].
  congruence.
Qed.

End Aligned.

(** ** The restore phase *)

#[local] Hint Extern 1 (keeps _) => exact eq_refl : steps.

Lemma collect_restores_escapes (file_paths : list str) :
  forall i temp_paths,
    i + List.length file_paths <= List.length temp_paths ->
    escapes no_exception (collect_restores i file_paths temp_paths).
Proof.
  induction file_paths as [|o rest IH]; intros i temp_paths Hl;
    cbn [collect_restores]; [apply escapes_ret|].
  cbn [List.length] in Hl.
  destruct (nth_error temp_paths i) as [t|] eqn:E.
  - apply escapes_bind; [apply escapes_fs_read|intros present].
    apply escapes_bind; [apply IH; lia|intros ops]. apply escapes_ret.
  - apply nth_error_None in E. lia.
Qed.

Lemma restore_all_escapes (ops : list (str * str)) :
  forall i total, escapes no_exception (restore_all i total ops).
Proof.
  induction ops as [|[t o] rest IH]; intros i total; cbn [restore_all];
    [apply escapes_ret|].
  apply escapes_bind; [apply escapes_print|intros _].
  apply escapes_bind; [apply escapes_restore_file|intros result].
  apply escapes_bind; [apply escapes_print|intros _].
  apply escapes_bind; [apply IH|intros results]. apply escapes_ret.
Qed.

Lemma collect_restores_keeps (file_paths : list str) :
  forall i temp_paths,
    steps (emits keeps) (collect_restores i file_paths temp_paths).
Proof.
  induction file_paths as [|o rest IH]; intros i temp_paths;
    cbn [collect_restores]; steps_split.
Qed.

Lemma restore_all_keeps (ops : list (str * str)) :
  forall i total, steps (emits keeps) (restore_all i total ops).
Proof.
  induction ops as [|[t o] rest IH]; intros i total; cbn [restore_all];
    [steps_split|].
  unfold restore_file. steps_split.
Qed.

Lemma restore_phase_keeps : steps (emits keeps) restore_phase.
Proof.
  unfold restore_phase.
  pose proof collect_restores_keeps. pose proof restore_all_keeps.
  steps_split.
Qed.

Ltac next_step E :=
  apply bind_inv in E;
  let r0 := fresh "r" in
  let w0 := fresh "w" in
  let E0 := fresh "E" in
  destruct E as (r0 & w0 & E0 & E).

(** X22.  Given at least as many tracked staging paths as original
    paths, the restore phase neither raises nor exits, and it deletes
    nothing: it calls neither [rmdir] nor [rmtree] nor [remove].  When it
    returns, the three global lists are empty, so that the exit hook
    finds nothing to do: the staging directories, with their lock and
    recovery log, stay on disk. *)
Theorem restore_phase_leaves_staging_dirs (w : world) (r : outcome unit)
    (w' : world) :
  List.length (w_file_paths w) <= List.length (w_temp_paths w) ->
  restore_phase w = (r, w') ->
  settled r = true /\
  existsb is_delete (new_events w w') = false /\
  (r = Ret tt ->
   w_library_temp_dirs w' = [] /\ w_temp_paths w' = [] /\ w_file_paths w' = [] /\
   cleanup_and_restore w' = (Ret tt, w')).
Proof.
  intros Hl E.
  assert (Hk : existsb is_delete (new_events w w') = false).
  { destruct (restore_phase_keeps _ _ _ E) as (evs & T & F).
    rewrite (new_events_app _ _ _ T).
    apply not_true_is_false. intros H. apply existsb_exists in H.
    destruct H as (e & He & Hd). rewrite Forall_forall in F.
    pose proof (F e He) as K. unfold keeps in K. congruence. }
  assert (Hs : settled r = true).
  { assert (S : escapes no_exception
                  (restore_operations <-
                     collect_restores 0 (w_file_paths w) (w_temp_paths w) ;;
                   print MsgRestoringAlbums ;;
                   results <-
                     restore_all 0 (List.length restore_operations)
                       restore_operations ;;
                   (if 0 <? List.length (filter negb results)
                    then print (MsgFailedRestores (List.length (filter negb results)))
                    else ret tt) ;;
                   print MsgCompleted ;;
                   modify (fun w => with_library_temp_dirs w []) ;;
                   modify (fun w => with_temp_paths w []) ;;
                   modify (fun w => with_file_paths w []))).
    { apply escapes_bind; [apply collect_restores_escapes; cbn; lia|intros ops].
      apply escapes_bind; [apply escapes_print|intros _].
      apply escapes_bind; [apply restore_all_escapes|intros results].
      apply escapes_bind;
        [destruct (0 <? _); [apply escapes_print|apply escapes_ret]|intros _].
      apply escapes_bind; [apply escapes_print|intros _].
      apply escapes_bind; [apply escapes_modify|intros _].
      apply escapes_bind; [apply escapes_modify|intros _].
      apply escapes_modify. }
    unfold restore_phase in E.
    rewrite (bind_ret _ _ _ _ _ (run_print w _)) in E.
    unfold bind at 1 in E. unfold get at 1 in E.
    unfold bind at 1 in E. unfold get at 1 in E.
    pose proof (S _ _ _ E) as Hr. destruct r; cbn in *; auto; contradiction. }
  split; [exact Hs|]. split; [exact Hk|].
  intros ->. unfold restore_phase in E.
  rewrite (bind_ret _ _ _ _ _ (run_print w _)) in E.
  next_step E. injection E0 as <- <-.
  next_step E. injection E0 as <- <-.
  next_step E. destruct r as [ops|e|c|].
  2,3,4: destruct E; discriminate.
  rewrite (bind_ret _ _ _ _ _ (run_print w0 _)) in E.
  next_step E. destruct r as [results|e|c|].
  2,3,4: destruct E; discriminate.
  next_step E. destruct r as [[]|e|c|].
  2,3,4: destruct E; discriminate.
  rewrite (bind_ret _ _ _ _ _ (run_print w2 _)) in E.
  cbn in E. injection E as <-. cbn.
  repeat split; reflexivity.
Qed.

(** *** At work *)

Lemma find_tracked_lookup_witness :
  find_tracked 0 [x1_staged; lit "/Users/u/tmp.plexdance/1_A_x2"]
    [x1_local; lit "/Users/u/Music/A/x2"] (lit "/Users/u/tmp.plexdance/1_A_x2")
  = Some (lit "/Users/u/Music/A/x2").
Proof.
  apply (proj1 (find_tracked_lookup
                  [x1_staged; lit "/Users/u/tmp.plexdance/1_A_x2"]
                  [x1_local; lit "/Users/u/Music/A/x2"]
                  (lit "/Users/u/tmp.plexdance/1_A_x2")) 1).
  - repeat constructor; cbn; intuition discriminate.
  - reflexivity.
  - cbn. lia.
Defined.

Lemma staging_keeps_lists_aligned_witness :
  let w := start music_fs server_gone None in
  w_temp_paths
    (snd (staging_phase rt0 music_args [lit "/media/Music"] [x1_catalog] w))
  = [x1_staged].
Proof.
  cbv zeta.
  destruct (staging_keeps_lists_aligned rt0 music_args [lit "/media/Music"]
              [x1_catalog] (start music_fs server_gone None)
              (snd (staging_phase rt0 music_args [lit "/media/Music"]
                      [x1_catalog] (start music_fs server_gone None)))
              [(x1_local, x1_staged, x1_catalog)] [true])
    as (_ & _ & H & _); [vm_compute; reflexivity|exact H].
Defined.

Lemma restore_phase_leaves_staging_dirs_witness :
  let w := staged_world in
  let w' := snd (restore_phase w) in
  List.length (w_file_paths w) = 2 /\ List.length (w_temp_paths w) = 2 /\
  fst (restore_phase w) = Ret tt /\
  existsb is_delete (new_events w w') = false /\
  In (EvRename (lit "/m/tmp.plexdance/0_A_x") (lit "/m/A/x") true)
     (new_events w w') /\
  In (EvRename (lit "/m/tmp.plexdance/1_B_y") (lit "/m/B/y") true)
     (new_events w w') /\
  w_library_temp_dirs w' = [] /\ w_temp_paths w' = [] /\ w_file_paths w' = [] /\
  FS.exists_ (w_fs w') (lit "/m/tmp.plexdance/restore.log") = true /\
  FS.exists_ (w_fs w') (lit "/m/tmp.plexdance/lock") = true.
Proof.
  cbv zeta.
  destruct (restore_phase_leaves_staging_dirs staged_world
              (fst (restore_phase staged_world))
              (snd (restore_phase staged_world)))
    as (_ & H & L); [vm_compute; lia|apply surjective_pairing|].
  assert (R : fst (restore_phase staged_world) = Ret tt)
    by (vm_compute; reflexivity).
  destruct (L R) as (L1 & L2 & L3 & _).
  split; [vm_compute; reflexivity|]. split; [vm_compute; reflexivity|].
  split; [exact R|]. split; [exact H|].
  split; [vm_compute; auto 20|]. split; [vm_compute; auto 20|].
  split; [exact L1|]. split; [exact L2|]. split; [exact L3|].
  split; vm_compute; reflexivity.
Defined.

(** ** Moving an album away and back *)

Lemma is_prefix_app (p r : FS.path) : FS.is_prefix p (p ++ r) = true.
Proof.
  induction p as [|x p IH]; [reflexivity|]. cbn. rewrite eqb_refl. exact IH.
Qed.

Lemma is_prefix_split (p q : FS.path) :
  FS.is_prefix p q = true -> q = p ++ skipn (List.length p) q.
Proof.
  revert q. induction p as [|x p IH]; intros q H; [reflexivity|].
  destruct q as [|y q]; [discriminate|]. cbn in H.
  apply andb_true_iff in H. destruct H as [H1 H2]. apply eqb_eq in H1. subst y.
  cbn [List.length skipn app]. f_equal. apply IH, H2.
Qed.

Lemma is_prefix_removelast (p q : FS.path) :
  FS.is_prefix p (removelast q) = true -> FS.is_prefix p q = true.
Proof.
  revert q. induction p as [|x p IH]; intros q H; [reflexivity|].
  destruct q as [|y q]; [discriminate|].
  destruct q as [|z q]; [discriminate|].
  change (removelast (y :: z :: q)) with (y :: removelast (z :: q)) in H.
  cbn [FS.is_prefix] in *. apply andb_true_iff in H. destruct H as [H1 H2].
  rewrite H1. cbn [andb]. apply IH, H2.
Qed.

Lemma is_prefix_removelast_self (p : FS.path) :
  p <> [] -> FS.is_prefix p (removelast p) = false.
Proof.
  intros Hne. destruct (FS.is_prefix p (removelast p)) eqn:E; [|reflexivity].
  exfalso. apply is_prefix_split in E.
  apply (f_equal (@List.length str)) in E. rewrite length_app in E.
  destruct (exists_last Hne) as (r & z & ->).
  rewrite removelast_last in E. rewrite length_app in E. cbn in E. lia.
Qed.

Lemma lookup_In (fs : FS.t) (p : FS.path) (n : FS.node) :
  FS.lookup fs p = Some n -> In (p, n) fs.
Proof.
  induction fs as [|[q m] fs IH]; cbn; [discriminate|].
  destruct (FS.path_eqb q p) eqn:E.
  - intros [= ->]. apply path_eqb_eq in E. subst q. left. reflexivity.
  - intros H. right. exact (IH H).
Qed.

Section RoundTrip.

Variables (fs : FS.t) (ps pd : FS.path).
Hypothesis free : existsb (fun e => FS.is_prefix pd (fst e)) fs = false.

Lemma free_entry (q : FS.path) (n : FS.node) :
  In (q, n) fs -> FS.is_prefix pd q = false.
Proof.
  intros H. destruct (FS.is_prefix pd q) eqn:E; [|reflexivity].
  assert (X : existsb (fun e => FS.is_prefix pd (fst e)) fs = true).
  { apply existsb_exists. exists (q, n). auto. }
  congruence.
Qed.

Lemma free_lookup : FS.lookup fs pd = None.
Proof.
  destruct (FS.lookup fs pd) as [n|] eqn:E; [|reflexivity].
  apply lookup_In, free_entry in E. rewrite is_prefix_refl in E. discriminate.
Qed.

Lemma move_subtree_back :
  FS.move_subtree (FS.move_subtree fs ps pd) pd ps = fs.
Proof.
  unfold FS.move_subtree. rewrite map_map.
  rewrite <- (map_id fs) at 2. apply map_ext_in. intros [q n] Hin.
  cbn [fst snd]. destruct (FS.is_prefix ps q) eqn:E; cbn [fst snd].
  - rewrite is_prefix_app, skipn_app, skipn_all, Nat.sub_diag. cbn [skipn app].
    rewrite <- (is_prefix_split _ _ E). reflexivity.
  - rewrite (free_entry q n Hin). reflexivity.
Qed.

Lemma path_eqb_app_nil (p s : FS.path) :
  FS.path_eqb (p ++ s) p = match s with [] => true | _ => false end.
Proof.
  destruct s as [|x s].
  - rewrite app_nil_r. apply path_eqb_eq. reflexivity.
  - destruct (FS.path_eqb (p ++ x :: s) p) eqn:E; [|reflexivity].
    apply path_eqb_eq in E. apply (f_equal (@List.length str)) in E.
    rewrite length_app in E. cbn in E. lia.
Qed.

Lemma lookup_moved_target :
  FS.lookup (FS.move_subtree fs ps pd) pd = FS.lookup fs ps.
Proof.
  unfold FS.move_subtree.
  assert (G : forall l, (forall q n, In (q, n) l -> FS.is_prefix pd q = false) ->
              FS.lookup
                (map (fun e => if FS.is_prefix ps (fst e)
                               then (pd ++ skipn (List.length ps) (fst e), snd e)
                               else e) l) pd = FS.lookup l ps).
  { induction l as [|[q n] l IH]; intros Hf; [reflexivity|].
    cbn [map fst snd FS.lookup].
    assert (IH' := IH (fun q n H => Hf q n (or_intror H))).
    destruct (FS.is_prefix ps q) eqn:E; cbn [FS.lookup].
    - rewrite path_eqb_app_nil.
      pose proof (is_prefix_split _ _ E) as Sq.
      destruct (skipn (List.length ps) q) as [|x s] eqn:Es.
      + rewrite app_nil_r in Sq. subst q.
        rewrite (proj2 (path_eqb_eq ps ps) eq_refl). reflexivity.
      + destruct (FS.path_eqb q ps) eqn:Q; [|exact IH'].
        apply path_eqb_eq in Q. rewrite Q in Sq.
        apply (f_equal (@List.length str)) in Sq. rewrite length_app in Sq.
        cbn in Sq. lia.
    - destruct (FS.path_eqb q pd) eqn:Q.
      + apply path_eqb_eq in Q. subst q.
        pose proof (Hf pd n (or_introl eq_refl)) as X.
        rewrite is_prefix_refl in X. discriminate.
      + destruct (FS.path_eqb q ps) eqn:Q'; [|exact IH'].
        apply path_eqb_eq in Q'. subst q. rewrite is_prefix_refl in E.
        discriminate. }
  apply G. intros q n. apply free_entry.
Qed.

Lemma lookup_moved_other (x : FS.path) :
  FS.is_prefix ps x = false -> FS.is_prefix pd x = false ->
  FS.lookup (FS.move_subtree fs ps pd) x = FS.lookup fs x.
Proof.
  intros Hs Hd. unfold FS.move_subtree. clear free.
  induction fs as [|[q n] l IH]; [reflexivity|].
  cbn [map fst snd FS.lookup].
  destruct (FS.is_prefix ps q) eqn:E; cbn [FS.lookup].
  - destruct (FS.path_eqb (pd ++ skipn (List.length ps) q) x) eqn:Q.
    + apply path_eqb_eq in Q. subst x. rewrite is_prefix_app in Hd. discriminate.
    + destruct (FS.path_eqb q x) eqn:Q'; [|exact IH].
      apply path_eqb_eq in Q'. subst x. congruence.
  - destruct (FS.path_eqb q x); [reflexivity|exact IH].
Qed.

Lemma lookup_moved_source :
  FS.is_prefix pd ps = false ->
  FS.lookup (FS.move_subtree fs ps pd) ps = None.
Proof.
  intros Hd. unfold FS.move_subtree. clear free.
  induction fs as [|[q n] l IH]; [reflexivity|].
  cbn [map fst snd FS.lookup].
  destruct (FS.is_prefix ps q) eqn:E; cbn [FS.lookup].
  - destruct (FS.path_eqb (pd ++ skipn (List.length ps) q) ps) eqn:Q; [|exact IH].
    apply path_eqb_eq in Q. rewrite <- Q, is_prefix_app in Hd. discriminate.
  - destruct (FS.path_eqb q ps) eqn:Q; [|exact IH].
    apply path_eqb_eq in Q. subst q. rewrite is_prefix_refl in E. discriminate.
Qed.

End RoundTrip.

Lemma rename_into_free (fs fs1 : FS.t) (orig temp : str) (ps pd : FS.path) :
  FS.resolve orig = Some ps -> FS.resolve temp = Some pd ->
  existsb (fun e => FS.is_prefix pd (fst e)) fs = false ->
  FS.rename fs orig temp = inr fs1 ->
  fs1 = FS.move_subtree fs ps pd /\
  ps <> [] /\ pd <> [] /\ FS.is_prefix pd ps = false /\
  exists ns, FS.lookup fs ps = Some ns.
Proof.
  intros Rs Rd Hfree. unfold FS.rename. rewrite Rs, Rd.
  destruct (FS.lookup fs ps) as [ns|] eqn:Ls; [|discriminate].
  pose proof (free_entry fs pd Hfree ps ns (lookup_In _ _ _ Ls)) as Hps.
  destruct ps as [|s0 ps']; [discriminate|].
  destruct pd as [|d0 pd']; [discriminate|].
  destruct (FS.lookup fs (FS.parent (d0 :: pd'))) as [np|]; [|discriminate].
  destruct (negb (FS.is_dir_node np)); [discriminate|].
  destruct (FS.path_eqb (s0 :: ps') (d0 :: pd')) eqn:Q.
  { apply path_eqb_eq in Q. rewrite Q in Ls.
    rewrite (free_lookup fs (d0 :: pd') Hfree) in Ls. discriminate. }
  destruct (FS.is_prefix (s0 :: ps') (d0 :: pd')); [discriminate|].
  destruct (negb (N.eqb (FS.n_dev ns) (FS.n_dev np))); [discriminate|].
  rewrite (free_lookup fs (d0 :: pd') Hfree).
  intros [= <-]. repeat split; try discriminate; eauto.
Qed.

Lemma rename_back (fs : FS.t) (orig temp : str) (ps pd : FS.path)
    (ns np : FS.node) :
  FS.resolve orig = Some ps -> FS.resolve temp = Some pd ->
  existsb (fun e => FS.is_prefix pd (fst e)) fs = false ->
  ps <> [] -> pd <> [] ->
  FS.lookup fs ps = Some ns -> FS.lookup fs (FS.parent ps) = Some np ->
  FS.is_dir_node np = true -> FS.n_dev ns = FS.n_dev np ->
  FS.rename (FS.move_subtree fs ps pd) temp orig = inr fs.
Proof.
  intros Rs Rd Hfree Hs Hd Ls Lp Dp Dev. unfold FS.rename. rewrite Rs, Rd.
  pose proof (free_entry fs pd Hfree ps ns (lookup_In _ _ _ Ls)) as Hps.
  rewrite (lookup_moved_target fs ps pd Hfree), Ls.
  destruct pd as [|d0 pd']; [contradiction|].
  destruct ps as [|s0 ps']; [contradiction|].
  assert (Lp' : FS.lookup (FS.move_subtree fs (s0 :: ps') (d0 :: pd'))
                  (FS.parent (s0 :: ps')) = Some np).
  { rewrite lookup_moved_other; [exact Lp| |].
    - apply is_prefix_removelast_self. discriminate.
    - destruct (FS.is_prefix (d0 :: pd') (FS.parent (s0 :: ps'))) eqn:E;
        [|reflexivity].
      apply is_prefix_removelast in E. congruence. }
  rewrite Lp', Dp. cbn [negb].
  destruct (FS.path_eqb (d0 :: pd') (s0 :: ps')) eqn:Q.
  { apply path_eqb_eq in Q. rewrite Q, is_prefix_refl in Hps. discriminate. }
  rewrite Hps, Dev, N.eqb_refl. cbn [negb].
  rewrite (lookup_moved_source fs _ _ Hps).
  rewrite (move_subtree_back fs _ _ Hfree). reflexivity.
Qed.

Lemma exists_lookup (fs : FS.t) (s : str) (p : FS.path) :
  FS.resolve s = Some p ->
  FS.exists_ fs s = match FS.lookup fs p with Some _ => true | None => false end.
Proof. intros H. unfold FS.exists_. rewrite H. reflexivity. Qed.

(** X23.  Moving an album into staging and restoring it gives back the
    file system as it was.  With no signal pending: if nothing exists at
    the staging path, the staging directory is there, the device check
    passes, the rename succeeds and no AppleDouble file is involved, then
    [move_file] returns [True] and leaves the album at the staging path
    and nowhere else; and if the album's directory was in a directory of
    its own device, [restore_file] returns [True] after it and the file
    system is exactly the one before the move. *)
Theorem move_then_restore_round_trip (orig_path temp_path : str)
    (original_plex_path : option str) (w : world)
    (ps pd : FS.path) (fs1 : FS.t) (ns np : FS.node) :
  w_signal w = None ->
  FS.resolve orig_path = Some ps -> FS.resolve temp_path = Some pd ->
  existsb (fun e => FS.is_prefix pd (fst e)) (w_fs w) = false ->
  FS.makedirs (w_fs w) (PosixPath.dirname temp_path) = inr (w_fs w) ->
  fst (are_on_same_filesystem orig_path temp_path
         (snd (os_makedirs (PosixPath.dirname temp_path)
                 (snd (os_path_exists orig_path w))))) = Ret true ->
  FS.rename (w_fs w) orig_path temp_path = inr fs1 ->
  FS.exists_ fs1 (appledouble (PosixPath.dirname orig_path)
                    (PosixPath.basename orig_path)) = false ->
  FS.exists_ (w_fs w) (appledouble (PosixPath.dirname temp_path)
                         (PosixPath.basename temp_path)) = false ->
  FS.lookup (w_fs w) ps = Some ns -> FS.lookup (w_fs w) (FS.parent ps) = Some np ->
  FS.is_dir_node np = true -> FS.n_dev ns = FS.n_dev np ->
  FS.makedirs fs1 (PosixPath.dirname orig_path) = inr fs1 ->
  exists w1 w2,
    move_file orig_path temp_path original_plex_path w = (Ret true, w1) /\
    w_fs w1 = fs1 /\
    FS.exists_ fs1 orig_path = false /\ FS.exists_ fs1 temp_path = true /\
    restore_file temp_path orig_path w1 = (Ret true, w2) /\
    w_fs w2 = w_fs w.
Proof.
  intros Hs Rs Rd Hfree Mk Same Ren Sc1 Sc2 Ls Lp Dp Dev Mk2.
  destruct (rename_into_free _ _ _ _ _ _ Rs Rd Hfree Ren)
    as (F1 & Nes & Ned & Hps & _).
  assert (Ex : FS.exists_ (w_fs w) orig_path = true).
  { rewrite (exists_lookup _ _ _ Rs), Ls. reflexivity. }
  assert (Ex1 : FS.exists_ fs1 orig_path = false).
  { rewrite (exists_lookup _ _ _ Rs), F1, (lookup_moved_source _ _ _ Hps).
    reflexivity. }
  assert (Ex2 : FS.exists_ fs1 temp_path = true).
  { rewrite (exists_lookup _ _ _ Rd), F1, (lookup_moved_target _ _ _ Hfree), Ls.
    reflexivity. }
  assert (Back : FS.rename fs1 temp_path orig_path = inr (w_fs w)).
  { rewrite F1. eapply rename_back; eauto. }
  (* the move *)
  set (wa := with_trace w (w_trace w ++ [EvExists orig_path])).
  assert (Sa : w_signal wa = None) by exact Hs.
  assert (Ea : os_path_exists orig_path w = (Ret true, wa)).
  { rewrite (run_exists w orig_path Hs), Ex. reflexivity. }
  set (wb := with_fs
               (with_trace wa
                  (w_trace wa ++ [EvMakedirs (PosixPath.dirname temp_path) true]))
               (w_fs w)).
  assert (Eb : os_makedirs (PosixPath.dirname temp_path) wa = (Ret tt, wb)).
  { unfold os_makedirs. rewrite (run_fs_update wa Sa).
    change (w_fs wa) with (w_fs w). rewrite Mk. reflexivity. }
  assert (Sb : w_signal wb = None) by exact Hs.
  rewrite Ea in Same. cbn [snd] in Same. rewrite Eb in Same. cbn [snd] in Same.
  destruct (are_on_same_filesystem orig_path temp_path wb) as [rs wc] eqn:Ec.
  cbn [fst] in Same. subst rs.
  destruct (are_on_same_filesystem_calm _ _ _ _ _ Sb Ec) as [Sc _].
  pose proof (are_on_same_filesystem_agree w_fs (fun _ _ => eq_refl)
                (fun _ _ => eq_refl) _ _ _ _ _ Ec) as Fc.
  unfold agree in Fc. change (w_fs wb) with (w_fs w) in Fc.
  set (wd := with_fs
               (with_trace wc (w_trace wc ++ [EvRename orig_path temp_path true]))
               fs1).
  assert (Ed : os_rename orig_path temp_path wc = (Ret tt, wd)).
  { unfold os_rename. rewrite (run_fs_update wc Sc), Fc, Ren. reflexivity. }
  assert (Sd : w_signal wd = None) by exact Sc.
  set (we := with_trace wd
               (w_trace wd ++
                [EvExists (appledouble (PosixPath.dirname orig_path)
                             (PosixPath.basename orig_path))])).
  assert (Ee : os_path_exists
                 (appledouble (PosixPath.dirname orig_path)
                    (PosixPath.basename orig_path)) wd = (Ret false, we)).
  { rewrite (run_exists wd _ Sd). change (w_fs wd) with fs1. rewrite Sc1.
    reflexivity. }
  assert (Mv : move_file orig_path temp_path original_plex_path w = (Ret true, we)).
  { unfold move_file, try_except.
    rewrite (bind_ret _ _ _ _ _ Ea). cbn [negb].
    rewrite (bind_ret _ _ _ _ _ Eb).
    rewrite (bind_ret _ _ _ _ _ Ec). cbn [negb].
    rewrite (bind_ret _ _ _ _ _ Ed). cbv zeta.
    rewrite (bind_ret _ _ _ _ _ Ee). reflexivity. }
  (* the restore *)
  assert (Se : w_signal we = None) by exact Sc.
  set (wf := with_fs
               (with_trace we
                  (w_trace we ++ [EvMakedirs (PosixPath.dirname orig_path) true]))
               fs1).
  assert (Ef : os_makedirs (PosixPath.dirname orig_path) we = (Ret tt, wf)).
  { unfold os_makedirs. rewrite (run_fs_update we Se).
    change (w_fs we) with fs1. rewrite Mk2. reflexivity. }
  assert (Sf : w_signal wf = None) by exact Sc.
  set (wg := with_fs
               (with_trace wf (w_trace wf ++ [EvRename temp_path orig_path true]))
               (w_fs w)).
  assert (Eg : os_rename temp_path orig_path wf = (Ret tt, wg)).
  { unfold os_rename. rewrite (run_fs_update wf Sf).
    change (w_fs wf) with fs1. rewrite Back. reflexivity. }
  assert (Sg : w_signal wg = None) by exact Sc.
  set (wh := with_trace wg
               (w_trace wg ++
                [EvExists (appledouble (PosixPath.dirname temp_path)
                             (PosixPath.basename temp_path))])).
  assert (Eh : os_path_exists
                 (appledouble (PosixPath.dirname temp_path)
                    (PosixPath.basename temp_path)) wg = (Ret false, wh)).
  { rewrite (run_exists wg _ Sg). change (w_fs wg) with (w_fs w). rewrite Sc2.
    reflexivity. }
  exists we, wh. split; [exact Mv|]. split; [reflexivity|].
  split; [exact Ex1|]. split; [exact Ex2|]. split; [|reflexivity].
  unfold restore_file, try_except.
  rewrite (bind_ret _ _ _ _ _ Ef).
  rewrite (bind_ret _ _ _ _ _ Eg). cbv zeta.
  rewrite (bind_ret _ _ _ _ _ Eh). reflexivity.
Qed.

(** *** At work *)

Lemma move_then_restore_round_trip_witness :
  let w := start leftover_fs server_gone None in
  exists w1 w2,
    move_file x1_local x1_staged (Some x1_catalog) w = (Ret true, w1) /\
    FS.exists_ (w_fs w1) x1_local = false /\
    restore_file x1_staged x1_local w1 = (Ret true, w2) /\
    w_fs w2 = leftover_fs.
Proof.
  cbv zeta.
  destruct (move_then_restore_round_trip x1_local x1_staged (Some x1_catalog)
              (start leftover_fs server_gone None)
              (map lit ["Users"; "u"; "Music"; "A"; "x1"]%string)
              (map lit ["Users"; "u"; "tmp.plexdance"; "0_A_x1"]%string)
              (FS.move_subtree leftover_fs
                 (map lit ["Users"; "u"; "Music"; "A"; "x1"]%string)
                 (map lit ["Users"; "u"; "tmp.plexdance"; "0_A_x1"]%string))
              {| FS.n_kind := FS.Dir; FS.n_dev := 1 |}
              {| FS.n_kind := FS.Dir; FS.n_dev := 1 |})
    as (w1 & w2 & H1 & H2 & H3 & _ & H5 & H6);
    try (vm_compute; reflexivity).
  exists w1, w2. rewrite H2. auto.
Defined.

(** ** Configurations that are refused *)

Lemma for_each_print {A : Type} (f : A -> msg) (l : list A) :
  forall w, for_each l (fun x => print (f x)) w
            = (Ret tt, with_out w (w_out w ++ map f l)).
Proof.
  induction l as [|x l IH]; intros w; cbn [for_each map].
  - unfold ret. rewrite app_nil_r. destruct w; reflexivity.
  - rewrite (bind_ret _ _ _ _ _ (run_print w (f x))). rewrite IH.
    cbn. rewrite <- app_assoc. reflexivity.
Qed.

Lemma validate_unmapped_refuses (file_paths : list str) (loc : str)
    (locs : list str) (w : world) :
  forallb (fun p => existsb (startswith p) (loc :: locs)) file_paths = false ->
  exists out,
    validate_paths_in_library file_paths (loc :: locs) None w
    = (SysExit 1, with_out w out).
Proof.
  intros F. unfold validate_paths_in_library.
  set (inside := fun p : str => existsb (startswith p) (loc :: locs)) in *.
  assert (E : forall w0,
             map_m
               (fun path =>
                  validation_path <-
                    (if mapping_truthy None then
                       match @None pathmap with
                       | Some {| local_root := Some l; plex_root := Some p |} =>
                           ret (replace1 path l p)
                       | _ => raise KeyError
                       end
                     else ret path) ;;
                  ret (path, existsb (startswith validation_path) (loc :: locs)))
               file_paths w0
             = (Ret (map (fun path => (path, inside path)) file_paths), w0)).
  { intros w0. rewrite <- map_m_pure. reflexivity. }
  unfold bind at 1. rewrite E.
  destruct (filter_tagged inside file_paths) as [-> ->].
  pose proof (filter_some _ _ F) as Hne.
  destruct (filter (fun x => negb (inside x)) file_paths) as [|x l] eqn:Ef;
    [contradiction|].
  eexists. reflexivity.
Qed.

Lemma get_plex_library_locations_answer (w w' : world) (r : outcome (list str)) :
  get_plex_library_locations w = (r, w') ->
  match r with
  | Ret locations =>
      connect_error (w_plex w (w_polls w)) = None /\
      locations = section_locations (w_plex w (w_polls w))
  | Raise _ => False
  | SysExit c => c = 1%Z
  | Interrupt => True
  end.
Proof.
  unfold get_plex_library_locations, try_except, connect, bind, tick, emit,
    get, modify, ret, raise, print, sys_exit.
  destruct (w_signal w) as [[|n]|]; cbn;
    try (destruct (connect_error (w_plex w (w_polls w))) eqn:Ec; cbn);
    intros [= <- <-]; auto.
Qed.

Section Refused.

Variable rt : runtime.
Variable a : args.

Lemma banner_run (album_ids_map : list (str * list str)) (plex_paths : list str)
    (w : world) :
  exists out,
    (match path_mapping a with
     | Some m =>
         print (MsgUsingMapping (mapping_dict m)) ;;
         for_each (firstn 3 plex_paths)
           (fun plex_path =>
              print (MsgMappingExample plex_path
                       (match dict_get album_ids_map plex_path with
                        | Some album_ids => album_ids
                        | None => []
                        end)
                       (apply_path_mapping plex_path (Some (mapping_dict m)))))
     | None => ret tt
     end) w = (Ret tt, with_out w out).
Proof.
  destruct (path_mapping a) as [m|].
  - rewrite (bind_ret _ _ _ _ _ (run_print w _)). rewrite for_each_print.
    eexists. reflexivity.
  - exists (w_out w). destruct w; reflexivity.
Qed.

Lemma main_validation_agree {T : Type} (F : world -> T) (plex_paths : list str) :
  (forall w s, F (with_signal w s) = F w) ->
  (forall w t, F (with_trace w t) = F w) ->
  (forall w o, F (with_out w o) = F w) ->
  (forall w n, F (with_polls w n) = F w) ->
  steps (agree F)
    (if negb (skip_validation a) then
       match plex_token a with
       | Some (_ :: _) =>
           print MsgValidating ;;
           library_locations <- get_plex_library_locations ;;
           valid <- validate_paths_in_library plex_paths library_locations None ;;
           ret (library_locations, valid)
       | _ => print MsgTokenRequired ;; sys_exit 1
       end
     else ret ([], plex_paths)).
Proof.
  intros F1 F2 F3 F4.
  assert (Ht : steps (agree F) tick).
  { intros w r w'. unfold tick, agree.
    destruct (w_signal w) as [[|n]|]; intros [= <- <-]; auto. }
  unfold get_plex_library_locations, connect, validate_paths_in_library.
  steps_split; intros w r w' [= <- <-]; unfold agree; cbn; auto.
Qed.

Lemma main_validation_refuses (plex_paths : list str) (w w' : world)
    (r : outcome (list str * list str)) :
  plex_paths <> [] ->
  negb (skip_validation a) &&
  match plex_token a with
  | Some (_ :: _) =>
      match connect_error (w_plex w (w_polls w)) with
      | Some _ => true
      | None =>
          match section_locations (w_plex w (w_polls w)) with
          | [] => false
          | locs => negb (forallb (fun p => existsb (startswith p) locs) plex_paths)
          end
      end
  | _ => true
  end = true ->
  (if negb (skip_validation a) then
     match plex_token a with
     | Some (_ :: _) =>
         print MsgValidating ;;
         library_locations <- get_plex_library_locations ;;
         valid <- validate_paths_in_library plex_paths library_locations None ;;
         ret (library_locations, valid)
     | _ => print MsgTokenRequired ;; sys_exit 1
     end
   else ret ([], plex_paths)) w = (r, w') ->
  r = SysExit 1 \/ r = Interrupt.
Proof.
  intros _ H E. apply andb_true_iff in H. destruct H as [Hv H].
  rewrite Hv in E.
  destruct (plex_token a) as [[|c tk]|].
  - injection E as <- _. left. reflexivity.
  - apply bind_inv in E. destruct E as (r0 & w0 & E0 & E).
    injection E0 as <- <-.
    apply bind_inv in E. destruct E as (r1 & w1 & E1 & E).
    apply get_plex_library_locations_answer in E1.
    change (w_plex (with_out w (w_out w ++ [MsgValidating]))
              (w_polls (with_out w (w_out w ++ [MsgValidating]))))
      with (w_plex w (w_polls w)) in E1.
    destruct r1 as [locations|e|c1|].
    + destruct E1 as [Ec ->]. rewrite Ec in H.
      destruct (section_locations (w_plex w (w_polls w))) as [|loc locs];
        [discriminate H|].
      apply negb_true_iff in H.
      destruct (validate_unmapped_refuses plex_paths loc locs w1 H) as [out Ev].
      rewrite (bind_exit _ _ _ _ _ Ev) in E. injection E as <- _.
      left. reflexivity.
    + contradiction.
    + destruct E as [-> _]. left. rewrite E1. reflexivity.
    + destruct E as [-> _]. right. reflexivity.
  - injection E as <- _. left. reflexivity.
Qed.

Lemma main_refuses (w w1 : world) (r : outcome unit) :
  rejects a (w_plex w (w_polls w)) = true ->
  main rt a w = (r, w1) ->
  (r = SysExit 1 \/ r = Interrupt) /\
  one_connection w w1 /\ w_fs w1 = w_fs w /\
  w_library_temp_dirs w1 = w_library_temp_dirs w /\
  w_atexit w1 = true.
Proof.
  unfold rejects, main. intros H E.
  rewrite (bind_ret _ _ _ _ _ (run_modify _ _)) in E.
  rewrite (bind_ret _ _ _ _ _ (run_modify _ _)) in E.
  destruct (lines a) as [|l0 ls] eqn:El.
  { injection E as <- <-. split; [left; reflexivity|].
    split; [exists []; split; [symmetry; apply app_nil_r|reflexivity]|].
    cbn. auto. }
  cbv zeta in E.
  rewrite (bind_ret _ _ _ _ _ (run_modify _ _)) in E.
  match type of E with
  | bind (get w_file_paths) _ ?w0 = _ =>
      set (wp := w0) in *;
      change (bind (get w_file_paths) ?k wp) with (k (w_file_paths wp) wp) in E
  end.
  cbv beta in E.
  destruct (banner_run
              (fold_left (fun d e => dict_set d (fst e) (snd e))
                 (map parse_line (l0 :: ls)) [])
              (w_file_paths wp) wp) as [out Eb].
  rewrite (bind_ret _ _ _ _ _ Eb) in E.
  set (wq := with_out wp out) in *.
  apply bind_inv in E. destruct E as (rv & wv & Ev & E).
  assert (Hq : w_plex wq (w_polls wq) = w_plex w (w_polls w)) by reflexivity.
  assert (Hr : rv = SysExit 1 \/ rv = Interrupt).
  { eapply (main_validation_refuses (w_file_paths wp) wq wv rv);
      [discriminate|rewrite Hq; exact H|exact Ev]. }
  pose proof (main_validation_connects a _ _ _ _ Ev) as Hc.
  pose proof (main_validation_agree w_fs _ (fun _ _ => eq_refl)
                (fun _ _ => eq_refl) (fun _ _ => eq_refl) (fun _ _ => eq_refl)
                _ _ _ Ev) as Hfs.
  pose proof (main_validation_agree w_library_temp_dirs _ (fun _ _ => eq_refl)
                (fun _ _ => eq_refl) (fun _ _ => eq_refl) (fun _ _ => eq_refl)
                _ _ _ Ev) as Hreg.
  pose proof (main_validation_agree w_atexit _ (fun _ _ => eq_refl)
                (fun _ _ => eq_refl) (fun _ _ => eq_refl) (fun _ _ => eq_refl)
                _ _ _ Ev) as Hat.
  unfold agree in Hfs, Hreg, Hat.
  assert (W : (r = SysExit 1 \/ r = Interrupt) /\ w1 = wv).
  { destruct Hr as [-> | ->]; destruct E as [-> ->]; auto. }
  destruct W as [Hr' ->].
  split; [exact Hr'|]. split; [exact Hc|]. auto.
Qed.

(** X24.  A configuration error is fatal before the library is looked
    at.  With no input line, or with validation on and no token, a service
    that does not give the library locations, or some path outside every
    location, the process exits with status 1; the file system is
    unchanged, and the one system call that may have been made is the
    connection that asks the service for the library locations.  The exit
    hook finds nothing to restore. *)
Theorem configuration_errors_are_fatal (w : world) :
  w_library_temp_dirs w = [] ->
  rejects a (w_plex w (w_polls w)) = true ->
  let r := run rt a w in
  fst r = 1%Z /\ w_fs (snd r) = w_fs w /\
  at_most_one_connection (new_events w (snd r)) = true /\
  w_library_temp_dirs (snd r) = [].
Proof.
  intros Hreg Hrej. cbv zeta. unfold run.
  destruct (main rt a w) as [r w1] eqn:Em.
  destruct (main_refuses w w1 r Hrej Em) as (Hr & (c & T & C) & F & R & A).
  rewrite Hreg in R.
  assert (N : new_events w w1 = c) by (apply new_events_app; exact T).
  destruct Hr as [-> | ->].
  - cbn [exit_status]. unfold run_atexit. rewrite A.
    rewrite (cleanup_nothing_staged w1 R). cbn [fst snd]. rewrite N. auto.
  - unfold deliver, signal_handler.
    rewrite (bind_ret _ _ _ _ _ (run_print w1 MsgSignal)).
    set (w2 := with_out w1 (w_out w1 ++ [MsgSignal])).
    assert (R2 : w_library_temp_dirs w2 = []) by exact R.
    rewrite (bind_ret _ _ _ _ _ (cleanup_nothing_staged w2 R2)).
    cbn. change (new_events w _) with (new_events w w1). rewrite N. auto.
Qed.

End Refused.

Lemma configuration_errors_are_fatal_witness :
  let w := Examples.start Examples.music_fs Examples.server_gone None in
  let r := run Examples.rt0 Examples.stray_args w in
  fst r = 1%Z /\ w_fs (snd r) = w_fs w /\
  at_most_one_connection (new_events w (snd r)) = true /\
  w_library_temp_dirs (snd r) = [].
Proof.
  apply (configuration_errors_are_fatal Examples.rt0 Examples.stray_args
           (Examples.start Examples.music_fs Examples.server_gone None));
    vm_compute; reflexivity.
Defined.

(** ** The verdict of the dry run *)

Lemma isdir_listdir (fs : FS.t) (p : str) :
  FS.isdir fs p = true -> exists l, FS.listdir fs p = inr l.
Proof.
  unfold FS.isdir, FS.listdir.
  destruct (FS.resolve p) as [q|]; [|discriminate].
  destruct (FS.lookup fs q) as [n|]; [|discriminate].
  intros ->. eexists. reflexivity.
Qed.

Lemma forallb_insert_sorted (f : str -> bool) (x : str) (l : list str) :
  forallb f (insert_sorted x l) = f x && forallb f l.
Proof.
  induction l as [|y l IH]; cbn [insert_sorted forallb]; [reflexivity|].
  destruct (str_leb x y); cbn [forallb]; [reflexivity|].
  rewrite IH. destruct (f x), (f y); reflexivity.
Qed.

Lemma forallb_sorted (f : str -> bool) (l : list str) :
  forallb f (sorted l) = forallb f l.
Proof.
  induction l as [|x l IH]; [reflexivity|].
  cbn [sorted fold_right forallb]. rewrite forallb_insert_sorted.
  f_equal. exact IH.
Qed.

Section Verdict.

Variable a : args.
Variable library_locations : list str.

Lemma dry_run_loop_run (paths : list str) :
  forall (n : nat) (w : world),
    w_signal w = None ->
    forallb (listable a library_locations (w_fs w)) paths = true ->
    exists m w',
      dry_run_loop a library_locations paths n w = (Ret m, w') /\
      w_fs w' = w_fs w /\ w_signal w' = None /\
      (forallb (ready a library_locations (w_fs w)) paths = true -> m = n) /\
      (forallb (ready a library_locations (w_fs w)) paths = false -> n < m).
Proof.
  induction paths as [|p rest IH]; intros n w Hs Hl;
    cbn [dry_run_loop forallb] in *.
  - exists n, w. repeat split; auto. discriminate.
  - apply andb_true_iff in Hl. destruct Hl as [Hp Hl].
    rewrite (bind_ret _ _ _ _ _ (run_print w _)).
    set (w1 := with_out w (w_out w ++ [MsgDryChecking (to_local a p)])).
    assert (S1 : w_signal w1 = None) by exact Hs.
    rewrite (bind_ret _ _ _ _ _ (run_exists w1 _ S1)).
    change (w_fs w1) with (w_fs w).
    set (w2 := with_trace w1 (w_trace w1 ++ [EvExists (to_local a p)])).
    unfold ready at 1 3.
    destruct (FS.exists_ (w_fs w) (to_local a p)) eqn:Ex; cbn [negb andb].
    + rewrite (bind_ret _ _ _ _ _ (run_print w2 _)).
      set (w3 := with_out w2 _).
      assert (S3 : w_signal w3 = None) by exact Hs.
      destruct (are_on_same_filesystem_run_existing (to_local a p)
                  (staging_dir a library_locations p) w3 S3 Ex)
        as (w4 & E4 & F4 & S4).
      change (w_fs w3) with (w_fs w) in E4, F4.
      change (PosixPath.join (staging_parent a library_locations p) (lit "tmp.plexdance"))
        with (staging_dir a library_locations p).
      rewrite (bind_ret _ _ _ _ _ E4).
      rewrite (bind_ret _ _ _ _ _ (run_print w4 _)).
      set (w5 := with_out w4 _).
      assert (S5 : w_signal w5 = None) by exact S4.
      assert (F5 : w_fs w5 = w_fs w) by exact F4.
      rewrite (bind_ret _ _ _ _ _ (run_exists w5 _ S5)).
      rewrite F5.
      set (w6 := with_trace w5 _).
      assert (S6 : w_signal w6 = None) by exact S4.
      assert (F6 : w_fs w6 = w_fs w) by exact F4.
      assert (L : exists w7,
                 (if FS.exists_ (w_fs w) (staging_dir a library_locations p)
                  then
                    listing <- os_listdir (staging_dir a library_locations p) ;;
                    print (MsgDryTempDirState
                             (Some (List.length (filter not_hidden listing))))
                  else print (MsgDryTempDirState None)) w6 = (Ret tt, w7) /\
                 w_fs w7 = w_fs w /\ w_signal w7 = None).
      { unfold listable in Hp.
        destruct (FS.exists_ (w_fs w) (staging_dir a library_locations p)).
        - cbn [negb orb] in Hp. destruct (isdir_listdir _ _ Hp) as [l El].
          pose proof (run_listdir w6 (staging_dir a library_locations p) S6) as R.
          rewrite F6, El in R. rewrite (bind_ret _ _ _ _ _ R).
          eexists. split; [reflexivity|]. auto.
        - eexists. split; [reflexivity|]. auto. }
      destruct L as (w7 & E7 & F7 & S7).
      rewrite (bind_ret _ _ _ _ _ E7).
      rewrite <- F7 in Hl.
      destruct (IH (if same_device (w_fs w) (to_local a p)
                         (staging_dir a library_locations p)
                    then n else S n) w7 S7 Hl)
        as (m & w' & E & F & S' & Hg & Hb).
      rewrite F7 in *.
      exists m, w'. split; [exact E|]. split; [congruence|]. split; [exact S'|].
      destruct (same_device (w_fs w) (to_local a p)
                  (staging_dir a library_locations p)); cbn [andb].
      * split; assumption.
      * split; [discriminate|]. intros _.
        destruct (forallb (ready a library_locations (w_fs w)) rest);
          [rewrite (Hg eq_refl); lia | specialize (Hb eq_refl); lia].
    + rewrite (bind_ret _ _ _ _ _ (run_print w2 _)).
      set (w3 := with_out w2 _).
      assert (S3 : w_signal w3 = None) by exact Hs.
      destruct (IH (S n) w3 S3 Hl) as (m & w' & E & F & S' & Hg & Hb).
      change (w_fs w3) with (w_fs w) in *.
      exists m, w'. split; [exact E|]. split; [exact F|]. split; [exact S'|].
      split; [discriminate|]. intros _.
      destruct (forallb (ready a library_locations (w_fs w)) rest);
        [rewrite (Hg eq_refl); lia | specialize (Hb eq_refl); lia].
Qed.

(** X25.  The verdict of the dry run.  When no signal arrives and every
    staging directory that exists is a directory, the dry run returns
    normally if every listed path exists locally on the same device as the
    nearest existing ancestor of its staging directory, and exits with
    status 1 as soon as one path is missing or on another device; it
    changes no file. *)
Theorem dry_run_verdict (plex_paths : list str) (w : world) :
  w_signal w = None ->
  forallb (listable a library_locations (w_fs w)) plex_paths = true ->
  let r := dry_run a library_locations plex_paths w in
  fst r = (if forallb (ready a library_locations (w_fs w)) plex_paths
           then Ret tt else SysExit 1) /\
  w_fs (snd r) = w_fs w.
Proof.
  intros Hs Hl. cbv zeta. unfold dry_run.
  rewrite (bind_ret _ _ _ _ _ (run_print w _)).
  set (w1 := with_out w _).
  assert (S1 : w_signal w1 = None) by exact Hs.
  rewrite <- (forallb_sorted _ plex_paths) in Hl.
  destruct (dry_run_loop_run (sorted plex_paths) 0 w1 S1 Hl)
    as (m & w' & E & F & S' & Hg & Hb).
  change (w_fs w1) with (w_fs w) in *.
  rewrite (bind_ret _ _ _ _ _ E).
  rewrite (bind_ret _ _ _ _ _ (run_print w' _)).
  rewrite forallb_sorted in Hg, Hb.
  destruct (forallb (ready a library_locations (w_fs w)) plex_paths).
  - rewrite (Hg eq_refl). cbn. auto.
  - specialize (Hb eq_refl). destruct m as [|m]; [lia|]. cbn. auto.
Qed.

End Verdict.

Lemma dry_run_verdict_witness :
  let w := Examples.start Examples.leftover_fs Examples.server_gone None in
  let paths := [lit "/media/Music/A/x1"; lit "/media/Music/B/gone"] in
  let r := dry_run Examples.dry_args [lit "/media/Music"] paths w in
  fst r = SysExit 1 /\ w_fs (snd r) = w_fs w.
Proof.
  exact (dry_run_verdict Examples.dry_args [lit "/media/Music"]
           [lit "/media/Music/A/x1"; lit "/media/Music/B/gone"]
           (Examples.start Examples.leftover_fs Examples.server_gone None)
           eq_refl eq_refl).
Defined.
